(** * gi/function.c: marshaling of calls between JavaScript and native code

    A shallow embedding of [gi/function.c] of gjs: the classifier
    [init_cached_function_data], the invocation path
    [gjs_invoke_c_function] and the callback trampolines
    ([gjs_callback_closure], [gjs_callback_trampoline_ref/unref]).

    Integers of the source are [Z]; the [guint8] counters wrap modulo 256
    ([wrap8]).  Arrays of the call frame are lists updated by index.  Native
    memory (trampolines, slice blocks) is a finite map from addresses.  The
    collaborators that live outside the file (girepository, the per-type
    conversions of arg.c, SpiderMonkey, the native callee) are the fields of
    the class [Collaborators].  A JavaScript function called from a
    trampoline runs with the state of the engine and may call exposed
    functions in its turn: [Script] is such a function, and [reentrant] the
    collaborators that run scripts, down to a given depth of nesting. *)

From Stdlib Require Import ZArith Bool Lia.
From stdpp Require Import base option list gmap strings.

Local Open Scope Z_scope.
Set Warnings "-register-all".

(** ** girepository metadata *)

Inductive GIDirection := GI_DIRECTION_IN | GI_DIRECTION_OUT | GI_DIRECTION_INOUT.

Inductive GIScopeType :=
  | GI_SCOPE_TYPE_INVALID
  | GI_SCOPE_TYPE_CALL
  | GI_SCOPE_TYPE_ASYNC
  | GI_SCOPE_TYPE_NOTIFIED.

Inductive GITransfer :=
  | GI_TRANSFER_NOTHING
  | GI_TRANSFER_CONTAINER
  | GI_TRANSFER_EVERYTHING.

Inductive GITypeTag :=
  | GI_TYPE_TAG_VOID | GI_TYPE_TAG_BOOLEAN
  | GI_TYPE_TAG_INT8 | GI_TYPE_TAG_UINT8
  | GI_TYPE_TAG_INT16 | GI_TYPE_TAG_UINT16
  | GI_TYPE_TAG_INT32 | GI_TYPE_TAG_UINT32
  | GI_TYPE_TAG_INT64 | GI_TYPE_TAG_UINT64
  | GI_TYPE_TAG_FLOAT | GI_TYPE_TAG_DOUBLE
  | GI_TYPE_TAG_GTYPE | GI_TYPE_TAG_UTF8 | GI_TYPE_TAG_FILENAME
  | GI_TYPE_TAG_ARRAY | GI_TYPE_TAG_INTERFACE
  | GI_TYPE_TAG_GLIST | GI_TYPE_TAG_GSLIST | GI_TYPE_TAG_GHASH
  | GI_TYPE_TAG_ERROR.

Inductive GIInfoType :=
  | GI_INFO_TYPE_INVALID | GI_INFO_TYPE_FUNCTION | GI_INFO_TYPE_CALLBACK
  | GI_INFO_TYPE_STRUCT | GI_INFO_TYPE_BOXED | GI_INFO_TYPE_ENUM
  | GI_INFO_TYPE_FLAGS | GI_INFO_TYPE_OBJECT | GI_INFO_TYPE_INTERFACE
  | GI_INFO_TYPE_UNION.

Inductive GIArrayType :=
  | GI_ARRAY_TYPE_C | GI_ARRAY_TYPE_ARRAY
  | GI_ARRAY_TYPE_PTR_ARRAY | GI_ARRAY_TYPE_BYTE_ARRAY.

Definition GITypeTag_is_void (t : GITypeTag) : bool :=
  match t with GI_TYPE_TAG_VOID => true | _ => false end.

Definition GIDirection_eqb (a b : GIDirection) : bool :=
  match a, b with
  | GI_DIRECTION_IN, GI_DIRECTION_IN
  | GI_DIRECTION_OUT, GI_DIRECTION_OUT
  | GI_DIRECTION_INOUT, GI_DIRECTION_INOUT => true
  | _, _ => false
  end.

(** [direction == GI_DIRECTION_IN || direction == GI_DIRECTION_INOUT] *)
Definition is_in_or_inout (d : GIDirection) : bool :=
  match d with GI_DIRECTION_OUT => false | _ => true end.

(** [direction == GI_DIRECTION_OUT || direction == GI_DIRECTION_INOUT] *)
Definition is_out_or_inout (d : GIDirection) : bool :=
  match d with GI_DIRECTION_IN => false | _ => true end.

(** A [GIBaseInfo] as far as this file looks at it: its info type, its name
    and namespace, and the size girepository reports for a struct or a
    union. *)
Record GIBaseInfo := {
  base_info_type : GIInfoType;
  base_info_name : string;
  base_info_namespace : string;
  base_info_size : Z
}.

(** A [GITypeInfo].  [type_info_array_length] is what
    [g_type_info_get_array_length] returns: the index of the length
    parameter, or [-1]. *)
Record GITypeInfo := {
  type_info_tag : GITypeTag;
  type_info_interface : GIBaseInfo;
  type_info_array_type : GIArrayType;
  type_info_array_length : Z
}.

Record GIArgInfo := {
  arg_info_name : string;
  arg_info_direction : GIDirection;
  arg_info_type : GITypeInfo;
  arg_info_caller_allocates : bool;
  arg_info_may_be_null : bool;
  arg_info_scope : GIScopeType;
  arg_info_destroy : Z;      (* g_arg_info_get_destroy, -1 when absent *)
  arg_info_closure : Z;      (* g_arg_info_get_closure, -1 when absent *)
  arg_info_ownership_transfer : GITransfer
}.

(** The signature of a callback type, as [gjs_callback_closure] reads it
    from [trampoline->info]. *)
Record GICallableInfo := {
  callable_info_args : list GIArgInfo;
  callable_info_return_type : GITypeInfo
}.

Record GIFunctionInfo := {
  function_info_name : string;
  function_info_namespace : string;
  function_info_args : list GIArgInfo;
  function_info_return_type : GITypeInfo;
  function_info_caller_owns : GITransfer;
  function_info_is_method : bool;  (* flags & GI_FUNCTION_IS_METHOD *)
  function_info_throws : bool;     (* flags & GI_FUNCTION_THROWS *)
  function_info_container : GIBaseInfo;
  function_info_symbol : nat       (* the native address *)
}.

Definition g_callable_info_get_n_args (info : GIFunctionInfo) : Z :=
  Z.of_nat (length (function_info_args info)).

(** [g_callable_info_load_arg]: [None] past the end of the argument list,
    where the C call is undefined. *)
Definition g_callable_info_load_arg (info : GIFunctionInfo) (n : Z)
  : option GIArgInfo :=
  if n <? 0 then None else function_info_args info !! Z.to_nat n.

(** ** The cached descriptor *)

Inductive ParamType :=
  | PARAM_NORMAL
  | PARAM_SKIPPED
  | PARAM_ARRAY
  | PARAM_CALLBACK.

Definition ParamType_eqb (a b : ParamType) : bool :=
  match a, b with
  | PARAM_NORMAL, PARAM_NORMAL
  | PARAM_SKIPPED, PARAM_SKIPPED
  | PARAM_ARRAY, PARAM_ARRAY
  | PARAM_CALLBACK, PARAM_CALLBACK => true
  | _, _ => false
  end.

(** [GIFunctionInvoker]: the prepared cif; only [cif.nargs] is read here. *)
Record GIFunctionInvoker := {
  cif_nargs : Z;
  native_address : nat
}.

Record Function := {
  info : option GIFunctionInfo;
  param_types : list ParamType;
  expected_js_argc : Z;   (* guint8 *)
  js_out_argc : Z;        (* guint8 *)
  invoker : GIFunctionInvoker
}.

(** A [Function] fresh from [g_slice_new0] or [memset (.., 0, ..)]. *)
Definition Function_zero : Function :=
  {| info := None; param_types := []; expected_js_argc := 0;
     js_out_argc := 0; invoker := {| cif_nargs := 0; native_address := 0%nat |} |}.

(** [#define GJS_ARG_INDEX_INVALID G_MAXUINT8], and the conversion of an
    [int] to [guint8]. *)
Definition G_MAXUINT8 : Z := 255.
Definition wrap8 (z : Z) : Z := z mod 256.

Definition set_param_types (function : Function) (l : list ParamType) : Function :=
  {| info := info function; param_types := l;
     expected_js_argc := expected_js_argc function;
     js_out_argc := js_out_argc function; invoker := invoker function |}.

Definition set_expected_js_argc (function : Function) (n : Z) : Function :=
  {| info := info function; param_types := param_types function;
     expected_js_argc := n;
     js_out_argc := js_out_argc function; invoker := invoker function |}.

Definition set_js_out_argc (function : Function) (n : Z) : Function :=
  {| info := info function; param_types := param_types function;
     expected_js_argc := expected_js_argc function;
     js_out_argc := n; invoker := invoker function |}.

Definition set_invoker (function : Function) (i : GIFunctionInvoker) : Function :=
  {| info := info function; param_types := param_types function;
     expected_js_argc := expected_js_argc function;
     js_out_argc := js_out_argc function; invoker := i |}.

Definition set_info (function : Function) (i : GIFunctionInfo) : Function :=
  {| info := Some i; param_types := param_types function;
     expected_js_argc := expected_js_argc function;
     js_out_argc := js_out_argc function; invoker := invoker function |}.

(** [function->param_types[i]]; the classifier only reads below [n_args],
    the length of the array. *)
Definition param_type_at (function : Function) (i : Z) : ParamType :=
  default PARAM_NORMAL (param_types function !! Z.to_nat i).

(** [function->param_types[i] = t] *)
Definition mark_param (function : Function) (i : Z) (t : ParamType) : Function :=
  set_param_types function (<[Z.to_nat i := t]> (param_types function)).

(** What [gjs_throw] is called with in this file. *)
Inductive GjsError :=
  | ERR_PREP_INVOKER
  | ERR_DESTROY_WITHOUT_USER_DATA
  | ERR_ARRAY_LENGTH_DIRECTION
  | ERR_TOO_FEW_ARGUMENTS (expected got : Z)
  | ERR_EXPECTED_TYPE
  | ERR_UNSUPPORTED_CALLER_ALLOCATES (tag : GITypeTag)
  | ERR_INVALID_CALLBACK (arg_name : string)
  | ERR_INVOKING (message : string).

(** ** Values on both sides *)

(** A [jsval], as far as the file distinguishes them. *)
Inductive jsval :=
  | JSVAL_NULL
  | JSVAL_VOID
  | JSVAL_INT (i : Z)
  | JSVAL_STRING (s : string)
  | JSVAL_FUNCTION (id : nat)
  | JSVAL_OBJECT (id : nat)
  | JSVAL_ARRAY (elements : list jsval).

Definition JSVAL_IS_NULL (v : jsval) : bool :=
  match v with JSVAL_NULL => true | _ => false end.

(** [JS_TypeOfValue (context, v) == JSTYPE_FUNCTION] *)
Definition is_JSTYPE_FUNCTION (v : jsval) : bool :=
  match v with JSVAL_FUNCTION _ => true | _ => false end.

(** [INT_TO_JSVAL] takes a 32-bit [jsint]; a [gsize] argument is converted
    to it first. *)
Definition wrap_int32 (z : Z) : Z := (z + 2 ^ 31) mod 2 ^ 32 - 2 ^ 31.
Definition INT_TO_JSVAL (z : Z) : jsval := JSVAL_INT (wrap_int32 z).

(** A [GArgument]: the union read as an integer or as a pointer.  The
    pointers the file itself creates are told apart; [v_native] is any
    other native pointer (buffers, objects, strings) and [v_uninit] the
    content of a [g_newa] slot nobody wrote. *)
Inductive GArgument :=
  | v_int (z : Z)
  | v_null                    (* v_pointer == NULL *)
  | v_out_slot (i : Z)        (* &out_arg_cvalues[i] *)
  | v_error_slot              (* &local_error *)
  | v_block (a : nat)         (* a block of g_slice_alloc0 *)
  | v_closure (t : nat)       (* trampoline->closure *)
  | v_trampoline (t : nat)    (* the trampoline itself, as user_data *)
  | v_destroy_notify          (* gjs_destroy_notify_callback *)
  | v_native (p : nat)
  | v_uninit.

Definition GArgument_is_null (a : GArgument) : bool :=
  match a with v_null => true | _ => false end.

(** ** Native memory and the log of effects *)

Record GjsCallbackTrampoline := {
  ref_count : Z;
  trampoline_info : GICallableInfo;
  js_function : jsval;
  scope : GIScopeType
}.

(** The effects of the file that leave it: exceptions, calls out, memory.
    [trace] lists them latest first.  What a JavaScript function called by a
    trampoline does while it runs is kept apart from what the caller of the
    trampoline does, as the one event [EvJavaScript]. *)
Inductive Event :=
  | EvThrow (e : GjsError)                    (* gjs_throw *)
  | EvLogException                            (* gjs_log_exception *)
  | EvFfiCall (address : nat) (args : list GArgument) (error : option string)
  | EvClosureCall (t : nat) (scope : GIScopeType)
                                              (* gjs_callback_closure entered *)
  | EvSliceAlloc (block : nat) (size : Z)     (* g_slice_alloc0 *)
  | EvSliceFree (block : nat)                 (* g_slice_free1 *)
  | EvDestroyNotify (data : nat)              (* gjs_destroy_notify_callback entered *)
  | EvTrampolineNew (t : nat) (scope : GIScopeType)
                                              (* JS_AddValueRoot, prepare_closure *)
  | EvTrampolineFree (t : nat)                (* JS_RemoveValueRoot, free_closure *)
  | EvConvertReturn                           (* return value to jsval *)
  | EvConvertOut (c_arg_pos : Z)              (* out_arg_cvalues[c_arg_pos] to jsval *)
  | EvReleaseReturn                           (* release of the return value *)
  | EvReleaseOut (c_arg_pos : Z)              (* release of an out argument *)
  | EvReleaseIn (c_arg_pos : Z) (ok : bool)   (* release of an in argument,
                                                 and what it answered *)
  | EvErrorFree                               (* g_error_free (local_error) *)
  | EvJsCallsNative (address : nat)           (* JavaScript calls an exposed
                                                 function *)
  | EvJavaScript (nested : list Event).       (* JS_CallFunctionValue is back;
                                                 the log of the function *)

Record World := {
  trampolines : gmap nat GjsCallbackTrampoline;  (* live trampolines *)
  completed_trampolines : list nat;              (* the static GSList *)
  slices : gmap nat Z;                           (* live slice blocks, with size *)
  next_address : nat;                            (* allocator *)
  trace : list Event
}.

Definition World_empty : World :=
  {| trampolines := ∅; completed_trampolines := []; slices := ∅;
     next_address := 1%nat; trace := [] |}.

Definition set_trampolines (w : World) (m : gmap nat GjsCallbackTrampoline) : World :=
  {| trampolines := m; completed_trampolines := completed_trampolines w;
     slices := slices w; next_address := next_address w; trace := trace w |}.

Definition set_completed_trampolines (w : World) (l : list nat) : World :=
  {| trampolines := trampolines w; completed_trampolines := l;
     slices := slices w; next_address := next_address w; trace := trace w |}.

Definition set_slices (w : World) (m : gmap nat Z) : World :=
  {| trampolines := trampolines w; completed_trampolines := completed_trampolines w;
     slices := m; next_address := next_address w; trace := trace w |}.

Definition bump_address (w : World) : World :=
  {| trampolines := trampolines w; completed_trampolines := completed_trampolines w;
     slices := slices w; next_address := S (next_address w); trace := trace w |}.

Definition log (e : Event) (w : World) : World :=
  {| trampolines := trampolines w; completed_trampolines := completed_trampolines w;
     slices := slices w; next_address := next_address w; trace := e :: trace w |}.

Definition set_trace (w : World) (l : list Event) : World :=
  {| trampolines := trampolines w; completed_trampolines := completed_trampolines w;
     slices := slices w; next_address := next_address w; trace := l |}.

Definition gjs_throw (e : GjsError) (w : World) : World := log (EvThrow e) w.

(** What the native side does when it runs: the closures and destroy
    notifiers it calls, what it returns, what it stores through the
    pointers to out slots, and what it stores through [GError **]. *)
Inductive NativeAction :=
  | NativeCallsClosure (closure : nat) (args : list GArgument)
  | NativeCallsDestroyNotify (data : nat).

Record NativeBehaviour := {
  native_actions : list NativeAction;
  native_return : GArgument;
  native_writes : list (Z * GArgument);
  native_error : option string
}.

(** ** Collaborators outside the file

    The conversions return [None] (or [false]) where the C function returns
    [JS_FALSE].  [JS_CallFunctionValue] runs a JavaScript function in a
    state of the engine: it answers the value the function returns ([None]
    where it throws) and the state it leaves, or nothing at all where the
    process stops while the function runs. *)
Class Collaborators := {
  g_function_info_prep_invoker : GIFunctionInfo -> option GIFunctionInvoker;
  (* (GICallableInfo* ) g_type_info_get_interface (&ainfo) *)
  g_type_info_get_callable : GITypeInfo -> GICallableInfo;
  (* arg.c, JavaScript to native *)
  gjs_value_to_arg : jsval -> GIArgInfo -> option GArgument;
  gjs_value_to_explicit_array : jsval -> GIArgInfo -> option (GArgument * Z);
  gjs_value_to_g_argument : jsval -> GITypeInfo -> option GArgument;
  (* arg.c, native to JavaScript *)
  gjs_value_from_g_argument : GITypeInfo -> GArgument -> option jsval;
  gjs_value_from_explicit_array : GITypeInfo -> GArgument -> Z -> option jsval;
  (* arg.c, release *)
  gjs_g_argument_release : GITransfer -> GITypeInfo -> GArgument -> bool;
  gjs_g_argument_release_in_arg : GITransfer -> GITypeInfo -> GArgument -> bool;
  gjs_g_argument_release_in_array :
    GITransfer -> GITypeInfo -> Z -> GArgument -> bool;
  gjs_g_argument_release_out_array :
    GITransfer -> GITypeInfo -> Z -> GArgument -> bool;
  gjs_g_argument_init_default : GITypeInfo -> GArgument;
  (* the receiver of a method *)
  gjs_c_struct_from_boxed : nat -> GArgument;
  gjs_c_union_from_union : nat -> GArgument;
  gjs_g_object_from_object : nat -> GArgument;
  g_type_is_a_instance : GArgument -> GIBaseInfo -> bool;
  (* SpiderMonkey *)
  JS_CallFunctionValue :
    jsval -> list jsval -> World -> option (option jsval * World);
  JS_NewArrayObject : list jsval -> option jsval;
  JSVAL_TO_INT : jsval -> Z;
  (* the integer member of a union that holds a pointer *)
  GArgument_bits : GArgument -> Z;
  (* the callee behind ffi_call *)
  native_call : nat -> list GArgument -> list GArgument -> NativeBehaviour
}.

(** ** The classifier: [init_cached_function_data] *)

Inductive init_result :=
  | InitOk (function : Function)                    (* returned JS_TRUE *)
  | InitFail (e : GjsError) (function : Function).  (* threw, returned FALSE *)

(** [guint8 n_args = g_callable_info_get_n_args (info)] *)
Definition init_n_args (info : GIFunctionInfo) : Z :=
  wrap8 (g_callable_info_get_n_args info).

(** The callback branch: lines 1145 to 1169. *)
Definition classify_callback (n_args i : Z) (arg_info : GIArgInfo)
    (interface_info : GIBaseInfo) (function : Function) : init_result :=
  if String.eqb (base_info_name interface_info) "DestroyNotify" &&
     String.eqb (base_info_namespace interface_info) "GLib"
  then
    (* Skip GDestroyNotify if they appear before the respective callback *)
    InitOk (mark_param function i PARAM_SKIPPED)
  else
    let function := mark_param function i PARAM_CALLBACK in
    let function :=
      set_expected_js_argc function (wrap8 (expected_js_argc function + 1)) in
    (* guint8 destroy, closure *)
    let destroy := wrap8 (arg_info_destroy arg_info) in
    let closure := wrap8 (arg_info_closure arg_info) in
    let function :=
      if (0 <=? destroy) && (destroy <? n_args)
      then mark_param function destroy PARAM_SKIPPED else function in
    let function :=
      if (0 <=? closure) && (closure <? n_args)
      then mark_param function closure PARAM_SKIPPED else function in
    if (0 <=? destroy) && (closure <? 0)
    then InitFail ERR_DESTROY_WITHOUT_USER_DATA function
    else InitOk function.

(** The array branch: lines 1172 to 1198. *)
Definition classify_array (info : GIFunctionInfo) (n_args i : Z)
    (direction : GIDirection) (type_info : GITypeInfo) (function : Function)
  : init_result :=
  match type_info_array_type type_info with
  | GI_ARRAY_TYPE_C =>
      let array_length_pos := wrap8 (type_info_array_length type_info) in
      if (0 <=? array_length_pos) && (array_length_pos <? n_args) then
        match g_callable_info_load_arg info array_length_pos with
        | None => InitOk function   (* not reached: array_length_pos < n_args *)
        | Some length_arg_info =>
            if negb (GIDirection_eqb (arg_info_direction length_arg_info) direction)
            then InitFail ERR_ARRAY_LENGTH_DIRECTION function
            else
              let function := mark_param function array_length_pos PARAM_SKIPPED in
              let function := mark_param function i PARAM_ARRAY in
              if array_length_pos <? i then
                (* we already collected array_length_pos, remove it *)
                let function :=
                  set_expected_js_argc function
                    (wrap8 (expected_js_argc function - 1)) in
                if is_out_or_inout direction
                then InitOk (set_js_out_argc function
                               (wrap8 (js_out_argc function - 1)))
                else InitOk function
              else InitOk function
        end
      else InitOk function
  | _ => InitOk function
  end.

(** Lines 1200 to 1206. *)
Definition count_param (i : Z) (direction : GIDirection) (function : Function)
  : Function :=
  match param_type_at function i with
  | PARAM_NORMAL | PARAM_ARRAY =>
      let function :=
        if is_in_or_inout direction
        then set_expected_js_argc function (wrap8 (expected_js_argc function + 1))
        else function in
      if is_out_or_inout direction
      then set_js_out_argc function (wrap8 (js_out_argc function + 1))
      else function
  | _ => function
  end.

(** One turn of the loop over the arguments. *)
Definition classify_param (info : GIFunctionInfo) (n_args i : Z)
    (function : Function) : init_result :=
  match param_type_at function i with
  | PARAM_SKIPPED => InitOk function   (* continue *)
  | _ =>
      match g_callable_info_load_arg info i with
      | None => InitOk function        (* not reached: i < n_args *)
      | Some arg_info =>
          let type_info := arg_info_type arg_info in
          let direction := arg_info_direction arg_info in
          let marked :=
            match type_info_tag type_info with
            | GI_TYPE_TAG_INTERFACE =>
                let interface_info := type_info_interface type_info in
                match base_info_type interface_info with
                | GI_INFO_TYPE_CALLBACK =>
                    classify_callback n_args i arg_info interface_info function
                | _ => InitOk function
                end
            | GI_TYPE_TAG_ARRAY =>
                classify_array info n_args i direction type_info function
            | _ => InitOk function
            end in
          match marked with
          | InitOk function => InitOk (count_param i direction function)
          | InitFail e function => InitFail e function
          end
      end
  end.

(** [for (i = 0; i < n_args; i++)], with [todo] turns left. *)
Fixpoint classify_loop (info : GIFunctionInfo) (n_args : Z) (todo : nat)
    (i : Z) (function : Function) : init_result :=
  match todo with
  | O => InitOk function
  | S todo =>
      match classify_param info n_args i function with
      | InitOk function => classify_loop info n_args todo (i + 1) function
      | InitFail e function => InitFail e function
      end
  end.

Section Classifier.
Context `{Collaborators}.

Definition init_cached_function_data (function : Function)
    (info : GIFunctionInfo) : init_result :=
  match g_function_info_prep_invoker info with
  | None => InitFail ERR_PREP_INVOKER function
  | Some inv =>
      let function := set_invoker function inv in
      let return_type := function_info_return_type info in
      let function :=
        if negb (GITypeTag_is_void (type_info_tag return_type))
        then set_js_out_argc function (wrap8 (js_out_argc function + 1))
        else function in
      let n_args := init_n_args info in
      let function :=
        set_param_types function (replicate (Z.to_nat n_args) PARAM_NORMAL) in
      let array_length_pos := wrap8 (type_info_array_length return_type) in
      let function :=
        if (0 <=? array_length_pos) && (array_length_pos <? n_args)
        then mark_param function array_length_pos PARAM_SKIPPED
        else function in
      match classify_loop info n_args (Z.to_nat n_args) 0 function with
      | InitOk function => InitOk (set_info function info)
      | InitFail e function => InitFail e function
      end
  end.
End Classifier.

(** ** Trampolines *)

(** In the functions below [None] is the process stopping on a failed
    [g_assert], or a read or write the C standard leaves undefined (a freed
    trampoline, an index past the end of a [g_newa] array, [js_argv] past
    [js_argc]). *)
Definition g_assert (b : bool) : option unit := if b then Some () else None.

Definition set_ref_count (trampoline : GjsCallbackTrampoline) (n : Z)
  : GjsCallbackTrampoline :=
  {| ref_count := n; trampoline_info := trampoline_info trampoline;
     js_function := js_function trampoline; scope := scope trampoline |}.

Definition gjs_callback_trampoline_ref (t : nat) (w : World) : option World :=
  trampoline ← trampolines w !! t;
  Some (set_trampolines w
          (<[t := set_ref_count trampoline (ref_count trampoline + 1)]>
             (trampolines w))).

Definition gjs_callback_trampoline_unref (t : nat) (w : World) : option World :=
  trampoline ← trampolines w !! t;
  let n := ref_count trampoline - 1 in
  if n =? 0
  then Some (log (EvTrampolineFree t)
               (set_trampolines w (delete t (trampolines w))))
  else Some (set_trampolines w
               (<[t := set_ref_count trampoline n]> (trampolines w))).

Definition gjs_destroy_notify_callback (data : nat) (w : World) : option World :=
  gjs_callback_trampoline_unref data (log (EvDestroyNotify data) w).

Definition GIScopeType_is_call (s : GIScopeType) : bool :=
  match s with GI_SCOPE_TYPE_CALL => true | _ => false end.

Definition GIScopeType_is_async (s : GIScopeType) : bool :=
  match s with GI_SCOPE_TYPE_ASYNC => true | _ => false end.

(** [gjs_callback_trampoline_new]; the result is the address of the new
    trampoline, or [None] for the C [NULL]. *)
Definition gjs_callback_trampoline_new (function : jsval)
    (callable_info : GICallableInfo) (scope : GIScopeType) (w : World)
  : option (option nat * World) :=
  if JSVAL_IS_NULL function then Some (None, w)
  else
    _ ← g_assert (is_JSTYPE_FUNCTION function);
    let t := next_address w in
    let trampoline :=
      {| ref_count := 1; trampoline_info := callable_info;
         js_function := function; scope := scope |} in
    Some (Some t,
          log (EvTrampolineNew t scope)
            (bump_address (set_trampolines w (<[t := trampoline]> (trampolines w))))).

Section Trampoline.
Context `{Collaborators}.

(** The loop of [gjs_callback_closure] over the arguments of the callback:
    [Some None] is [goto out]. *)
Fixpoint closure_args_loop (arg_infos : list GIArgInfo) (i : nat)
    (args : list GArgument) (jsargs : list jsval)
  : option (option (list jsval)) :=
  match arg_infos with
  | [] => Some (Some jsargs)
  | arg_info :: arg_infos =>
      let type_info := arg_info_type arg_info in
      (* Skip void * arguments *)
      if GITypeTag_is_void (type_info_tag type_info)
      then closure_args_loop arg_infos (S i) args jsargs
      else
        arg ← args !! i;
        match gjs_value_from_g_argument type_info arg with
        | None => Some None
        | Some v => closure_args_loop arg_infos (S i) args (jsargs ++ [v])
        end
  end.

(** Lines 200 to 205: the function is called.  It runs with a log of its
    own, which the caller keeps as one event. *)
Definition call_js_function (function : jsval) (jsargs : list jsval)
    (w : World) : option (option jsval * World) :=
  '(rval, w_js) ← JS_CallFunctionValue function jsargs (set_trace w []);
  Some (rval, set_trace w_js (EvJavaScript (trace w_js) :: trace w)).

(** [gjs_callback_closure (cif, result, args, data)]: the value left in
    [*result], and the world after.  After the call of the function the
    code reads [trampoline->info] (lines 209 and 229) and
    [trampoline->scope] (line 233) again: the trampoline has to be there
    still. *)
Definition gjs_callback_closure (data : nat) (args : list GArgument)
    (w : World) : option (GArgument * World) :=
  trampoline ← trampolines w !! data;
  let w := log (EvClosureCall data (scope trampoline)) w in
  converted ←
    closure_args_loop (callable_info_args (trampoline_info trampoline))
      0 args [];
  '(rval, w) ←
    match converted with
    | Some jsargs => call_js_function (js_function trampoline) jsargs w
    | None => Some (None, w)      (* goto out *)
    end;
  trampoline ← trampolines w !! data;
  let ret_type := callable_info_return_type (trampoline_info trampoline) in
  let success := rval ≫= (fun rval => gjs_value_to_g_argument rval ret_type) in
  let '(result, w) :=
    match success with
    | Some result => (result, w)
    | None =>
        (* Fill in the result with some hopefully neutral value *)
        (gjs_g_argument_init_default ret_type, log EvLogException w)
    end in
  let w :=
    if GIScopeType_is_async (scope trampoline)
    then set_completed_trampolines w (data :: completed_trampolines w)
    else w in
  Some (result, w).

(** The native side running: each action in turn. *)
Definition run_native_action (a : NativeAction) (w : World) : option World :=
  match a with
  | NativeCallsClosure closure args =>
      snd <$> gjs_callback_closure closure args w
  | NativeCallsDestroyNotify data => gjs_destroy_notify_callback data w
  end.

Fixpoint run_native_actions (l : list NativeAction) (w : World)
  : option World :=
  match l with
  | [] => Some w
  | a :: l => w ← run_native_action a w; run_native_actions l w
  end.

(** Lines 355 to 362: every trampoline of [completed_trampolines] is
    unreferenced, then the list is freed and reset. *)
Fixpoint unref_all (l : list nat) (w : World) : option World :=
  match l with
  | [] => Some w
  | t :: l => w ← gjs_callback_trampoline_unref t w; unref_all l w
  end.

Definition free_completed_trampolines (w : World) : option World :=
  w ← unref_all (completed_trampolines w) w;
  Some (set_completed_trampolines w []).
End Trampoline.

(** ** The call frame *)

Record Frame := {
  in_arg_cvalues : list GArgument;
  out_arg_cvalues : list GArgument;
  inout_original_arg_cvalues : list GArgument;
  ffi_arg_pointers : list (option Z)   (* [Some i] is &in_arg_cvalues[i] *)
}.

(** The four [g_newa] arrays of [c_argc] slots. *)
Definition Frame_new (c_argc : Z) : Frame :=
  {| in_arg_cvalues := replicate (Z.to_nat c_argc) v_uninit;
     out_arg_cvalues := replicate (Z.to_nat c_argc) v_uninit;
     inout_original_arg_cvalues := replicate (Z.to_nat c_argc) v_uninit;
     ffi_arg_pointers := replicate (Z.to_nat c_argc) None |}.

Definition slot_load {A} (l : list A) (i : Z) : option A :=
  if i <? 0 then None else l !! Z.to_nat i.

Definition slot_store {A} (l : list A) (i : Z) (v : A) : option (list A) :=
  if (0 <=? i) && (i <? Z.of_nat (length l))
  then Some (<[Z.to_nat i := v]> l) else None.

Definition store_in (f : Frame) (i : Z) (v : GArgument) : option Frame :=
  l ← slot_store (in_arg_cvalues f) i v;
  Some {| in_arg_cvalues := l; out_arg_cvalues := out_arg_cvalues f;
          inout_original_arg_cvalues := inout_original_arg_cvalues f;
          ffi_arg_pointers := ffi_arg_pointers f |}.

Definition store_out (f : Frame) (i : Z) (v : GArgument) : option Frame :=
  l ← slot_store (out_arg_cvalues f) i v;
  Some {| in_arg_cvalues := in_arg_cvalues f; out_arg_cvalues := l;
          inout_original_arg_cvalues := inout_original_arg_cvalues f;
          ffi_arg_pointers := ffi_arg_pointers f |}.

Definition store_inout_original (f : Frame) (i : Z) (v : GArgument)
  : option Frame :=
  l ← slot_store (inout_original_arg_cvalues f) i v;
  Some {| in_arg_cvalues := in_arg_cvalues f;
          out_arg_cvalues := out_arg_cvalues f;
          inout_original_arg_cvalues := l;
          ffi_arg_pointers := ffi_arg_pointers f |}.

Definition store_ffi_pointer (f : Frame) (i : Z) : option Frame :=
  l ← slot_store (ffi_arg_pointers f) i (Some i);
  Some {| in_arg_cvalues := in_arg_cvalues f;
          out_arg_cvalues := out_arg_cvalues f;
          inout_original_arg_cvalues := inout_original_arg_cvalues f;
          ffi_arg_pointers := l |}.

(** [out[i] = inout_original[i] = in[i]; in[i].v_pointer = &out[i]] *)
Definition redirect_inout (f : Frame) (i : Z) : option Frame :=
  v ← slot_load (in_arg_cvalues f) i;
  f ← store_inout_original f i v;
  f ← store_out f i v;
  store_in f i (v_out_slot i).

(** The four arrays of a frame have [c_argc] slots each. *)
Definition Frame_sized (f : Frame) (c_argc : Z) : Prop :=
  length (in_arg_cvalues f) = Z.to_nat c_argc /\
  length (out_arg_cvalues f) = Z.to_nat c_argc /\
  length (inout_original_arg_cvalues f) = Z.to_nat c_argc /\
  length (ffi_arg_pointers f) = Z.to_nat c_argc.

(** [g_slice_alloc0 (size)] and [g_slice_free1 (size, mem)] *)
Definition g_slice_alloc0 (size : Z) (w : World) : nat * World :=
  let a := next_address w in
  (a, log (EvSliceAlloc a size)
        (bump_address (set_slices w (<[a := size]> (slices w))))).

Definition g_slice_free1 (mem : GArgument) (w : World) : option World :=
  match mem with
  | v_null => Some w
  | v_block a =>
      _ ← slices w !! a;
      Some (log (EvSliceFree a) (set_slices w (delete a (slices w))))
  | _ => None
  end.

(** The size of the block behind a caller-allocates out argument: lines 458
    to 488 and 857 to 867.  [None] where the source sets [failed] (or, in
    the release pass, asserts). *)
Definition caller_allocates_size (type_info : GITypeInfo) : option Z :=
  match type_info_tag type_info with
  | GI_TYPE_TAG_INTERFACE =>
      let interface_info := type_info_interface type_info in
      match base_info_type interface_info with
      | GI_INFO_TYPE_STRUCT | GI_INFO_TYPE_UNION =>
          Some (base_info_size interface_info)
      | _ => None
      end
  | _ => None
  end.

Definition sign_extend (bits : Z) (z : Z) : Z :=
  (z + 2 ^ (bits - 1)) mod 2 ^ bits - 2 ^ (bits - 1).

Section Invoke.
Context `{Collaborators}.

(** [get_length_from_arg]: the member of the union the tag names, as an
    [unsigned long]; [None] is [g_assert_not_reached]. *)
Definition get_length_from_arg (arg : GArgument) (tag : GITypeTag)
  : option Z :=
  let bits := match arg with v_int z => z | _ => GArgument_bits arg end in
  let ulong z := z mod 2 ^ 64 in
  match tag with
  | GI_TYPE_TAG_INT8 => Some (ulong (sign_extend 8 bits))
  | GI_TYPE_TAG_UINT8 => Some (bits mod 2 ^ 8)
  | GI_TYPE_TAG_INT16 => Some (ulong (sign_extend 16 bits))
  | GI_TYPE_TAG_UINT16 => Some (bits mod 2 ^ 16)
  | GI_TYPE_TAG_INT32 => Some (ulong (sign_extend 32 bits))
  | GI_TYPE_TAG_UINT32 => Some (bits mod 2 ^ 32)
  | GI_TYPE_TAG_INT64 => Some (ulong (sign_extend 64 bits))
  | GI_TYPE_TAG_UINT64 => Some (bits mod 2 ^ 64)
  | _ => None
  end.

(** *** Marshaling: lines 437 to 625 *)

Record Marshal := {
  m_frame : Frame;
  m_js_arg_pos : Z;
  m_failed : bool;
  m_world : World
}.

Definition marshal_fail (m : Marshal) (w : World) : Marshal :=
  {| m_frame := m_frame m; m_js_arg_pos := m_js_arg_pos m;
     m_failed := true; m_world := w |}.

Definition marshal_with (m : Marshal) (f : Frame) (w : World) : Marshal :=
  {| m_frame := f; m_js_arg_pos := m_js_arg_pos m;
     m_failed := m_failed m; m_world := w |}.

(** [direction == GI_DIRECTION_OUT]: lines 450 to 494. *)
Definition marshal_out (arg_info : GIArgInfo) (c_arg_pos : Z) (m : Marshal)
  : option Marshal :=
  if arg_info_caller_allocates arg_info then
    let ainfo := arg_info_type arg_info in
    match caller_allocates_size ainfo with
    | Some size =>
        let '(a, w) := g_slice_alloc0 size (m_world m) in
        f ← store_in (m_frame m) c_arg_pos (v_block a);
        f ← store_out f c_arg_pos (v_block a);
        Some (marshal_with m f w)
    | None =>
        Some (marshal_fail m
                (gjs_throw (ERR_UNSUPPORTED_CALLER_ALLOCATES
                              (type_info_tag ainfo)) (m_world m)))
    end
  else
    f ← store_out (m_frame m) c_arg_pos v_null;
    f ← store_in f c_arg_pos (v_out_slot c_arg_pos);
    Some (marshal_with m f (m_world m)).

(** [in_arg_cvalues[c_pos].v_pointer = v] for the destroy or closure
    companion at [pos], when there is one. *)
Definition store_companion (function : Function) (is_method : bool)
    (pos : Z) (v : GArgument) (f : Frame) : option Frame :=
  if 0 <=? pos then
    let c_pos := if is_method then pos + 1 else pos in
    t ← slot_load (param_types function) pos;
    _ ← g_assert (ParamType_eqb t PARAM_SKIPPED);
    store_in f c_pos v
  else Some f.

(** Lines 536 to 554, with the trampoline made for the argument
    ([None] for the C [NULL]). *)
Definition marshal_callback_slots (function : Function) (is_method : bool)
    (arg_info : GIArgInfo) (c_arg_pos : Z) (trampoline : option nat)
    (w : World) (m : Marshal) : option Marshal :=
  f ← store_companion function is_method (arg_info_destroy arg_info)
        (match trampoline with
         | Some _ => v_destroy_notify
         | None => v_null
         end) (m_frame m);
  f ← store_companion function is_method (arg_info_closure arg_info)
        (from_option v_trampoline v_null trampoline) f;
  w ← match trampoline with
      | Some t =>
          (* Add an extra reference that will be cleared when collecting
             async calls, or when GDestroyNotify is called *)
          if negb (GIScopeType_is_call (arg_info_scope arg_info))
          then gjs_callback_trampoline_ref t w else Some w
      | None => Some w
      end;
  f ← store_in f c_arg_pos (from_option v_closure v_null trampoline);
  Some (marshal_with m f w).

(** [case PARAM_CALLBACK]: lines 507 to 556. *)
Definition marshal_callback (function : Function) (is_method : bool)
    (js_argv : list jsval) (arg_info : GIArgInfo) (c_arg_pos : Z)
    (m : Marshal) : option Marshal :=
  value ← slot_load js_argv (m_js_arg_pos m);
  if JSVAL_IS_NULL value && arg_info_may_be_null arg_info
  then marshal_callback_slots function is_method arg_info c_arg_pos
         None (m_world m) m
  else if negb (is_JSTYPE_FUNCTION value)
  then Some (marshal_fail m
               (gjs_throw (ERR_INVALID_CALLBACK (arg_info_name arg_info))
                  (m_world m)))
  else
    let callable_info := g_type_info_get_callable (arg_info_type arg_info) in
    '(trampoline, w) ←
      gjs_callback_trampoline_new value callable_info
        (arg_info_scope arg_info) (m_world m);
    (* closure = trampoline->closure *)
    t ← trampoline;
    marshal_callback_slots function is_method arg_info c_arg_pos (Some t) w m.

(** [case PARAM_ARRAY]: lines 560 to 596. *)
Definition marshal_array (info : GIFunctionInfo) (is_method : bool)
    (js_argv : list jsval) (arg_info : GIArgInfo) (c_arg_pos : Z)
    (m : Marshal) : option Marshal :=
  let direction := arg_info_direction arg_info in
  let array_length_pos := type_info_array_length (arg_info_type arg_info) in
  value ← slot_load js_argv (m_js_arg_pos m);
  match gjs_value_to_explicit_array value arg_info with
  | None => Some (marshal_fail m (m_world m))
  | Some (array, length) =>
      f ← store_in (m_frame m) c_arg_pos array;
      array_length_arg ← g_callable_info_load_arg info array_length_pos;
      let array_length_pos :=
        array_length_pos + (if is_method then 1 else 0) in
      match gjs_value_to_arg (INT_TO_JSVAL length) array_length_arg with
      | None => Some (marshal_fail (marshal_with m f (m_world m)) (m_world m))
      | Some length_value =>
          f ← store_in f array_length_pos length_value;
          (* Also handle the INOUT for the length here *)
          f ← match direction with
              | GI_DIRECTION_INOUT =>
                  in_value ← slot_load (in_arg_cvalues f) c_arg_pos;
                  if GArgument_is_null in_value then
                    f ← store_in f array_length_pos v_null;
                    f ← store_out f array_length_pos v_null;
                    store_inout_original f array_length_pos v_null
                  else redirect_inout f array_length_pos
              | _ => Some f
              end;
          Some (marshal_with m f (m_world m))
      end
  end.

(** [case PARAM_NORMAL]: lines 597 to 605. *)
Definition marshal_normal (js_argv : list jsval) (arg_info : GIArgInfo)
    (c_arg_pos : Z) (m : Marshal) : option Marshal :=
  _ ← g_assert (m_js_arg_pos m <? Z.of_nat (length js_argv));
  value ← slot_load js_argv (m_js_arg_pos m);
  match gjs_value_to_arg value arg_info with
  | None => Some (marshal_fail m (m_world m))
  | Some v =>
      f ← store_in (m_frame m) c_arg_pos v;
      Some (marshal_with m f (m_world m))
  end.

(** The other directions: lines 495 to 619. *)
Definition marshal_in (function : Function) (info : GIFunctionInfo)
    (is_method : bool) (js_argv : list jsval) (arg_info : GIArgInfo)
    (gi_arg_pos c_arg_pos : Z) (m : Marshal) : option Marshal :=
  param_type ← slot_load (param_types function) gi_arg_pos;
  '(arg_removed, m) ←
    match param_type with
    | PARAM_CALLBACK =>
        pair false <$>
          marshal_callback function is_method js_argv arg_info c_arg_pos m
    | PARAM_SKIPPED => Some (true, m)
    | PARAM_ARRAY =>
        pair false <$> marshal_array info is_method js_argv arg_info c_arg_pos m
    | PARAM_NORMAL =>
        pair false <$> marshal_normal js_argv arg_info c_arg_pos m
    end;
  m ← match arg_info_direction arg_info with
      | GI_DIRECTION_INOUT =>
          if negb arg_removed && negb (m_failed m)
          then f ← redirect_inout (m_frame m) c_arg_pos;
               Some (marshal_with m f (m_world m))
          else Some m
      | _ => Some m
      end;
  if negb (m_failed m) && negb arg_removed
  then Some {| m_frame := m_frame m; m_js_arg_pos := m_js_arg_pos m + 1;
               m_failed := m_failed m; m_world := m_world m |}
  else Some m.

(** One turn of the loop over the arguments. *)
Definition marshal_arg (function : Function) (info : GIFunctionInfo)
    (is_method : bool) (c_argc : Z) (js_argv : list jsval)
    (gi_arg_pos c_arg_pos : Z) (m : Marshal) : option Marshal :=
  arg_info ← g_callable_info_load_arg info gi_arg_pos;
  _ ← g_assert (c_arg_pos <? c_argc);
  f ← store_ffi_pointer (m_frame m) c_arg_pos;
  let m := marshal_with m f (m_world m) in
  match arg_info_direction arg_info with
  | GI_DIRECTION_OUT => marshal_out arg_info c_arg_pos m
  | _ => marshal_in function info is_method js_argv arg_info
           gi_arg_pos c_arg_pos m
  end.

(** The loop, with [todo] turns left.  It returns [c_arg_pos] and
    [processed_c_args] as they are when it is left; neither can wrap,
    [c_arg_pos < c_argc <= 255] being asserted at every turn. *)
Fixpoint marshal_loop (function : Function) (info : GIFunctionInfo)
    (is_method : bool) (c_argc : Z) (js_argv : list jsval) (todo : nat)
    (gi_arg_pos c_arg_pos processed_c_args : Z) (m : Marshal)
  : option (Marshal * Z * Z) :=
  match todo with
  | O => Some (m, c_arg_pos, processed_c_args)
  | S todo =>
      m ← marshal_arg function info is_method c_argc js_argv
            gi_arg_pos c_arg_pos m;
      if m_failed m then Some (m, c_arg_pos, processed_c_args)
      else marshal_loop function info is_method c_argc js_argv todo
             (gi_arg_pos + 1) (c_arg_pos + 1) (processed_c_args + 1) m
  end.
(** *** The receiver of a method: lines 406 to 434

    The result is the frame and [failed]. *)
Definition marshal_receiver (info : GIFunctionInfo) (c_argc : Z) (obj : nat)
    (f : Frame) (w : World) : option (Frame * bool * World) :=
  let container := function_info_container info in
  _ ← g_assert (0 <? c_argc);
  match base_info_type container with
  | GI_INFO_TYPE_STRUCT | GI_INFO_TYPE_BOXED =>
      f ← store_in f 0 (gjs_c_struct_from_boxed obj);
      f ← store_ffi_pointer f 0;
      Some (f, false, w)
  | GI_INFO_TYPE_UNION =>
      f ← store_in f 0 (gjs_c_union_from_union obj);
      f ← store_ffi_pointer f 0;
      Some (f, false, w)
  | _ => (* by fallback is always object *)
      let receiver := gjs_g_object_from_object obj in
      f ← store_in f 0 receiver;
      if negb (g_type_is_a_instance receiver container)
      then Some (f, true, gjs_throw ERR_EXPECTED_TYPE w)
      else
        f ← store_ffi_pointer f 0;
        Some (f, false, w)
  end.

(** *** The call: lines 634 to 659 *)

(** A store of the callee through the pointer it got as argument [i]. *)
Definition apply_native_write (in_args : list GArgument)
    (out_args : list GArgument) (write : Z * GArgument) : list GArgument :=
  match slot_load in_args write.1 with
  | Some (v_out_slot j) =>
      if 0 <=? j then <[Z.to_nat j := write.2]> out_args else out_args
  | _ => out_args
  end.

(** [ffi_call]: the return value, [local_error] as the callee left it,
    the frame and the world after. *)
Definition ffi_call (function : Function) (can_throw_gerror : bool)
    (f : Frame) (w : World)
  : option (GArgument * option string * Frame * World) :=
  let address := native_address (invoker function) in
  let behaviour :=
    native_call address (in_arg_cvalues f) (out_arg_cvalues f) in
  let local_error :=
    if can_throw_gerror then native_error behaviour else None in
  let w := log (EvFfiCall address (in_arg_cvalues f) local_error) w in
  w ← run_native_actions (native_actions behaviour) w;
  let out_args :=
    foldl (apply_native_write (in_arg_cvalues f)) (out_arg_cvalues f)
      (native_writes behaviour) in
  Some (native_return behaviour, local_error,
        {| in_arg_cvalues := in_arg_cvalues f; out_arg_cvalues := out_args;
           inout_original_arg_cvalues := inout_original_arg_cvalues f;
           ffi_arg_pointers := ffi_arg_pointers f |}, w).

(** *** The return value: lines 664 to 718 *)

Record Release := {
  r_frame : Frame;
  r_world : World;
  r_postinvoke_release_failed : bool;
  r_next_rval : Z;
  r_return_values : list jsval
}.

Definition Release_start (f : Frame) (w : World) (next_rval : Z)
    (return_values : list jsval) : Release :=
  {| r_frame := f; r_world := w; r_postinvoke_release_failed := false;
     r_next_rval := next_rval; r_return_values := return_values |}.

(** The body of [if (function->js_out_argc > 0 && !did_throw_gerror)].
    The result is [failed] and the state the release pass starts in. *)
Definition convert_return_value (function : Function) (info : GIFunctionInfo)
    (is_method : bool) (return_value : GArgument) (f : Frame) (w : World)
  : option (bool * Release) :=
  let return_info := function_info_return_type info in
  let return_values :=
    replicate (Z.to_nat (js_out_argc function)) JSVAL_VOID in
  if GITypeTag_is_void (type_info_tag return_info)
  then Some (false, Release_start f w 0 return_values)
  else
    let transfer := function_info_caller_owns info in
    let array_length_pos := type_info_array_length return_info in
    '(converted, released) ←
      (if 0 <=? array_length_pos then
         array_length_arg ← g_callable_info_load_arg info array_length_pos;
         let array_length_pos :=
           array_length_pos + (if is_method then 1 else 0) in
         length_slot ← slot_load (out_arg_cvalues f) array_length_pos;
         match gjs_value_from_g_argument (arg_info_type array_length_arg)
                 length_slot with
         | None => Some (None, true)
         | Some length =>
             Some (gjs_value_from_explicit_array return_info return_value
                     (JSVAL_TO_INT length),
                   gjs_g_argument_release_out_array transfer return_info
                     (JSVAL_TO_INT length) return_value)
         end
       else
         Some (gjs_value_from_g_argument return_info return_value,
               (* Free GArgument, the jsval should have ref'd or copied it *)
               gjs_g_argument_release transfer return_info return_value));
    let w := log EvConvertReturn w in
    match converted with
    | None => Some (true, Release_start f w 1 return_values)
    | Some v =>
        return_values ← slot_store return_values 0 v;
        Some (negb released,
              Release_start f (log EvReleaseReturn w) 1 return_values)
    end.

(** *** The release pass: lines 726 to 892 *)

Definition release_with (r : Release) (f : Frame) (w : World) : Release :=
  {| r_frame := f; r_world := w;
     r_postinvoke_release_failed := r_postinvoke_release_failed r;
     r_next_rval := r_next_rval r; r_return_values := r_return_values r |}.

Definition release_mark_failed (r : Release) (ok : bool) : Release :=
  {| r_frame := r_frame r; r_world := r_world r;
     r_postinvoke_release_failed := r_postinvoke_release_failed r || negb ok;
     r_next_rval := r_next_rval r; r_return_values := r_return_values r |}.

(** In and inout arguments: lines 738 to 794. *)
Definition release_in (info : GIFunctionInfo) (is_method : bool)
    (arg_info : GIArgInfo) (param_type : ParamType) (c_arg_pos : Z)
    (r : Release) : option Release :=
  let arg_type_info := arg_info_type arg_info in
  let f := r_frame r in
  '(arg, transfer) ←
    match arg_info_direction arg_info with
    | GI_DIRECTION_IN =>
        arg ← slot_load (in_arg_cvalues f) c_arg_pos;
        Some (arg, arg_info_ownership_transfer arg_info)
    | _ =>
        arg ← slot_load (inout_original_arg_cvalues f) c_arg_pos;
        Some (arg, GI_TRANSFER_NOTHING)
    end;
  match param_type with
  | PARAM_CALLBACK =>
      match arg with
      | v_null => Some r
      | v_closure trampoline =>
          w ← gjs_callback_trampoline_unref trampoline (r_world r);
          f ← match arg_info_direction arg_info with
              | GI_DIRECTION_IN => store_in f c_arg_pos v_null
              | _ => store_inout_original f c_arg_pos v_null
              end;
          Some (release_with r f w)
      | _ => None
      end
  | PARAM_ARRAY =>
      let array_length_pos := type_info_array_length arg_type_info in
      _ ← g_assert (0 <=? array_length_pos);
      array_length_arg ← g_callable_info_load_arg info array_length_pos;
      let array_length_pos :=
        array_length_pos + (if is_method then 1 else 0) in
      length_slot ← slot_load (in_arg_cvalues f) array_length_pos;
      length ← get_length_from_arg length_slot
                 (type_info_tag (arg_info_type array_length_arg));
      let ok :=
        gjs_g_argument_release_in_array transfer arg_type_info length arg in
      Some (release_mark_failed
              (release_with r f (log (EvReleaseIn c_arg_pos ok) (r_world r)))
              ok)
  | PARAM_NORMAL =>
      let ok := gjs_g_argument_release_in_arg transfer arg_type_info arg in
      Some (release_mark_failed
              (release_with r f (log (EvReleaseIn c_arg_pos ok) (r_world r)))
              ok)
  | PARAM_SKIPPED => Some r
  end.

(** Out and inout arguments: lines 803 to 891. *)
Definition release_out (function : Function) (info : GIFunctionInfo)
    (is_method : bool) (arg_info : GIArgInfo) (c_arg_pos : Z) (r : Release)
  : option Release :=
  let arg_type_info := arg_info_type arg_info in
  let f := r_frame r in
  _ ← g_assert (r_next_rval r <? js_out_argc function);
  arg ← slot_load (out_arg_cvalues f) c_arg_pos;
  let array_length_pos := type_info_array_length arg_type_info in
  converted ←
    (if 0 <=? array_length_pos then
       array_length_arg ← g_callable_info_load_arg info array_length_pos;
       let array_length_pos :=
         array_length_pos + (if is_method then 1 else 0) in
       length_slot ← slot_load (out_arg_cvalues f) array_length_pos;
       match gjs_value_from_g_argument (arg_info_type array_length_arg)
               length_slot with
       | None => Some None
       | Some array_length =>
           Some (gjs_value_from_explicit_array arg_type_info arg
                   (JSVAL_TO_INT array_length))
       end
     else Some (gjs_value_from_g_argument arg_type_info arg));
  let w := log (EvConvertOut c_arg_pos) (r_world r) in
  return_values ←
    match converted with
    | Some v => slot_store (r_return_values r) (r_next_rval r) v
    | None => Some (r_return_values r)
    end;
  (* For caller-allocates [...] here we release the memory allocated
     above. *)
  w ← (if arg_info_caller_allocates arg_info then
         _ ← caller_allocates_size arg_type_info;
         g_slice_free1 arg w
       else Some w);
  (* Free GArgument, the jsval should have ref'd or copied it *)
  let arg_failed := match converted with Some _ => false | None => true end in
  let w := if arg_failed then w else log (EvReleaseOut c_arg_pos) w in
  Some {| r_frame := f; r_world := w;
          r_postinvoke_release_failed :=
            r_postinvoke_release_failed r || arg_failed;
          r_next_rval := r_next_rval r + 1;
          r_return_values := return_values |}.

(** One turn of the loop. *)
Definition release_arg (function : Function) (info : GIFunctionInfo)
    (is_method : bool) (did_throw_gerror failed : bool)
    (gi_arg_pos c_arg_pos : Z) (r : Release) : option Release :=
  arg_info ← g_callable_info_load_arg info gi_arg_pos;
  let direction := arg_info_direction arg_info in
  param_type ← slot_load (param_types function) gi_arg_pos;
  r ← (if is_in_or_inout direction
       then release_in info is_method arg_info param_type c_arg_pos r
       else Some r);
  (* Don't free out arguments if function threw an exception or we failed
     earlier *)
  if did_throw_gerror || failed then Some r
  else if is_out_or_inout direction &&
          negb (ParamType_eqb param_type PARAM_SKIPPED)
  then release_out function info is_method arg_info c_arg_pos r
  else Some r.

(** [for (..; gi_arg_pos < gi_argc && c_arg_pos < processed_c_args; ..)],
    with [todo] turns left before [gi_arg_pos] reaches [gi_argc].  The
    result carries [c_arg_pos] as the loop leaves it. *)
Fixpoint release_loop (function : Function) (info : GIFunctionInfo)
    (is_method : bool) (did_throw_gerror failed : bool)
    (processed_c_args : Z) (todo : nat) (gi_arg_pos c_arg_pos : Z)
    (r : Release) : option (Release * Z) :=
  match todo with
  | O => Some (r, c_arg_pos)
  | S todo =>
      if c_arg_pos <? processed_c_args then
        r ← release_arg function info is_method did_throw_gerror failed
              gi_arg_pos c_arg_pos r;
        release_loop function info is_method did_throw_gerror failed
          processed_c_args todo (gi_arg_pos + 1) (c_arg_pos + 1) r
      else Some (r, c_arg_pos)
  end.
(** *** After the release pass: lines 894 to 933 *)

Inductive JSBool := JS_TRUE | JS_FALSE.

(** From the label [release] to the end.  [local_error] is [Some] exactly
    when [did_throw_gerror]; [js_rval] is what [*js_rval] holds, [None]
    before line 661 wrote it. *)
Definition invoke_release (function : Function) (info : GIFunctionInfo)
    (is_method : bool) (failed : bool) (local_error : option string)
    (processed_c_args : Z) (js_rval : option jsval) (r : Release)
  : option (JSBool * option jsval * World) :=
  let did_throw_gerror := bool_decide (is_Some local_error) in
  let gi_argc := wrap8 (g_callable_info_get_n_args info) in
  '(r, c_arg_pos) ←
    release_loop function info is_method did_throw_gerror failed
      processed_c_args (Z.to_nat gi_argc) 0 (if is_method then 1 else 0) r;
  let failed := failed || r_postinvoke_release_failed r in
  _ ← g_assert (failed || did_throw_gerror ||
                (r_next_rval r =? js_out_argc function));
  _ ← g_assert (c_arg_pos =? processed_c_args);
  '(failed, js_rval) ←
    (if (0 <? js_out_argc function) && negb failed && negb did_throw_gerror
     then
       if js_out_argc function =? 1
       then v ← slot_load (r_return_values r) 0; Some (failed, Some v)
       else match JS_NewArrayObject (r_return_values r) with
            | None => Some (true, js_rval)
            | Some array => Some (failed, Some array)
            end
     else Some (failed, js_rval));
  match local_error with
  | Some message =>
      if negb failed
      then Some (JS_FALSE, js_rval,
                 log EvErrorFree (gjs_throw (ERR_INVOKING message) (r_world r)))
      else Some (JS_FALSE, js_rval, r_world r)
  | None =>
      if failed then Some (JS_FALSE, js_rval, r_world r)
      else Some (JS_TRUE, js_rval, r_world r)
  end.

(** From line 634, after marshaling went through, to the end. *)
Definition invoke_call (function : Function) (info : GIFunctionInfo)
    (is_method : bool) (c_arg_pos processed_c_args : Z) (f : Frame)
    (w : World) : option (JSBool * option jsval * World) :=
  let can_throw_gerror := function_info_throws info in
  let c_argc := wrap8 (cif_nargs (invoker function)) in
  '(f, c_arg_pos) ←
    (if can_throw_gerror then
       _ ← g_assert (c_arg_pos <? c_argc);
       f ← store_in f c_arg_pos v_error_slot;
       f ← store_ffi_pointer f c_arg_pos;
       (* don't update processed_c_args as we deal with local_error
          separately *)
       Some (f, c_arg_pos + 1)
     else Some (f, c_arg_pos));
  _ ← g_assert (c_arg_pos =? c_argc);
  '(return_value, local_error, f, w) ←
    ffi_call function can_throw_gerror f w;
  let did_throw_gerror := bool_decide (is_Some local_error) in
  (* Only process return values if the function didn't throw *)
  '(failed, r) ←
    (if (0 <? js_out_argc function) && negb did_throw_gerror
     then convert_return_value function info is_method return_value f w
     else Some (false, Release_start f w 0 []));
  invoke_release function info is_method failed local_error
    processed_c_args (Some JSVAL_VOID) r.

Definition gjs_invoke_c_function (function : Function) (obj : nat)
    (js_argv : list jsval) (w : World)
  : option (JSBool * option jsval * World) :=
  w ← free_completed_trampolines w;
  info ← info function;
  let is_method := function_info_is_method info in
  let c_argc := wrap8 (cif_nargs (invoker function)) in
  let gi_argc := wrap8 (g_callable_info_get_n_args info) in
  let js_argc := Z.of_nat (length js_argv) in
  if js_argc <? expected_js_argc function
  then Some (JS_FALSE, None,
             gjs_throw (ERR_TOO_FEW_ARGUMENTS (expected_js_argc function)
                          js_argc) w)
  else
    '(f, failed, w) ←
      (if is_method
       then marshal_receiver info c_argc obj (Frame_new c_argc) w
       else Some (Frame_new c_argc, false, w));
    if (failed : bool)
    then (* goto release, processed_c_args being 0 still *)
      invoke_release function info is_method true None 0 None
        (Release_start f w 0 [])
    else
      let c_arg_pos := if is_method then 1 else 0 in
      '(m, c_arg_pos, processed_c_args) ←
        marshal_loop function info is_method c_argc js_argv
          (Z.to_nat gi_argc) 0 c_arg_pos c_arg_pos
          {| m_frame := f; m_js_arg_pos := 0; m_failed := false;
             m_world := w |};
      if m_failed m
      then (* skip invocation and jump to release processing *)
        invoke_release function info is_method true None processed_c_args
          None (Release_start (m_frame m) (m_world m) 0 [])
      else invoke_call function info is_method c_arg_pos processed_c_args
             (m_frame m) (m_world m).

(** [gjs_invoke_c_function_uncached] *)
Definition gjs_invoke_c_function_uncached (info : GIFunctionInfo) (obj : nat)
    (argv : list jsval) (w : World)
  : option (JSBool * option jsval * World) :=
  match init_cached_function_data Function_zero info with
  | InitFail e _ => Some (JS_FALSE, None, gjs_throw e w)
  | InitOk function => gjs_invoke_c_function function obj argv w
  end.

(** *** What happens to the engine over time

    JavaScript calls an exposed function, or native code that kept the
    pointers of an earlier call runs a callback or a destroy notifier. *)
Inductive Step :=
  | StepInvoke (function : Function) (obj : nat) (js_argv : list jsval)
  | StepNative (a : NativeAction).

Definition run_step (s : Step) (w : World) : option World :=
  match s with
  | StepInvoke function obj js_argv =>
      snd <$> gjs_invoke_c_function function obj js_argv w
  | StepNative a => run_native_action a w
  end.

Fixpoint run_steps (l : list Step) (w : World) : option World :=
  match l with
  | [] => Some w
  | s :: l => w ← run_step s w; run_steps l w
  end.
End Invoke.

(** The Async trampolines [gjs_callback_closure] was entered for,
    whether native code was called from the top or from a JavaScript
    function that a trampoline called. *)
Fixpoint async_calls_of (e : Event) : list nat :=
  match e with
  | EvClosureCall t GI_SCOPE_TYPE_ASYNC => [t]
  | EvJavaScript nested =>
      (fix go (l : list Event) : list nat :=
         match l with
         | [] => []
         | e :: l => async_calls_of e ++ go l
         end) nested
  | _ => []
  end.

Definition async_calls (l : list Event) : list nat :=
  flat_map async_calls_of l.

Section TrampolineFailure.
Context `{Collaborators}.

(** The three ways an invocation of a trampoline goes to [out] without
    [success]: an argument of the callback does not convert to a
    [jsval], the JavaScript function throws, or what it returns does not
    convert to the native return type. *)
Definition callback_fails (trampoline : GjsCallbackTrampoline)
    (args : list GArgument) (w : World) : Prop :=
  let callable := trampoline_info trampoline in
  (exists (i : nat) arg_info arg,
      callable_info_args callable !! i = Some arg_info /\
      GITypeTag_is_void (type_info_tag (arg_info_type arg_info)) = false /\
      args !! i = Some arg /\
      gjs_value_from_g_argument (arg_info_type arg_info) arg = None) \/
  (exists jsargs rval w_js,
      closure_args_loop (callable_info_args callable) 0 args []
        = Some (Some jsargs) /\
      JS_CallFunctionValue (js_function trampoline) jsargs (set_trace w [])
        = Some (rval, w_js) /\
      (rval = None \/
       exists v,
         rval = Some v /\
         gjs_value_to_g_argument v (callable_info_return_type callable)
           = None)).

(** The JavaScript function, when the arguments convert and it is called,
    comes back, and the trampoline is there still, for the same type of
    callback. *)
Definition callback_comes_back (data : nat)
    (trampoline : GjsCallbackTrampoline) (args : list GArgument) (w : World)
  : Prop :=
  forall jsargs,
    closure_args_loop (callable_info_args (trampoline_info trampoline))
      0 args [] = Some (Some jsargs) ->
    exists rval w_js trampoline',
      JS_CallFunctionValue (js_function trampoline) jsargs (set_trace w [])
        = Some (rval, w_js) /\
      trampolines w_js !! data = Some trampoline' /\
      trampoline_info trampoline' = trampoline_info trampoline.

(** What the call of the JavaScript function adds to the log: nothing when
    an argument does not convert, its own log as one event otherwise. *)
Definition callback_log (trampoline : GjsCallbackTrampoline)
    (args : list GArgument) (w : World) : list Event :=
  match closure_args_loop (callable_info_args (trampoline_info trampoline))
          0 args [] with
  | Some (Some jsargs) =>
      match JS_CallFunctionValue (js_function trampoline) jsargs
              (set_trace w []) with
      | Some (_, w_js) => [EvJavaScript (trace w_js)]
      | None => []
      end
  | _ => []
  end.
End TrampolineFailure.

(** ** What a phase of the call does to the world *)

(** Two states of a trampoline that differ in the reference count at
    most. *)
Definition same_callback (tr tr' : GjsCallbackTrampoline) : Prop :=
  trampoline_info tr' = trampoline_info tr /\
  js_function tr' = js_function tr /\
  scope tr' = scope tr.

(** [evolves w w']: addresses are handed out upwards.  At an address
    handed out before [w], a freed trampoline stays freed, and a live one
    is freed or lives on with what it wraps, and unchanged if it had one
    reference; a trampoline at another address was there in [w] or is at
    an address handed out since. *)
Definition evolves (w w' : World) : Prop :=
  (next_address w <= next_address w')%nat /\
  (forall t, (t < next_address w)%nat ->
     match trampolines w !! t, trampolines w' !! t with
     | _, None => True
     | None, Some _ => False
     | Some tr, Some tr' =>
         same_callback tr tr' /\ (ref_count tr = 1 -> tr' = tr)
     end) /\
  (forall t, (next_address w <= t)%nat ->
     is_Some (trampolines w' !! t) ->
     is_Some (trampolines w !! t) \/ (t < next_address w')%nat).

(** Every live trampoline is at an address that was handed out. *)
Definition World_ok (w : World) : Prop :=
  forall t, is_Some (trampolines w !! t) -> (t < next_address w)%nat.

(** [only_logs P w w']: from [w] to [w'] the list of completed trampolines
    is untouched, the trampolines evolve, and the events logged are all in
    [P]. *)
Definition only_logs (P : Event -> Prop) (w w' : World) : Prop :=
  (completed_trampolines w' = completed_trampolines w /\ evolves w w') /\
  exists new, trace w' = new ++ trace w /\ Forall P new.

(** The events of marshaling, of the two halves of the release pass, of the
    conversion of the return value, of the end of the call, and of native
    code running. *)
Definition marshal_event (e : Event) : Prop :=
  match e with
  | EvThrow _ | EvSliceAlloc _ _ | EvTrampolineNew _ _ => True
  | _ => False
  end.

Definition free_event (e : Event) : Prop :=
  match e with EvTrampolineFree _ => True | _ => False end.

Definition release_in_event (e : Event) : Prop :=
  match e with EvTrampolineFree _ | EvReleaseIn _ _ => True | _ => False end.

Definition release_out_event (e : Event) : Prop :=
  match e with
  | EvConvertOut _ | EvSliceFree _ | EvReleaseOut _ => True
  | _ => False
  end.

Definition return_event (e : Event) : Prop :=
  match e with EvConvertReturn | EvReleaseReturn => True | _ => False end.

Definition finish_event (e : Event) : Prop :=
  match e with EvThrow _ | EvErrorFree => True | _ => False end.

Definition native_event (e : Event) : Prop :=
  match e with
  | EvClosureCall _ _ | EvLogException | EvDestroyNotify _
  | EvTrampolineFree _ | EvJavaScript _ => True
  | _ => False
  end.

(** An event that is not the native call and not the conversion of a
    return value or of an out argument. *)
Definition no_call_no_output (e : Event) : Prop :=
  match e with
  | EvFfiCall _ _ _ | EvConvertReturn | EvConvertOut _ => False
  | _ => True
  end.

Definition no_call (e : Event) : Prop :=
  match e with EvFfiCall _ _ _ => False | _ => True end.

(** Every completed trampoline is an Async trampoline that was called, as
    often as it is listed. *)
Definition pending_ok (w : World) : Prop :=
  completed_trampolines w ⊆+ async_calls (trace w).

(** From [w] to [w'] the log grew, and what the list of completed
    trampolines gained are Async trampolines called meanwhile. *)
Definition pending_step (w w' : World) : Prop :=
  exists new,
    trace w' = new ++ trace w /\
    completed_trampolines w' ⊆+ async_calls new ++ completed_trampolines w.


(** No JavaScript function called by a trampoline called an exposed
    function in its turn. *)
(** From [w] to [w'] the trampolines evolved and, where every trampoline
    of [w] is below the next address, the list of completed trampolines
    gained trampolines called meanwhile only. *)
Definition progresses (w w' : World) : Prop :=
  evolves w w' /\ (World_ok w -> pending_step w w').

Definition no_reentry (l : list Event) : Prop :=
  forall nested, In (EvJavaScript nested) l -> nested = [].

(** Among some events, a release of an in argument that answered
    [FALSE]. *)
Definition is_failed_release (e : Event) : bool :=
  match e with EvReleaseIn _ false => true | _ => false end.

Definition release_failed (l : list Event) : bool :=
  existsb is_failed_release l.

(** ** The slots the release pass reads

    [release_slot]: what the release pass reads for parameter [j]
    ([in_arg_cvalues] for an in argument, [inout_original_arg_cvalues] for
    an inout one).  [callback_target]: the trampoline it unreferences there,
    when [j] is a callback parameter whose slot holds a closure. *)
Definition release_slot (info : GIFunctionInfo) (is_method : bool) (f : Frame)
    (j : Z) : option GArgument :=
  arg_info ← g_callable_info_load_arg info j;
  let c_arg_pos := j + (if is_method then 1 else 0) in
  match arg_info_direction arg_info with
  | GI_DIRECTION_IN => slot_load (in_arg_cvalues f) c_arg_pos
  | GI_DIRECTION_INOUT => slot_load (inout_original_arg_cvalues f) c_arg_pos
  | GI_DIRECTION_OUT => None
  end.

Definition callback_target (function : Function) (info : GIFunctionInfo)
    (is_method : bool) (f : Frame) (j : Z) : option nat :=
  match slot_load (param_types function) j with
  | Some PARAM_CALLBACK =>
      match release_slot info is_method f j with
      | Some (v_closure t) => Some t
      | _ => None
      end
  | _ => None
  end.

(** Two frames agree on slot [p] of the arrays the release pass reads. *)
Definition frame_agree (f f' : Frame) (p : Z) : Prop :=
  slot_load (in_arg_cvalues f') p = slot_load (in_arg_cvalues f) p /\
  slot_load (inout_original_arg_cvalues f') p =
    slot_load (inout_original_arg_cvalues f) p.

(** Two frames agree on slot [p] of the three arrays of arguments. *)
Definition frame_same (f f' : Frame) (p : Z) : Prop :=
  slot_load (in_arg_cvalues f') p = slot_load (in_arg_cvalues f) p /\
  slot_load (out_arg_cvalues f') p = slot_load (out_arg_cvalues f) p /\
  slot_load (inout_original_arg_cvalues f') p =
    slot_load (inout_original_arg_cvalues f) p.

(** Slot [p] of the three arrays of arguments holds [NULL]. *)
Definition slots_null (f : Frame) (p : Z) : Prop :=
  slot_load (in_arg_cvalues f) p = Some v_null /\
  slot_load (out_arg_cvalues f) p = Some v_null /\
  slot_load (inout_original_arg_cvalues f) p = Some v_null.

(** The length parameter of an array parameter is not a callback
    parameter. *)
Definition arrays_ok (function : Function) (info : GIFunctionInfo) : Prop :=
  forall k arg_info,
    g_callable_info_load_arg info k = Some arg_info ->
    slot_load (param_types function) k = Some PARAM_ARRAY ->
    slot_load (param_types function)
      (type_info_array_length (arg_info_type arg_info))
    <> Some PARAM_CALLBACK.

(** The references a trampoline starts with: one, and one more unless its
    scope is Call. *)
Definition initial_ref_count (s : GIScopeType) : Z :=
  if GIScopeType_is_call s then 1 else 2.


(** The targets of the first [bound] parameters are trampolines below the
    address [hi], and no two of these parameters have the same target. *)
Definition targets_ok (function : Function) (info : GIFunctionInfo)
    (is_method : bool) (f : Frame) (hi : nat) (bound : Z) : Prop :=
  (forall j t,
      j < bound -> callback_target function info is_method f j = Some t ->
      (t < hi)%nat) /\
  (forall j j' t,
      j < bound -> j' < bound ->
      callback_target function info is_method f j = Some t ->
      callback_target function info is_method f j' = Some t ->
      j = j').

(** An event that is not the making of a trampoline. *)
Definition makes_no_trampoline (e : Event) : Prop :=
  match e with EvTrampolineNew _ _ => False | _ => True end.


(** What the classifier keeps true of the arrays it has found: the parameter
    that holds the length of an array parameter is skipped, unless it is the
    array itself. *)
Definition array_lengths_skipped (info : GIFunctionInfo)
    (function : Function) : Prop :=
  forall k arg_info,
    g_callable_info_load_arg info k = Some arg_info ->
    param_type_at function k = PARAM_ARRAY ->
    let pos := wrap8 (type_info_array_length (arg_info_type arg_info)) in
    param_type_at function pos = PARAM_SKIPPED \/ pos = k.


(** ** The call hook of the class: [function_call]

    [priv] is what [priv_from_js] finds behind the callee ([None] for the
    prototype or an object of another class), [vp] what the return slot of
    the JavaScript frame holds.  The result carries the slot as the hook
    leaves it. *)
Section Callers.
Context `{Collaborators}.

Definition function_call (priv : option Function) (object : nat)
    (js_argv : list jsval) (vp : jsval) (w : World)
  : option (JSBool * jsval * World) :=
  match priv with
  | None => Some (JS_TRUE, vp, w)
      (* we are the prototype, or have the wrong class *)
  | Some priv =>
      '(success, retval, w) ←
        gjs_invoke_c_function priv object js_argv w;
      match success with
      | JS_TRUE =>
          retval ← retval;                 (* JS_SET_RVAL (context, vp, retval) *)
          Some (JS_TRUE, retval, w)
      | JS_FALSE => Some (JS_FALSE, vp, w)
      end
  end.
End Callers.

(** ** JavaScript that calls native code

    A JavaScript function, as far as the engine can tell: it calls exposed
    functions, one after the other, each time looking at what came back
    (success or an exception, and the return slot), and in the end returns a
    value or throws ([None]). *)
Inductive Script :=
  | JsReturn (rval : option jsval)
  | JsCall (priv : Function) (object : nat) (js_argv : list jsval)
           (rest : JSBool -> jsval -> Script).

Section Scripts.
Context `{Collaborators}.

(** Running a script: every call goes through the call hook of the class,
    [function_call]. *)
Fixpoint run_script (s : Script) (w : World)
  : option (option jsval * World) :=
  match s with
  | JsReturn rval => Some (rval, w)
  | JsCall priv object js_argv rest =>
      let w := log (EvJsCallsNative (native_address (invoker priv))) w in
      '(result, vp, w) ← function_call (Some priv) object js_argv JSVAL_VOID w;
      run_script (rest result vp) w
  end.
End Scripts.

(** The collaborators [c], with another [JS_CallFunctionValue]. *)
Definition with_javascript (c : Collaborators)
    (js : jsval -> list jsval -> World -> option (option jsval * World))
  : Collaborators :=
  {| g_function_info_prep_invoker := @g_function_info_prep_invoker c;
     g_type_info_get_callable := @g_type_info_get_callable c;
     gjs_value_to_arg := @gjs_value_to_arg c;
     gjs_value_to_explicit_array := @gjs_value_to_explicit_array c;
     gjs_value_to_g_argument := @gjs_value_to_g_argument c;
     gjs_value_from_g_argument := @gjs_value_from_g_argument c;
     gjs_value_from_explicit_array := @gjs_value_from_explicit_array c;
     gjs_g_argument_release := @gjs_g_argument_release c;
     gjs_g_argument_release_in_arg := @gjs_g_argument_release_in_arg c;
     gjs_g_argument_release_in_array := @gjs_g_argument_release_in_array c;
     gjs_g_argument_release_out_array := @gjs_g_argument_release_out_array c;
     gjs_g_argument_init_default := @gjs_g_argument_init_default c;
     gjs_c_struct_from_boxed := @gjs_c_struct_from_boxed c;
     gjs_c_union_from_union := @gjs_c_union_from_union c;
     gjs_g_object_from_object := @gjs_g_object_from_object c;
     g_type_is_a_instance := @g_type_is_a_instance c;
     JS_CallFunctionValue := js;
     JS_NewArrayObject := @JS_NewArrayObject c;
     JSVAL_TO_INT := @JSVAL_TO_INT c;
     GArgument_bits := @GArgument_bits c;
     native_call := @native_call c |}.

(** The collaborators [c] with the JavaScript functions of [code]: a
    function called by a trampoline runs its script, and the exposed
    functions the script calls run with the same collaborators, whose
    trampolines may call JavaScript again.  [depth] bounds this nesting;
    past it [JS_CallFunctionValue] gives no answer. *)
Fixpoint reentrant (c : Collaborators) (code : jsval -> list jsval -> Script)
    (depth : nat) : Collaborators :=
  with_javascript c
    (match depth with
     | O => fun _ _ _ => None
     | S depth =>
         fun function jsargs w =>
           run_script (H := reentrant c code depth) (code function jsargs) w
     end).

(** What the theorems ask of [JS_CallFunctionValue], and every [reentrant]
    gives: a JavaScript function changes the state of the engine through
    the exposed functions it calls only. *)
Definition javascript_contract `{Collaborators} : Prop :=
  forall function jsargs w rval w',
    JS_CallFunctionValue function jsargs w = Some (rval, w') ->
    progresses w w' /\ (trace w' = trace w -> w' = w).

(** ** Vocabulary of the further properties *)

(** The width of the signed member of the union [get_length_from_arg] reads
    for a tag. *)
Definition signed_width (tag : GITypeTag) : option Z :=
  match tag with
  | GI_TYPE_TAG_INT8 => Some 8
  | GI_TYPE_TAG_INT16 => Some 16
  | GI_TYPE_TAG_INT32 => Some 32
  | GI_TYPE_TAG_INT64 => Some 64
  | _ => None
  end.

(** The tags [get_length_from_arg] has a case for. *)
Definition is_length_tag (tag : GITypeTag) : bool :=
  match tag with
  | GI_TYPE_TAG_INT8 | GI_TYPE_TAG_UINT8
  | GI_TYPE_TAG_INT16 | GI_TYPE_TAG_UINT16
  | GI_TYPE_TAG_INT32 | GI_TYPE_TAG_UINT32
  | GI_TYPE_TAG_INT64 | GI_TYPE_TAG_UINT64 => true
  | _ => false
  end.

(** The native calls among some events. *)
Definition is_ffi_call (e : Event) : bool :=
  match e with EvFfiCall _ _ _ => true | _ => false end.

Definition ffi_calls (l : list Event) : list Event :=
  List.filter is_ffi_call l.


(** The descriptor as the classifier leaves it, whether or not it
    succeeded. *)
Definition init_result_function (r : init_result) : Function :=
  match r with InitOk function | InitFail _ function => function end.


(** A parameter the classifier treats as a callback, one it treats as an
    array with a length parameter, and the test it makes on the array length
    of the return type. *)
Definition callback_parameter (t : GITypeInfo) : bool :=
  match type_info_tag t with
  | GI_TYPE_TAG_INTERFACE =>
      match base_info_type (type_info_interface t) with
      | GI_INFO_TYPE_CALLBACK => true
      | _ => false
      end
  | _ => false
  end.

Definition length_in_range (n_args : Z) (t : GITypeInfo) : bool :=
  (0 <=? wrap8 (type_info_array_length t)) &&
  (wrap8 (type_info_array_length t) <? n_args).

Definition array_with_length (n_args : Z) (t : GITypeInfo) : bool :=
  match type_info_tag t with
  | GI_TYPE_TAG_ARRAY =>
      match type_info_array_type t with
      | GI_ARRAY_TYPE_C => length_in_range n_args t
      | _ => false
      end
  | _ => false
  end.

(** A parameter that is neither. *)
Definition plain_parameter (n_args : Z) (a : GIArgInfo) : bool :=
  negb (callback_parameter (arg_info_type a)) &&
  negb (array_with_length n_args (arg_info_type a)).

(** How many of some parameters have a direction in a given class. *)
Fixpoint count_directions (p : GIDirection -> bool) (args : list GIArgInfo)
  : Z :=
  match args with
  | [] => 0
  | a :: args =>
      (if p (arg_info_direction a) then 1 else 0) + count_directions p args
  end.


(** The parameters of a callback that are not [void *]. *)
Definition non_void_parameters (arg_infos : list GIArgInfo) : list GIArgInfo :=
  List.filter
    (fun a => negb (GITypeTag_is_void (type_info_tag (arg_info_type a))))
    arg_infos.


(** What the classifier keeps true of the callbacks it has found: the
    destroy notifier and the user data of a callback parameter, where the
    metadata names them among the parameters, are skipped. *)
Definition companions_skipped (info : GIFunctionInfo) (n_args : Z)
    (function : Function) : Prop :=
  forall k arg_info,
    g_callable_info_load_arg info k = Some arg_info ->
    param_type_at function k = PARAM_CALLBACK ->
    (0 <= wrap8 (arg_info_destroy arg_info) < n_args ->
     param_type_at function (wrap8 (arg_info_destroy arg_info))
       = PARAM_SKIPPED) /\
    (0 <= wrap8 (arg_info_closure arg_info) < n_args ->
     param_type_at function (wrap8 (arg_info_closure arg_info))
       = PARAM_SKIPPED).


(** An event that is not native code entering a closure. *)
Definition no_closure_call (e : Event) : Prop :=
  match e with EvClosureCall _ _ => False | _ => True end.

(** From [w] to [w'] the trace grew and, when no JavaScript function
    called an exposed function meanwhile, the list of completed
    trampolines grew by the Async trampolines entered meanwhile. *)
Definition completes (w w' : World) : Prop :=
  exists new,
    trace w' = new ++ trace w /\
    (no_reentry new ->
     completed_trampolines w' = async_calls new ++ completed_trampolines w).


(** The parameters marshaling takes a JavaScript argument for: those that
    are not out and whose role is not Skipped. *)
Definition consumes_argument (function : Function) (info : GIFunctionInfo)
    (k : Z) : bool :=
  match g_callable_info_load_arg info k,
        slot_load (param_types function) k with
  | Some arg_info, Some param_type =>
      is_in_or_inout (arg_info_direction arg_info) &&
      negb (ParamType_eqb param_type PARAM_SKIPPED)
  | _, _ => false
  end.

(** How many of the [todo] parameters from [gi_arg_pos] on do. *)
Fixpoint consumed_arguments (function : Function) (info : GIFunctionInfo)
    (todo : nat) (gi_arg_pos : Z) : Z :=
  match todo with
  | O => 0
  | S todo =>
      (if consumes_argument function info gi_arg_pos then 1 else 0)
      + consumed_arguments function info todo (gi_arg_pos + 1)
  end.

(** ** Test doubles

    Concrete metadata and collaborators, for the examples below. *)
Module Fixtures.

Definition no_interface : GIBaseInfo :=
  {| base_info_type := GI_INFO_TYPE_INVALID; base_info_name := "";
     base_info_namespace := ""; base_info_size := 0 |}.

Definition simple_type (tag : GITypeTag) : GITypeInfo :=
  {| type_info_tag := tag; type_info_interface := no_interface;
     type_info_array_type := GI_ARRAY_TYPE_C; type_info_array_length := -1 |}.

Definition int32_type : GITypeInfo := simple_type GI_TYPE_TAG_INT32.
Definition void_type : GITypeInfo := simple_type GI_TYPE_TAG_VOID.

(** A C array of int32 whose length is parameter [length_pos]. *)
Definition array_type (length_pos : Z) : GITypeInfo :=
  {| type_info_tag := GI_TYPE_TAG_ARRAY; type_info_interface := no_interface;
     type_info_array_type := GI_ARRAY_TYPE_C;
     type_info_array_length := length_pos |}.

Definition interface_type (t : GIInfoType) (ns name : string) (size : Z)
  : GITypeInfo :=
  {| type_info_tag := GI_TYPE_TAG_INTERFACE;
     type_info_interface :=
       {| base_info_type := t; base_info_name := name;
          base_info_namespace := ns; base_info_size := size |};
     type_info_array_type := GI_ARRAY_TYPE_C; type_info_array_length := -1 |}.

Definition callback_type : GITypeInfo :=
  interface_type GI_INFO_TYPE_CALLBACK "Test" "Callback" 0.
Definition destroy_notify_type : GITypeInfo :=
  interface_type GI_INFO_TYPE_CALLBACK "GLib" "DestroyNotify" 0.
Definition struct_type : GITypeInfo :=
  interface_type GI_INFO_TYPE_STRUCT "Test" "Rectangle" 16.

Definition arg (name : string) (direction : GIDirection) (type : GITypeInfo)
  : GIArgInfo :=
  {| arg_info_name := name; arg_info_direction := direction;
     arg_info_type := type; arg_info_caller_allocates := false;
     arg_info_may_be_null := false; arg_info_scope := GI_SCOPE_TYPE_INVALID;
     arg_info_destroy := -1; arg_info_closure := -1;
     arg_info_ownership_transfer := GI_TRANSFER_NOTHING |}.

Definition caller_allocates_arg (name : string) (type : GITypeInfo)
  : GIArgInfo :=
  {| arg_info_name := name; arg_info_direction := GI_DIRECTION_OUT;
     arg_info_type := type; arg_info_caller_allocates := true;
     arg_info_may_be_null := false; arg_info_scope := GI_SCOPE_TYPE_INVALID;
     arg_info_destroy := -1; arg_info_closure := -1;
     arg_info_ownership_transfer := GI_TRANSFER_NOTHING |}.

Definition callback_arg (name : string) (scope : GIScopeType)
    (closure destroy : Z) : GIArgInfo :=
  {| arg_info_name := name; arg_info_direction := GI_DIRECTION_IN;
     arg_info_type := callback_type; arg_info_caller_allocates := false;
     arg_info_may_be_null := false; arg_info_scope := scope;
     arg_info_destroy := destroy; arg_info_closure := closure;
     arg_info_ownership_transfer := GI_TRANSFER_NOTHING |}.

Definition function_info (name : string) (symbol : nat) (throws : bool)
    (return_type : GITypeInfo) (args : list GIArgInfo) : GIFunctionInfo :=
  {| function_info_name := name; function_info_namespace := "Test";
     function_info_args := args; function_info_return_type := return_type;
     function_info_caller_owns := GI_TRANSFER_NOTHING;
     function_info_is_method := false; function_info_throws := throws;
     function_info_container := no_interface;
     function_info_symbol := symbol |}.

(** [void with_destroy (Callback cb, GDestroyNotify destroy)]: the
    callback names a destroy notifier and no user data. *)
Definition with_destroy_info : GIFunctionInfo :=
  function_info "with_destroy" 1 false void_type
    [ callback_arg "cb" GI_SCOPE_TYPE_NOTIFIED (-1) 1;
      arg "destroy" GI_DIRECTION_IN destroy_notify_type ].

(** [void set_notify (gint x, GDestroyNotify notify)]: a destroy notifier
    that no callback parameter names as its companion. *)
Definition set_notify_info : GIFunctionInfo :=
  function_info "set_notify" 14 false void_type
    [ arg "x" GI_DIRECTION_IN int32_type;
      arg "notify" GI_DIRECTION_IN destroy_notify_type ].

(** [void get_items (gint *n_items, gint **items)], both out, the array
    after its length. *)
Definition get_items_info : GIFunctionInfo :=
  function_info "get_items" 2 false void_type
    [ arg "n_items" GI_DIRECTION_OUT int32_type;
      arg "items" GI_DIRECTION_OUT (array_type 0) ].

(** [void get_items_flags (gint *n_items, gint **items, gint flags)] *)
Definition get_items_flags_info : GIFunctionInfo :=
  function_info "get_items_flags" 3 false void_type
    [ arg "n_items" GI_DIRECTION_OUT int32_type;
      arg "items" GI_DIRECTION_OUT (array_type 0);
      arg "flags" GI_DIRECTION_IN int32_type ].

(** [void sum (gint n, gint *xs)]: an in array after its length. *)
Definition sum_info : GIFunctionInfo :=
  function_info "sum" 4 false void_type
    [ arg "n" GI_DIRECTION_IN int32_type;
      arg "xs" GI_DIRECTION_IN (array_type 0) ].

(** Scalar conversions of the test double: integers and null. *)
Definition to_native (v : jsval) : option GArgument :=
  match v with
  | JSVAL_INT z => Some (v_int z)
  | JSVAL_NULL => Some v_null
  | _ => None
  end.

Definition from_native (a : GArgument) : option jsval :=
  match a with
  | v_int z => Some (JSVAL_INT z)
  | v_null => Some JSVAL_NULL
  | v_block b => Some (JSVAL_OBJECT b)
  | v_native p => Some (JSVAL_OBJECT p)
  | _ => None
  end.

Definition to_native_array (v : jsval) : option (GArgument * Z) :=
  match v with
  | JSVAL_ARRAY l => Some (v_native 1000, Z.of_nat (length l))
  | JSVAL_NULL => Some (v_null, 0)
  | _ => None
  end.

(** Collaborators around a given callee; [release_in_ok] is what the
    release of an in argument answers. *)
Definition collaborators
    (native : nat -> list GArgument -> list GArgument -> NativeBehaviour)
    (release_in_ok : bool) : Collaborators :=
  {| g_function_info_prep_invoker info :=
       Some {| cif_nargs :=
                 g_callable_info_get_n_args info
                 + (if function_info_is_method info then 1 else 0)
                 + (if function_info_throws info then 1 else 0);
               native_address := function_info_symbol info |};
     g_type_info_get_callable _ :=
       {| callable_info_args := [];
          callable_info_return_type := int32_type |};
     gjs_value_to_arg v _ := to_native v;
     gjs_value_to_explicit_array v _ := to_native_array v;
     gjs_value_to_g_argument v _ := to_native v;
     gjs_value_from_g_argument _ a := from_native a;
     gjs_value_from_explicit_array _ _ _ := Some (JSVAL_ARRAY []);
     gjs_g_argument_release _ _ _ := true;
     gjs_g_argument_release_in_arg _ _ _ := release_in_ok;
     gjs_g_argument_release_in_array _ _ _ _ := release_in_ok;
     gjs_g_argument_release_out_array _ _ _ _ := true;
     gjs_g_argument_init_default _ := v_int 0;
     gjs_c_struct_from_boxed obj := v_native obj;
     gjs_c_union_from_union obj := v_native obj;
     gjs_g_object_from_object obj := v_native obj;
     g_type_is_a_instance _ _ := true;
     JS_CallFunctionValue f _ w :=
       match f with
       | JSVAL_FUNCTION 0 => Some (None, w)   (* a function that throws *)
       | JSVAL_FUNCTION _ => Some (Some (JSVAL_INT 7), w)
       | _ => Some (None, w)
       end;
     JS_NewArrayObject l := Some (JSVAL_ARRAY l);
     JSVAL_TO_INT v := match v with JSVAL_INT z => z | _ => 0 end;
     GArgument_bits _ := 0;
     native_call := native |}.

(** A callee that does nothing and returns 0. *)
Definition quiet : NativeBehaviour :=
  {| native_actions := []; native_return := v_int 0;
     native_writes := []; native_error := None |}.


(** A trampoline around a JavaScript function, with [n] references. *)
Definition trampoline_of (f : jsval) (scope : GIScopeType) (n : Z)
  : GjsCallbackTrampoline :=
  {| ref_count := n;
     trampoline_info :=
       {| callable_info_args := [];
          callable_info_return_type := int32_type |};
     js_function := f; scope := scope |}.

(** A world whose only trampoline, at address 1, wraps the function that
    throws. *)
Definition throwing_world : World :=
  {| trampolines := {[ 1%nat := trampoline_of (JSVAL_FUNCTION 0)
                                  GI_SCOPE_TYPE_CALL 1 ]};
     completed_trampolines := []; slices := ∅;
     next_address := 2%nat; trace := [] |}.


(** A world whose only trampoline, at address 1, is an Async trampoline
    with one reference around a function that returns 7. *)
Definition waiting_world : World :=
  {| trampolines := {[ 1%nat := trampoline_of (JSVAL_FUNCTION 1)
                                  GI_SCOPE_TYPE_ASYNC 1 ]};
     completed_trampolines := []; slices := ∅;
     next_address := 2%nat; trace := [] |}.

(** The descriptor the classifier builds, with a given callee. *)
Definition classified
    (native : nat -> list GArgument -> list GArgument -> NativeBehaviour)
    (info : GIFunctionInfo) : Function :=
  match init_cached_function_data (H := collaborators native true)
          Function_zero info with
  | InitOk function => function
  | InitFail _ function => function
  end.

(** [void resize (gint **xs, gint *n)], both inout, the length after the
    array. *)
Definition resize_info : GIFunctionInfo :=
  function_info "resize" 6 false void_type
    [ arg "xs" GI_DIRECTION_INOUT (array_type 1);
      arg "n" GI_DIRECTION_INOUT int32_type ].

(** [void merge (gint **xs, gint **ys, gint *n)], all inout, [n] being
    the length of both arrays. *)
Definition merge_info : GIFunctionInfo :=
  function_info "merge" 17 false void_type
    [ arg "xs" GI_DIRECTION_INOUT (array_type 2);
      arg "ys" GI_DIRECTION_INOUT (array_type 2);
      arg "n" GI_DIRECTION_INOUT int32_type ].

Definition Marshal_start (c_argc : Z) : Marshal :=
  {| m_frame := Frame_new c_argc; m_js_arg_pos := 0; m_failed := false;
     m_world := World_empty |}.


(** [gboolean get_extents (Rectangle *extents, GError **error)], the
    rectangle being a caller-allocates out argument. *)
Definition get_extents_info : GIFunctionInfo :=
  function_info "get_extents" 5 true void_type
    [ caller_allocates_arg "extents" struct_type ].

(** [void get_extents_scaled (Rectangle *extents, gint scale)] *)
Definition get_extents_scaled_info : GIFunctionInfo :=
  function_info "get_extents_scaled" 7 false void_type
    [ caller_allocates_arg "extents" struct_type;
      arg "scale" GI_DIRECTION_IN int32_type ].

(** A callee that reports an error through [GError **]. *)
Definition failing : NativeBehaviour :=
  {| native_actions := []; native_return := v_int 0;
     native_writes := []; native_error := Some "no such file" |}.


(** [gboolean load (gint flags, GError **error)] *)
Definition load_info : GIFunctionInfo :=
  function_info "load" 8 true void_type
    [ arg "flags" GI_DIRECTION_IN int32_type ].

(** [gint count (gint flags, gint *total, GError **error)] *)
Definition count_info : GIFunctionInfo :=
  function_info "count" 9 true int32_type
    [ arg "flags" GI_DIRECTION_IN int32_type;
      arg "total" GI_DIRECTION_OUT int32_type ].


(** [void watch (Callback done)], the callback of scope Async. *)
Definition watch_info : GIFunctionInfo :=
  function_info "watch" 10 false void_type
    [ callback_arg "done" GI_SCOPE_TYPE_ASYNC (-1) (-1) ].


(** [void subscribe (Callback done, gpointer user_data,
    GDestroyNotify destroy)], the callback of scope Async. *)
Definition subscribe_info : GIFunctionInfo :=
  function_info "subscribe" 11 false void_type
    [ callback_arg "done" GI_SCOPE_TYPE_ASYNC 1 2;
      arg "user_data" GI_DIRECTION_IN (simple_type GI_TYPE_TAG_VOID);
      arg "destroy" GI_DIRECTION_IN destroy_notify_type ].

(** A callee that calls the destroy notifier on its user data before it
    returns. *)
Definition destroying (address : nat) (in_args out_args : list GArgument)
  : NativeBehaviour :=
  match in_args with
  | [_; v_trampoline t; _] =>
      {| native_actions := [NativeCallsDestroyNotify t];
         native_return := v_int 0; native_writes := [];
         native_error := None |}
  | _ => quiet
  end.


(** The collaborators [c], with a receiver check that answers [ok]. *)
Definition with_receiver_check (c : Collaborators) (ok : bool)
  : Collaborators :=
  {| g_function_info_prep_invoker := @g_function_info_prep_invoker c;
     g_type_info_get_callable := @g_type_info_get_callable c;
     gjs_value_to_arg := @gjs_value_to_arg c;
     gjs_value_to_explicit_array := @gjs_value_to_explicit_array c;
     gjs_value_to_g_argument := @gjs_value_to_g_argument c;
     gjs_value_from_g_argument := @gjs_value_from_g_argument c;
     gjs_value_from_explicit_array := @gjs_value_from_explicit_array c;
     gjs_g_argument_release := @gjs_g_argument_release c;
     gjs_g_argument_release_in_arg := @gjs_g_argument_release_in_arg c;
     gjs_g_argument_release_in_array := @gjs_g_argument_release_in_array c;
     gjs_g_argument_release_out_array := @gjs_g_argument_release_out_array c;
     gjs_g_argument_init_default := @gjs_g_argument_init_default c;
     gjs_c_struct_from_boxed := @gjs_c_struct_from_boxed c;
     gjs_c_union_from_union := @gjs_c_union_from_union c;
     gjs_g_object_from_object := @gjs_g_object_from_object c;
     g_type_is_a_instance _ _ := ok;
     JS_CallFunctionValue := @JS_CallFunctionValue c;
     JS_NewArrayObject := @JS_NewArrayObject c;
     JSVAL_TO_INT := @JSVAL_TO_INT c;
     GArgument_bits := @GArgument_bits c;
     native_call := @native_call c |}.

(** [void Widget.show (Widget *self)]: a method of an object type. *)
Definition show_info : GIFunctionInfo :=
  {| function_info_name := "show"; function_info_namespace := "Test";
     function_info_args := []; function_info_return_type := void_type;
     function_info_caller_owns := GI_TRANSFER_NOTHING;
     function_info_is_method := true; function_info_throws := false;
     function_info_container :=
       {| base_info_type := GI_INFO_TYPE_OBJECT; base_info_name := "Widget";
          base_info_namespace := "Test"; base_info_size := 0 |};
     function_info_symbol := 12 |}.


(** [void fill (gint *n (out), gint *xs (in, array length=n))]: the length
    of the array has another direction than the array. *)
Definition fill_info : GIFunctionInfo :=
  function_info "fill" 13 false void_type
    [ arg "n" GI_DIRECTION_OUT int32_type;
      arg "xs" GI_DIRECTION_IN (array_type 0) ].


(** A callee that calls the closure it is given before it returns. *)
Definition calling_back (address : nat) (in_args out_args : list GArgument)
  : NativeBehaviour :=
  match in_args with
  | [v_closure t] =>
      {| native_actions := [NativeCallsClosure t []];
         native_return := v_int 0; native_writes := [];
         native_error := None |}
  | _ => quiet
  end.

(** [void watch_each (Callback done, Callback each)], [done] of scope
    Async and [each] of scope Call. *)
Definition watch_each_info : GIFunctionInfo :=
  function_info "watch_each" 16 false void_type
    [ callback_arg "done" GI_SCOPE_TYPE_ASYNC (-1) (-1);
      callback_arg "each" GI_SCOPE_TYPE_CALL (-1) (-1) ].

(** A callee that calls the two closures it is given, one after the
    other, before it returns. *)
Definition calling_both (address : nat) (in_args out_args : list GArgument)
  : NativeBehaviour :=
  match in_args with
  | [v_closure t; v_closure t'] =>
      {| native_actions := [NativeCallsClosure t []; NativeCallsClosure t' []];
         native_return := v_int 0; native_writes := [];
         native_error := None |}
  | _ => quiet
  end.

(** [void idle (void)] *)
Definition idle_info : GIFunctionInfo :=
  function_info "idle" 15 false void_type [].

(** [void unsubscribe (void)] *)
Definition unsubscribe_info : GIFunctionInfo :=
  function_info "unsubscribe" 18 false void_type [].

(** Callees of which [unsubscribe] calls the destroy notifier of the
    subscription at address 1 before it returns; the others do nothing. *)
Definition unsubscribing (address : nat) (in_args out_args : list GArgument)
  : NativeBehaviour :=
  if (address =? 18)%nat
  then {| native_actions := [NativeCallsDestroyNotify 1];
          native_return := v_int 0; native_writes := [];
          native_error := None |}
  else quiet.

(** The JavaScript functions: function 0 throws; function 2 calls the
    exposed function [idle] and returns 7; function 3 calls the exposed
    function [unsubscribe] and returns 7; any other function returns 7
    and calls nothing. *)
Definition scripts (function : jsval) (jsargs : list jsval) : Script :=
  match function with
  | JSVAL_FUNCTION 0 => JsReturn None
  | JSVAL_FUNCTION 2 =>
      JsCall (classified (fun _ _ _ => quiet) idle_info) 0 []
        (fun _ _ => JsReturn (Some (JSVAL_INT 7)))
  | JSVAL_FUNCTION 3 =>
      JsCall (classified (fun _ _ _ => quiet) unsubscribe_info) 0 []
        (fun _ _ => JsReturn (Some (JSVAL_INT 7)))
  | JSVAL_FUNCTION _ => JsReturn (Some (JSVAL_INT 7))
  | _ => JsReturn None
  end.

(** The collaborators around a callee, with these JavaScript functions. *)
Definition engine
    (native : nat -> list GArgument -> list GArgument -> NativeBehaviour)
  : Collaborators :=
  reentrant (collaborators native true) scripts 2.

End Fixtures.

(** * Theorems *)

(** ** The classifier *)

Lemma wrap8_range z : 0 <= wrap8 z < 256.
Proof. unfold wrap8. apply Z.mod_pos_bound. lia. Qed.

Lemma wrap8_small z : 0 <= z < 256 -> wrap8 z = z.
Proof. intros. unfold wrap8. apply Z.mod_small. lia. Qed.

Lemma ParamType_eqb_eq a b : ParamType_eqb a b = true <-> a = b.
Proof. destruct a, b; simpl; split; congruence. Qed.

Lemma param_type_at_mark_eq function i t :
  0 <= i < Z.of_nat (length (param_types function)) ->
  param_type_at (mark_param function i t) i = t.
Proof.
  intros Hi. unfold param_type_at, mark_param. simpl.
  rewrite list_lookup_insert_eq; [done | lia].
Qed.

Lemma param_type_at_mark_ne function i j t :
  0 <= i -> 0 <= j -> i <> j ->
  param_type_at (mark_param function i t) j = param_type_at function j.
Proof.
  intros Hi Hj Hne. unfold param_type_at, mark_param. simpl.
  rewrite list_lookup_insert_ne; [done | lia].
Qed.

Lemma length_mark_param function i t :
  length (param_types (mark_param function i t)) =
  length (param_types function).
Proof. unfold mark_param. simpl. apply length_insert. Qed.

(** Marking a parameter skipped never un-skips another one. *)
Lemma mark_skipped_keeps function i j :
  0 <= i -> 0 <= j ->
  param_type_at function j = PARAM_SKIPPED ->
  param_type_at (mark_param function i PARAM_SKIPPED) j = PARAM_SKIPPED.
Proof.
  intros Hi Hj Hs. destruct (decide (i = j)) as [->|Hne].
  - unfold param_type_at, mark_param in *. simpl.
    destruct (param_types function !! Z.to_nat j) eqn:E; [|done].
    rewrite list_lookup_insert_eq; [done|]. by eapply lookup_lt_Some.
  - by rewrite param_type_at_mark_ne.
Qed.

(** What [count_param] leaves alone. *)
Lemma count_param_types i d function :
  param_types (count_param i d function) = param_types function.
Proof.
  unfold count_param.
  destruct (param_type_at function i), (is_in_or_inout d), (is_out_or_inout d);
    reflexivity.
Qed.

Lemma count_param_skipped i d function :
  param_type_at function i = PARAM_SKIPPED -> count_param i d function = function.
Proof. unfold count_param. by intros ->. Qed.

(** The roles a turn of the loop hands out: the length of the array of
    roles stays, and a skipped parameter other than the current one stays
    skipped. *)
Lemma classify_callback_roles n_args i arg_info interface_info function function' :
  0 <= i ->
  classify_callback n_args i arg_info interface_info function = InitOk function' ->
  length (param_types function') = length (param_types function) /\
  forall j, 0 <= j -> j <> i ->
    param_type_at function j = PARAM_SKIPPED ->
    param_type_at function' j = PARAM_SKIPPED.
Proof.
  intros Hi. unfold classify_callback.
  destruct (_ && _) eqn:Hname.
  - intros [= <-]. rewrite length_mark_param. split; [done|].
    intros j Hj Hne Hs. by rewrite param_type_at_mark_ne.
  - pose proof (wrap8_range (arg_info_destroy arg_info)) as Hd.
    pose proof (wrap8_range (arg_info_closure arg_info)) as Hc.
    destruct ((0 <=? wrap8 (arg_info_destroy arg_info)) &&
              (wrap8 (arg_info_closure arg_info) <? 0)) eqn:Hdead; [done|].
    intros [= <-]. split.
    + repeat case_match; rewrite ?length_mark_param; simpl;
        rewrite ?length_insert; done.
    + intros j Hj Hne Hs.
      assert (param_type_at
                (set_expected_js_argc (mark_param function i PARAM_CALLBACK)
                   (wrap8 (expected_js_argc
                             (mark_param function i PARAM_CALLBACK) + 1))) j
              = PARAM_SKIPPED) as Hs'.
      { unfold param_type_at in *. simpl.
        rewrite list_lookup_insert_ne; [done | lia]. }
      repeat case_match; repeat apply mark_skipped_keeps; try lia; done.
Qed.

Lemma classify_array_roles info n_args i d type_info function function' :
  0 <= i ->
  classify_array info n_args i d type_info function = InitOk function' ->
  length (param_types function') = length (param_types function) /\
  forall j, 0 <= j -> j <> i ->
    param_type_at function j = PARAM_SKIPPED ->
    param_type_at function' j = PARAM_SKIPPED.
Proof.
  intros Hi. unfold classify_array.
  pose proof (wrap8_range (type_info_array_length type_info)) as Hl.
  set (pos := wrap8 (type_info_array_length type_info)) in *.
  assert (forall f, length (param_types f) = length (param_types function) ->
            (forall j, 0 <= j -> j <> i ->
               param_type_at function j = PARAM_SKIPPED ->
               param_type_at f j = PARAM_SKIPPED) ->
            length (param_types f) = length (param_types function) /\
            forall j, 0 <= j -> j <> i ->
               param_type_at function j = PARAM_SKIPPED ->
               param_type_at f j = PARAM_SKIPPED) as Hconj by auto.
  assert (forall j, 0 <= j -> j <> i ->
            param_type_at function j = PARAM_SKIPPED ->
            param_type_at
              (mark_param (mark_param function pos PARAM_SKIPPED) i PARAM_ARRAY) j
            = PARAM_SKIPPED) as Hmarked.
  { intros j Hj Hne Hs. rewrite param_type_at_mark_ne by lia.
    apply mark_skipped_keeps; [lia | done | done]. }
  destruct (type_info_array_type type_info); try (intros [= <-]; by apply Hconj).
  destruct (_ && _); [|intros [= <-]; by apply Hconj].
  destruct (g_callable_info_load_arg info pos); [|intros [= <-]; by apply Hconj].
  destruct (negb _); [done|].
  destruct (pos <? i); [|intros [= <-]].
  - destruct (is_out_or_inout d); intros [= <-]; apply Hconj; simpl;
      rewrite ?length_insert; try done.
  - apply Hconj; [|done]. by rewrite !length_mark_param.
Qed.

Lemma classify_param_roles info n_args i function function' :
  0 <= i ->
  classify_param info n_args i function = InitOk function' ->
  length (param_types function') = length (param_types function) /\
  forall j, 0 <= j ->
    param_type_at function j = PARAM_SKIPPED ->
    param_type_at function' j = PARAM_SKIPPED.
Proof.
  intros Hi. unfold classify_param.
  destruct (param_type_at function i) eqn:Hpi;
    try (intros [= <-]; done);
    (destruct (g_callable_info_load_arg info i) as [arg_info|];
       [|intros [= <-]; done]);
    (assert (forall j, param_type_at function j = PARAM_SKIPPED -> j <> i)
       as Hne by (intros j Hj ->; congruence));
    match goal with
    | |- match ?m with _ => _ end = _ -> _ => destruct m as [f1|] eqn:Hm
    end; try done; intros [= <-]; rewrite count_param_types;
    unfold param_type_at; rewrite count_param_types;
    fold (param_type_at f1);
    repeat case_match; simplify_eq;
    try (split; [done|]; intros; done);
    try (apply classify_callback_roles in Hm as [? Hk]; [|done];
         split; [done|]; intros j ? Hs; apply Hk; auto);
    try (apply classify_array_roles in Hm as [? Hk]; [|done];
         split; [done|]; intros j ? Hs; apply Hk; auto).
Qed.

Lemma classify_loop_roles info n_args todo i function function' :
  0 <= i ->
  classify_loop info n_args todo i function = InitOk function' ->
  length (param_types function') = length (param_types function) /\
  forall j, 0 <= j ->
    param_type_at function j = PARAM_SKIPPED ->
    param_type_at function' j = PARAM_SKIPPED.
Proof.
  revert i function. induction todo as [|todo IH]; intros i function Hi; simpl.
  - intros [= <-]. done.
  - destruct (classify_param info n_args i function) as [f1|] eqn:Hp; [|done].
    intros Hl. apply classify_param_roles in Hp as [Hlen Hk]; [|done].
    apply IH in Hl as [Hlen' Hk']; [|lia].
    split; [congruence|]. intros j Hj Hs. apply Hk', Hk; done.
Qed.

(** A turn of the loop at a parameter whose type is the callback
    GLib.DestroyNotify: the parameter is skipped and nothing is counted. *)
Lemma classify_param_destroy_notify info n_args i arg_info function :
  0 <= i < Z.of_nat (length (param_types function)) ->
  g_callable_info_load_arg info i = Some arg_info ->
  type_info_tag (arg_info_type arg_info) = GI_TYPE_TAG_INTERFACE ->
  base_info_type (type_info_interface (arg_info_type arg_info))
    = GI_INFO_TYPE_CALLBACK ->
  base_info_name (type_info_interface (arg_info_type arg_info))
    = "DestroyNotify" ->
  base_info_namespace (type_info_interface (arg_info_type arg_info)) = "GLib" ->
  exists function',
    classify_param info n_args i function = InitOk function' /\
    param_type_at function' i = PARAM_SKIPPED /\
    expected_js_argc function' = expected_js_argc function /\
    js_out_argc function' = js_out_argc function.
Proof.
  intros Hi Harg Htag Htype Hname Hns. unfold classify_param.
  destruct (param_type_at function i) eqn:Hpi;
    try (eexists; split; [reflexivity|]; done);
    rewrite Harg, Htag, Htype; unfold classify_callback;
    rewrite Hname, Hns; simpl;
    (eexists; split; [reflexivity|]);
    (rewrite count_param_skipped; [|by apply param_type_at_mark_eq]);
    (split; [by apply param_type_at_mark_eq | done]).
Qed.

Lemma classify_loop_destroy_notify info n_args todo k i arg_info function function' :
  0 <= k <= i -> i < k + Z.of_nat todo ->
  i < Z.of_nat (length (param_types function)) ->
  g_callable_info_load_arg info i = Some arg_info ->
  type_info_tag (arg_info_type arg_info) = GI_TYPE_TAG_INTERFACE ->
  base_info_type (type_info_interface (arg_info_type arg_info))
    = GI_INFO_TYPE_CALLBACK ->
  base_info_name (type_info_interface (arg_info_type arg_info))
    = "DestroyNotify" ->
  base_info_namespace (type_info_interface (arg_info_type arg_info)) = "GLib" ->
  classify_loop info n_args todo k function = InitOk function' ->
  param_type_at function' i = PARAM_SKIPPED.
Proof.
  intros Hk Hi Hlen Harg Htag Htype Hname Hns.
  revert k function Hk Hi Hlen.
  induction todo as [|todo IH]; intros k function Hk Hi Hlen; [lia|]. simpl.
  destruct (classify_param info n_args k function) as [f1|] eqn:Hp; [|done].
  intros Hl. destruct (decide (k = i)) as [->|Hne].
  - destruct (classify_param_destroy_notify info n_args i arg_info function)
      as (f & Hf & Hs & _); try done; [lia|].
    rewrite Hf in Hp. simplify_eq.
    apply classify_loop_roles in Hl as [_ Hkeep]; [|lia].
    apply Hkeep; [lia | done].
  - apply classify_param_roles in Hp as [Hlen' _]; [|lia].
    apply (IH (k + 1) f1); [lia | lia | lia | done].
Qed.

(** ** Marshaling a skipped parameter *)

Section MarshalSkipped.
Context `{Collaborators}.

Lemma marshal_out_js_arg_pos arg_info c_arg_pos m m' :
  marshal_out arg_info c_arg_pos m = Some m' ->
  m_js_arg_pos m' = m_js_arg_pos m.
Proof.
  unfold marshal_out. intros Hm.
  repeat case_match; simplify_option_eq; done.
Qed.

Lemma marshal_arg_skipped function info is_method c_argc js_argv
    gi_arg_pos c_arg_pos m m' :
  0 <= gi_arg_pos ->
  param_type_at function gi_arg_pos = PARAM_SKIPPED ->
  marshal_arg function info is_method c_argc js_argv gi_arg_pos c_arg_pos m
    = Some m' ->
  m_js_arg_pos m' = m_js_arg_pos m.
Proof.
  intros Hpos Hs. unfold marshal_arg. intros Hm.
  assert (slot_load (param_types function) gi_arg_pos = Some PARAM_SKIPPED)
    as Hload.
  { unfold slot_load, param_type_at in *.
    destruct (gi_arg_pos <? 0) eqn:E; [lia|].
    destruct (param_types function !! Z.to_nat gi_arg_pos); simpl in *;
      congruence. }
  simplify_option_eq.
  destruct (arg_info_direction _) eqn:Hd.
  - unfold marshal_in in Hm. rewrite Hload, Hd in Hm.
    simplify_option_eq. rewrite andb_false_r in Hm. by simplify_eq.
  - by apply marshal_out_js_arg_pos in Hm.
  - unfold marshal_in in Hm. rewrite Hload, Hd in Hm.
    simplify_option_eq. rewrite andb_false_r in Hm. by simplify_eq.
Qed.
End MarshalSkipped.

(** C10. A parameter whose type is the callback named DestroyNotify in
    namespace GLib gets the role [PARAM_SKIPPED] on the strength of the
    name and the namespace alone, whatever its direction or scope and
    whether or not an earlier callback named it as its companion: the turn
    of the classifier loop at that parameter leaves [expected_js_argc] and
    [js_out_argc] as they were, the finished descriptor has
    [PARAM_SKIPPED] (so never [PARAM_CALLBACK]) at its index, and
    marshaling that parameter does not advance [js_arg_pos]. *)
Theorem destroy_notify_parameter_is_skipped `{Collaborators}
    (info : GIFunctionInfo) (i : Z) (arg_info : GIArgInfo)
    (function0 function : Function) :
  0 <= i < init_n_args info ->
  g_callable_info_load_arg info i = Some arg_info ->
  type_info_tag (arg_info_type arg_info) = GI_TYPE_TAG_INTERFACE ->
  base_info_type (type_info_interface (arg_info_type arg_info))
    = GI_INFO_TYPE_CALLBACK ->
  base_info_name (type_info_interface (arg_info_type arg_info))
    = "DestroyNotify" ->
  base_info_namespace (type_info_interface (arg_info_type arg_info)) = "GLib" ->
  init_cached_function_data function0 info = InitOk function ->
  param_type_at function i = PARAM_SKIPPED /\
  (forall f, length (param_types f) = Z.to_nat (init_n_args info) ->
     exists f',
       classify_param info (init_n_args info) i f = InitOk f' /\
       param_type_at f' i = PARAM_SKIPPED /\
       expected_js_argc f' = expected_js_argc f /\
       js_out_argc f' = js_out_argc f) /\
  (forall is_method c_argc js_argv c_arg_pos m m',
     marshal_arg function info is_method c_argc js_argv i c_arg_pos m = Some m' ->
     m_js_arg_pos m' = m_js_arg_pos m).
Proof.
  intros Hi Harg Htag Htype Hname Hns Hinit.
  assert (param_type_at function i = PARAM_SKIPPED) as Hskipped.
  { unfold init_cached_function_data in Hinit.
    destruct (g_function_info_prep_invoker info) as [inv|]; [|done].
    match type of Hinit with
    | match classify_loop _ _ _ _ ?f with _ => _ end = _ =>
        assert (length (param_types f) = Z.to_nat (init_n_args info)) as Hlen
          by (repeat case_match; simpl; rewrite ?length_insert;
              apply length_replicate);
        destruct (classify_loop info (init_n_args info)
                    (Z.to_nat (init_n_args info)) 0 f) as [f1|] eqn:Hloop;
          [|done]
    end.
    injection Hinit as <-.
    eapply classify_loop_destroy_notify in Hloop; eauto; lia. }
  split; [done|]. split.
  - intros f Hlen.
    apply (classify_param_destroy_notify info _ i arg_info f); try done. lia.
  - intros is_method c_argc js_argv c_arg_pos m m' Hm.
    eapply marshal_arg_skipped; [| |exact Hm]; [lia | done].
Qed.

(** The test [destroy >= 0 && closure < 0] of line 1163 compares two
    [guint8]: it never holds, so the classifier never reports a destroy
    notifier without user data. *)
Lemma classify_callback_never_fails n_args i arg_info interface_info function e f :
  classify_callback n_args i arg_info interface_info function <> InitFail e f.
Proof.
  unfold classify_callback.
  pose proof (wrap8_range (arg_info_closure arg_info)) as Hc.
  destruct (_ && _); [done|].
  replace (wrap8 (arg_info_closure arg_info) <? 0) with false by lia.
  rewrite andb_false_r. done.
Qed.

Lemma classify_loop_failure info n_args todo i function e f :
  classify_loop info n_args todo i function = InitFail e f ->
  e = ERR_ARRAY_LENGTH_DIRECTION.
Proof.
  revert i function. induction todo as [|todo IH]; intros i function; [done|].
  simpl. destruct (classify_param info n_args i function) as [f1|e1 f1] eqn:Hp.
  - apply IH.
  - intros [= <- <-]. unfold classify_param in Hp.
    repeat case_match; simplify_eq.
    all: try match goal with
      | H : classify_callback _ _ _ _ _ = InitFail _ _ |- _ =>
          by apply classify_callback_never_fails in H
      | H : classify_array _ _ _ _ _ _ = InitFail _ _ |- _ =>
          unfold classify_array in H; repeat case_match; by simplify_eq
      end.
Qed.

Lemma init_never_reports_destroy_without_user_data `{Collaborators}
    function0 info e function :
  init_cached_function_data function0 info = InitFail e function ->
  e <> ERR_DESTROY_WITHOUT_USER_DATA.
Proof.
  unfold init_cached_function_data.
  destruct (g_function_info_prep_invoker info); [|by intros [= <- <-]].
  match goal with
  | |- match ?l with _ => _ end = _ -> _ => destruct l eqn:Hloop
  end; [done|].
  intros [= <- <-]. by apply classify_loop_failure in Hloop as ->.
Qed.

(** C2 (the code departs from the claim).  [with_destroy] has a callback
    whose metadata names a destroy notifier (parameter 1) and no user data
    (closure [-1]); [init_cached_function_data] returns success for it, with
    the callback counted as one JavaScript argument, instead of throwing
    "has a GDestroyNotify but no user_data, not supported". *)
Theorem destroy_without_user_data_is_accepted :
  exists function,
    init_cached_function_data
      (H := Fixtures.collaborators (fun _ _ _ => Fixtures.quiet) true)
      Function_zero Fixtures.with_destroy_info = InitOk function /\
    param_types function = [PARAM_CALLBACK; PARAM_SKIPPED] /\
    expected_js_argc function = 1.
Proof. eexists. split; [reflexivity|]. split; reflexivity. Qed.

(** What the array branch does to the counters when the length parameter
    comes first: [expected_js_argc] goes down by one whatever the
    direction, [js_out_argc] only for out and inout. *)
Lemma classify_array_uncounts info n_args i d type_info length_arg_info function :
  type_info_array_type type_info = GI_ARRAY_TYPE_C ->
  0 <= type_info_array_length type_info < i -> i < n_args -> n_args < 256 ->
  g_callable_info_load_arg info (type_info_array_length type_info)
    = Some length_arg_info ->
  arg_info_direction length_arg_info = d ->
  exists function',
    classify_array info n_args i d type_info function = InitOk function' /\
    expected_js_argc function' = wrap8 (expected_js_argc function - 1) /\
    js_out_argc function' =
      if is_out_or_inout d then wrap8 (js_out_argc function - 1)
      else js_out_argc function.
Proof.
  intros Hc Hpos Hi Hn Hload Hd. unfold classify_array. rewrite Hc.
  rewrite (wrap8_small (type_info_array_length type_info)) by lia.
  replace ((0 <=? type_info_array_length type_info) &&
           (type_info_array_length type_info <? n_args)) with true by lia.
  rewrite Hload, Hd.
  replace (GIDirection_eqb d d) with true by (by destruct d).
  replace (type_info_array_length type_info <? i) with true by lia.
  simpl. destruct (is_out_or_inout d); eexists; (split; [reflexivity|]); done.
Qed.

(** C4 (the code departs from the claim).  In [get_items] the out length
    [n_items] comes before the out array [items].  Classified as Normal,
    [n_items] added nothing to [expected_js_argc] and one to
    [js_out_argc]; the array branch then takes one off both, and the
    [guint8] [expected_js_argc] wraps from 0 to 255. *)
Theorem out_length_uncounted_from_expected_js_argc :
  exists function,
    init_cached_function_data
      (H := Fixtures.collaborators (fun _ _ _ => Fixtures.quiet) true)
      Function_zero Fixtures.get_items_info = InitOk function /\
    param_types function = [PARAM_SKIPPED; PARAM_ARRAY] /\
    expected_js_argc function = 255 /\
    js_out_argc function = 1.
Proof. eexists. split; [reflexivity|]. repeat split; reflexivity. Qed.

(** The witness of [destroy_notify_parameter_is_skipped]: parameter 1 of
    [set_notify], which no callback names as its companion: it is the match
    of the name that skips it, and the function takes one argument. *)
Lemma destroy_notify_parameter_is_skipped_witness :
  param_type_at
    {| info := Some Fixtures.set_notify_info;
       param_types := [PARAM_NORMAL; PARAM_SKIPPED];
       expected_js_argc := 1; js_out_argc := 0;
       invoker := {| cif_nargs := 2; native_address := 14%nat |} |} 1
  = PARAM_SKIPPED.
Proof.
  refine (proj1 (destroy_notify_parameter_is_skipped
            (H := Fixtures.collaborators (fun _ _ _ => Fixtures.quiet) true)
            Fixtures.set_notify_info 1
            (Fixtures.arg "notify" GI_DIRECTION_IN Fixtures.destroy_notify_type)
            Function_zero _ _ _ _ _ _ _ _));
    [vm_compute; split; congruence | reflexivity..].
Defined.

(** ** Trampolines called from native code *)

Section ClosureCall.
Context `{Collaborators}.

(** With an argument for each parameter of the callback, the loop over
    the arguments ends, in [Some None] exactly when some argument does
    not convert. *)
Lemma closure_args_loop_total arg_infos k args jsargs :
  (length arg_infos + k <= length args)%nat ->
  exists r, closure_args_loop arg_infos k args jsargs = Some r.
Proof.
  revert k jsargs. induction arg_infos as [|a l IH]; intros k jsargs Hlen; simpl.
  - eauto.
  - simpl in Hlen. destruct (GITypeTag_is_void _).
    + apply IH. lia.
    + destruct (lookup_lt_is_Some_2 args k) as [arg Harg]; [lia|].
      rewrite Harg. simpl. destruct (gjs_value_from_g_argument _ arg).
      * apply IH. lia.
      * eauto.
Qed.

Lemma closure_args_loop_None arg_infos k args jsargs :
  (length arg_infos + k <= length args)%nat ->
  closure_args_loop arg_infos k args jsargs = Some None <->
  (exists (i : nat) arg_info arg,
      arg_infos !! i = Some arg_info /\
      GITypeTag_is_void (type_info_tag (arg_info_type arg_info)) = false /\
      args !! (k + i)%nat = Some arg /\
      gjs_value_from_g_argument (arg_info_type arg_info) arg = None).
Proof.
  revert k jsargs.
  induction arg_infos as [|a l IH]; intros k jsargs Hlen; simpl in *.
  - split; [done|]. intros (i & ? & ? & Hi & _). by rewrite lookup_nil in Hi.
  - assert (forall js,
        closure_args_loop l (S k) args js = Some None <->
        exists (i : nat) arg_info arg,
          (a :: l) !! S i = Some arg_info /\
          GITypeTag_is_void (type_info_tag (arg_info_type arg_info)) = false /\
          args !! (k + S i)%nat = Some arg /\
          gjs_value_from_g_argument (arg_info_type arg_info) arg = None)
      as Htail.
    { intros js. rewrite IH by lia. simpl.
      by setoid_rewrite <- Nat.add_succ_comm. }
    destruct (GITypeTag_is_void (type_info_tag (arg_info_type a))) eqn:Hvoid.
    + rewrite Htail. split.
      * intros (i & ai & arg & ?). by exists (S i), ai, arg.
      * intros ([|i] & ai & arg & Hi & Hv & ?); simpl in *; [congruence|].
        by exists i, ai, arg.
    + destruct (lookup_lt_is_Some_2 args k) as [arg Harg]; [lia|].
      rewrite Harg. simpl.
      destruct (gjs_value_from_g_argument (arg_info_type a) arg) eqn:Hconv.
      * rewrite Htail. split.
        -- intros (i & ai & arg' & ?). by exists (S i), ai, arg'.
        -- intros ([|i] & ai & arg' & Hi & Hv & Harg' & Hconv'); simpl in *.
           { rewrite Nat.add_0_r in Harg'. congruence. }
           by exists i, ai, arg'.
      * split; [intros _|done].
        exists 0%nat, a, arg. by rewrite Nat.add_0_r.
Qed.

End ClosureCall.



(** ** The call frame *)

Lemma slot_store_Some {A} (l : list A) i v :
  0 <= i < Z.of_nat (length l) ->
  slot_store l i v = Some (<[Z.to_nat i := v]> l).
Proof.
  intros Hi. unfold slot_store.
  replace ((0 <=? i) && (i <? Z.of_nat (length l))) with true by lia. done.
Qed.

Lemma slot_store_inv {A} (l l' : list A) i v :
  slot_store l i v = Some l' ->
  0 <= i < Z.of_nat (length l) /\ l' = <[Z.to_nat i := v]> l.
Proof.
  unfold slot_store. destruct (_ && _) eqn:E; [|done].
  intros [= <-]. split; [lia | done].
Qed.

Lemma slot_load_insert_eq {A} (l : list A) i v :
  0 <= i < Z.of_nat (length l) ->
  slot_load (<[Z.to_nat i := v]> l) i = Some v.
Proof.
  intros Hi. unfold slot_load. replace (i <? 0) with false by lia.
  apply list_lookup_insert_eq. lia.
Qed.

Lemma slot_load_insert_ne {A} (l : list A) i j v :
  0 <= i -> i <> j ->
  slot_load (<[Z.to_nat i := v]> l) j = slot_load l j.
Proof.
  intros Hi Hne. unfold slot_load. destruct (j <? 0) eqn:E; [done|].
  apply list_lookup_insert_ne. lia.
Qed.

(** ** Caller-allocated blocks *)

(** C1 (the code departs from the claim).  [get_extents] has a
    caller-allocates out argument and can throw.  When the callee reports
    an error, the release pass skips the out arguments (line 800), and with
    them the [g_slice_free1] of line 869: the 16-byte block of line 481 is
    still allocated when the call returns. *)
Theorem caller_allocated_block_leaks_on_native_error :
  exists w',
    gjs_invoke_c_function
      (H := Fixtures.collaborators (fun _ _ _ => Fixtures.failing) true)
      (Fixtures.classified (fun _ _ _ => Fixtures.failing)
         Fixtures.get_extents_info)
      0 [] World_empty = Some (JS_FALSE, Some JSVAL_VOID, w') /\
    slices w' !! 1%nat = Some 16 /\
    trace w' =
      [EvErrorFree; EvThrow (ERR_INVOKING "no such file");
       EvFfiCall 5 [v_block 1; v_error_slot] (Some "no such file");
       EvSliceAlloc 1 16].
Proof. eexists. split; [vm_compute; reflexivity|]. split; reflexivity. Qed.

(** The same block is freed, once, when the callee succeeds. *)
Example caller_allocated_block_freed_on_success :
  exists w',
    gjs_invoke_c_function
      (H := Fixtures.collaborators (fun _ _ _ => Fixtures.quiet) true)
      (Fixtures.classified (fun _ _ _ => Fixtures.quiet)
         Fixtures.get_extents_info)
      0 [] World_empty = Some (JS_TRUE, Some (JSVAL_OBJECT 1), w') /\
    slices w' !! 1%nat = None /\
    trace w' =
      [EvReleaseOut 0; EvSliceFree 1; EvConvertOut 0;
       EvFfiCall 5 [v_block 1; v_error_slot] None; EvSliceAlloc 1 16].
Proof. eexists. split; [vm_compute; reflexivity|]. split; reflexivity. Qed.

(** It also stays allocated when a later argument does not convert. *)
Example caller_allocated_block_leaks_on_conversion_failure :
  exists w',
    gjs_invoke_c_function
      (H := Fixtures.collaborators (fun _ _ _ => Fixtures.quiet) true)
      (Fixtures.classified (fun _ _ _ => Fixtures.quiet)
         Fixtures.get_extents_scaled_info)
      0 [JSVAL_STRING "two"] World_empty = Some (JS_FALSE, None, w') /\
    slices w' !! 1%nat = Some 16 /\
    trace w' = [EvSliceAlloc 1 16].
Proof. eexists. split; [vm_compute; reflexivity|]. split; reflexivity. Qed.

(** ** The number of arguments *)

Section Arity.
Context `{Collaborators}.

(** Fewer arguments than [expected_js_argc]: "Too few arguments" is
    thrown and the call returns at once, after the drain of the completed
    trampolines and before anything is marshalled or called. *)
Lemma too_few_arguments function info0 obj js_argv w w1 :
  free_completed_trampolines w = Some w1 ->
  info function = Some info0 ->
  Z.of_nat (length js_argv) < expected_js_argc function ->
  gjs_invoke_c_function function obj js_argv w =
    Some (JS_FALSE, None,
          gjs_throw (ERR_TOO_FEW_ARGUMENTS (expected_js_argc function)
                       (Z.of_nat (length js_argv))) w1).
Proof.
  intros Hdrain Hinfo Hfew. unfold gjs_invoke_c_function.
  rewrite Hdrain. simpl. rewrite Hinfo. simpl.
  replace (Z.of_nat (length js_argv) <? expected_js_argc function)
    with true by lia.
  done.
Qed.
End Arity.

(** C5 (the code departs from the claim).  For [get_items_flags], whose
    out length comes before its out array, [expected_js_argc] is 0 although
    the in parameter [flags] consumes a JavaScript argument.  Called with
    no argument, the call passes the arity check and stops on the assertion
    of line 599; called with one argument, the "extra" argument is
    converted and handed to the callee. *)
Theorem uncounted_argument_is_consumed :
  let function :=
    Fixtures.classified (fun _ _ _ => Fixtures.quiet)
      Fixtures.get_items_flags_info in
  expected_js_argc function = 0 /\
  gjs_invoke_c_function
    (H := Fixtures.collaborators (fun _ _ _ => Fixtures.quiet) true)
    function 0 [] World_empty = None /\
  exists w',
    gjs_invoke_c_function
      (H := Fixtures.collaborators (fun _ _ _ => Fixtures.quiet) true)
      function 0 [JSVAL_INT 5] World_empty
    = Some (JS_TRUE, Some (JSVAL_ARRAY []), w') /\
    trace w' =
      [EvReleaseIn 2 true; EvReleaseOut 1; EvConvertOut 1;
       EvFfiCall 3 [v_out_slot 0; v_out_slot 1; v_int 5] None].
Proof.
  split; [reflexivity|]. split; [vm_compute; reflexivity|].
  eexists. split; [vm_compute; reflexivity|]. reflexivity.
Qed.

(** ** How the trampolines evolve *)

Lemma same_callback_refl tr : same_callback tr tr.
Proof. by repeat split. Qed.

Lemma evolves_refl w : evolves w w.
Proof.
  split; [done|]. split.
  - intros t _. destruct (trampolines w !! t); [|done].
    split; [apply same_callback_refl | done].
  - intros t _ Hlive. by left.
Qed.

Lemma evolves_trans w1 w2 w3 :
  evolves w1 w2 -> evolves w2 w3 -> evolves w1 w3.
Proof.
  intros (Hn1 & Hold1 & Hnew1) (Hn2 & Hold2 & Hnew2). split; [lia|]. split.
  - intros t Ht. specialize (Hold1 t Ht).
    assert (t < next_address w2)%nat as Ht2 by lia.
    specialize (Hold2 t Ht2).
    destruct (trampolines w1 !! t) as [tr1|],
             (trampolines w2 !! t) as [tr2|],
             (trampolines w3 !! t) as [tr3|]; try done.
    destruct Hold1 as [(Hi1 & Hf1 & Hs1) H1], Hold2 as [(Hi2 & Hf2 & Hs2) H2].
    split; [repeat split; congruence|].
    intros Hone. specialize (H1 Hone). subst tr2. by apply H2.
  - intros t Ht Hlive.
    destruct (decide (t < next_address w2)%nat) as [Hlt | Hge]; [right; lia|].
    destruct (Hnew2 t ltac:(lia) Hlive) as [Hl | Hl]; [|by right].
    destruct (Hnew1 t Ht Hl) as [Hl1 | Hl1]; [by left | lia].
Qed.

(** A step that leaves every trampoline below the next address as it was,
    or drops a reference of it, and makes trampolines at new addresses
    only. *)
Lemma evolves_intro w w' :
  (next_address w <= next_address w')%nat ->
  (forall t, (t < next_address w)%nat ->
     trampolines w' !! t = trampolines w !! t \/
     exists tr,
       trampolines w !! t = Some tr /\
       trampolines w' !! t =
         if ref_count tr =? 1 then None
         else Some (set_ref_count tr (ref_count tr - 1))) ->
  (forall t, (next_address w <= t)%nat ->
     is_Some (trampolines w' !! t) ->
     is_Some (trampolines w !! t) \/ (t < next_address w')%nat) ->
  evolves w w'.
Proof.
  intros Hnext Hold Hnew. split; [done|]. split; [|done].
  intros t Ht. destruct (Hold t Ht) as [-> | (tr & -> & ->)].
  - destruct (trampolines w !! t); [|done].
    split; [apply same_callback_refl | done].
  - destruct (ref_count tr =? 1) eqn:Hone; [done|].
    split; [by repeat split | lia].
Qed.

Lemma evolves_heap w w' :
  trampolines w' = trampolines w ->
  (next_address w <= next_address w')%nat -> evolves w w'.
Proof.
  intros Hheap Hnext. apply evolves_intro; [done| |].
  - intros t _. left. by rewrite Hheap.
  - intros t _. rewrite Hheap. by left.
Qed.

Lemma evolves_ok w w' : evolves w w' -> World_ok w -> World_ok w'.
Proof.
  intros (Hnext & _ & Hnew) Hok t Hlive.
  destruct (decide (t < next_address w)%nat) as [Hlt | Hge]; [lia|].
  destruct (Hnew t ltac:(lia) Hlive) as [Hl | Hl]; [|done].
  apply Hok in Hl. lia.
Qed.

(** What is left, at an address handed out before, of a trampoline with one
    reference. *)
Lemma evolves_last_reference w w' t tr :
  evolves w w' -> (t < next_address w)%nat -> ref_count tr = 1 ->
  trampolines w !! t = Some tr \/ trampolines w !! t = None ->
  trampolines w' !! t = Some tr \/ trampolines w' !! t = None.
Proof.
  intros (_ & Hold & _) Ht Hone Hbefore. specialize (Hold t Ht).
  destruct (trampolines w' !! t) as [tr'|]; [|by right]. left.
  destruct Hbefore as [Hs | Hn].
  - rewrite Hs in Hold. destruct Hold as [_ Hsame]. by rewrite Hsame.
  - by rewrite Hn in Hold.
Qed.

Lemma unref_evolves t w w' :
  gjs_callback_trampoline_unref t w = Some w' -> evolves w w'.
Proof.
  unfold gjs_callback_trampoline_unref.
  destruct (trampolines w !! t) as [tr|] eqn:Htr; [|done]. simpl.
  replace (ref_count tr - 1 =? 0) with (ref_count tr =? 1) by lia.
  intros Hu.
  assert (next_address w' = next_address w /\
          trampolines w' =
            if ref_count tr =? 1 then delete t (trampolines w)
            else <[t := set_ref_count tr (ref_count tr - 1)]> (trampolines w))
    as [Hnext Hheap]
    by (destruct (ref_count tr =? 1); by injection Hu as <-).
  apply evolves_intro; [lia| |].
  - intros t' _. rewrite Hheap. destruct (decide (t' = t)) as [-> | Hne].
    + right. exists tr. split; [done|]. destruct (ref_count tr =? 1).
      * apply lookup_delete_eq.
      * apply lookup_insert_eq.
    + left. destruct (ref_count tr =? 1).
      * by apply lookup_delete_ne.
      * by apply lookup_insert_ne.
  - intros t' _ Hlive. left. rewrite Hheap in Hlive.
    destruct (decide (t' = t)) as [-> | Hne]; [by rewrite Htr|].
    destruct (ref_count tr =? 1).
    + by rewrite lookup_delete_ne in Hlive.
    + by rewrite lookup_insert_ne in Hlive.
Qed.

(** ** The events of each phase *)

Lemma only_logs_refl P w : only_logs P w w.
Proof. split; [split; [done | apply evolves_refl]|]. by exists []. Qed.

Lemma only_logs_trans P w1 w2 w3 :
  only_logs P w1 w2 -> only_logs P w2 w3 -> only_logs P w1 w3.
Proof.
  intros [[Hc1 He1] (n1 & Ht1 & Hp1)] [[Hc2 He2] (n2 & Ht2 & Hp2)].
  split; [split; [congruence | by eapply evolves_trans]|].
  exists (n2 ++ n1). rewrite Ht2, Ht1, app_assoc. split; [done|].
  by apply Forall_app.
Qed.

Lemma only_logs_mono (P Q : Event -> Prop) w w' :
  (forall e, P e -> Q e) -> only_logs P w w' -> only_logs Q w w'.
Proof.
  intros Hpq [Hc (n & Ht & Hp)]. split; [done|]. exists n. split; [done|].
  eapply Forall_impl; eauto.
Qed.

Lemma only_logs_evolves P w w' : only_logs P w w' -> evolves w w'.
Proof. by intros [[_ He] _]. Qed.

Lemma only_logs_log (P : Event -> Prop) e w : P e -> only_logs P w (log e w).
Proof.
  intros He. split; [split; [done | by apply evolves_heap]|].
  exists [e]. split; [done|]. by constructor.
Qed.

Lemma only_logs_set_slices P w m : only_logs P w (set_slices w m).
Proof. split; [split; [done | by apply evolves_heap]|]. by exists []. Qed.

Lemma only_logs_bump P w : only_logs P w (bump_address w).
Proof.
  split; [split; [done | apply evolves_heap; simpl; [done | lia]]|].
  by exists [].
Qed.

Lemma only_logs_throw (P : Event -> Prop) e w :
  P (EvThrow e) -> only_logs P w (gjs_throw e w).
Proof. apply only_logs_log. Qed.

Lemma unref_only_logs (P : Event -> Prop) t w w' :
  P (EvTrampolineFree t) ->
  gjs_callback_trampoline_unref t w = Some w' -> only_logs P w w'.
Proof.
  intros Hp Hu. pose proof (unref_evolves _ _ _ Hu) as He.
  unfold gjs_callback_trampoline_unref in Hu.
  destruct (trampolines w !! t) as [tr|]; [|done]. simpl in Hu.
  destruct (ref_count tr - 1 =? 0); injection Hu as <-.
  - split; [done|]. exists [EvTrampolineFree t]. split; [done|].
    by constructor.
  - split; [done|]. by exists [].
Qed.

(** The extra reference marshaling takes on the trampoline it has just
    made, at an address handed out since [w0]. *)
Lemma ref_fresh_only_logs P t w0 w w' :
  only_logs P w0 w -> (next_address w0 <= t)%nat ->
  gjs_callback_trampoline_ref t w = Some w' -> only_logs P w0 w'.
Proof.
  intros [[Hc (Hnext & Hold & Hnew)] Hlog] Ht.
  unfold gjs_callback_trampoline_ref.
  destruct (trampolines w !! t) as [tr|] eqn:Htr; [|done]. simpl.
  intros [= <-]. split; [|done]. split; [done|].
  split; [done|]. split.
  - intros t' Ht'. simpl. rewrite lookup_insert_ne by lia. by apply Hold.
  - intros t' Ht' Hlive. simpl in *. apply Hnew; [done|].
    destruct (decide (t' = t)) as [-> | Hne]; [by rewrite Htr|].
    by rewrite lookup_insert_ne in Hlive.
Qed.

Lemma trampoline_new_only_logs (P : Event -> Prop) f c s w t w' :
  (forall a, P (EvTrampolineNew a s)) ->
  gjs_callback_trampoline_new f c s w = Some (t, w') -> only_logs P w w'.
Proof.
  intros Hp. unfold gjs_callback_trampoline_new.
  destruct (JSVAL_IS_NULL f); [intros [= <- <-]; apply only_logs_refl|].
  destruct (g_assert _); [|done]. simpl. intros [= <- <-].
  split.
  - split; [done|]. apply evolves_intro; simpl; [lia| |].
    + intros t' Ht'. left. apply lookup_insert_ne. lia.
    + intros t' Ht' Hlive.
      destruct (decide (t' = next_address w)) as [-> | Hne]; [right; lia|].
      left. by rewrite lookup_insert_ne in Hlive.
  - eexists [_]. split; [done|]. by constructor.
Qed.

Lemma slice_alloc_only_logs (P : Event -> Prop) size w :
  (forall a, P (EvSliceAlloc a size)) ->
  only_logs P w (g_slice_alloc0 size w).2.
Proof.
  intros Hp. unfold g_slice_alloc0. simpl.
  eapply only_logs_trans; [apply only_logs_set_slices|].
  eapply only_logs_trans; [apply only_logs_bump|].
  by apply only_logs_log.
Qed.

Lemma slice_free_only_logs (P : Event -> Prop) mem w w' :
  (forall a, P (EvSliceFree a)) ->
  g_slice_free1 mem w = Some w' -> only_logs P w w'.
Proof.
  intros Hp. unfold g_slice_free1. destruct mem; try done.
  - intros [= <-]. apply only_logs_refl.
  - destruct (slices w !! a); [|done]. simpl. intros [= <-].
    eapply only_logs_trans; [apply only_logs_set_slices|].
    by apply only_logs_log.
Qed.

Section PhaseEvents.
Context `{Collaborators}.

Lemma marshal_out_logs (P : Event -> Prop) arg_info c_arg_pos m m' :
  (forall e, marshal_event e -> P e) ->
  marshal_out arg_info c_arg_pos m = Some m' ->
  only_logs P (m_world m) (m_world m').
Proof.
  intros Hp. unfold marshal_out.
  destruct (arg_info_caller_allocates arg_info).
  - destruct (caller_allocates_size _) as [size|].
    + pose proof (slice_alloc_only_logs P size (m_world m)) as Halloc.
      destruct (g_slice_alloc0 size (m_world m)) as [a w1]. simpl in *.
      intros Hm. simplify_option_eq. apply Halloc. intros. by apply Hp.
    + intros [= <-]. simpl. by apply only_logs_throw, Hp.
  - intros Hm. simplify_option_eq. apply only_logs_refl.
Qed.

Lemma marshal_callback_slots_logs (P : Event -> Prop) function is_method
    arg_info c_arg_pos trampoline w0 w m m' :
  only_logs P w0 w ->
  (forall t, trampoline = Some t -> (next_address w0 <= t)%nat) ->
  marshal_callback_slots function is_method arg_info c_arg_pos trampoline w m
    = Some m' ->
  only_logs P w0 (m_world m').
Proof.
  unfold marshal_callback_slots. intros Hlog Hfresh Hm. simplify_option_eq.
  destruct trampoline as [t|]; simplify_eq; [|done].
  destruct (negb _); simplify_eq; [|done].
  eapply ref_fresh_only_logs; [exact Hlog | by apply Hfresh | done].
Qed.

Lemma marshal_callback_logs (P : Event -> Prop) function is_method js_argv
    arg_info c_arg_pos m m' :
  (forall e, marshal_event e -> P e) ->
  marshal_callback function is_method js_argv arg_info c_arg_pos m = Some m' ->
  only_logs P (m_world m) (m_world m').
Proof.
  intros Hp. unfold marshal_callback. intros Hm.
  destruct (slot_load js_argv (m_js_arg_pos m)) as [value|]; [|done].
  simpl in Hm. destruct (_ && _).
  - eapply marshal_callback_slots_logs; [| |exact Hm];
      [apply only_logs_refl | done].
  - destruct (negb (is_JSTYPE_FUNCTION value)).
    + simplify_eq. simpl. by apply only_logs_throw, Hp.
    + destruct (gjs_callback_trampoline_new _ _ _ _) as [[t w1]|] eqn:Hnew;
        [|done].
      simpl in Hm. destruct t as [t|]; [|done]. simpl in Hm.
      eapply marshal_callback_slots_logs; [| |exact Hm].
      * eapply trampoline_new_only_logs; [|exact Hnew]. intros. by apply Hp.
      * intros t' [= <-]. unfold gjs_callback_trampoline_new in Hnew.
        destruct (JSVAL_IS_NULL value); [done|].
        destruct (g_assert _); [|done]. simpl in Hnew.
        by injection Hnew as <- _.
Qed.

Lemma marshal_array_logs (P : Event -> Prop) info is_method js_argv
    arg_info c_arg_pos m m' :
  marshal_array info is_method js_argv arg_info c_arg_pos m = Some m' ->
  only_logs P (m_world m) (m_world m').
Proof.
  unfold marshal_array. intros Hm.
  repeat (simplify_option_eq || case_match); apply only_logs_refl.
Qed.

Lemma marshal_normal_logs (P : Event -> Prop) js_argv arg_info c_arg_pos m m' :
  marshal_normal js_argv arg_info c_arg_pos m = Some m' ->
  only_logs P (m_world m) (m_world m').
Proof.
  unfold marshal_normal. intros Hm.
  repeat (simplify_option_eq || case_match); apply only_logs_refl.
Qed.

Lemma marshal_in_logs (P : Event -> Prop) function info is_method js_argv
    arg_info gi_arg_pos c_arg_pos m m' :
  (forall e, marshal_event e -> P e) ->
  marshal_in function info is_method js_argv arg_info gi_arg_pos c_arg_pos m
    = Some m' ->
  only_logs P (m_world m) (m_world m').
Proof.
  intros Hp. unfold marshal_in. intros Hm.
  destruct (slot_load (param_types function) gi_arg_pos) as [pt|]; [|done].
  simpl in Hm.
  match type of Hm with
  | (?step ≫= _) = _ => destruct step as [[removed m1]|] eqn:Hstep; [|done]
  end.
  simpl in Hm.
  assert (only_logs P (m_world m) (m_world m1)) as H1.
  { destruct pt; simplify_option_eq.
    - by eapply marshal_normal_logs.
    - apply only_logs_refl.
    - by eapply marshal_array_logs.
    - by eapply marshal_callback_logs. }
  assert (m_world m' = m_world m1) as ->; [|done].
  repeat (simplify_option_eq || case_match); done.
Qed.

Lemma marshal_arg_logs (P : Event -> Prop) function info is_method c_argc
    js_argv gi_arg_pos c_arg_pos m m' :
  (forall e, marshal_event e -> P e) ->
  marshal_arg function info is_method c_argc js_argv gi_arg_pos c_arg_pos m
    = Some m' ->
  only_logs P (m_world m) (m_world m').
Proof.
  intros Hp. unfold marshal_arg. intros Hm. simplify_option_eq.
  destruct (arg_info_direction _).
  - by apply (marshal_in_logs P) in Hm.
  - by apply (marshal_out_logs P) in Hm.
  - by apply (marshal_in_logs P) in Hm.
Qed.

Lemma marshal_loop_logs (P : Event -> Prop) function info is_method c_argc
    js_argv todo gi_arg_pos c_arg_pos processed m m' c' p' :
  (forall e, marshal_event e -> P e) ->
  marshal_loop function info is_method c_argc js_argv todo gi_arg_pos
    c_arg_pos processed m = Some (m', c', p') ->
  only_logs P (m_world m) (m_world m').
Proof.
  intros Hp. revert gi_arg_pos c_arg_pos processed m.
  induction todo as [|todo IH]; intros gi_arg_pos c_arg_pos processed m; simpl.
  - intros [= <- <- <-]. apply only_logs_refl.
  - destruct (marshal_arg _ _ _ _ _ _ _ _) as [m1|] eqn:Harg; [|done]. simpl.
    apply (marshal_arg_logs P) in Harg; [|done].
    destruct (m_failed m1).
    + intros [= <- <- <-]. done.
    + intros Hl. eapply only_logs_trans; [exact Harg|]. by eapply IH.
Qed.
End PhaseEvents.

(** ** The list of completed trampolines *)

Lemma async_calls_app l1 l2 :
  async_calls (l1 ++ l2) = async_calls l1 ++ async_calls l2.
Proof. unfold async_calls. apply flat_map_app. Qed.

Lemma async_calls_nested nested :
  async_calls_of (EvJavaScript nested) = async_calls nested.
Proof.
  simpl. induction nested as [|e l IH]; [done|]. simpl. by rewrite IH.
Qed.

Lemma pending_step_refl w : pending_step w w.
Proof. exists []. by split. Qed.

Lemma pending_step_trans w1 w2 w3 :
  pending_step w1 w2 -> pending_step w2 w3 -> pending_step w1 w3.
Proof.
  intros (n1 & Ht1 & Hc1) (n2 & Ht2 & Hc2). exists (n2 ++ n1).
  split; [by rewrite Ht2, Ht1, app_assoc|].
  rewrite async_calls_app, <- app_assoc.
  etrans; [exact Hc2|]. by apply submseteq_skips_l.
Qed.

(** A phase that leaves the list alone. *)
Lemma only_logs_pending_step P w w' : only_logs P w w' -> pending_step w w'.
Proof.
  intros [[Hc _] (new & Ht & _)]. exists new. split; [done|].
  rewrite Hc. by apply submseteq_inserts_l.
Qed.

Lemma pending_step_ok w w' : pending_step w w' -> pending_ok w -> pending_ok w'.
Proof.
  intros (new & Ht & Hc) Hok. unfold pending_ok in *.
  rewrite Ht, async_calls_app. etrans; [exact Hc|].
  by apply submseteq_skips_l.
Qed.

Section NativeCode.
Context `{Collaborators}.

(** What a call of a trampoline is made of: the JavaScript function runs,
    unless an argument does not convert; the trampoline is still there;
    an exception may be logged; and the trampoline is put on the list
    when its scope is Async. *)
Lemma gjs_callback_closure_inv data args w result w' :
  gjs_callback_closure data args w = Some (result, w') ->
  exists tr tr' w1,
    trampolines w !! data = Some tr /\
    (w1 = log (EvClosureCall data (scope tr)) w \/
     exists jsargs rval w_js,
       JS_CallFunctionValue (js_function tr) jsargs (set_trace w [])
         = Some (rval, w_js) /\
       w1 = set_trace w_js
              (EvJavaScript (trace w_js)
                 :: EvClosureCall data (scope tr) :: trace w)) /\
    trampolines w1 !! data = Some tr' /\
    trampolines w' = trampolines w1 /\
    slices w' = slices w1 /\
    next_address w' = next_address w1 /\
    (trace w' = trace w1 \/ trace w' = EvLogException :: trace w1) /\
    completed_trampolines w' =
      if GIScopeType_is_async (scope tr')
      then data :: completed_trampolines w1
      else completed_trampolines w1.
Proof.
  unfold gjs_callback_closure. intros Hc.
  destruct (trampolines w !! data) as [tr|]; [|done]. simpl in Hc.
  destruct (closure_args_loop _ _ _ _) as [converted|]; [|done]. simpl in Hc.
  match type of Hc with
  | (?c ≫= _) = _ => destruct c as [[rval w1]|] eqn:Hcall; [|done]
  end.
  simpl in Hc.
  destruct (trampolines w1 !! data) as [tr'|] eqn:Htr'; [|done]. simpl in Hc.
  exists tr, tr', w1. split; [done|]. split.
  { destruct converted as [jsargs|]; [|left; by injection Hcall as _ <-].
    right. unfold call_js_function in Hcall.
    change (set_trace (log (EvClosureCall data (scope tr)) w) [])
      with (set_trace w []) in Hcall.
    destruct (JS_CallFunctionValue _ _ _) as [[rv w_js]|] eqn:Hjs; [|done].
    simpl in Hcall. injection Hcall as <- <-. by exists jsargs, rv, w_js. }
  split; [done|].
  destruct (rval ≫= _); destruct (GIScopeType_is_async (scope tr'));
    injection Hc as <- <-; simpl; auto 10.
Qed.

Lemma gjs_callback_closure_logs (P : Event -> Prop) data args w result w' :
  (forall e, native_event e -> P e) ->
  gjs_callback_closure data args w = Some (result, w') ->
  exists new, trace w' = new ++ trace w /\ Forall P new.
Proof.
  intros Hp Hc.
  apply gjs_callback_closure_inv in Hc
    as (tr & tr' & w1 & _ & Hjs & _ & _ & _ & _ & Htrace & _).
  assert (exists ran, trace w1 = ran ++ trace w /\ Forall P ran)
    as (ran & Hran & Hall).
  { destruct Hjs as [-> | (jsargs & rval & w_js & _ & ->)].
    - eexists [_]. split; [done|]. repeat constructor. by apply Hp.
    - eexists [_; _]. split; [done|]. repeat constructor; by apply Hp. }
  destruct Htrace as [-> | ->].
  - by exists ran.
  - exists (EvLogException :: ran). rewrite Hran. split; [done|].
    constructor; [by apply Hp | done].
Qed.

Lemma gjs_destroy_notify_callback_logs (P : Event -> Prop) data w w' :
  (forall e, native_event e -> P e) ->
  gjs_destroy_notify_callback data w = Some w' -> only_logs P w w'.
Proof.
  intros Hp Hd. unfold gjs_destroy_notify_callback in Hd.
  eapply only_logs_trans; [apply (only_logs_log P (EvDestroyNotify data))|].
  - by apply Hp.
  - eapply unref_only_logs; [|exact Hd]. by apply Hp.
Qed.

(** Native code running logs native events only. *)
Lemma run_native_action_logs (P : Event -> Prop) a w w' :
  (forall e, native_event e -> P e) ->
  run_native_action a w = Some w' ->
  exists new, trace w' = new ++ trace w /\ Forall P new.
Proof.
  intros Hp. destruct a as [closure args | data]; simpl.
  - destruct (gjs_callback_closure closure args w) as [[r w1]|] eqn:Hc;
      [|done].
    simpl. intros [= <-]. by eapply gjs_callback_closure_logs.
  - intros Hd. apply (gjs_destroy_notify_callback_logs P) in Hd; [|done].
    by destruct Hd.
Qed.

Lemma run_native_actions_logs (P : Event -> Prop) l w w' :
  (forall e, native_event e -> P e) ->
  run_native_actions l w = Some w' ->
  exists new, trace w' = new ++ trace w /\ Forall P new.
Proof.
  intros Hp. revert w. induction l as [|a l IH]; intros w; simpl.
  - intros [= <-]. by exists [].
  - destruct (run_native_action a w) as [w1|] eqn:Ha; [|done]. simpl.
    intros Hl. apply (run_native_action_logs P) in Ha as (n1 & Ht1 & Hp1);
      [|done].
    apply IH in Hl as (n2 & Ht2 & Hp2).
    exists (n2 ++ n1). rewrite Ht2, Ht1, app_assoc. split; [done|].
    by apply Forall_app.
Qed.

(** [ffi_call] logs the call, with the error the callee left, and then
    what the callbacks log; the in slots and the snapshots of the frame
    are as before. *)
Lemma ffi_call_effect (P : Event -> Prop) function can_throw f w rv err f' w' :
  (forall e, native_event e -> P e) ->
  ffi_call function can_throw f w = Some (rv, err, f', w') ->
  (exists new,
      trace w' =
        new ++ EvFfiCall (native_address (invoker function))
                 (in_arg_cvalues f) err :: trace w /\
      Forall P new) /\
  in_arg_cvalues f' = in_arg_cvalues f /\
  inout_original_arg_cvalues f' = inout_original_arg_cvalues f.
Proof.
  intros Hp. unfold ffi_call.
  destruct (run_native_actions _ _) as [w1|] eqn:Hrun; [|done]. simpl.
  intros [= <- <- <- <-].
  apply (run_native_actions_logs P) in Hrun as (new & Ht & Hnew); [|done].
  simpl in *. split; [eauto|]. done.
Qed.

(** The drain: the list is empty after it. *)
Lemma unref_all_logs (P : Event -> Prop) l w w' :
  (forall t, P (EvTrampolineFree t)) ->
  unref_all l w = Some w' -> only_logs P w w'.
Proof.
  intros Hp. revert w. induction l as [|t l IH]; intros w; simpl.
  - intros [= <-]. apply only_logs_refl.
  - destruct (gjs_callback_trampoline_unref t w) as [w1|] eqn:Hu; [|done].
    simpl. intros Hl. eapply only_logs_trans; [|by apply IH].
    by eapply unref_only_logs.
Qed.

Lemma free_completed_trampolines_effect (P : Event -> Prop) w w' :
  (forall t, P (EvTrampolineFree t)) ->
  free_completed_trampolines w = Some w' ->
  completed_trampolines w' = [] /\
  exists new, trace w' = new ++ trace w /\ Forall P new.
Proof.
  intros Hp. unfold free_completed_trampolines.
  destruct (unref_all _ w) as [w1|] eqn:Hu; [|done]. simpl.
  intros [= <-]. split; [done|].
  apply (unref_all_logs P) in Hu as [_ Hnew]; done.
Qed.
End NativeCode.

Section ReleaseEvents.
Context `{Collaborators}.

Lemma marshal_receiver_logs (P : Event -> Prop) info c_argc obj f w f' failed w' :
  (forall e, marshal_event e -> P e) ->
  marshal_receiver info c_argc obj f w = Some (f', failed, w') ->
  only_logs P w w'.
Proof.
  intros Hp. unfold marshal_receiver. intros Hm.
  repeat (simplify_option_eq || case_match);
    first [apply only_logs_refl | by apply only_logs_throw, Hp].
Qed.

Lemma convert_return_value_logs (P : Event -> Prop) function info is_method
    return_value f w failed r :
  (forall e, return_event e -> P e) ->
  convert_return_value function info is_method return_value f w
    = Some (failed, r) ->
  only_logs P w (r_world r).
Proof.
  intros Hp. unfold convert_return_value. intros Hc.
  destruct (GITypeTag_is_void _); [simplify_eq; apply only_logs_refl|].
  match type of Hc with
  | (?c ≫= _) = _ => destruct c as [[converted released]|]; [|done]
  end.
  simpl in Hc. destruct converted; simplify_option_eq.
  - eapply only_logs_trans; apply only_logs_log; by apply Hp.
  - apply only_logs_log. by apply Hp.
Qed.

Lemma release_in_logs (P : Event -> Prop) info is_method arg_info param_type
    c_arg_pos r r' :
  (forall e, release_in_event e -> P e) ->
  release_in info is_method arg_info param_type c_arg_pos r = Some r' ->
  only_logs P (r_world r) (r_world r') /\
  r_next_rval r' = r_next_rval r /\
  r_return_values r' = r_return_values r.
Proof.
  intros Hp. unfold release_in. intros Hr.
  match type of Hr with
  | (?c ≫= _) = _ => destruct c as [[arg transfer]|]; [|done]
  end.
  simpl in Hr. destruct param_type.
  - simplify_eq. simpl. split; [|done]. apply only_logs_log. by apply Hp.
  - simplify_eq. split; [|done]. apply only_logs_refl.
  - simplify_option_eq. split; [|done]. apply only_logs_log. by apply Hp.
  - destruct arg; simplify_option_eq;
      first [split; [apply only_logs_refl | done]
            | split; [|done];
              eapply unref_only_logs; [|eassumption]; by apply Hp].
Qed.

Lemma release_out_logs (P : Event -> Prop) function info is_method arg_info
    c_arg_pos r r' :
  (forall e, release_out_event e -> P e) ->
  release_out function info is_method arg_info c_arg_pos r = Some r' ->
  only_logs P (r_world r) (r_world r').
Proof.
  intros Hp. unfold release_out. intros Hr.
  destruct (g_assert _); [|done]. simpl in Hr.
  destruct (slot_load (out_arg_cvalues (r_frame r)) c_arg_pos) as [arg|];
    [|done].
  simpl in Hr.
  match type of Hr with
  | (?c ≫= _) = _ => destruct c as [converted|]; [|done]
  end.
  simpl in Hr.
  match type of Hr with
  | (?c ≫= _) = _ => destruct c as [return_values|]; [|done]
  end.
  simpl in Hr.
  match type of Hr with
  | (?c ≫= _) = _ => destruct c as [w1|] eqn:Hfree; [|done]
  end.
  simpl in Hr. injection Hr as <-. simpl.
  assert (only_logs P (r_world r) w1) as H1.
  { destruct (arg_info_caller_allocates arg_info).
    - destruct (caller_allocates_size _); [|done]. simpl in Hfree.
      eapply only_logs_trans;
        [apply (only_logs_log P (EvConvertOut c_arg_pos)); by apply Hp|].
      eapply slice_free_only_logs; [|exact Hfree]. intros. by apply Hp.
    - injection Hfree as <-. apply only_logs_log. by apply Hp. }
  destruct converted; [|done].
  eapply only_logs_trans; [exact H1|]. apply only_logs_log. by apply Hp.
Qed.

(** A turn of the release pass after the callee threw, or after
    something failed: in arguments only, and no output is converted. *)
Lemma release_arg_logs_in (P : Event -> Prop) function info is_method
    did_throw failed gi_arg_pos c_arg_pos r r' :
  (forall e, release_in_event e -> P e) ->
  did_throw || failed = true ->
  release_arg function info is_method did_throw failed gi_arg_pos c_arg_pos r
    = Some r' ->
  only_logs P (r_world r) (r_world r') /\
  r_next_rval r' = r_next_rval r /\
  r_return_values r' = r_return_values r.
Proof.
  intros Hp Hmode. unfold release_arg. intros Hr.
  destruct (g_callable_info_load_arg info gi_arg_pos) as [arg_info|]; [|done].
  simpl in Hr.
  destruct (slot_load (param_types function) gi_arg_pos) as [pt|]; [|done].
  simpl in Hr. rewrite Hmode in Hr.
  destruct (is_in_or_inout _); simplify_option_eq.
  - by eapply release_in_logs.
  - split; [apply only_logs_refl | done].
Qed.

Lemma release_arg_logs (P : Event -> Prop) function info is_method
    did_throw failed gi_arg_pos c_arg_pos r r' :
  (forall e, release_in_event e -> P e) ->
  (forall e, release_out_event e -> P e) ->
  release_arg function info is_method did_throw failed gi_arg_pos c_arg_pos r
    = Some r' ->
  only_logs P (r_world r) (r_world r').
Proof.
  intros Hin Hout. unfold release_arg. intros Hr.
  destruct (g_callable_info_load_arg info gi_arg_pos) as [arg_info|]; [|done].
  simpl in Hr.
  destruct (slot_load (param_types function) gi_arg_pos) as [pt|]; [|done].
  simpl in Hr.
  match type of Hr with
  | (?c ≫= _) = _ => destruct c as [r1|] eqn:Hrin; [|done]
  end.
  simpl in Hr.
  assert (only_logs P (r_world r) (r_world r1)) as H1.
  { destruct (is_in_or_inout _); simplify_eq; [|apply only_logs_refl].
    by eapply release_in_logs. }
  destruct (did_throw || failed); [by simplify_eq|].
  destruct (_ && _); [|by simplify_eq].
  eapply only_logs_trans; [exact H1|]. by eapply release_out_logs.
Qed.

Lemma release_loop_logs_in (P : Event -> Prop) function info is_method
    did_throw failed processed todo gi_arg_pos c_arg_pos r r' c' :
  (forall e, release_in_event e -> P e) ->
  did_throw || failed = true ->
  release_loop function info is_method did_throw failed processed todo
    gi_arg_pos c_arg_pos r = Some (r', c') ->
  only_logs P (r_world r) (r_world r') /\
  r_next_rval r' = r_next_rval r /\
  r_return_values r' = r_return_values r.
Proof.
  intros Hp Hmode. revert gi_arg_pos c_arg_pos r.
  induction todo as [|todo IH]; intros gi_arg_pos c_arg_pos r; simpl.
  - intros [= <- <-]. split; [apply only_logs_refl | done].
  - destruct (c_arg_pos <? processed);
      [|intros [= <- <-]; split; [apply only_logs_refl | done]].
    destruct (release_arg _ _ _ _ _ _ _ _) as [r1|] eqn:Harg; [|done]. simpl.
    intros Hl. apply (release_arg_logs_in P) in Harg as (H1 & Hn1 & Hv1);
      [|done..].
    apply IH in Hl as (H2 & Hn2 & Hv2).
    split; [by eapply only_logs_trans|]. split; congruence.
Qed.

Lemma release_loop_logs (P : Event -> Prop) function info is_method
    did_throw failed processed todo gi_arg_pos c_arg_pos r r' c' :
  (forall e, release_in_event e -> P e) ->
  (forall e, release_out_event e -> P e) ->
  release_loop function info is_method did_throw failed processed todo
    gi_arg_pos c_arg_pos r = Some (r', c') ->
  only_logs P (r_world r) (r_world r').
Proof.
  intros Hin Hout. revert gi_arg_pos c_arg_pos r.
  induction todo as [|todo IH]; intros gi_arg_pos c_arg_pos r; simpl.
  - intros [= <- <-]. apply only_logs_refl.
  - destruct (c_arg_pos <? processed);
      [|intros [= <- <-]; apply only_logs_refl].
    destruct (release_arg _ _ _ _ _ _ _ _) as [r1|] eqn:Harg; [|done]. simpl.
    intros Hl. apply (release_arg_logs P) in Harg; [|done..].
    apply IH in Hl. by eapply only_logs_trans.
Qed.
End ReleaseEvents.

(** Pass the assertions of a hypothesis that says the code returned. *)
Ltac assert_ok H :=
  repeat match type of H with
    | context [g_assert ?b] =>
        destruct (g_assert b) as [[]|]; simpl in H; try done
    end.

Lemma release_failed_app l1 l2 :
  release_failed (l1 ++ l2) = release_failed l1 || release_failed l2.
Proof. apply existsb_app. Qed.

Lemma release_failed_In l :
  release_failed l = true <-> exists c, In (EvReleaseIn c false) l.
Proof.
  unfold release_failed. rewrite existsb_exists. split.
  - intros (e & Hin & He). destruct e; try done.
    match goal with
    | Hin : In (EvReleaseIn ?c ?ok) _ |- _ =>
        destruct ok; [done|]; by exists c
    end.
  - intros (c & Hin). by exists (EvReleaseIn c false).
Qed.

Lemma release_failed_quiet (P : Event -> Prop) l :
  (forall c ok, ~ P (EvReleaseIn c ok)) -> Forall P l ->
  release_failed l = false.
Proof.
  intros Hp Hall. destruct (release_failed l) eqn:Hf; [|done].
  apply release_failed_In in Hf as (c & Hin).
  rewrite Forall_forall in Hall. apply list_elem_of_In, Hall in Hin.
  by apply Hp in Hin.
Qed.

Section AfterTheCall.
Context `{Collaborators}.

(** The release of an in argument: what it logs, and what becomes of
    [postinvoke_release_failed]. *)
Lemma release_in_flag info is_method arg_info param_type c_arg_pos r r' :
  release_in info is_method arg_info param_type c_arg_pos r = Some r' ->
  exists step,
    trace (r_world r') = step ++ trace (r_world r) /\
    Forall release_in_event step /\
    r_postinvoke_release_failed r' =
      r_postinvoke_release_failed r || release_failed step /\
    forall c ok,
      In (EvReleaseIn c ok) step ->
      c = c_arg_pos /\
      (param_type = PARAM_NORMAL \/ param_type = PARAM_ARRAY).
Proof.
  unfold release_in. intros Hr.
  match type of Hr with
  | (?c ≫= _) = _ => destruct c as [[arg transfer]|]; [|done]
  end.
  simpl in Hr.
  assert (param_type = PARAM_NORMAL \/ param_type = PARAM_ARRAY ->
          forall ok,
            exists step,
              EvReleaseIn c_arg_pos ok :: trace (r_world r)
                = step ++ trace (r_world r) /\
              Forall release_in_event step /\
              r_postinvoke_release_failed r || negb ok =
                r_postinvoke_release_failed r || release_failed step /\
              forall c ok',
                In (EvReleaseIn c ok') step ->
                c = c_arg_pos /\
                (param_type = PARAM_NORMAL \/ param_type = PARAM_ARRAY))
    as Hlogged.
  { intros Hkind ok. exists [EvReleaseIn c_arg_pos ok]. split; [done|].
    split; [by repeat constructor|]. split; [simpl; by destruct ok|].
    by intros c ok' [[= <- <-] | []]. }
  destruct param_type.
  - injection Hr as <-. simpl. apply Hlogged. by left.
  - injection Hr as <-. exists []. split; [done|]. split; [done|].
    split; [simpl; by rewrite orb_false_r|]. by intros c ok [].
  - assert_ok Hr.
    repeat match type of Hr with
      | (?c ≫= _) = _ => destruct c; simpl in Hr; [|done]
      end.
    injection Hr as <-. simpl. apply Hlogged. by right.
  - destruct arg; try done.
    + injection Hr as <-. exists []. split; [done|]. split; [done|].
      split; [simpl; by rewrite orb_false_r|]. by intros c ok [].
    + destruct (gjs_callback_trampoline_unref _ _) as [w1|] eqn:Hu;
        simpl in Hr; [|done].
      match type of Hr with
      | (?c ≫= _) = _ => destruct c as [f1|]; simpl in Hr; [|done]
      end.
      injection Hr as <-. simpl.
      apply (unref_only_logs free_event) in Hu as [_ (step & Hs & Ha)];
        [|done].
      exists step. split; [done|].
      split; [eapply Forall_impl; [exact Ha|]; by intros []|].
      split.
      * rewrite (release_failed_quiet free_event); [|intros c ok [] | done].
        by rewrite orb_false_r.
      * intros c ok Hin. rewrite Forall_forall in Ha.
        by apply list_elem_of_In, Ha in Hin.
Qed.

Lemma release_loop_flag function info is_method did_throw failed
    processed todo gi_arg_pos c_arg_pos r r' c' :
  did_throw || failed = true ->
  release_loop function info is_method did_throw failed processed todo
    gi_arg_pos c_arg_pos r = Some (r', c') ->
  exists released,
    trace (r_world r') = released ++ trace (r_world r) /\
    Forall release_in_event released /\
    r_postinvoke_release_failed r' =
      r_postinvoke_release_failed r || release_failed released /\
    forall c ok,
      In (EvReleaseIn c ok) released ->
      exists j arg_info pt,
        0 <= j < Z.of_nat todo /\ c = c_arg_pos + j /\
        g_callable_info_load_arg info (gi_arg_pos + j) = Some arg_info /\
        is_in_or_inout (arg_info_direction arg_info) = true /\
        slot_load (param_types function) (gi_arg_pos + j) = Some pt /\
        (pt = PARAM_NORMAL \/ pt = PARAM_ARRAY).
Proof.
  intros Hmode. revert gi_arg_pos c_arg_pos r c'.
  assert (forall (r : Release) (todo : nat) (gi_arg_pos c_arg_pos : Z),
            exists released,
              trace (r_world r) = released ++ trace (r_world r) /\
              Forall release_in_event released /\
              r_postinvoke_release_failed r =
                r_postinvoke_release_failed r || release_failed released /\
              forall c ok,
                In (EvReleaseIn c ok) released ->
                exists j arg_info pt,
                  0 <= j < Z.of_nat todo /\ c = c_arg_pos + j /\
                  g_callable_info_load_arg info (gi_arg_pos + j)
                    = Some arg_info /\
                  is_in_or_inout (arg_info_direction arg_info) = true /\
                  slot_load (param_types function) (gi_arg_pos + j)
                    = Some pt /\
                  (pt = PARAM_NORMAL \/ pt = PARAM_ARRAY))
    as Hnone.
  { intros r0 todo0 gi0 c0. exists []. split; [done|].
    split; [done|]. split; [simpl; by rewrite orb_false_r|].
    by intros c ok []. }
  induction todo as [|todo IH]; intros gi_arg_pos c_arg_pos r c'; simpl.
  - intros [= <- <-]. apply Hnone.
  - destruct (c_arg_pos <? processed); [|intros [= <- <-]; apply Hnone].
    destruct (release_arg _ _ _ _ _ _ _ _) as [r1|] eqn:Harg; [|done]. simpl.
    intros Hl. apply IH in Hl as (l2 & Ht2 & Ha2 & Hf2 & Hs2).
    assert (exists l1,
              trace (r_world r1) = l1 ++ trace (r_world r) /\
              Forall release_in_event l1 /\
              r_postinvoke_release_failed r1 =
                r_postinvoke_release_failed r || release_failed l1 /\
              forall c ok,
                In (EvReleaseIn c ok) l1 ->
                c = c_arg_pos /\
                exists arg_info pt,
                  g_callable_info_load_arg info gi_arg_pos = Some arg_info /\
                  is_in_or_inout (arg_info_direction arg_info) = true /\
                  slot_load (param_types function) gi_arg_pos = Some pt /\
                  (pt = PARAM_NORMAL \/ pt = PARAM_ARRAY))
      as (l1 & Ht1 & Ha1 & Hf1 & Hs1).
    { unfold release_arg in Harg.
      destruct (g_callable_info_load_arg info gi_arg_pos) as [arg_info|];
        [|done].
      simpl in Harg.
      destruct (slot_load (param_types function) gi_arg_pos) as [pt|];
        [|done].
      simpl in Harg. rewrite Hmode in Harg.
      destruct (is_in_or_inout _) eqn:Hdir; simplify_option_eq.
      - match goal with
        | Hin : release_in _ _ _ _ _ _ = Some _ |- _ =>
            apply release_in_flag in Hin as (l1 & ? & ? & ? & Hsrc)
        end.
        exists l1. repeat (split; [done|]).
        intros c ok Hin. destruct (Hsrc c ok Hin) as [-> Hkind].
        split; [done|]. by exists arg_info, pt.
      - exists []. split; [done|]. split; [done|].
        split; [simpl; by rewrite orb_false_r|]. by intros c ok []. }
    exists (l2 ++ l1). split; [by rewrite Ht2, Ht1, app_assoc|].
    split; [by apply Forall_app|].
    split.
    { by rewrite Hf2, Hf1, release_failed_app, <- orb_assoc,
        (orb_comm (release_failed l2)). }
    intros c ok [Hin | Hin]%in_app_or.
    + destruct (Hs2 c ok Hin) as (j & arg_info & pt & Hj & -> & Harg' & Hrest).
      exists (j + 1), arg_info, pt. split; [lia|]. split; [lia|].
      by replace (gi_arg_pos + (j + 1)) with (gi_arg_pos + 1 + j) by lia.
    + destruct (Hs1 c ok Hin) as (-> & arg_info & pt & Harg' & Hrest).
      exists 0, arg_info, pt. split; [lia|]. split; [lia|].
      by rewrite Z.add_0_r.
Qed.

(** The release of the in argument at [c_arg_pos + k] is logged by the
    loop, when the loop gets that far. *)
Lemma release_in_logged info is_method arg_info param_type c_arg_pos r r' :
  param_type = PARAM_NORMAL \/ param_type = PARAM_ARRAY ->
  release_in info is_method arg_info param_type c_arg_pos r = Some r' ->
  exists ok,
    trace (r_world r') = EvReleaseIn c_arg_pos ok :: trace (r_world r).
Proof.
  intros Hpt. unfold release_in. intros Hr.
  match type of Hr with
  | (?c ≫= _) = _ => destruct c as [[arg transfer]|]; [|done]
  end.
  simpl in Hr. destruct Hpt as [-> | ->]; simplify_option_eq; eauto.
Qed.

Lemma release_loop_releases function info is_method did_throw failed
    processed todo gi_arg_pos c_arg_pos r r' c' (k : Z) arg_info pt :
  release_loop function info is_method did_throw failed processed todo
    gi_arg_pos c_arg_pos r = Some (r', c') ->
  0 <= k < Z.of_nat todo -> c_arg_pos + k < processed ->
  g_callable_info_load_arg info (gi_arg_pos + k) = Some arg_info ->
  is_in_or_inout (arg_info_direction arg_info) = true ->
  slot_load (param_types function) (gi_arg_pos + k) = Some pt ->
  pt = PARAM_NORMAL \/ pt = PARAM_ARRAY ->
  exists before after ok,
    trace (r_world r') =
      after ++ EvReleaseIn (c_arg_pos + k) ok :: before ++ trace (r_world r).
Proof.
  revert gi_arg_pos c_arg_pos r k.
  induction todo as [|todo IH]; intros gi_arg_pos c_arg_pos r k; simpl;
    [lia|].
  intros Hl Hk Hc Harg Hdir Hpt Hkind.
  destruct (c_arg_pos <? processed) eqn:Hlt; [|lia].
  destruct (release_arg _ _ _ _ _ _ _ _) as [r1|] eqn:Hturn; [|done].
  simpl in Hl.
  pose proof (release_loop_logs (fun _ => True) _ _ _ _ _ _ _ _ _ _ _ _
                ltac:(done) ltac:(done) Hl) as [_ (after & Hafter & _)].
  pose proof (release_arg_logs (fun _ => True) _ _ _ _ _ _ _ _ _
                ltac:(done) ltac:(done) Hturn) as [_ (turn & Hturn' & _)].
  destruct (decide (k = 0)) as [->|Hne].
  - rewrite !Z.add_0_r in *. unfold release_arg in Hturn.
    rewrite Harg in Hturn. simpl in Hturn. rewrite Hpt in Hturn.
    simpl in Hturn. rewrite Hdir in Hturn.
    match type of Hturn with
    | (?c ≫= _) = _ => destruct c as [r0|] eqn:Hin; [|done]
    end.
    simpl in Hturn. apply release_in_logged in Hin as [ok Hin]; [|done].
    assert (only_logs (fun _ => True) (r_world r0) (r_world r1))
      as [_ (out & Hout & _)].
    { destruct (did_throw || failed); [simplify_eq; apply only_logs_refl|].
      destruct (_ && _); [|simplify_eq; apply only_logs_refl].
      by eapply release_out_logs. }
    exists [], (after ++ out), ok. rewrite Hafter, Hout, Hin.
    by rewrite <- app_assoc.
  - destruct (IH (gi_arg_pos + 1) (c_arg_pos + 1) r1 (k - 1))
      as (before & after' & ok & Htrace); try done; try lia.
    + by replace (gi_arg_pos + 1 + (k - 1)) with (gi_arg_pos + k) by lia.
    + by replace (gi_arg_pos + 1 + (k - 1)) with (gi_arg_pos + k) by lia.
    + exists (before ++ turn), after', ok. rewrite Htrace, Hturn'.
      replace (c_arg_pos + 1 + (k - 1)) with (c_arg_pos + k) by lia.
      by rewrite <- app_assoc.
Qed.
End AfterTheCall.

Section Anatomy.
Context `{Collaborators}.

(** From the label [release] on, when the callee threw or something
    failed before: the call returns [JS_FALSE], [*js_rval] is left as it
    was, and no output is converted. *)
Lemma invoke_release_after_failure (P : Event -> Prop) function info
    is_method failed local_error processed js_rval r result rv w' :
  (forall e, release_in_event e -> P e) ->
  (forall e, finish_event e -> P e) ->
  bool_decide (is_Some local_error) || failed = true ->
  invoke_release function info is_method failed local_error processed
    js_rval r = Some (result, rv, w') ->
  result = JS_FALSE /\ rv = js_rval /\
  only_logs P (r_world r) w' /\
  (forall message,
      local_error = Some message -> failed = false ->
      r_postinvoke_release_failed r = false ->
      exists released,
        Forall release_in_event released /\
        trace w' =
          (if release_failed released then []
           else [EvErrorFree; EvThrow (ERR_INVOKING message)])
          ++ released ++ trace (r_world r) /\
        forall c ok,
          In (EvReleaseIn c ok) released ->
          exists k arg_info pt,
            0 <= k < wrap8 (g_callable_info_get_n_args info) /\
            c = (if is_method then 1 else 0) + k /\
            g_callable_info_load_arg info k = Some arg_info /\
            is_in_or_inout (arg_info_direction arg_info) = true /\
            slot_load (param_types function) k = Some pt /\
            (pt = PARAM_NORMAL \/ pt = PARAM_ARRAY)).
Proof.
  intros Hin Hfin Hmode. unfold invoke_release. intros Hr.
  destruct (release_loop _ _ _ _ _ _ _ _ _ _) as [[r1 c1]|] eqn:Hloop;
    [|done].
  simpl in Hr.
  pose proof (release_loop_logs_in P _ _ _ _ _ _ _ _ _ _ _ _ Hin Hmode Hloop)
    as (Hlog & _ & _).
  pose proof (release_loop_flag _ _ _ _ _ _ _ _ _ _ _ _ Hmode Hloop)
    as (released & Hreleased & Hall & Hflag & Hsources).
  assert (forall c ok,
            In (EvReleaseIn c ok) released ->
            exists k arg_info pt,
              0 <= k < wrap8 (g_callable_info_get_n_args info) /\
              c = (if is_method then 1 else 0) + k /\
              g_callable_info_load_arg info k = Some arg_info /\
              is_in_or_inout (arg_info_direction arg_info) = true /\
              slot_load (param_types function) k = Some pt /\
              (pt = PARAM_NORMAL \/ pt = PARAM_ARRAY)) as Hsources'.
  { intros c ok Hc.
    destruct (Hsources c ok Hc) as (j & arg_info & pt & Hj & -> & Hrest).
    pose proof (wrap8_range (g_callable_info_get_n_args info)).
    exists j, arg_info, pt. split; [lia|]. by split. }
  assert_ok Hr.
  destruct local_error as [message|]; simpl in *.
  - rewrite !andb_false_r in Hr. simpl in Hr.
    destruct (negb (failed || r_postinvoke_release_failed r1)) eqn:Hf;
      simplify_eq.
    + split; [done|]. split; [done|]. split.
      * eapply only_logs_trans; [exact Hlog|].
        eapply only_logs_trans; [apply only_logs_throw | apply only_logs_log];
          by apply Hfin.
      * intros ? [= <-] -> Hclean. exists released. split; [done|].
        split; [|done].
        rewrite Hflag, Hclean in Hf. simpl in Hf.
        apply negb_true_iff in Hf. rewrite Hf. simpl. by rewrite Hreleased.
    + split; [done|]. split; [done|]. split; [done|].
      intros ? [= <-] -> Hclean. exists released. split; [done|].
      split; [|done].
      rewrite Hflag, Hclean in Hf. simpl in Hf.
      apply negb_false_iff in Hf. by rewrite Hf.
  - subst failed. simpl in Hr. rewrite !andb_false_r in Hr. simpl in Hr.
    simplify_eq. split; [done|]. split; [done|]. split; [done|]. done.
Qed.

Lemma invoke_release_logs (P : Event -> Prop) function info
    is_method failed local_error processed js_rval r result rv w' :
  (forall e, release_in_event e -> P e) ->
  (forall e, release_out_event e -> P e) ->
  (forall e, finish_event e -> P e) ->
  invoke_release function info is_method failed local_error processed
    js_rval r = Some (result, rv, w') ->
  only_logs P (r_world r) w'.
Proof.
  intros Hin Hout Hfin. unfold invoke_release. intros Hr.
  destruct (release_loop _ _ _ _ _ _ _ _ _ _) as [[r1 c1]|] eqn:Hloop;
    [|done].
  simpl in Hr.
  pose proof (release_loop_logs P _ _ _ _ _ _ _ _ _ _ _ _ Hin Hout Hloop)
    as Hlog.
  assert_ok Hr.
  match type of Hr with
  | (?c ≫= _) = _ => destruct c as [[failed' rv']|]; [|done]
  end.
  simpl in Hr.
  destruct local_error as [message|]; [destruct (negb failed')|destruct failed'];
    simplify_eq; try done.
  eapply only_logs_trans; [exact Hlog|].
  eapply only_logs_trans; [apply only_logs_throw | apply only_logs_log];
    by apply Hfin.
Qed.

(** A marshaling loop that did not fail took every turn. *)
Lemma marshal_loop_complete function info is_method c_argc js_argv todo
    gi_arg_pos c_arg_pos processed m m' c' p' :
  marshal_loop function info is_method c_argc js_argv todo gi_arg_pos
    c_arg_pos processed m = Some (m', c', p') ->
  m_failed m' = false ->
  c' = c_arg_pos + Z.of_nat todo /\ p' = processed + Z.of_nat todo.
Proof.
  revert gi_arg_pos c_arg_pos processed m.
  induction todo as [|todo IH]; intros gi_arg_pos c_arg_pos processed m; simpl.
  - intros [= <- <- <-] _. lia.
  - destruct (marshal_arg _ _ _ _ _ _ _ _) as [m1|]; [|done]. simpl.
    destruct (m_failed m1) eqn:Hf.
    + intros [= <- <- <-]. congruence.
    + intros Hl Hok. apply IH in Hl; [|done]. lia.
Qed.
End Anatomy.

Lemma native_events_quiet (l : list Event) :
  Forall native_event l ->
  Forall no_call_no_output l /\
  (forall e, ~ In (EvThrow e) l) /\ (forall c ok, ~ In (EvReleaseIn c ok) l).
Proof.
  intros Hall. split; [eapply Forall_impl; [exact Hall|]; by intros []|].
  rewrite Forall_forall in Hall.
  split; intros; intros Hin; apply list_elem_of_In, Hall in Hin; done.
Qed.

Section CallAnatomy.
Context `{Collaborators}.

Lemma invoke_release_releases function info is_method failed local_error
    processed js_rval r result rv w' (k : Z) arg_info pt :
  invoke_release function info is_method failed local_error processed
    js_rval r = Some (result, rv, w') ->
  0 <= k < wrap8 (g_callable_info_get_n_args info) ->
  (if is_method then 1 else 0) + k < processed ->
  g_callable_info_load_arg info k = Some arg_info ->
  is_in_or_inout (arg_info_direction arg_info) = true ->
  slot_load (param_types function) k = Some pt ->
  pt = PARAM_NORMAL \/ pt = PARAM_ARRAY ->
  exists before after ok,
    trace w' =
      after ++ EvReleaseIn ((if is_method then 1 else 0) + k) ok
        :: before ++ trace (r_world r).
Proof.
  unfold invoke_release. intros Hr Hk Hp Harg Hdir Hpt Hkind.
  destruct (release_loop _ _ _ _ _ _ _ _ _ _) as [[r1 c1]|] eqn:Hloop;
    [|done].
  simpl in Hr.
  eapply (release_loop_releases _ _ _ _ _ _ _ _ _ _ _ _ k) in Hloop
    as (before & after & ok & Htrace); eauto; [|lia].
  assert_ok Hr.
  match type of Hr with
  | (?c ≫= _) = _ => destruct c as [[failed' rv']|]; [|done]
  end.
  simpl in Hr.
  destruct local_error as [message|]; [destruct (negb failed')|destruct failed'];
    simplify_eq; simpl; try (by exists before, after, ok).
  exists before, (EvErrorFree :: EvThrow (ERR_INVOKING message) :: after), ok.
  by rewrite Htrace.
Qed.

(** The call proper: the log gets the native call and then what follows
    it.  When the callee left an error, what follows has no conversion
    of an output, the call returns [JS_FALSE] with [*js_rval] still
    [JSVAL_VOID], the in arguments are released, and the message of the
    error is thrown exactly when no release failed. *)
Lemma invoke_call_anatomy function info is_method c_arg_pos processed f w
    result rv w' :
  invoke_call function info is_method c_arg_pos processed f w
    = Some (result, rv, w') ->
  exists args err post,
    trace w' =
      post ++ EvFfiCall (native_address (invoker function)) args err
        :: trace w /\
    Forall no_call post /\
    forall message,
      err = Some message ->
      result = JS_FALSE /\ rv = Some JSVAL_VOID /\
      Forall no_call_no_output post /\
      (In (EvThrow (ERR_INVOKING message)) post <->
       forall c, ~ In (EvReleaseIn c false) post) /\
      (forall k arg_info pt,
          0 <= k < wrap8 (g_callable_info_get_n_args info) ->
          (if is_method then 1 else 0) + k < processed ->
          g_callable_info_load_arg info k = Some arg_info ->
          is_in_or_inout (arg_info_direction arg_info) = true ->
          slot_load (param_types function) k = Some pt ->
          pt = PARAM_NORMAL \/ pt = PARAM_ARRAY ->
          exists ok,
            In (EvReleaseIn ((if is_method then 1 else 0) + k) ok) post) /\
      (forall c ok,
          In (EvReleaseIn c ok) post ->
          exists k arg_info pt,
            0 <= k < wrap8 (g_callable_info_get_n_args info) /\
            c = (if is_method then 1 else 0) + k /\
            g_callable_info_load_arg info k = Some arg_info /\
            is_in_or_inout (arg_info_direction arg_info) = true /\
            slot_load (param_types function) k = Some pt /\
            (pt = PARAM_NORMAL \/ pt = PARAM_ARRAY)).
Proof.
  unfold invoke_call. intros Hc.
  match type of Hc with
  | (?c ≫= _) = _ => destruct c as [[f1 c1]|]; [|done]
  end.
  simpl in Hc. assert_ok Hc.
  destruct (ffi_call _ _ _ _) as [[[[rv0 err] f2] w2]|] eqn:Hffi;
    simpl in Hc; [|done].
  pose proof (ffi_call_effect native_event _ _ _ _ _ _ _ _
                ltac:(done) Hffi)
    as ((new & Hnew & Hnative) & _).
  destruct (native_events_quiet new Hnative)
    as (Hnative' & Hnothrow & Hnorelease).
  match type of Hc with
  | (?c ≫= _) = _ =>
      destruct c as [[failed r]|] eqn:Hconv; simpl in Hc; [|done]
  end.
  assert (only_logs no_call w2 (r_world r)) as Hret.
  { destruct (_ && _).
    - eapply convert_return_value_logs; [|exact Hconv]. by intros [].
    - simplify_eq. apply only_logs_refl. }
  pose proof (invoke_release_logs no_call _ _ _ _ _ _ _ _ _ _ _
                ltac:(by intros []) ltac:(by intros []) ltac:(by intros [])
                Hc) as Hrel.
  pose proof (only_logs_trans _ _ _ _ Hret Hrel) as [_ (post & Hpost & Hposts)].
  exists (in_arg_cvalues f1), err, (post ++ new).
  split; [by rewrite Hpost, Hnew, app_assoc|].
  split.
  { apply Forall_app. split; [done|].
    eapply Forall_impl; [exact Hnative'|]. by intros []. }
  intros message ->. simpl in Hconv. rewrite andb_false_r in Hconv.
  injection Hconv as <- <-.
  destruct (invoke_release_after_failure no_call_no_output function info
              is_method false (Some message) processed (Some JSVAL_VOID)
              (Release_start f2 w2 0 []) result rv w')
    as (-> & -> & [_ (post' & Hpost' & Hquiet)] & Hthrown);
    [by intros [] | by intros [] | reflexivity | exact Hc |].
  simpl in *.
  assert (post' = post) as ->.
  { apply (app_inv_tail (trace w2)). by rewrite <- Hpost, <- Hpost'. }
  split; [done|]. split; [done|]. split.
  { by apply Forall_app. }
  destruct (Hthrown message) as (released & Hall & Hrest & Hsources);
    try done.
  assert (post =
            (if release_failed released then []
             else [EvErrorFree; EvThrow (ERR_INVOKING message)])
            ++ released) as Hpost''.
  { eapply app_inv_tail. rewrite <- Hpost, Hrest. by rewrite <- app_assoc. }
  split; [|split].
  3:{ intros c ok Hin. apply in_app_or in Hin as [Hin | Hin];
        [|by apply Hnorelease in Hin].
      apply (Hsources c ok). rewrite Hpost'' in Hin.
      apply in_app_or in Hin as [Hin | Hin]; [|done].
      destruct (release_failed released); [done|].
      destruct Hin as [Hin | [Hin | []]]; discriminate. }
  - subst post.
    assert (forall e, ~ In (EvThrow e) released) as Hquiet'.
    { intros e Hin. rewrite Forall_forall in Hall.
      by apply list_elem_of_In, Hall in Hin. }
    destruct (release_failed released) eqn:Hfailed; simpl.
    + apply release_failed_In in Hfailed as (c & Hin). split.
      * intros [Hbad | Hbad]%in_app_or; [by apply Hquiet' in Hbad|].
        by apply Hnothrow in Hbad.
      * intros Hnone. exfalso. apply (Hnone c). apply in_or_app. by left.
    + split; [|auto].
      intros _ c [Hbad | [Hbad | Hbad]]; try done.
      apply in_app_or in Hbad as [Hbad | Hbad]; [|by apply Hnorelease in Hbad].
      assert (release_failed released = true) as Hyes
        by (apply release_failed_In; by exists c).
      congruence.
  - intros k arg_info pt Hk Hp Harg Hdir Hpt Hkind.
    destruct (invoke_release_releases _ _ _ _ _ _ _ _ _ _ _ k arg_info pt Hc)
      as (before & after & ok & Htrace); try done.
    simpl in Htrace. exists ok.
    assert (post = after ++ EvReleaseIn
                      ((if is_method then 1 else 0) + k) ok :: before) as ->.
    { eapply app_inv_tail. rewrite <- Hpost, Htrace.
      by rewrite <- app_assoc. }
    apply in_app_iff. left. apply in_app_iff. right. simpl. auto.
Qed.
End CallAnatomy.

Section WholeCall.
Context `{Collaborators}.

(** A call of [gjs_invoke_c_function] that returns: what it adds to the
    log either has no native call in it (too few arguments, or a failure
    while marshaling), or is what came before the one native call, the
    call, and what came after. *)
Lemma gjs_invoke_c_function_anatomy function obj js_argv w result rv w' :
  gjs_invoke_c_function function obj js_argv w = Some (result, rv, w') ->
  exists info0 new,
    info function = Some info0 /\
    trace w' = new ++ trace w /\
    (Forall no_call_no_output new \/
     exists pre args err post,
       new = post ++ EvFfiCall (native_address (invoker function)) args err
               :: pre /\
       Forall no_call_no_output pre /\ Forall no_call post /\
       forall message,
         err = Some message ->
         result = JS_FALSE /\ rv = Some JSVAL_VOID /\
         Forall no_call_no_output post /\
         (In (EvThrow (ERR_INVOKING message)) post <->
          forall c, ~ In (EvReleaseIn c false) post) /\
         (forall k arg_info pt,
             0 <= k < wrap8 (g_callable_info_get_n_args info0) ->
             g_callable_info_load_arg info0 k = Some arg_info ->
             is_in_or_inout (arg_info_direction arg_info) = true ->
             slot_load (param_types function) k = Some pt ->
             pt = PARAM_NORMAL \/ pt = PARAM_ARRAY ->
             exists ok,
               In (EvReleaseIn
                     ((if function_info_is_method info0 then 1 else 0) + k)
                     ok) post) /\
         (forall c ok,
             In (EvReleaseIn c ok) post ->
             exists k arg_info pt,
               0 <= k < wrap8 (g_callable_info_get_n_args info0) /\
               c = (if function_info_is_method info0 then 1 else 0) + k /\
               g_callable_info_load_arg info0 k = Some arg_info /\
               is_in_or_inout (arg_info_direction arg_info) = true /\
               slot_load (param_types function) k = Some pt /\
               (pt = PARAM_NORMAL \/ pt = PARAM_ARRAY))).
Proof.
  unfold gjs_invoke_c_function. intros Hcall.
  destruct (free_completed_trampolines w) as [w0|] eqn:Hdrain;
    simpl in Hcall; [|done].
  destruct (free_completed_trampolines_effect no_call_no_output _ _
              ltac:(done) Hdrain) as (Hempty & drained & Hdrained & Hquiet0).
  destruct (info function) as [info0|]; simpl in Hcall; [|done].
  destruct (_ <? expected_js_argc function).
  { injection Hcall as <- <- <-.
    exists info0, (EvThrow (ERR_TOO_FEW_ARGUMENTS (expected_js_argc function)
                         (Z.of_nat (length js_argv))) :: drained).
    split; [done|]. split; [simpl; by rewrite Hdrained|].
    left. by constructor. }
  match type of Hcall with
  | (?c ≫= _) = _ =>
      destruct c as [[[f failed] w1]|] eqn:Hreceiver; simpl in Hcall; [|done]
  end.
  assert (only_logs no_call_no_output w0 w1) as Hlog1.
  { destruct (function_info_is_method info0).
    - eapply marshal_receiver_logs; [|exact Hreceiver]. by intros [].
    - simplify_eq. apply only_logs_refl. }
  destruct failed.
  { apply (invoke_release_after_failure no_call_no_output) in Hcall
      as (_ & _ & Hlog2 & _);
      [|by intros [] | by intros [] | reflexivity].
    pose proof (only_logs_trans _ _ _ _ Hlog1 Hlog2) as Hlog.
    destruct Hlog as [_ (new & Hnew & Hquiet)].
    exists info0, (new ++ drained). split; [done|].
    split; [by rewrite Hnew, Hdrained, app_assoc|].
    left. by apply Forall_app. }
  destruct (marshal_loop _ _ _ _ _ _ _ _ _ _) as [[[m c1] p1]|] eqn:Hloop;
    simpl in Hcall; [|done].
  pose proof (marshal_loop_logs no_call_no_output _ _ _ _ _ _ _ _ _ _ _ _ _
                ltac:(by intros []) Hloop) as Hlog2.
  simpl in Hlog2.
  pose proof (only_logs_trans _ _ _ _ Hlog1 Hlog2) as Hmarshalled.
  destruct (m_failed m) eqn:Hfailed.
  { apply (invoke_release_after_failure no_call_no_output) in Hcall
      as (_ & _ & Hlog3 & _);
      [|by intros [] | by intros [] | reflexivity].
    pose proof (only_logs_trans _ _ _ _ Hmarshalled Hlog3) as Hlog.
    destruct Hlog as [_ (new & Hnew & Hquiet)].
    exists info0, (new ++ drained). split; [done|].
    split; [by rewrite Hnew, Hdrained, app_assoc|].
    left. by apply Forall_app. }
  apply marshal_loop_complete in Hloop as [-> ->]; [|done].
  rewrite Z2Nat.id in Hcall by apply (proj1 (wrap8_range _)).
  apply invoke_call_anatomy in Hcall
    as (args & err & post & Htrace & Hpost & Herr).
  destruct Hmarshalled as [_ (pre & Hpre & Hquiet)].
  exists info0, (post ++ EvFfiCall (native_address (invoker function)) args err
                   :: pre ++ drained).
  split; [done|]. split.
  { rewrite Htrace, Hpre, Hdrained.
    by rewrite <- !app_assoc, <- app_comm_cons, <- !app_assoc. }
  right. exists (pre ++ drained), args, err, post.
  split; [done|]. split; [by apply Forall_app|]. split; [done|].
  intros message Hmessage.
  destruct (Herr message Hmessage) as (? & ? & ? & ? & Hreleased & ?).
  repeat (split; [done|]). split; [|done].
  intros k arg_info pt Hk Harg Hdir Hpt Hkind.
  eapply Hreleased; eauto. lia.
Qed.
End WholeCall.

(** ** JavaScript that calls native code *)

Lemma progresses_refl w : progresses w w.
Proof. split; [apply evolves_refl | intros _; apply pending_step_refl]. Qed.

Lemma progresses_trans w1 w2 w3 :
  progresses w1 w2 -> progresses w2 w3 -> progresses w1 w3.
Proof.
  intros [He1 Hp1] [He2 Hp2]. split; [by eapply evolves_trans|].
  intros Hok. eapply pending_step_trans; [by apply Hp1|].
  apply Hp2. by eapply evolves_ok.
Qed.

Lemma only_logs_progresses P w w' : only_logs P w w' -> progresses w w'.
Proof.
  intros Hlog. split; [by eapply only_logs_evolves|].
  intros _. by eapply only_logs_pending_step.
Qed.

Lemma async_calls_javascript nested :
  async_calls [EvJavaScript nested] = async_calls nested.
Proof.
  change (async_calls [EvJavaScript nested])
    with (async_calls_of (EvJavaScript nested) ++ []).
  by rewrite async_calls_nested, app_nil_r.
Qed.

Section Contract.
Context `{Collaborators}.
Hypothesis Hjs : javascript_contract.

(** A call of a trampoline, whatever the JavaScript function does. *)
Lemma gjs_callback_closure_progresses data args w result w' :
  gjs_callback_closure data args w = Some (result, w') -> progresses w w'.
Proof.
  intros Hc.
  apply gjs_callback_closure_inv in Hc
    as (tr & tr' & w1 & Htr & Hran & Htr' & Hheap & _ & Hnext & Htrace
        & Hcompleted).
  assert (evolves w w1 /\
          (World_ok w ->
           exists ran,
             trace w1 = ran ++ EvClosureCall data (scope tr) :: trace w /\
             completed_trampolines w1
               ⊆+ async_calls ran ++ completed_trampolines w))
    as [Hev Hpend].
  { destruct Hran as [-> | (jsargs & rval & w_js & Hcall & ->)].
    - split; [by apply evolves_heap|]. intros _. by exists [].
    - apply Hjs in Hcall as [[Hev Hpend] _]. split; [exact Hev|].
      intros Hok. destruct (Hpend Hok) as (new & Hnew & Hsub).
      simpl in Hnew, Hsub. rewrite app_nil_r in Hnew.
      exists [EvJavaScript (trace w_js)]. split; [done|].
      by rewrite async_calls_javascript, Hnew. }
  split.
  { eapply evolves_trans; [exact Hev|]. apply evolves_heap; [done | lia]. }
  intros Hok. destruct (Hpend Hok) as (ran & Hran' & Hsub).
  assert (scope tr' = scope tr) as Hscope.
  { destruct Hev as (_ & Hold & _).
    specialize (Hold data (Hok data ltac:(by eexists))).
    rewrite Htr, Htr' in Hold. by destruct Hold as [(_ & _ & ?) _]. }
  assert (completed_trampolines w'
            ⊆+ async_calls (ran ++ [EvClosureCall data (scope tr)])
               ++ completed_trampolines w) as Hsub'.
  { rewrite Hcompleted, Hscope, async_calls_app.
    destruct (scope tr); simpl; rewrite ?app_nil_r; try done.
    rewrite <- app_assoc. simpl. by apply submseteq_cons_middle. }
  destruct Htrace as [Ht | Ht].
  - exists (ran ++ [EvClosureCall data (scope tr)]).
    split; [|done]. by rewrite Ht, Hran', <- app_assoc.
  - exists (EvLogException :: ran ++ [EvClosureCall data (scope tr)]).
    split; [|done]. rewrite Ht, Hran'. simpl. by rewrite <- app_assoc.
Qed.

Lemma run_native_action_progresses a w w' :
  run_native_action a w = Some w' -> progresses w w'.
Proof.
  destruct a as [closure args | data]; simpl.
  - destruct (gjs_callback_closure closure args w) as [[r w1]|] eqn:Hc;
      [|done].
    simpl. intros [= <-]. by eapply gjs_callback_closure_progresses.
  - intros Hd. eapply only_logs_progresses.
    by apply (gjs_destroy_notify_callback_logs (fun _ => True)) in Hd.
Qed.

Lemma run_native_actions_progresses l w w' :
  run_native_actions l w = Some w' -> progresses w w'.
Proof.
  revert w. induction l as [|a l IH]; intros w; simpl.
  - intros [= <-]. apply progresses_refl.
  - destruct (run_native_action a w) as [w1|] eqn:Ha; [|done]. simpl.
    intros Hl. eapply progresses_trans; [|by apply IH].
    by eapply run_native_action_progresses.
Qed.

Lemma ffi_call_progresses function can_throw f w rv err f' w' :
  ffi_call function can_throw f w = Some (rv, err, f', w') ->
  progresses w w'.
Proof.
  unfold ffi_call.
  destruct (run_native_actions _ _) as [w1|] eqn:Hrun; [|done]. simpl.
  intros [= <- <- <- <-].
  eapply progresses_trans; [|by eapply run_native_actions_progresses].
  eapply only_logs_progresses. by apply (only_logs_log (fun _ => True)).
Qed.

Lemma invoke_call_progresses function info is_method c_arg_pos processed f w
    result rv w' :
  invoke_call function info is_method c_arg_pos processed f w
    = Some (result, rv, w') ->
  progresses w w'.
Proof.
  unfold invoke_call. intros Hc.
  match type of Hc with
  | (?c ≫= _) = _ => destruct c as [[f1 c1]|]; [|done]
  end.
  simpl in Hc. assert_ok Hc.
  destruct (ffi_call _ _ _ _) as [[[[rv0 err] f2] w2]|] eqn:Hffi;
    simpl in Hc; [|done].
  apply ffi_call_progresses in Hffi.
  match type of Hc with
  | (?c ≫= _) = _ =>
      destruct c as [[failed r]|] eqn:Hconv; simpl in Hc; [|done]
  end.
  assert (only_logs (fun _ => True) w2 (r_world r)) as Hret.
  { destruct (_ && _).
    - by eapply convert_return_value_logs; [|exact Hconv].
    - simplify_eq. apply only_logs_refl. }
  apply (invoke_release_logs (fun _ => True)) in Hc; [|done..].
  eapply progresses_trans; [exact Hffi|].
  eapply only_logs_progresses, only_logs_trans; [exact Hret | exact Hc].
Qed.

Lemma free_completed_trampolines_progresses w w' :
  free_completed_trampolines w = Some w' -> progresses w w'.
Proof.
  unfold free_completed_trampolines.
  destruct (unref_all _ w) as [w1|] eqn:Hu; [|done]. simpl.
  intros [= <-].
  apply (unref_all_logs (fun _ => True)) in Hu as [[_ Hev] (new & Ht & _)];
    [|done].
  split; [exact Hev|]. intros _. exists new. split; [done|].
  apply submseteq_nil_l.
Qed.

(** A call of an exposed function, whatever the callbacks it runs do. *)
Lemma gjs_invoke_c_function_progresses function obj js_argv w result rv w' :
  gjs_invoke_c_function function obj js_argv w = Some (result, rv, w') ->
  progresses w w'.
Proof.
  unfold gjs_invoke_c_function. intros Hcall.
  destruct (free_completed_trampolines w) as [w0|] eqn:Hdrain;
    simpl in Hcall; [|done].
  apply free_completed_trampolines_progresses in Hdrain.
  eapply progresses_trans; [exact Hdrain|].
  destruct (info function) as [info0|]; simpl in Hcall; [|done].
  destruct (_ <? expected_js_argc function).
  { injection Hcall as <- <- <-. eapply only_logs_progresses.
    by apply (only_logs_throw (fun _ => True)). }
  match type of Hcall with
  | (?c ≫= _) = _ =>
      destruct c as [[[f failed] w1]|] eqn:Hreceiver; simpl in Hcall; [|done]
  end.
  assert (only_logs (fun _ => True) w0 w1) as Hlog1.
  { destruct (function_info_is_method info0).
    - by eapply marshal_receiver_logs; [|exact Hreceiver].
    - simplify_eq. apply only_logs_refl. }
  eapply progresses_trans; [by eapply only_logs_progresses|].
  destruct failed.
  { apply (invoke_release_logs (fun _ => True)) in Hcall; [|done..].
    by eapply only_logs_progresses. }
  destruct (marshal_loop _ _ _ _ _ _ _ _ _ _) as [[[m c1] p1]|] eqn:Hloop;
    simpl in Hcall; [|done].
  apply (marshal_loop_logs (fun _ => True)) in Hloop; [|done].
  eapply progresses_trans; [by eapply only_logs_progresses|].
  destruct (m_failed m).
  - apply (invoke_release_logs (fun _ => True)) in Hcall; [|done..].
    by eapply only_logs_progresses.
  - by eapply invoke_call_progresses.
Qed.

Lemma function_call_progresses priv object js_argv vp w result vp' w' :
  function_call priv object js_argv vp w = Some (result, vp', w') ->
  progresses w w'.
Proof.
  unfold function_call. destruct priv as [priv|].
  - destruct (gjs_invoke_c_function priv object js_argv w)
      as [[[success retval] w1]|] eqn:Hcall; [|done].
    simpl. apply gjs_invoke_c_function_progresses in Hcall.
    destruct success; [destruct retval; [|done]|]; simpl;
      by intros [= <- <- <-].
  - intros [= <- <- <-]. apply progresses_refl.
Qed.

Lemma function_call_grows priv object js_argv vp w result vp' w' :
  function_call priv object js_argv vp w = Some (result, vp', w') ->
  exists new, trace w' = new ++ trace w.
Proof.
  unfold function_call. destruct priv as [priv|].
  - destruct (gjs_invoke_c_function priv object js_argv w)
      as [[[success retval] w1]|] eqn:Hcall; [|done].
    simpl. apply gjs_invoke_c_function_anatomy in Hcall
      as (info0 & new & _ & Ht & _).
    destruct success; [destruct retval; [|done]|]; simpl;
      intros [= <- <- <-]; by exists new.
  - intros [= <- <- <-]. by exists [].
Qed.

(** A script changes the state through the functions it calls only, and
    every call shows in the log. *)
Lemma run_script_contract s w rval w' :
  run_script s w = Some (rval, w') ->
  progresses w w' /\
  exists new,
    trace w' = new ++ trace w /\ (new = [] -> w' = w).
Proof.
  revert w. induction s as [rv | priv object js_argv rest IH]; intros w;
    cbn [run_script].
  - intros [= <- <-]. split; [apply progresses_refl|]. by exists [].
  - destruct (function_call _ _ _ _ _) as [[[result vp] w1]|] eqn:Hcall;
      [|done].
    cbn [mbind option_bind]. intros Hrest.
    destruct (function_call_grows _ _ _ _ _ _ _ _ Hcall) as (called & Ht).
    apply function_call_progresses in Hcall.
    apply IH in Hrest as [Hrest (new & Hnew & _)].
    split.
    + eapply progresses_trans; [|exact Hrest].
      eapply progresses_trans; [|exact Hcall].
      eapply only_logs_progresses. by apply (only_logs_log (fun _ => True)).
    + eexists (new ++ called ++ [_]). split.
      * rewrite Hnew, Ht. simpl. by rewrite <- !app_assoc.
      * intros Hnil. apply (f_equal length) in Hnil.
        rewrite !length_app in Hnil. simpl in Hnil. lia.
Qed.
End Contract.

(** Every [reentrant] keeps the contract. *)
Lemma reentrant_contract c code depth :
  javascript_contract (H := reentrant c code depth).
Proof.
  induction depth as [|depth IH]; intros function jsargs w rval w'; simpl.
  - done.
  - intros Hrun. apply (run_script_contract IH) in Hrun
      as [Hrun (new & Hnew & Hsilent)].
    split; [done|]. intros Hsame. apply Hsilent.
    apply (f_equal length) in Hsame. rewrite Hnew, length_app in Hsame.
    apply length_zero_iff_nil. lia.
Qed.

(** ** The drain of the completed trampolines *)

Lemma set_completed_trampolines_id w :
  completed_trampolines w = [] -> set_completed_trampolines w [] = w.
Proof. destruct w. simpl. by intros ->. Qed.

(** What [gjs_callback_trampoline_unref] does to the trampolines. *)
Lemma gjs_callback_trampoline_unref_effect t w w' :
  gjs_callback_trampoline_unref t w = Some w' ->
  exists tr,
    trampolines w !! t = Some tr /\
    trampolines w' =
      (if ref_count tr =? 1 then delete t (trampolines w)
       else <[t := set_ref_count tr (ref_count tr - 1)]> (trampolines w)) /\
    completed_trampolines w' = completed_trampolines w /\
    slices w' = slices w /\
    next_address w' = next_address w /\
    trace w' =
      (if ref_count tr =? 1 then EvTrampolineFree t :: trace w else trace w).
Proof.
  unfold gjs_callback_trampoline_unref.
  destruct (trampolines w !! t) as [tr|]; [|done]. simpl.
  replace (ref_count tr - 1 =? 0) with (ref_count tr =? 1) by lia.
  intros Hu. exists tr. split; [done|].
  destruct (ref_count tr =? 1); by simplify_eq.
Qed.

Section Drain.
Context `{Collaborators}.

(** Each listed trampoline loses one reference, and is freed if it was
    its last; the others are left alone. *)
Lemma unref_all_effect l w w' :
  NoDup l -> unref_all l w = Some w' ->
  (forall t, t ∈ l ->
     exists tr,
       trampolines w !! t = Some tr /\
       trampolines w' !! t =
         if ref_count tr =? 1 then None
         else Some (set_ref_count tr (ref_count tr - 1))) /\
  (forall t, t ∉ l -> trampolines w' !! t = trampolines w !! t).
Proof.
  intros Hnodup. revert w. induction Hnodup as [|t l Hnotin Hnodup IH];
    intros w; simpl.
  - intros [= <-]. split; [|done]. intros t Ht. by apply elem_of_nil in Ht.
  - destruct (gjs_callback_trampoline_unref t w) as [w1|] eqn:Hu; [|done].
    simpl. intros Hl. apply IH in Hl as [Hin Hout].
    apply gjs_callback_trampoline_unref_effect in Hu
      as (tr & Hlive & Hheap & _).
    split.
    + intros t' [-> | Ht']%elem_of_cons.
      * exists tr. split; [done|]. rewrite (Hout t Hnotin), Hheap.
        destruct (ref_count tr =? 1).
        -- apply lookup_delete_eq.
        -- apply lookup_insert_eq.
      * destruct (Hin t' Ht') as (tr' & Hlive' & Hafter).
        exists tr'. split; [|done].
        assert (t <> t') by (intros ->; done).
        rewrite Hheap in Hlive'. destruct (ref_count tr =? 1).
        -- by rewrite lookup_delete_ne in Hlive'.
        -- by rewrite lookup_insert_ne in Hlive'.
    + intros t' Ht'. apply not_elem_of_cons in Ht' as [Hne Ht'].
      rewrite (Hout t' Ht'), Hheap. destruct (ref_count tr =? 1).
      * by apply lookup_delete_ne.
      * by apply lookup_insert_ne.
Qed.

(** The drain is the first thing a call does, and it is idempotent: the
    rest of the call is the call in the drained world. *)
Lemma gjs_invoke_c_function_drains function obj js_argv w r :
  gjs_invoke_c_function function obj js_argv w = Some r ->
  exists w1,
    free_completed_trampolines w = Some w1 /\
    completed_trampolines w1 = [] /\
    gjs_invoke_c_function function obj js_argv w1 = Some r.
Proof.
  unfold gjs_invoke_c_function at 1.
  destruct (free_completed_trampolines w) as [w1|] eqn:Hdrain; [|done].
  simpl. intros Hrest. exists w1. split; [done|].
  assert (completed_trampolines w1 = []) as Hempty.
  { unfold free_completed_trampolines in Hdrain.
    destruct (unref_all _ _); simpl in Hdrain; [|done].
    by injection Hdrain as <-. }
  split; [done|]. unfold gjs_invoke_c_function.
  unfold free_completed_trampolines at 1. rewrite Hempty. simpl.
  by rewrite set_completed_trampolines_id.
Qed.

End Drain.

Section Reachable.
Context `{Collaborators}.
Hypothesis Hjs : javascript_contract.

Lemma run_steps_progresses steps w w' :
  run_steps steps w = Some w' -> progresses w w'.
Proof.
  revert w. induction steps as [|s steps IH]; intros w; simpl.
  - intros [= <-]. apply progresses_refl.
  - destruct (run_step s w) as [w1|] eqn:Hs; [|done]. simpl.
    intros Hrest. eapply progresses_trans; [|by apply IH].
    destruct s as [function obj js_argv | a]; simpl in Hs.
    + destruct (gjs_invoke_c_function function obj js_argv w)
        as [[[result rv] w2]|] eqn:Hcall; [|done].
      simpl in Hs. injection Hs as <-.
      by eapply gjs_invoke_c_function_progresses.
    + by eapply run_native_action_progresses.
Qed.
End Reachable.

Lemma World_empty_ok : World_ok World_empty.
Proof. intros t [tr Htr]. simpl in Htr. by rewrite lookup_empty in Htr. Qed.




(** ** Which slots marshaling writes *)

Lemma frame_agree_refl f p : frame_agree f f p.
Proof. by split. Qed.

Lemma frame_agree_trans f1 f2 f3 p :
  frame_agree f1 f2 p -> frame_agree f2 f3 p -> frame_agree f1 f3 p.
Proof. intros [? ?] [? ?]. split; congruence. Qed.

Lemma slot_store_load {A} (l l' : list A) i v p :
  slot_store l i v = Some l' -> p <> i -> slot_load l' p = slot_load l p.
Proof.
  intros [Hi ->]%slot_store_inv Hne. apply slot_load_insert_ne; lia.
Qed.

Lemma slot_store_load_eq {A} (l l' : list A) i v :
  slot_store l i v = Some l' -> slot_load l' i = Some v.
Proof. intros [Hi ->]%slot_store_inv. by apply slot_load_insert_eq. Qed.

Lemma store_in_agree f i v f' p :
  store_in f i v = Some f' -> p <> i -> frame_agree f f' p.
Proof.
  unfold store_in. intros Hs Hne. simplify_option_eq. split; simpl; [|done].
  by eapply slot_store_load.
Qed.

Lemma store_out_agree f i v f' p :
  store_out f i v = Some f' -> frame_agree f f' p.
Proof. unfold store_out. intros Hs. simplify_option_eq. by split. Qed.

Lemma store_inout_original_agree f i v f' p :
  store_inout_original f i v = Some f' -> p <> i -> frame_agree f f' p.
Proof.
  unfold store_inout_original. intros Hs Hne. simplify_option_eq.
  split; simpl; [done|]. by eapply slot_store_load.
Qed.

Lemma store_ffi_pointer_agree f i f' p :
  store_ffi_pointer f i = Some f' -> frame_agree f f' p.
Proof. unfold store_ffi_pointer. intros Hs. simplify_option_eq. by split. Qed.

Lemma redirect_inout_agree f i f' p :
  redirect_inout f i = Some f' -> p <> i -> frame_agree f f' p.
Proof.
  unfold redirect_inout. intros Hr Hne.
  destruct (slot_load (in_arg_cvalues f) i) as [v|]; simpl in Hr; [|done].
  destruct (store_inout_original f i v) as [f1|] eqn:H1; simpl in Hr; [|done].
  destruct (store_out f1 i v) as [f2|] eqn:H2; simpl in Hr; [|done].
  eapply frame_agree_trans; [by eapply store_inout_original_agree|].
  eapply frame_agree_trans; [by eapply store_out_agree|].
  by eapply store_in_agree.
Qed.

(** After [redirect_inout] the snapshot holds what the in slot held. *)
Lemma redirect_inout_snapshot f i f' v :
  redirect_inout f i = Some f' ->
  slot_load (in_arg_cvalues f) i = Some v ->
  slot_load (inout_original_arg_cvalues f') i = Some v.
Proof.
  unfold redirect_inout. intros Hr Hv. rewrite Hv in Hr. simpl in Hr.
  unfold store_inout_original, store_out, store_in in Hr.
  destruct (slot_store (inout_original_arg_cvalues f) i v) as [l1|] eqn:H1;
    simpl in Hr; [|done].
  destruct (slot_store (out_arg_cvalues f) i v) as [l2|]; simpl in Hr; [|done].
  destruct (slot_store (in_arg_cvalues f) i (v_out_slot i)) as [l3|];
    simpl in Hr; [|done].
  injection Hr as <-. simpl. by eapply slot_store_load_eq.
Qed.

Section MarshalSlots.
Context `{Collaborators}.

Lemma marshal_out_agree arg_info c_arg_pos m m' p :
  marshal_out arg_info c_arg_pos m = Some m' -> p <> c_arg_pos ->
  frame_agree (m_frame m) (m_frame m') p.
Proof.
  unfold marshal_out. intros Hm Hne.
  destruct (arg_info_caller_allocates arg_info).
  - destruct (caller_allocates_size _) as [size|].
    + destruct (g_slice_alloc0 size (m_world m)) as [a w1].
      destruct (store_in _ _ _) as [f1|] eqn:H1; simpl in Hm; [|done].
      destruct (store_out _ _ _) as [f2|] eqn:H2; simpl in Hm; [|done].
      injection Hm as <-. simpl.
      eapply frame_agree_trans; [by eapply store_in_agree|].
      by eapply store_out_agree.
    + injection Hm as <-. apply frame_agree_refl.
  - destruct (store_out _ _ _) as [f1|] eqn:H1; simpl in Hm; [|done].
    destruct (store_in _ _ _) as [f2|] eqn:H2; simpl in Hm; [|done].
    injection Hm as <-. simpl.
    eapply frame_agree_trans; [by eapply store_out_agree|].
    by eapply store_in_agree.
Qed.

(** A companion is stored in a slot whose parameter is skipped. *)
Lemma store_companion_agree function is_method pos v f f' p :
  store_companion function is_method pos v f = Some f' ->
  (forall q, slot_load (param_types function) q = Some PARAM_SKIPPED ->
             p <> q + (if is_method then 1 else 0)) ->
  frame_agree f f' p.
Proof.
  unfold store_companion. intros Hs Hp.
  destruct (0 <=? pos); [|injection Hs as <-; apply frame_agree_refl].
  destruct (slot_load (param_types function) pos) as [t|] eqn:Ht;
    simpl in Hs; [|done].
  destruct (g_assert _) eqn:Ha; simpl in Hs; [|done].
  unfold g_assert in Ha.
  destruct (ParamType_eqb t PARAM_SKIPPED) eqn:Heq; [|done].
  apply ParamType_eqb_eq in Heq as ->.
  eapply store_in_agree; [exact Hs|].
  specialize (Hp pos Ht). by destruct is_method; [|rewrite Z.add_0_r in Hp].
Qed.

Lemma marshal_callback_slots_agree function is_method arg_info c_arg_pos
    trampoline w m m' p :
  marshal_callback_slots function is_method arg_info c_arg_pos trampoline w m
    = Some m' ->
  p <> c_arg_pos ->
  (forall q, slot_load (param_types function) q = Some PARAM_SKIPPED ->
             p <> q + (if is_method then 1 else 0)) ->
  frame_agree (m_frame m) (m_frame m') p.
Proof.
  unfold marshal_callback_slots. intros Hm Hne Hp.
  destruct (store_companion _ _ _ _ _) as [f1|] eqn:H1; simpl in Hm; [|done].
  destruct (store_companion function is_method (arg_info_closure arg_info) _ f1)
    as [f2|] eqn:H2; simpl in Hm; [|done].
  match type of Hm with
  | (?c ≫= _) = _ => destruct c as [w1|]; simpl in Hm; [|done]
  end.
  destruct (store_in f2 _ _) as [f3|] eqn:H3; simpl in Hm; [|done].
  injection Hm as <-. simpl.
  eapply frame_agree_trans; [by eapply store_companion_agree|].
  eapply frame_agree_trans; [by eapply store_companion_agree|].
  by eapply store_in_agree.
Qed.

Lemma marshal_callback_agree function is_method js_argv arg_info c_arg_pos
    m m' p :
  marshal_callback function is_method js_argv arg_info c_arg_pos m = Some m' ->
  p <> c_arg_pos ->
  (forall q, slot_load (param_types function) q = Some PARAM_SKIPPED ->
             p <> q + (if is_method then 1 else 0)) ->
  frame_agree (m_frame m) (m_frame m') p.
Proof.
  unfold marshal_callback. intros Hm Hne Hp.
  destruct (slot_load js_argv (m_js_arg_pos m)) as [value|]; simpl in Hm;
    [|done].
  destruct (_ && _).
  - by eapply marshal_callback_slots_agree.
  - destruct (negb (is_JSTYPE_FUNCTION value)).
    + injection Hm as <-. apply frame_agree_refl.
    + destruct (gjs_callback_trampoline_new _ _ _ _) as [[t w1]|];
        simpl in Hm; [|done].
      destruct t as [t|]; simpl in Hm; [|done].
      by eapply marshal_callback_slots_agree.
Qed.

Lemma marshal_array_agree info is_method js_argv arg_info c_arg_pos m m' p :
  marshal_array info is_method js_argv arg_info c_arg_pos m = Some m' ->
  p <> c_arg_pos ->
  p <> type_info_array_length (arg_info_type arg_info)
       + (if is_method then 1 else 0) ->
  frame_agree (m_frame m) (m_frame m') p.
Proof.
  unfold marshal_array. intros Hm Hne Hlen.
  destruct (slot_load js_argv (m_js_arg_pos m)) as [value|]; simpl in Hm;
    [|done].
  destruct (gjs_value_to_explicit_array value arg_info) as [[array length]|];
    [|injection Hm as <-; apply frame_agree_refl].
  destruct (store_in (m_frame m) c_arg_pos array) as [f1|] eqn:H1;
    simpl in Hm; [|done].
  pose proof (store_in_agree _ _ _ _ p H1 Hne) as Ha1.
  destruct (g_callable_info_load_arg info _) as [array_length_arg|];
    simpl in Hm; [|done].
  destruct (gjs_value_to_arg _ _) as [length_value|];
    [|injection Hm as <-; done].
  destruct (store_in f1 _ length_value) as [f2|] eqn:H2; simpl in Hm; [|done].
  pose proof (store_in_agree _ _ _ _ p H2 Hlen) as Ha2.
  match type of Hm with
  | (?c ≫= _) = _ => destruct c as [f3|] eqn:H3; simpl in Hm; [|done]
  end.
  injection Hm as <-. simpl.
  eapply frame_agree_trans; [exact Ha1|].
  eapply frame_agree_trans; [exact Ha2|].
  destruct (arg_info_direction arg_info);
    try (injection H3 as <-; apply frame_agree_refl).
  destruct (slot_load (in_arg_cvalues f2) c_arg_pos) as [in_value|];
    simpl in H3; [|done].
  destruct (GArgument_is_null in_value).
  - destruct (store_in f2 _ v_null) as [f4|] eqn:H4; simpl in H3; [|done].
    destruct (store_out f4 _ v_null) as [f5|] eqn:H5; simpl in H3; [|done].
    eapply frame_agree_trans; [by eapply store_in_agree|].
    eapply frame_agree_trans; [by eapply store_out_agree|].
    by eapply store_inout_original_agree.
  - by eapply redirect_inout_agree.
Qed.

Lemma marshal_normal_agree js_argv arg_info c_arg_pos m m' p :
  marshal_normal js_argv arg_info c_arg_pos m = Some m' ->
  p <> c_arg_pos ->
  frame_agree (m_frame m) (m_frame m') p.
Proof.
  unfold marshal_normal. intros Hm Hne.
  destruct (g_assert _); simpl in Hm; [|done].
  destruct (slot_load js_argv (m_js_arg_pos m)) as [value|]; simpl in Hm;
    [|done].
  destruct (gjs_value_to_arg value arg_info) as [v|];
    [|injection Hm as <-; apply frame_agree_refl].
  destruct (store_in _ _ _) as [f1|] eqn:H1; simpl in Hm; [|done].
  injection Hm as <-. by eapply store_in_agree.
Qed.
End MarshalSlots.

(** ** Which trampolines marshaling makes *)

Lemma store_in_load f i v f' :
  store_in f i v = Some f' -> slot_load (in_arg_cvalues f') i = Some v.
Proof.
  unfold store_in. intros Hs.
  destruct (slot_store (in_arg_cvalues f) i v) as [l|] eqn:Hl; simpl in Hs;
    [|done].
  injection Hs as <-. simpl. by eapply slot_store_load_eq.
Qed.

Section MarshalTrampolines.
Context `{Collaborators}.

Lemma marshal_array_world info is_method js_argv arg_info c_arg_pos m m' :
  marshal_array info is_method js_argv arg_info c_arg_pos m = Some m' ->
  m_world m' = m_world m.
Proof.
  unfold marshal_array. intros Hm.
  repeat (simplify_option_eq || case_match); done.
Qed.

Lemma marshal_normal_world js_argv arg_info c_arg_pos m m' :
  marshal_normal js_argv arg_info c_arg_pos m = Some m' ->
  m_world m' = m_world m.
Proof.
  unfold marshal_normal. intros Hm.
  repeat (simplify_option_eq || case_match); done.
Qed.

(** An out argument: the trampolines are as before, and no trampoline is
    logged. *)
Lemma marshal_out_world arg_info c_arg_pos m m' :
  marshal_out arg_info c_arg_pos m = Some m' ->
  trampolines (m_world m') = trampolines (m_world m) /\
  (next_address (m_world m) <= next_address (m_world m'))%nat /\
  exists step,
    trace (m_world m') = step ++ trace (m_world m) /\
    forall t s, ~ In (EvTrampolineNew t s) step.
Proof.
  unfold marshal_out. intros Hm.
  destruct (arg_info_caller_allocates arg_info).
  - destruct (caller_allocates_size _) as [size|].
    + unfold g_slice_alloc0 in Hm.
      destruct (store_in _ _ _) as [f1|]; simpl in Hm; [|done].
      destruct (store_out _ _ _) as [f2|]; simpl in Hm; [|done].
      injection Hm as <-. simpl. split; [done|]. split; [lia|].
      exists [EvSliceAlloc (next_address (m_world m)) size]. split; [done|].
      intros t s [Hc | []]. discriminate.
    + injection Hm as <-. simpl. split; [done|]. split; [lia|].
      eexists [_]. split; [done|]. intros t s [Hc | []]. discriminate.
  - destruct (store_out _ _ _) as [f1|]; simpl in Hm; [|done].
    destruct (store_in _ _ _) as [f2|]; simpl in Hm; [|done].
    injection Hm as <-. simpl. split; [done|]. split; [lia|].
    exists []. split; [done|]. intros t s [].
Qed.

(** What [marshal_callback_slots] leaves in the slot of the callback and in
    the world: an extra reference unless the scope is Call. *)
Lemma marshal_callback_slots_effect function is_method arg_info c_arg_pos
    trampoline w m m' :
  marshal_callback_slots function is_method arg_info c_arg_pos trampoline w m
    = Some m' ->
  m_failed m' = m_failed m /\
  m_js_arg_pos m' = m_js_arg_pos m /\
  slot_load (in_arg_cvalues (m_frame m')) c_arg_pos
    = Some (from_option v_closure v_null trampoline) /\
  match trampoline with
  | Some t =>
      if GIScopeType_is_call (arg_info_scope arg_info)
      then m_world m' = w
      else gjs_callback_trampoline_ref t w = Some (m_world m')
  | None => m_world m' = w
  end.
Proof.
  unfold marshal_callback_slots. intros Hm.
  destruct (store_companion _ _ _ _ _) as [f1|]; simpl in Hm; [|done].
  destruct (store_companion function is_method (arg_info_closure arg_info) _ f1)
    as [f2|]; simpl in Hm; [|done].
  match type of Hm with
  | (?c ≫= _) = _ => destruct c as [w1|] eqn:Hw; simpl in Hm; [|done]
  end.
  destruct (store_in f2 _ _) as [f3|] eqn:H3; simpl in Hm; [|done].
  injection Hm as <-. simpl. split; [done|]. split; [done|].
  split; [by eapply store_in_load|].
  destruct trampoline as [t|]; [|by injection Hw as <-].
  destruct (GIScopeType_is_call _); simpl in Hw; [by injection Hw as <-|done].
Qed.

(** The three ways a callback argument is marshalled: the value is not a
    function and the turn fails; the value is [null] and the slot gets
    [NULL]; or a trampoline is made at the next address, with the
    references of its scope, and the slot gets its closure. *)
Lemma marshal_callback_effect function is_method js_argv arg_info c_arg_pos
    m m' :
  marshal_callback function is_method js_argv arg_info c_arg_pos m = Some m' ->
  (m_failed m' = true /\
   trampolines (m_world m') = trampolines (m_world m) /\
   next_address (m_world m') = next_address (m_world m) /\
   exists e, trace (m_world m') = EvThrow e :: trace (m_world m)) \/
  (m_failed m' = m_failed m /\
   m_world m' = m_world m /\
   slot_load (in_arg_cvalues (m_frame m')) c_arg_pos = Some v_null) \/
  (let t := next_address (m_world m) in
   let s := arg_info_scope arg_info in
   m_failed m' = m_failed m /\
   slot_load (in_arg_cvalues (m_frame m')) c_arg_pos = Some (v_closure t) /\
   next_address (m_world m') = S t /\
   trace (m_world m') = EvTrampolineNew t s :: trace (m_world m) /\
   (forall t', t' <> t ->
      trampolines (m_world m') !! t' = trampolines (m_world m) !! t') /\
   exists tr,
     trampolines (m_world m') !! t = Some tr /\
     ref_count tr = initial_ref_count s /\ scope tr = s).
Proof.
  unfold marshal_callback. intros Hm.
  destruct (slot_load js_argv (m_js_arg_pos m)) as [value|]; simpl in Hm;
    [|done].
  destruct (_ && _).
  - right. left.
    apply marshal_callback_slots_effect in Hm as (? & ? & ? & ?). done.
  - destruct (negb (is_JSTYPE_FUNCTION value)).
    + left. injection Hm as <-. simpl. eauto.
    + right. right. unfold gjs_callback_trampoline_new in Hm.
      destruct (JSVAL_IS_NULL value); simpl in Hm; [done|].
      destruct (g_assert _); simpl in Hm; [|done].
      apply marshal_callback_slots_effect in Hm as (Hf & _ & Hslot & Hw).
      split; [done|]. split; [done|].
      unfold initial_ref_count.
      destruct (GIScopeType_is_call (arg_info_scope arg_info)).
      * rewrite Hw. simpl. split; [done|]. split; [done|]. split.
        -- intros t' Hne. by rewrite lookup_insert_ne.
        -- eexists. split; [apply lookup_insert_eq|]. done.
      * unfold gjs_callback_trampoline_ref in Hw. simpl in Hw.
        rewrite lookup_insert_eq in Hw. simpl in Hw. injection Hw as <-.
        simpl. split; [done|]. split; [done|]. split.
        -- intros t' Hne. by rewrite !lookup_insert_ne.
        -- eexists. split; [apply lookup_insert_eq|]. done.
Qed.
End MarshalTrampolines.

Section MarshalTurn.
Context `{Collaborators}.

Lemma marshal_in_agree function info is_method js_argv arg_info gi_arg_pos
    c_arg_pos m m' p :
  marshal_in function info is_method js_argv arg_info gi_arg_pos c_arg_pos m
    = Some m' ->
  p <> c_arg_pos ->
  (forall q, slot_load (param_types function) q = Some PARAM_SKIPPED ->
             p <> q + (if is_method then 1 else 0)) ->
  (slot_load (param_types function) gi_arg_pos = Some PARAM_ARRAY ->
   p <> type_info_array_length (arg_info_type arg_info)
        + (if is_method then 1 else 0)) ->
  frame_agree (m_frame m) (m_frame m') p.
Proof.
  unfold marshal_in. intros Hm Hne Hskipped Harray.
  destruct (slot_load (param_types function) gi_arg_pos) as [pt|];
    simpl in Hm; [|done].
  match type of Hm with
  | (?step ≫= _) = _ =>
      destruct step as [[removed m1]|] eqn:Hstep; simpl in Hm; [|done]
  end.
  assert (frame_agree (m_frame m) (m_frame m1) p) as H1.
  { destruct pt; simplify_option_eq.
    - by eapply marshal_normal_agree.
    - apply frame_agree_refl.
    - eapply marshal_array_agree; eauto.
    - by eapply marshal_callback_agree. }
  match type of Hm with
  | (?step ≫= _) = _ =>
      destruct step as [m2|] eqn:Hredirect; simpl in Hm; [|done]
  end.
  assert (frame_agree (m_frame m1) (m_frame m2) p) as H2.
  { destruct (arg_info_direction arg_info);
      try (injection Hredirect as <-; apply frame_agree_refl).
    destruct (_ && _); [|injection Hredirect as <-; apply frame_agree_refl].
    destruct (redirect_inout _ _) as [f|] eqn:Hr; simpl in Hredirect; [|done].
    injection Hredirect as <-. simpl. by eapply redirect_inout_agree. }
  assert (m_frame m' = m_frame m2) as ->.
  { match type of Hm with
    | (if ?c then _ else _) = _ => destruct c
    end; by injection Hm as <-. }
  by eapply frame_agree_trans.
Qed.

Lemma marshal_arg_agree function info is_method c_argc js_argv gi_arg_pos
    c_arg_pos m m' p :
  marshal_arg function info is_method c_argc js_argv gi_arg_pos c_arg_pos m
    = Some m' ->
  p <> c_arg_pos ->
  (forall q, slot_load (param_types function) q = Some PARAM_SKIPPED ->
             p <> q + (if is_method then 1 else 0)) ->
  (forall arg_info,
      g_callable_info_load_arg info gi_arg_pos = Some arg_info ->
      slot_load (param_types function) gi_arg_pos = Some PARAM_ARRAY ->
      p <> type_info_array_length (arg_info_type arg_info)
           + (if is_method then 1 else 0)) ->
  frame_agree (m_frame m) (m_frame m') p.
Proof.
  unfold marshal_arg. intros Hm Hne Hskipped Harray.
  destruct (g_callable_info_load_arg info gi_arg_pos) as [arg_info|];
    simpl in Hm; [|done].
  destruct (g_assert _); simpl in Hm; [|done].
  destruct (store_ffi_pointer _ _) as [f1|] eqn:Hffi; simpl in Hm; [|done].
  eapply frame_agree_trans; [by eapply store_ffi_pointer_agree|].
  destruct (arg_info_direction arg_info).
  - eapply marshal_in_agree in Hm; eauto.
  - eapply marshal_out_agree in Hm; eauto.
  - eapply marshal_in_agree in Hm; eauto.
Qed.

(** The targets of the other callback parameters are as before. *)
Lemma marshal_arg_targets function info is_method c_argc js_argv n m m' j :
  arrays_ok function info ->
  marshal_arg function info is_method c_argc js_argv n
    (n + (if is_method then 1 else 0)) m = Some m' ->
  j <> n ->
  callback_target function info is_method (m_frame m') j =
  callback_target function info is_method (m_frame m) j.
Proof.
  intros Harrays Hm Hne. unfold callback_target.
  destruct (slot_load (param_types function) j) as [[]|] eqn:Hpt; try done.
  assert (frame_agree (m_frame m) (m_frame m')
            (j + (if is_method then 1 else 0))) as [Hin Horig].
  { eapply marshal_arg_agree; [exact Hm| | |].
    - lia.
    - intros q Hq Heq. assert (q = j) as -> by lia. congruence.
    - intros arg_info Harg Harray Heq.
      apply (Harrays n arg_info Harg Harray).
      by replace (type_info_array_length (arg_info_type arg_info)) with j
        by lia. }
  unfold release_slot.
  destruct (g_callable_info_load_arg info j) as [arg_info|]; simpl; [|done].
  destruct (arg_info_direction arg_info); by rewrite ?Hin, ?Horig.
Qed.
End MarshalTurn.

Section MarshalMade.
Context `{Collaborators}.

(** A turn of the marshaling loop at a parameter that is not out: the
    trampoline it makes, if any, is at the next address and in the slot the
    release pass reads for the parameter. *)
Lemma marshal_in_made function info is_method js_argv arg_info n m m' :
  m_failed m = false ->
  g_callable_info_load_arg info n = Some arg_info ->
  arg_info_direction arg_info <> GI_DIRECTION_OUT ->
  marshal_in function info is_method js_argv arg_info n
    (n + (if is_method then 1 else 0)) m = Some m' ->
  (next_address (m_world m) <= next_address (m_world m'))%nat /\
  (forall t, (t < next_address (m_world m))%nat ->
     trampolines (m_world m') !! t = trampolines (m_world m) !! t) /\
  exists step,
    trace (m_world m') = step ++ trace (m_world m) /\
    (forall t s,
        In (EvTrampolineNew t s) step ->
        t = next_address (m_world m) /\ m_failed m' = false /\
        callback_target function info is_method (m_frame m') n = Some t /\
        exists tr,
          trampolines (m_world m') !! t = Some tr /\
          ref_count tr = initial_ref_count s /\ scope tr = s) /\
    (forall t,
        m_failed m' = false ->
        callback_target function info is_method (m_frame m') n = Some t ->
        t = next_address (m_world m) /\
        (t < next_address (m_world m'))%nat).
Proof.
  intros Hok Harg Hdir. unfold marshal_in. intros Hm.
  destruct (slot_load (param_types function) n) as [pt|] eqn:Hpt;
    simpl in Hm; [|done].
  match type of Hm with
  | (?step ≫= _) = _ =>
      destruct step as [[removed m1]|] eqn:Hstep; simpl in Hm; [|done]
  end.
  match type of Hm with
  | (?step ≫= _) = _ =>
      destruct step as [m2|] eqn:Hredirect; simpl in Hm; [|done]
  end.
  assert (m_world m' = m_world m2 /\ m_frame m' = m_frame m2 /\
          m_failed m' = m_failed m2) as (Hw' & Hf' & Hfl').
  { match type of Hm with
    | (if ?c then _ else _) = _ => destruct c
    end; by injection Hm as <-. }
  assert (m_world m2 = m_world m1 /\ m_failed m2 = m_failed m1)
    as (Hw2 & Hfl2).
  { destruct (arg_info_direction arg_info); try by injection Hredirect as <-.
    destruct (_ && _); [|by injection Hredirect as <-].
    destruct (redirect_inout _ _); simpl in Hredirect; [|done].
    by injection Hredirect as <-. }
  rewrite Hw', Hw2, Hfl', Hfl2.
  (* every role but Callback leaves the world alone and has no target *)
  assert (pt <> PARAM_CALLBACK -> m_world m1 = m_world m ->
          (next_address (m_world m) <= next_address (m_world m1))%nat /\
          (forall t, (t < next_address (m_world m))%nat ->
             trampolines (m_world m1) !! t = trampolines (m_world m) !! t) /\
          exists step,
            trace (m_world m1) = step ++ trace (m_world m) /\
            (forall t s,
                In (EvTrampolineNew t s) step ->
                t = next_address (m_world m) /\ m_failed m1 = false /\
                callback_target function info is_method (m_frame m') n
                  = Some t /\
                exists tr,
                  trampolines (m_world m1) !! t = Some tr /\
                  ref_count tr = initial_ref_count s /\ scope tr = s) /\
            (forall t,
                m_failed m1 = false ->
                callback_target function info is_method (m_frame m') n
                  = Some t ->
                t = next_address (m_world m) /\
                (t < next_address (m_world m1))%nat)) as Hplain.
  { intros Hnc ->. split; [lia|]. split; [done|]. exists []. split; [done|].
    split; [intros t s []|].
    intros t _. unfold callback_target. rewrite Hpt. by destruct pt. }
  destruct pt.
  - simplify_option_eq. apply Hplain; [done|]. by eapply marshal_normal_world.
  - simplify_option_eq. by apply Hplain.
  - simplify_option_eq. apply Hplain; [done|]. by eapply marshal_array_world.
  - clear Hplain. simpl in Hstep.
    destruct (marshal_callback _ _ _ _ _ _) as [m0|] eqn:Hcb; simpl in Hstep;
      [|done].
    injection Hstep as Hrem Hm0. subst removed m0.
    (* the slot the release pass reads is the in slot as the callback turn
       left it *)
    assert (m_failed m1 = false ->
            forall v,
              slot_load (in_arg_cvalues (m_frame m1))
                (n + (if is_method then 1 else 0)) = Some v ->
              release_slot info is_method (m_frame m') n = Some v) as Hslot.
    { intros Hf1 v Hv. unfold release_slot. rewrite Harg. simpl. rewrite Hf'.
      destruct (arg_info_direction arg_info) eqn:Hd; [|done|].
      - by injection Hredirect as <-.
      - rewrite Hf1 in Hredirect. simpl in Hredirect.
        destruct (redirect_inout _ _) as [f|] eqn:Hr; simpl in Hredirect;
          [|done].
        injection Hredirect as <-. simpl.
        by eapply redirect_inout_snapshot. }
    apply marshal_callback_effect in Hcb
      as [(Hfailed & Hheap & Hnext & e & Htrace)
         | [(Hfl & Hworld & Hnull)
           | (Hfl & Hclosure & Hnext & Htrace & Hothers & tr & Htr & Hrc & Hsc)]].
    + rewrite Hheap, Hnext. split; [lia|]. split; [done|].
      exists [EvThrow e]. split; [done|].
      split; [intros t s [Hc | []]; discriminate | intros; congruence].
    + rewrite Hworld. split; [lia|]. split; [done|]. exists [].
      split; [done|]. split; [intros t s []|].
      intros t Hf1 Ht. unfold callback_target in Ht. rewrite Hpt in Ht.
      rewrite (Hslot Hf1 v_null Hnull) in Ht. done.
    + rewrite Hnext. split; [lia|]. split.
      { intros t Ht. apply Hothers. lia. }
      exists [EvTrampolineNew (next_address (m_world m))
                (arg_info_scope arg_info)].
      split; [done|].
      assert (m_failed m1 = false) as Hf1 by congruence.
      assert (callback_target function info is_method (m_frame m') n
              = Some (next_address (m_world m))) as Htarget.
      { unfold callback_target. rewrite Hpt.
        by rewrite (Hslot Hf1 _ Hclosure). }
      split.
      * intros t s [[= <- <-] | []]. split; [done|]. split; [done|].
        split; [done|]. by exists tr.
      * intros t _ Ht. rewrite Htarget in Ht. injection Ht as <-. lia.
Qed.
End MarshalMade.

Lemma callback_target_agree function info (is_method : bool) f f' j :
  frame_agree f f' (j + (if is_method then 1 else 0)) ->
  callback_target function info is_method f' j =
  callback_target function info is_method f j.
Proof.
  intros [Hin Horig]. unfold callback_target, release_slot.
  destruct (slot_load (param_types function) j) as [[]|]; try done.
  destruct (g_callable_info_load_arg info j) as [arg_info|]; simpl; [|done].
  destruct (arg_info_direction arg_info); by rewrite ?Hin, ?Horig.
Qed.

Lemma callback_target_slots function info is_method f f' j :
  in_arg_cvalues f' = in_arg_cvalues f ->
  inout_original_arg_cvalues f' = inout_original_arg_cvalues f ->
  callback_target function info is_method f' j =
  callback_target function info is_method f j.
Proof.
  intros Hin Horig. apply callback_target_agree.
  unfold frame_agree. by rewrite Hin, Horig.
Qed.

Lemma callback_target_index function info is_method f j t :
  callback_target function info is_method f j = Some t -> 0 <= j.
Proof.
  unfold callback_target, slot_load. destruct (j <? 0) eqn:Hj; [done|]. lia.
Qed.

Section MarshalTurnMade.
Context `{Collaborators}.

(** A turn of the marshaling loop: addresses are handed out upwards, the
    trampolines made before stay as they are, and the turn makes at most one
    trampoline, which is the target of the parameter of the turn. *)
Lemma marshal_arg_made function info is_method c_argc js_argv n m m' :
  m_failed m = false ->
  marshal_arg function info is_method c_argc js_argv n
    (n + (if is_method then 1 else 0)) m = Some m' ->
  (next_address (m_world m) <= next_address (m_world m'))%nat /\
  (forall t, (t < next_address (m_world m))%nat ->
     trampolines (m_world m') !! t = trampolines (m_world m) !! t) /\
  exists step,
    trace (m_world m') = step ++ trace (m_world m) /\
    (forall t s,
        In (EvTrampolineNew t s) step ->
        t = next_address (m_world m) /\ m_failed m' = false /\
        callback_target function info is_method (m_frame m') n = Some t /\
        exists tr,
          trampolines (m_world m') !! t = Some tr /\
          ref_count tr = initial_ref_count s /\ scope tr = s) /\
    (forall t,
        m_failed m' = false ->
        callback_target function info is_method (m_frame m') n = Some t ->
        t = next_address (m_world m) /\
        (t < next_address (m_world m'))%nat).
Proof.
  intros Hok. unfold marshal_arg. intros Hm.
  destruct (g_callable_info_load_arg info n) as [arg_info|] eqn:Harg;
    simpl in Hm; [|done].
  assert_ok Hm.
  destruct (store_ffi_pointer _ _) as [f|] eqn:Hf; simpl in Hm; [|done].
  destruct (arg_info_direction arg_info) eqn:Hd.
  - apply (marshal_in_made function info is_method js_argv arg_info n
             (marshal_with m f (m_world m)) m'); try done. congruence.
  - apply marshal_out_world in Hm as (Hheap & Hnext & step & Htrace & Hnone).
    simpl in *. split; [done|]. split; [by rewrite Hheap|].
    exists step. split; [done|]. split.
    + intros t s Hin. by destruct (Hnone t s).
    + intros t _. unfold callback_target, release_slot. rewrite Harg. simpl.
      rewrite Hd. by destruct (slot_load (param_types function) n) as [[]|].
  - apply (marshal_in_made function info is_method js_argv arg_info n
             (marshal_with m f (m_world m)) m'); try done. congruence.
Qed.
End MarshalTurnMade.

Section MarshalLoopMade.
Context `{Collaborators}.

(** The marshaling loop: every trampoline it makes is the target of one of
    the parameters it went through, with the reference count its scope
    starts with, and no two parameters have the same target. *)
Lemma marshal_loop_made function info is_method c_argc js_argv todo :
  arrays_ok function info ->
  forall n m m' c' p',
  m_failed m = false ->
  marshal_loop function info is_method c_argc js_argv todo n
    (n + (if is_method then 1 else 0)) (n + (if is_method then 1 else 0)) m
    = Some (m', c', p') ->
  targets_ok function info is_method (m_frame m)
    (next_address (m_world m)) n ->
  exists n',
    n <= n' <= n + Z.of_nat todo /\
    p' = n' + (if is_method then 1 else 0) /\
    targets_ok function info is_method (m_frame m')
      (next_address (m_world m')) n' /\
    (next_address (m_world m) <= next_address (m_world m'))%nat /\
    (forall t, (t < next_address (m_world m))%nat ->
       trampolines (m_world m') !! t = trampolines (m_world m) !! t) /\
    (forall j, j < n ->
       callback_target function info is_method (m_frame m') j =
       callback_target function info is_method (m_frame m) j) /\
    exists step,
      trace (m_world m') = step ++ trace (m_world m) /\
      forall t s,
        In (EvTrampolineNew t s) step ->
        exists j tr,
          n <= j < n' /\
          callback_target function info is_method (m_frame m') j = Some t /\
          trampolines (m_world m') !! t = Some tr /\
          ref_count tr = initial_ref_count s /\ scope tr = s.
Proof.
  intros Harrays. induction todo as [|todo IH];
    intros n m m' c' p' Hok Hloop [Hbound Hinj].
  - injection Hloop as <- <- <-. exists n.
    split; [lia|]. split; [done|]. split; [done|]. split; [lia|].
    split; [done|]. split; [done|]. exists []. split; [done|].
    intros t s [].
  - simpl in Hloop.
    destruct (marshal_arg _ _ _ _ _ _ _ _) as [m1|] eqn:Hturn;
      simpl in Hloop; [|done].
    pose proof (marshal_arg_made _ _ _ _ _ _ _ _ Hok Hturn)
      as (Hnext & Hheap & step & Htrace & Hnew & Hown).
    assert (forall j, j < n ->
              callback_target function info is_method (m_frame m1) j =
              callback_target function info is_method (m_frame m) j)
      as Hkept.
    { intros j Hj. eapply marshal_arg_targets; [done | exact Hturn | lia]. }
    destruct (m_failed m1) eqn:Hfailed.
    + injection Hloop as <- <- <-. exists n.
      split; [lia|]. split; [done|]. split.
      { split.
        - intros j t Hj Ht. rewrite Hkept in Ht by done.
          specialize (Hbound j t Hj Ht). lia.
        - intros j j' t Hj Hj' Ht Ht'. rewrite Hkept in Ht, Ht' by done.
          by eapply Hinj. }
      split; [done|]. split; [done|]. split; [done|].
      exists step. split; [done|].
      intros t s Hin. destruct (Hnew t s Hin) as (_ & Hf & _). congruence.
    + replace (n + (if is_method then 1 else 0) + 1)
        with (n + 1 + (if is_method then 1 else 0)) in Hloop by lia.
      apply IH in Hloop
        as (n' & Hn' & Hp' & Htargets & Hnext' & Hheap' & Hkept' & step'
            & Htrace' & Hnew'); [|done|].
      * exists n'. split; [lia|]. split; [done|]. split; [done|].
        split; [lia|]. split.
        { intros t Ht. rewrite Hheap' by lia. by apply Hheap. }
        split.
        { intros j Hj. rewrite Hkept' by lia. by apply Hkept. }
        exists (step' ++ step). split.
        { by rewrite Htrace', Htrace, app_assoc. }
        intros t s Hin. apply in_app_or in Hin as [Hin | Hin].
        -- destruct (Hnew' t s Hin) as (j & tr & Hj & Ht & Htr & Hrc & Hsc).
           exists j, tr. split; [lia|]. done.
        -- destruct (Hnew t s Hin) as (-> & _ & Ht & tr & Htr & Hrc & Hsc).
           exists n, tr. split; [lia|]. split.
           { rewrite Hkept' by lia. done. }
           split; [|done]. rewrite Hheap'; [done|].
           destruct (Hown _ eq_refl Ht) as [_ Hlt]. done.
      * split.
        -- intros j t Hj Ht. destruct (decide (j = n)) as [-> | Hne].
           ++ by destruct (Hown _ eq_refl Ht).
           ++ rewrite Hkept in Ht by lia.
              assert (j < n) as Hj' by lia.
              specialize (Hbound j t Hj' Ht). lia.
        -- intros j j' t Hj Hj' Ht Ht'.
           destruct (decide (j = n)) as [-> | Hne];
             destruct (decide (j' = n)) as [-> | Hne']; [done| | |].
           ++ destruct (Hown _ eq_refl Ht) as [-> _].
              rewrite Hkept in Ht' by lia.
              assert (j' < n) as Hlt by lia.
              specialize (Hbound j' _ Hlt Ht'). lia.
           ++ destruct (Hown _ eq_refl Ht') as [-> _].
              rewrite Hkept in Ht by lia.
              assert (j < n) as Hlt by lia.
              specialize (Hbound j _ Hlt Ht). lia.
           ++ rewrite Hkept in Ht, Ht' by lia.
              eapply Hinj; [| |exact Ht|exact Ht']; lia.
Qed.
End MarshalLoopMade.

(** ** What native code does to a trampoline *)

Lemma no_reentry_app l1 l2 :
  no_reentry (l1 ++ l2) <-> no_reentry l1 /\ no_reentry l2.
Proof.
  unfold no_reentry. split.
  - intros Hall. split; intros nested Hin; apply Hall, in_or_app; auto.
  - intros [H1 H2] nested [Hin | Hin]%in_app_or; auto.
Qed.

Section NativeTrampolines.
Context `{Collaborators}.
Hypothesis Hjs : javascript_contract.

(** A call of a trampoline whose JavaScript function calls no exposed
    function: the trampolines are as before, and the trampoline is put on
    the list when its scope is Async. *)
Lemma gjs_callback_closure_quiet data args w result w' :
  gjs_callback_closure data args w = Some (result, w') ->
  exists tr ev,
    trampolines w !! data = Some tr /\
    trace w' = ev ++ trace w /\
    Forall native_event ev /\
    (forall t, ~ In (EvDestroyNotify t) ev) /\
    (no_reentry ev ->
     trampolines w' = trampolines w /\
     slices w' = slices w /\
     next_address w' = next_address w /\
     completed_trampolines w' =
       if GIScopeType_is_async (scope tr)
       then data :: completed_trampolines w
       else completed_trampolines w).
Proof.
  intros Hc.
  apply gjs_callback_closure_inv in Hc
    as (tr & tr' & w1 & Htr & Hran & Htr' & Hheap & Hslices & Hnext & Htrace
        & Hcompleted).
  exists tr.
  assert (exists ran,
            trace w1 = ran ++ trace w /\ Forall native_event ran /\
            (forall t, ~ In (EvDestroyNotify t) ran) /\
            (no_reentry ran ->
             trampolines w1 = trampolines w /\ slices w1 = slices w /\
             next_address w1 = next_address w /\
             completed_trampolines w1 = completed_trampolines w))
    as (ran & Hran' & Hnative & Hnone & Hquiet).
  { destruct Hran as [-> | (jsargs & rval & w_js & Hcall & ->)].
    - eexists [_]. split; [done|]. split; [by repeat constructor|].
      split; [|done]. intros t [Hbad | []]. discriminate.
    - eexists [_; _]. split; [done|]. split; [by repeat constructor|].
      split.
      { intros t [Hbad | [Hbad | []]]; discriminate. }
      intros Hquiet. apply Hjs in Hcall as [_ Hsilent].
      rewrite Hsilent; [done|]. simpl. apply Hquiet. simpl. auto. }
  assert (forall e, no_reentry (e ++ ran) ->
            trampolines w' = trampolines w /\
            slices w' = slices w /\
            next_address w' = next_address w /\
            completed_trampolines w' =
              if GIScopeType_is_async (scope tr)
              then data :: completed_trampolines w
              else completed_trampolines w) as Hdone.
  { intros e [_ Hq]%no_reentry_app.
    destruct (Hquiet Hq) as (Hh & Hs & Hn & Hc).
    assert (tr' = tr) as -> by (rewrite Hh in Htr'; congruence).
    rewrite Hheap, Hslices, Hnext, Hcompleted, Hc. done. }
  destruct Htrace as [Ht | Ht].
  - exists ran. split; [done|]. split; [congruence|]. split; [done|].
    split; [done|]. apply (Hdone []).
  - exists (EvLogException :: ran). split; [done|].
    split; [by rewrite Ht, Hran'|]. split; [by constructor|]. split.
    + intros t [Hbad | Hbad]; [discriminate | by apply Hnone in Hbad].
    + apply (Hdone [EvLogException]).
Qed.

Lemma run_native_action_heap a w w' :
  run_native_action a w = Some w' ->
  exists ev,
    trace w' = ev ++ trace w /\
    Forall native_event ev /\
    (forall t, ~ In (EvDestroyNotify t) ev -> no_reentry ev ->
       trampolines w' !! t = trampolines w !! t).
Proof.
  destruct a as [closure args | data]; simpl.
  - destruct (gjs_callback_closure closure args w) as [[result w1]|] eqn:Hc;
      [|done].
    intros [= <-].
    apply gjs_callback_closure_quiet in Hc
      as (tr0 & ev & _ & Htrace & Hnative & _ & Hquiet).
    exists ev. split; [done|]. split; [done|].
    intros t _ Hq. by destruct (Hquiet Hq) as [-> _].
  - unfold gjs_destroy_notify_callback. intros Hu.
    apply gjs_callback_trampoline_unref_effect in Hu
      as (tr0 & Htr0 & Hheap & _ & _ & _ & Htrace).
    simpl in *.
    exists (if ref_count tr0 =? 1
            then [EvTrampolineFree data; EvDestroyNotify data]
            else [EvDestroyNotify data]).
    split; [by destruct (ref_count tr0 =? 1)|].
    split; [destruct (ref_count tr0 =? 1); by repeat constructor|].
    intros t Hnot _.
    assert (t <> data) as Hne.
    { intros ->. apply Hnot. destruct (ref_count tr0 =? 1); simpl; auto. }
    rewrite Hheap. destruct (ref_count tr0 =? 1).
    + by rewrite lookup_delete_ne.
    + by rewrite lookup_insert_ne.
Qed.

Lemma run_native_actions_heap l w w' :
  run_native_actions l w = Some w' ->
  exists ev,
    trace w' = ev ++ trace w /\
    Forall native_event ev /\
    (forall t, ~ In (EvDestroyNotify t) ev -> no_reentry ev ->
       trampolines w' !! t = trampolines w !! t).
Proof.
  revert w. induction l as [|a l IH]; intros w; simpl.
  - intros [= <-]. exists []. split; [done|]. split; [constructor|]. done.
  - destruct (run_native_action a w) as [w1|] eqn:Ha; simpl; [|done].
    intros Hl.
    apply run_native_action_heap in Ha as (ev1 & Ht1 & Hn1 & Hk1).
    apply IH in Hl as (ev2 & Ht2 & Hn2 & Hk2).
    exists (ev2 ++ ev1). split; [by rewrite Ht2, Ht1, app_assoc|].
    split; [by apply Forall_app|].
    intros t Hnot [Hq2 Hq1]%no_reentry_app. rewrite Hk2, Hk1; [done| | | |];
      try done; intros Hin; apply Hnot, in_or_app; auto.
Qed.

(** The native call: the slots the release pass reads stay, no trampoline is
    made at the top, the trampolines evolve, and a trampoline whose destroy
    notifier is not called stays as it is when no callback calls an exposed
    function. *)
Lemma ffi_call_heap function can_throw f w rv err f' w' :
  ffi_call function can_throw f w = Some (rv, err, f', w') ->
  in_arg_cvalues f' = in_arg_cvalues f /\
  inout_original_arg_cvalues f' = inout_original_arg_cvalues f /\
  evolves w w' /\
  exists ev,
    trace w' = ev ++ trace w /\
    Forall makes_no_trampoline ev /\
    (forall t, ~ In (EvDestroyNotify t) ev -> no_reentry ev ->
       trampolines w' !! t = trampolines w !! t).
Proof.
  intros Hc. pose proof (ffi_call_progresses Hjs _ _ _ _ _ _ _ _ Hc) as [Hev _].
  unfold ffi_call in Hc.
  destruct (run_native_actions _ _) as [w1|] eqn:Hrun; simpl in Hc; [|done].
  injection Hc as <- <- <- <-. simpl. split; [done|]. split; [done|].
  split; [done|].
  apply run_native_actions_heap in Hrun as (ev & Htrace & Hnative & Hkeep).
  simpl in *.
  eexists (ev ++ [_]). split; [by rewrite Htrace, <- app_assoc|].
  split.
  { apply Forall_app. split; [|by repeat constructor].
    eapply Forall_impl; [exact Hnative|]. by intros []. }
  intros t Hnot [Hq _]%no_reentry_app. apply Hkeep; [|done].
  intros Hin. apply Hnot, in_or_app. auto.
Qed.
End NativeTrampolines.

(** ** What the release pass does to a trampoline *)

Section ReleaseTrampolines.
Context `{Collaborators}.

Lemma g_slice_free1_heap mem w w' :
  g_slice_free1 mem w = Some w' -> trampolines w' = trampolines w.
Proof.
  destruct mem; simpl; try done.
  - by intros [= <-].
  - destruct (slices w !! _); simpl; [|done]. by intros [= <-].
Qed.

Lemma release_out_heap function info is_method arg_info c_arg_pos r r' :
  release_out function info is_method arg_info c_arg_pos r = Some r' ->
  r_frame r' = r_frame r /\
  trampolines (r_world r') = trampolines (r_world r).
Proof.
  unfold release_out. intros Hr.
  destruct (g_assert _); [|done]. simpl in Hr.
  destruct (slot_load (out_arg_cvalues (r_frame r)) c_arg_pos) as [arg|];
    [|done].
  simpl in Hr.
  match type of Hr with
  | (?c ≫= _) = _ => destruct c as [converted|]; [|done]
  end.
  simpl in Hr.
  match type of Hr with
  | (?c ≫= _) = _ => destruct c as [return_values|]; [|done]
  end.
  simpl in Hr.
  match type of Hr with
  | (?c ≫= _) = _ => destruct c as [w1|] eqn:Hfree; [|done]
  end.
  simpl in Hr. injection Hr as <-. simpl. split; [done|].
  assert (trampolines w1 = trampolines (r_world r)) as H1.
  { destruct (arg_info_caller_allocates arg_info).
    - destruct (caller_allocates_size _); [|done]. simpl in Hfree.
      by apply g_slice_free1_heap in Hfree.
    - by injection Hfree as <-. }
  by destruct converted.
Qed.

Lemma convert_return_value_heap function info is_method return_value f w
    failed r :
  convert_return_value function info is_method return_value f w
    = Some (failed, r) ->
  r_frame r = f /\ trampolines (r_world r) = trampolines w.
Proof.
  unfold convert_return_value. intros Hc.
  destruct (GITypeTag_is_void _); [by injection Hc as <- <-|].
  match type of Hc with
  | (?c ≫= _) = _ => destruct c as [[converted released]|]; [|done]
  end.
  simpl in Hc. destruct converted as [v|].
  - destruct (slot_store _ _ _); simpl in Hc; [|done].
    by injection Hc as <- <-.
  - by injection Hc as <- <-.
Qed.

(** A turn of the release pass: the reference the call holds on the target
    of the parameter is dropped, and nothing else happens to a
    trampoline. *)
Lemma release_arg_turn function info is_method did_throw failed k r r' :
  release_arg function info is_method did_throw failed k
    (k + (if is_method then 1 else 0)) r = Some r' ->
  (forall j, j <> k ->
     callback_target function info is_method (r_frame r') j =
     callback_target function info is_method (r_frame r) j) /\
  exists step,
    trace (r_world r') = step ++ trace (r_world r) /\
    Forall makes_no_trampoline step /\
    match callback_target function info is_method (r_frame r) k with
    | Some t =>
        exists tr,
          trampolines (r_world r) !! t = Some tr /\
          trampolines (r_world r') =
            (if ref_count tr =? 1 then delete t (trampolines (r_world r))
             else <[t := set_ref_count tr (ref_count tr - 1)]>
                    (trampolines (r_world r))) /\
          (ref_count tr = 1 -> In (EvTrampolineFree t) step)
    | None => trampolines (r_world r') = trampolines (r_world r)
    end.
Proof.
  unfold release_arg. intros Hr.
  destruct (g_callable_info_load_arg info k) as [arg_info|] eqn:Harg;
    simpl in Hr; [|done].
  destruct (slot_load (param_types function) k) as [pt|] eqn:Hpt;
    simpl in Hr; [|done].
  match type of Hr with
  | (?c ≫= _) = _ => destruct c as [r1|] eqn:Hin; simpl in Hr; [|done]
  end.
  (* the half for out arguments changes no trampoline and no slot *)
  assert (r_frame r' = r_frame r1 /\
          trampolines (r_world r') = trampolines (r_world r1) /\
          exists step,
            trace (r_world r') = step ++ trace (r_world r1) /\
            Forall makes_no_trampoline step) as (Hf' & Hh' & step' & Ht' & Hn').
  { assert (r_frame r1 = r_frame r1 /\
            trampolines (r_world r1) = trampolines (r_world r1) /\
            exists step,
              trace (r_world r1) = step ++ trace (r_world r1) /\
              Forall makes_no_trampoline step) as Hsame.
    { split; [done|]. split; [done|]. exists []. by split. }
    destruct (did_throw || failed); [by injection Hr as <-|].
    destruct (_ && _); [|by injection Hr as <-].
    pose proof (release_out_heap _ _ _ _ _ _ _ Hr) as [Hf Hh].
    split; [done|]. split; [done|].
    apply (release_out_logs makes_no_trampoline) in Hr as [_ Hlog];
      [done | by intros []]. }
  rewrite Hf', Hh'.
  assert (forall step,
            trace (r_world r1) = step ++ trace (r_world r) ->
            trace (r_world r') = (step' ++ step) ++ trace (r_world r))
    as Htrace.
  { intros step Hs. by rewrite Ht', Hs, app_assoc. }
  (* a turn that drops no reference *)
  assert (callback_target function info is_method (r_frame r) k = None ->
          r_frame r1 = r_frame r ->
          trampolines (r_world r1) = trampolines (r_world r) ->
          (exists step, trace (r_world r1) = step ++ trace (r_world r) /\
                        Forall makes_no_trampoline step) ->
          (forall j, j <> k ->
             callback_target function info is_method (r_frame r1) j =
             callback_target function info is_method (r_frame r) j) /\
          exists step,
            trace (r_world r') = step ++ trace (r_world r) /\
            Forall makes_no_trampoline step /\
            match callback_target function info is_method (r_frame r) k with
            | Some t =>
                exists tr,
                  trampolines (r_world r) !! t = Some tr /\
                  trampolines (r_world r1) =
                    (if ref_count tr =? 1
                     then delete t (trampolines (r_world r))
                     else <[t := set_ref_count tr (ref_count tr - 1)]>
                            (trampolines (r_world r))) /\
                  (ref_count tr = 1 -> In (EvTrampolineFree t) step)
            | None => trampolines (r_world r1) = trampolines (r_world r)
            end) as Hplain.
  { intros Hnone Hf Hh (step & Hs & Hn). rewrite Hf. split; [done|].
    exists (step' ++ step). split; [by apply Htrace|].
    split; [by apply Forall_app|]. by rewrite Hnone. }
  assert (pt <> PARAM_CALLBACK ->
          callback_target function info is_method (r_frame r) k = None)
    as Hrole.
  { intros Hne. unfold callback_target. rewrite Hpt. by destruct pt. }
  destruct (is_in_or_inout (arg_info_direction arg_info)) eqn:Hdir.
  2:{ injection Hin as <-. apply Hplain; try done.
      - unfold callback_target, release_slot. rewrite Hpt, Harg. simpl.
        destruct (arg_info_direction arg_info); try done. by destruct pt.
      - exists []. by split. }
  unfold release_in in Hin.
  match type of Hin with
  | (?c ≫= _) = _ =>
      destruct c as [[arg transfer]|] eqn:Hslot; simpl in Hin; [|done]
  end.
  assert (release_slot info is_method (r_frame r) k = Some arg) as Hrelease.
  { unfold release_slot. rewrite Harg. simpl.
    destruct (arg_info_direction arg_info); [|done|].
    - destruct (slot_load (in_arg_cvalues _) _); simpl in Hslot; [|done].
      by injection Hslot as <- _.
    - destruct (slot_load (inout_original_arg_cvalues _) _); simpl in Hslot;
        [|done].
      by injection Hslot as <- _. }
  destruct pt.
  - injection Hin as <-. simpl. apply Hplain; try done; [by apply Hrole|].
    eexists [_]. split; [done|]. by repeat constructor.
  - injection Hin as <-. apply Hplain; try done; [by apply Hrole|].
    exists []. by split.
  - assert_ok Hin.
    repeat match type of Hin with
      | (?c ≫= _) = _ => destruct c; simpl in Hin; [|done]
      end.
    injection Hin as <-. simpl. apply Hplain; try done; [by apply Hrole|].
    eexists [_]. split; [done|]. by repeat constructor.
  - clear Hplain Hrole.
    assert (callback_target function info is_method (r_frame r) k =
            match arg with v_closure t => Some t | _ => None end) as Htarget.
    { unfold callback_target. by rewrite Hpt, Hrelease. }
    rewrite Htarget.
    destruct arg as [z| |i| |a|t|t'| |p|]; try done.
    + injection Hin as <-. split; [done|]. exists (step' ++ []).
      split; [by apply Htrace|]. split; [by apply Forall_app|]. done.
    + destruct (gjs_callback_trampoline_unref _ _) as [w1|] eqn:Hu;
        simpl in Hin; [|done].
      match type of Hin with
      | (?c ≫= _) = _ => destruct c as [f1|] eqn:Hstore; simpl in Hin; [|done]
      end.
      injection Hin as <-. simpl.
      apply gjs_callback_trampoline_unref_effect in Hu
        as (tr & Htr & Hheap & _ & _ & _ & Hlog).
      split.
      { intros j Hne. apply callback_target_agree.
        destruct (arg_info_direction arg_info).
        - eapply store_in_agree; [exact Hstore|]. lia.
        - done.
        - eapply store_inout_original_agree; [exact Hstore|]. lia. }
      exists (step' ++ (if ref_count tr =? 1
                        then [EvTrampolineFree t] else [])).
      split; [apply Htrace; by destruct (ref_count tr =? 1)|].
      split.
      { apply Forall_app. split; [done|].
        destruct (ref_count tr =? 1); by repeat constructor. }
      exists tr. split; [done|]. split; [done|].
      intros Hone. apply in_or_app. right.
      replace (ref_count tr =? 1) with true by (symmetry; lia).
      by left.
Qed.
End ReleaseTrampolines.

Section ReleaseLoopTrampolines.
Context `{Collaborators}.

(** The release pass leaves alone a trampoline that is the target of none of
    the parameters it still goes through. *)
Lemma release_loop_other function info is_method did_throw failed processed
    t todo :
  forall k r r' c',
  release_loop function info is_method did_throw failed processed todo k
    (k + (if is_method then 1 else 0)) r = Some (r', c') ->
  (forall j, k <= j -> j + (if is_method then 1 else 0) < processed ->
     callback_target function info is_method (r_frame r) j <> Some t) ->
  trampolines (r_world r') !! t = trampolines (r_world r) !! t.
Proof.
  induction todo as [|todo IH]; intros k r r' c' Hloop Hother; simpl in Hloop.
  - by injection Hloop as <- <-.
  - destruct (_ <? processed) eqn:Hlt; [|by injection Hloop as <- <-].
    destruct (release_arg _ _ _ _ _ _ _ _) as [r1|] eqn:Hturn;
      simpl in Hloop; [|done].
    apply release_arg_turn in Hturn as (Hkept & step & _ & _ & Hheap).
    replace (k + (if is_method then 1 else 0) + 1)
      with (k + 1 + (if is_method then 1 else 0)) in Hloop by lia.
    apply IH in Hloop.
    + rewrite Hloop.
      assert (callback_target function info is_method (r_frame r) k
              <> Some t) as Hk by (apply Hother; lia).
      destruct (callback_target function info is_method (r_frame r) k)
        as [t'|]; [|by rewrite Hheap].
      destruct Hheap as (tr & _ & -> & _).
      assert (t' <> t) as Hne by congruence.
      destruct (ref_count tr =? 1).
      * by rewrite lookup_delete_ne.
      * by rewrite lookup_insert_ne.
    + intros j Hj Hp. rewrite Hkept by lia. apply Hother; [lia | done].
Qed.

(** The release pass drops one reference on the target of a parameter it goes
    through, when no other parameter has the same target. *)
Lemma release_loop_owner function info is_method did_throw failed processed
    t j todo :
  forall k r r' c',
  release_loop function info is_method did_throw failed processed todo k
    (k + (if is_method then 1 else 0)) r = Some (r', c') ->
  k <= j -> j + (if is_method then 1 else 0) < processed ->
  j < k + Z.of_nat todo ->
  callback_target function info is_method (r_frame r) j = Some t ->
  (forall j', k <= j' -> j' + (if is_method then 1 else 0) < processed ->
     callback_target function info is_method (r_frame r) j' = Some t ->
     j' = j) ->
  exists tr step,
    trampolines (r_world r) !! t = Some tr /\
    trampolines (r_world r') !! t =
      (if ref_count tr =? 1 then None
       else Some (set_ref_count tr (ref_count tr - 1))) /\
    trace (r_world r') = step ++ trace (r_world r) /\
    (ref_count tr = 1 -> In (EvTrampolineFree t) step).
Proof.
  induction todo as [|todo IH];
    intros k r r' c' Hloop Hk Hp Htodo Htarget Hunique; [lia|].
  simpl in Hloop.
  replace (k + (if is_method then 1 else 0) <? processed) with true in Hloop
    by (symmetry; lia).
  destruct (release_arg _ _ _ _ _ _ _ _) as [r1|] eqn:Hturn;
    simpl in Hloop; [|done].
  apply release_arg_turn in Hturn as (Hkept & step & Htrace & _ & Hheap).
  replace (k + (if is_method then 1 else 0) + 1)
    with (k + 1 + (if is_method then 1 else 0)) in Hloop by lia.
  destruct (decide (k = j)) as [-> | Hne].
  - rewrite Htarget in Hheap. destruct Hheap as (tr & Htr & Hheap & Hfree).
    pose proof (release_loop_logs (fun _ => True) _ _ _ _ _ _ _ _ _ _ _ _
                  ltac:(done) ltac:(done) Hloop) as (_ & rest & Hrest & _).
    apply (release_loop_other _ _ _ _ _ _ t) in Hloop.
    + exists tr, (rest ++ step). split; [done|]. split.
      * rewrite Hloop, Hheap. destruct (ref_count tr =? 1).
        -- by rewrite lookup_delete_eq.
        -- by rewrite lookup_insert_eq.
      * split; [by rewrite Hrest, Htrace, app_assoc|].
        intros Hone. apply in_or_app. right. by apply Hfree.
    + intros j' Hj' Hp' Ht'. rewrite Hkept in Ht' by lia.
      assert (j' = j) by (apply Hunique; [lia | done | done]). lia.
  - assert (callback_target function info is_method (r_frame r) k
            <> Some t) as Hnot.
    { intros Ht. apply Hne. apply Hunique; [lia | lia | done]. }
    assert (trampolines (r_world r1) !! t = trampolines (r_world r) !! t)
      as Hsame.
    { destruct (callback_target function info is_method (r_frame r) k)
        as [t'|]; [|by rewrite Hheap].
      destruct Hheap as (tr & _ & -> & _).
      assert (t' <> t) as Hne' by congruence.
      destruct (ref_count tr =? 1).
      - by rewrite lookup_delete_ne.
      - by rewrite lookup_insert_ne. }
    apply IH in Hloop as (tr & rest & Htr & Hafter & Hrest & Hfree).
    + exists tr, (rest ++ step). split; [by rewrite <- Hsame|].
      split; [done|]. split; [by rewrite Hrest, Htrace, app_assoc|].
      intros Hone. apply in_or_app. left. by apply Hfree.
    + lia.
    + done.
    + lia.
    + by rewrite Hkept by lia.
    + intros j' Hj' Hp' Ht'. rewrite Hkept in Ht' by lia.
      apply Hunique; [lia | done | done].
Qed.

(** The end of the call changes no trampoline. *)
Lemma invoke_release_trampoline function info is_method failed local_error
    processed js_rval r result rv w' t j :
  invoke_release function info is_method failed local_error processed
    js_rval r = Some (result, rv, w') ->
  0 <= j -> j + (if is_method then 1 else 0) < processed ->
  j < wrap8 (g_callable_info_get_n_args info) ->
  callback_target function info is_method (r_frame r) j = Some t ->
  (forall j', 0 <= j' -> j' + (if is_method then 1 else 0) < processed ->
     callback_target function info is_method (r_frame r) j' = Some t ->
     j' = j) ->
  exists tr step,
    trampolines (r_world r) !! t = Some tr /\
    trampolines w' !! t =
      (if ref_count tr =? 1 then None
       else Some (set_ref_count tr (ref_count tr - 1))) /\
    trace w' = step ++ trace (r_world r) /\
    Forall makes_no_trampoline step /\
    (ref_count tr = 1 -> In (EvTrampolineFree t) step).
Proof.
  intros Hrel Hj Hp Hargc Htarget Hunique.
  pose proof (invoke_release_logs makes_no_trampoline _ _ _ _ _ _ _ _ _ _ _
                ltac:(by intros []) ltac:(by intros []) ltac:(by intros [])
                Hrel) as (_ & step & Htrace & Hstep).
  unfold invoke_release in Hrel.
  destruct (release_loop _ _ _ _ _ _ _ _ _ _) as [[r2 c2]|] eqn:Hloop;
    simpl in Hrel; [|done].
  change (if is_method then 1 else 0)
    with (0 + (if is_method then 1 else 0)) in Hloop at 1.
  apply (release_loop_owner _ _ _ _ _ _ t j) in Hloop
    as (tr & loop & Htr & Hafter & Hloop & Hfree);
    [|lia|done| |done|done].
  2:{ pose proof (wrap8_range (g_callable_info_get_n_args info)). lia. }
  assert (exists fin, trace w' = fin ++ trace (r_world r2) /\
                      trampolines w' = trampolines (r_world r2))
    as (fin & Hfin & Hheap).
  { assert_ok Hrel.
    match type of Hrel with
    | (?c ≫= _) = _ => destruct c as [[failed' rv']|]; simpl in Hrel; [|done]
    end.
    destruct local_error as [message|].
    - destruct (negb failed'); injection Hrel as <- <- <-.
      + by eexists [_; _].
      + by exists [].
    - destruct failed'; injection Hrel as <- <- <-; by exists []. }
  exists tr, step. split; [done|]. split; [by rewrite Hheap|].
  split; [done|]. split; [done|].
  intros Hone.
  assert (step = fin ++ loop) as ->.
  { apply (app_inv_tail (trace (r_world r))).
    by rewrite <- Htrace, Hfin, Hloop, app_assoc. }
  apply in_or_app. right. by apply Hfree.
Qed.
End ReleaseLoopTrampolines.

Section CallTrampolines.
Context `{Collaborators}.
Hypothesis Hjs : javascript_contract.

(** From the native call to the end: a trampoline that is the target of one
    parameter loses the reference the call holds.  With one reference it is
    freed; with more, it stays unless native code calls its destroy
    notifier or a callback calls an exposed function. *)
Lemma invoke_call_trampoline function info is_method c_arg_pos processed f w
    result rv w' t j :
  invoke_call function info is_method c_arg_pos processed f w
    = Some (result, rv, w') ->
  processed <= c_arg_pos ->
  0 <= j -> j + (if is_method then 1 else 0) < processed ->
  j < wrap8 (g_callable_info_get_n_args info) ->
  callback_target function info is_method f j = Some t ->
  (forall j', 0 <= j' -> j' + (if is_method then 1 else 0) < processed ->
     callback_target function info is_method f j' = Some t -> j' = j) ->
  (t < next_address w)%nat ->
  exists ev,
    trace w' = ev ++ trace w /\
    Forall makes_no_trampoline ev /\
    forall tr,
      trampolines w !! t = Some tr ->
      (ref_count tr = 1 ->
       trampolines w' !! t = None /\ In (EvTrampolineFree t) ev) /\
      (~ In (EvDestroyNotify t) ev -> no_reentry ev ->
       trampolines w' !! t =
         if ref_count tr =? 1 then None
         else Some (set_ref_count tr (ref_count tr - 1))).
Proof.
  unfold invoke_call. intros Hcall Hpos Hj Hp Hargc Htarget Hunique Hbelow.
  match type of Hcall with
  | (?c ≫= _) = _ =>
      destruct c as [[f1 c1]|] eqn:Herror; simpl in Hcall; [|done]
  end.
  assert (forall j', j' + (if is_method then 1 else 0) < processed ->
            callback_target function info is_method f1 j' =
            callback_target function info is_method f j') as Hkept1.
  { intros j' Hj'. destruct (function_info_throws info).
    - assert_ok Herror.
      destruct (store_in f c_arg_pos v_error_slot) as [fa|] eqn:Ha;
        simpl in Herror; [|done].
      destruct (store_ffi_pointer fa c_arg_pos) as [fb|] eqn:Hb;
        simpl in Herror; [|done].
      injection Herror as <- <-. apply callback_target_agree.
      eapply frame_agree_trans.
      + eapply store_in_agree; [exact Ha|]. lia.
      + by eapply store_ffi_pointer_agree.
    - by injection Herror as <- <-. }
  assert_ok Hcall.
  destruct (ffi_call _ _ _ _) as [[[[return_value local_error] f2] w2]|]
    eqn:Hffi; simpl in Hcall; [|done].
  apply (ffi_call_heap Hjs) in Hffi
    as (Hin & Horig & Hevolves & native & Hnative & Hquiet & Hkeep).
  match type of Hcall with
  | (?c ≫= _) = _ =>
      destruct c as [[failed r]|] eqn:Hconv; simpl in Hcall; [|done]
  end.
  assert (r_frame r = f2 /\ trampolines (r_world r) = trampolines w2 /\
          exists conv, trace (r_world r) = conv ++ trace w2 /\
                       Forall makes_no_trampoline conv /\
                       ~ In (EvDestroyNotify t) conv)
    as (Hframe & Hheap & conv & Hconvtrace & Hconvquiet & Hconvnot).
  { destruct (_ && _).
    - pose proof (convert_return_value_heap _ _ _ _ _ _ _ _ Hconv) as [? ?].
      split; [done|]. split; [done|].
      apply (convert_return_value_logs return_event) in Hconv
        as [_ (conv & Hc & Hall)]; [|done].
      exists conv. split; [done|]. split.
      + eapply Forall_impl; [exact Hall|]. by intros [].
      + intros Hbad. rewrite Forall_forall in Hall.
        apply list_elem_of_In in Hbad. by apply Hall in Hbad.
    - injection Hconv as <- <-. simpl. split; [done|]. split; [done|].
      exists []. split; [done|]. split; [constructor|]. by intros []. }
  apply (invoke_release_trampoline _ _ _ _ _ _ _ _ _ _ _ t j) in Hcall
    as (tr' & step & Htr' & Hafter & Hstep & Hstepquiet & Hfree);
    [|done|done|done| |].
  2:{ rewrite Hframe. rewrite (callback_target_slots _ _ _ f1 f2) by done.
      rewrite Hkept1 by done. done. }
  2:{ intros j' Hj' Hp' Ht'. rewrite Hframe in Ht'.
      rewrite (callback_target_slots _ _ _ f1 f2) in Ht' by done.
      rewrite Hkept1 in Ht' by done. by apply Hunique. }
  exists (step ++ conv ++ native).
  split; [by rewrite Hstep, Hconvtrace, Hnative, <- !app_assoc|].
  split; [apply Forall_app; split; [done|]; by apply Forall_app|].
  intros tr Htr. rewrite Hheap in Htr'. split.
  - intros Hone.
    destruct (evolves_last_reference _ _ t tr Hevolves Hbelow Hone
                (or_introl Htr)) as [Hs | Hn]; [|congruence].
    assert (tr' = tr) as -> by congruence.
    replace (ref_count tr =? 1) with true in Hafter by (symmetry; lia).
    split; [done|]. apply in_or_app. left. by apply Hfree.
  - intros Hnot [_ [_ Hq]%no_reentry_app]%no_reentry_app.
    assert (tr' = tr) as ->; [|done].
    rewrite Hkeep, Htr in Htr'; [congruence| |done].
    intros Hbad. apply Hnot. apply in_or_app. right. apply in_or_app. by right.
Qed.
End CallTrampolines.

Section InvocationTrampolines.
Context `{Collaborators}.
Hypothesis Hjs : javascript_contract.

Lemma marshal_receiver_quiet info c_argc obj f w f' failed w' :
  marshal_receiver info c_argc obj f w = Some (f', failed, w') ->
  exists new, trace w' = new ++ trace w /\ Forall makes_no_trampoline new.
Proof.
  unfold marshal_receiver. intros Hr. assert_ok Hr.
  assert (exists new, trace w = new ++ trace w /\
                      Forall makes_no_trampoline new) as Hsame.
  { exists []. by split. }
  destruct (base_info_type _);
    repeat match type of Hr with
      | (?c ≫= _) = _ => destruct c; simpl in Hr; [|done]
      | (if ?c then _ else _) = _ => destruct c
      end;
    injection Hr as <- <- <-;
    first [exact Hsame | eexists [_]; split; [done|]; by repeat constructor].
Qed.

Lemma invoke_call_quiet function info is_method c_arg_pos processed f w
    result rv w' :
  invoke_call function info is_method c_arg_pos processed f w
    = Some (result, rv, w') ->
  exists ev, trace w' = ev ++ trace w /\ Forall makes_no_trampoline ev.
Proof.
  unfold invoke_call. intros Hcall.
  match type of Hcall with
  | (?c ≫= _) = _ => destruct c as [[f1 c1]|]; simpl in Hcall; [|done]
  end.
  assert_ok Hcall.
  destruct (ffi_call _ _ _ _) as [[[[return_value local_error] f2] w2]|]
    eqn:Hffi; simpl in Hcall; [|done].
  apply (ffi_call_heap Hjs) in Hffi
    as (_ & _ & _ & native & Hnative & Hquiet & _).
  match type of Hcall with
  | (?c ≫= _) = _ =>
      destruct c as [[failed r]|] eqn:Hconv; simpl in Hcall; [|done]
  end.
  assert (exists conv, trace (r_world r) = conv ++ trace w2 /\
                       Forall makes_no_trampoline conv)
    as (conv & Hconvtrace & Hconvquiet).
  { destruct (_ && _).
    - apply (convert_return_value_logs makes_no_trampoline) in Hconv
        as [_ Hlog]; [done | by intros []].
    - injection Hconv as <- <-. exists []. by split. }
  apply (invoke_release_logs makes_no_trampoline) in Hcall
    as [_ (step & Hstep & Hstepquiet)]; try by intros [].
  exists (step ++ conv ++ native).
  split; [by rewrite Hstep, Hconvtrace, Hnative, <- !app_assoc|].
  apply Forall_app; split; [done|]. by apply Forall_app.
Qed.

(** A trampoline made by an invocation of a function whose array lengths are
    no callbacks: a Call trampoline is freed when the invocation returns;
    another one is then alive with one reference, provided native code did
    not call its destroy notifier meanwhile and no callback called an
    exposed function. *)
Lemma gjs_invoke_c_function_trampolines function obj js_argv w result rv w' :
  (forall info0, info function = Some info0 -> arrays_ok function info0) ->
  gjs_invoke_c_function function obj js_argv w = Some (result, rv, w') ->
  exists new,
    trace w' = new ++ trace w /\
    forall t s,
      In (EvTrampolineNew t s) new ->
      (s = GI_SCOPE_TYPE_CALL ->
       trampolines w' !! t = None /\ In (EvTrampolineFree t) new) /\
      (s <> GI_SCOPE_TYPE_CALL ->
       ~ In (EvDestroyNotify t) new -> no_reentry new ->
       exists tr,
         trampolines w' !! t = Some tr /\ ref_count tr = 1 /\ scope tr = s).
Proof.
  intros Harrays. unfold gjs_invoke_c_function. intros Hcall.
  destruct (free_completed_trampolines w) as [w0|] eqn:Hdrain;
    simpl in Hcall; [|done].
  destruct (free_completed_trampolines_effect makes_no_trampoline _ _
              ltac:(done) Hdrain) as (_ & drained & Hdrained & Hquiet0).
  destruct (info function) as [info0|] eqn:Hinfo; simpl in Hcall; [|done].
  specialize (Harrays info0 eq_refl).
  assert (forall (quiet : list Event) t s,
            Forall makes_no_trampoline quiet ->
            ~ In (EvTrampolineNew t s) quiet) as Hnone.
  { intros quiet t s Hall Hin. rewrite Forall_forall in Hall.
    apply list_elem_of_In in Hin. by apply Hall in Hin. }
  destruct (_ <? expected_js_argc function).
  { injection Hcall as <- <- <-. eexists (_ :: drained).
    split; [simpl; by rewrite Hdrained|].
    intros t s [Hbad | Hin]; [done|]. by apply Hnone in Hin. }
  match type of Hcall with
  | (?c ≫= _) = _ =>
      destruct c as [[[f failed] w1]|] eqn:Hreceiver; simpl in Hcall; [|done]
  end.
  assert (exists rec, trace w1 = rec ++ trace w0 /\
                      Forall makes_no_trampoline rec)
    as (rec & Hrec & Hquiet1).
  { destruct (function_info_is_method info0).
    - by eapply marshal_receiver_quiet.
    - simplify_eq. exists []. by split. }
  destruct failed.
  { apply (invoke_release_logs makes_no_trampoline) in Hcall
      as [_ (new & Hnew & Hquiet)]; try by intros [].
    simpl in Hnew. exists (new ++ rec ++ drained).
    split; [by rewrite Hnew, Hrec, Hdrained, <- !app_assoc|].
    intros t s Hin. exfalso. eapply Hnone; [|exact Hin].
    apply Forall_app; split; [done|]. by apply Forall_app. }
  destruct (marshal_loop _ _ _ _ _ _ _ _ _ _) as [[[m c1] p1]|] eqn:Hloop;
    simpl in Hcall; [|done].
  set (start := if function_info_is_method info0 then 1 else 0) in *.
  pose proof Hloop as Hmade.
  change start with (0 + start) in Hmade.
  apply (marshal_loop_made _ _ _ _ _ _ Harrays) in Hmade
    as (n' & Hn' & Hp1 & [Hbound Hinj] & _ & _ & _ & step & Hstep & Hnew);
    [|done|].
  2:{ split.
      - intros j t Hj Ht. apply callback_target_index in Ht. lia.
      - intros j j' t Hj _ Ht. apply callback_target_index in Ht. lia. }
  simpl in Hstep.
  pose proof (wrap8_range (g_callable_info_get_n_args info0)) as Hrange.
  rewrite Z2Nat.id in Hn' by lia.
  (* what the rest of the call does to a trampoline marshaling made *)
  assert (exists post,
            trace w' = post ++ trace (m_world m) /\
            Forall makes_no_trampoline post /\
            forall t j tr,
              0 <= j < n' ->
              callback_target function info0 (function_info_is_method info0)
                (m_frame m) j = Some t ->
              trampolines (m_world m) !! t = Some tr ->
              (ref_count tr = 1 ->
               trampolines w' !! t = None /\ In (EvTrampolineFree t) post) /\
              (~ In (EvDestroyNotify t) post -> no_reentry post ->
               trampolines w' !! t =
                 if ref_count tr =? 1 then None
                 else Some (set_ref_count tr (ref_count tr - 1))))
    as (post & Hpost & Hquiet2 & Hrest).
  { destruct (m_failed m) eqn:Hfailed.
    - pose proof (invoke_release_logs makes_no_trampoline _ _ _ _ _ _ _ _ _
                    _ _ ltac:(by intros []) ltac:(by intros [])
                    ltac:(by intros []) Hcall) as (_ & post & Hpost & Hquiet).
      exists post. split; [done|]. split; [done|].
      intros t j tr Hj Ht Htr.
      apply (invoke_release_trampoline _ _ _ _ _ _ _ _ _ _ _ t j) in Hcall
        as (tr' & step' & Htr' & Hafter & Hstep' & _ & Hfree);
        [|lia|fold start; lia|lia|done|].
      2:{ intros j' Hj' Hp' Ht'. fold start in Hp'.
          eapply Hinj; [| |exact Ht'|exact Ht]; lia. }
      simpl in Htr', Hstep', Hpost. assert (tr' = tr) as -> by congruence.
      assert (step' = post) as ->.
      { apply (app_inv_tail (trace (m_world m))). congruence. }
      split; [|done]. intros Hone.
      replace (ref_count tr =? 1) with true in Hafter by (symmetry; lia).
      split; [done | by apply Hfree].
    - apply marshal_loop_complete in Hloop as [-> Hp1']; [|done].
      assert (exists post, trace w' = post ++ trace (m_world m) /\
                           Forall makes_no_trampoline post)
        as (post & Hpost & Hquiet).
      { by eapply invoke_call_quiet. }
      exists post. split; [done|]. split; [done|].
      intros t j tr Hj Ht Htr.
      apply (invoke_call_trampoline Hjs _ _ _ _ _ _ _ _ _ _ t j) in Hcall
        as (ev & Hev & _ & Hlife); [|lia|lia|lia|lia|done| |].
      2:{ intros j' Hj' Hp' Ht'.
          eapply Hinj; [| |exact Ht'|exact Ht]; lia. }
      2:{ eapply Hbound; [|exact Ht]. lia. }
      assert (ev = post) as ->.
      { apply (app_inv_tail (trace (m_world m))). congruence. }
      by apply Hlife. }
  exists (post ++ step ++ rec ++ drained).
  split; [by rewrite Hpost, Hstep, Hrec, Hdrained, <- !app_assoc|].
  intros t s Hin.
  assert (In (EvTrampolineNew t s) step) as Hin'.
  { apply in_app_or in Hin as [Hin | Hin]; [by apply Hnone in Hin|].
    apply in_app_or in Hin as [Hin | Hin]; [done|].
    exfalso. eapply Hnone; [|exact Hin]. by apply Forall_app. }
  destruct (Hnew t s Hin') as (j & tr & Hj & Ht & Htr & Hrc & Hsc).
  destruct (Hrest t j tr ltac:(lia) Ht Htr) as [Hcallscope Hother].
  split.
  - intros ->. destruct (Hcallscope Hrc) as [Hgone Hfree].
    split; [done|]. apply in_or_app. by left.
  - intros Hs Hnot [Hq _]%no_reentry_app.
    assert (ref_count tr = 2) as Htwo.
    { rewrite Hrc. by destruct s. }
    rewrite Hother, Htwo.
    + simpl. eexists. split; [done|]. by split.
    + intros Hbad. apply Hnot, in_or_app. by left.
    + done.
Qed.
End InvocationTrampolines.

(** ** The length of an array is never a callback *)

Lemma insert_not_array (l : list ParamType) n m t :
  t <> PARAM_ARRAY ->
  default PARAM_NORMAL (<[n := t]> l !! m) = PARAM_ARRAY ->
  default PARAM_NORMAL (l !! m) = PARAM_ARRAY.
Proof.
  intros Ht. destruct (decide (n = m)) as [-> | Hne].
  - destruct (decide (m < length l)%nat) as [Hlt | Hge].
    + rewrite list_lookup_insert_eq by done. simpl. congruence.
    + by rewrite list_insert_ge by lia.
  - by rewrite list_lookup_insert_ne.
Qed.

Lemma classify_callback_arrays n_args i arg_info interface_info function
    function' k :
  classify_callback n_args i arg_info interface_info function
    = InitOk function' ->
  param_type_at function' k = PARAM_ARRAY ->
  param_type_at function k = PARAM_ARRAY.
Proof.
  unfold classify_callback, param_type_at, mark_param. intros Hc Hk.
  repeat case_match; simplify_eq; simpl in *;
    repeat (apply insert_not_array in Hk; [|done]); done.
Qed.

Lemma classify_array_arrays info n_args i d type_info function function' k :
  0 <= i -> 0 <= k ->
  length (param_types function) = Z.to_nat n_args ->
  classify_array info n_args i d type_info function = InitOk function' ->
  param_type_at function' k = PARAM_ARRAY ->
  param_type_at function k = PARAM_ARRAY \/
  (k = i /\
   let pos := wrap8 (type_info_array_length type_info) in
   param_type_at function' pos = PARAM_SKIPPED \/ pos = i).
Proof.
  intros Hi Hk Hlen. unfold classify_array.
  pose proof (wrap8_range (type_info_array_length type_info)) as Hl.
  set (pos := wrap8 (type_info_array_length type_info)) in *.
  destruct (type_info_array_type type_info); try (intros [= <-]; by left).
  destruct (_ && _) eqn:Hin; [|intros [= <-]; by left].
  destruct (g_callable_info_load_arg info pos); [|intros [= <-]; by left].
  destruct (negb _); [done|].
  assert (forall f,
            param_types f =
              <[Z.to_nat i := PARAM_ARRAY]>
                (<[Z.to_nat pos := PARAM_SKIPPED]> (param_types function)) ->
            param_type_at f k = PARAM_ARRAY ->
            param_type_at function k = PARAM_ARRAY \/
            (k = i /\ (param_type_at f pos = PARAM_SKIPPED \/ pos = i)))
    as Hmarked.
  { intros f Hf. unfold param_type_at. rewrite Hf.
    destruct (decide (k = i)) as [-> | Hne].
    - intros _. right. split; [done|].
      destruct (decide (pos = i)) as [-> | Hne']; [by right|]. left.
      rewrite list_lookup_insert_ne by lia.
      rewrite list_lookup_insert_eq; [done|]. lia.
    - rewrite list_lookup_insert_ne by lia. intros Harr.
      apply insert_not_array in Harr; [|done]. by left. }
  destruct (pos <? i); [destruct (is_out_or_inout d)|];
    intros [= <-]; by apply Hmarked.
Qed.

Lemma classify_param_arrays info n_args i function function' :
  0 <= i ->
  length (param_types function) = Z.to_nat n_args ->
  array_lengths_skipped info function ->
  classify_param info n_args i function = InitOk function' ->
  array_lengths_skipped info function'.
Proof.
  intros Hi Hlen Hinv Hp k arg_info Harg Hk pos.
  assert (0 <= k) as Hk0.
  { unfold g_callable_info_load_arg in Harg.
    destruct (k <? 0) eqn:Hneg; [done | lia]. }
  pose proof (wrap8_range (type_info_array_length (arg_info_type arg_info)))
    as Hpos.
  pose proof (classify_param_roles _ _ _ _ _ Hi Hp) as [_ Hskipped].
  assert (param_type_at function k = PARAM_ARRAY ->
          param_type_at function' pos = PARAM_SKIPPED \/ pos = k) as Hold.
  { intros Hbefore.
    destruct (Hinv k arg_info Harg Hbefore) as [Hs | He]; [|by right].
    left. apply Hskipped; [|done]. subst pos. lia. }
  unfold classify_param in Hp.
  destruct (param_type_at function i) eqn:Hpi;
    try (injection Hp as <-; by apply Hold);
    (destruct (g_callable_info_load_arg info i) as [arg_i|] eqn:Hargi;
       [|injection Hp as <-; by apply Hold]);
    match type of Hp with
    | match ?m with _ => _ end = _ => destruct m as [f1|] eqn:Hm
    end; try done; injection Hp as <-;
    (assert (forall q,
               param_type_at
                 (count_param i (arg_info_direction arg_i) f1) q =
               param_type_at f1 q) as Hcount
       by (intros q; unfold param_type_at; by rewrite count_param_types));
    rewrite Hcount in Hk, Hold |- *;
    (destruct (type_info_tag (arg_info_type arg_i));
       try (injection Hm as <-; by apply Hold));
    try (destruct (base_info_type _);
         try (injection Hm as <-; by apply Hold);
         apply Hold; by eapply classify_callback_arrays);
    (destruct (classify_array_arrays _ _ _ _ _ _ _ k Hi Hk0 Hlen Hm Hk)
       as [Hbefore | [-> Hnew]];
       [by apply Hold|];
       assert (arg_i = arg_info) as -> by congruence; exact Hnew).
Qed.

Lemma classify_loop_arrays info n_args todo :
  forall i function function',
  0 <= i ->
  length (param_types function) = Z.to_nat n_args ->
  array_lengths_skipped info function ->
  classify_loop info n_args todo i function = InitOk function' ->
  length (param_types function') = Z.to_nat n_args /\
  array_lengths_skipped info function'.
Proof.
  induction todo as [|todo IH]; intros i function function' Hi Hlen Hinv;
    simpl.
  - by intros [= <-].
  - destruct (classify_param info n_args i function) as [f1|] eqn:Hp; [|done].
    intros Hloop.
    pose proof (classify_param_roles _ _ _ _ _ Hi Hp) as [Hlen1 _].
    pose proof (classify_param_arrays _ _ _ _ _ Hi Hlen Hinv Hp) as Hinv1.
    eapply IH; [| | exact Hinv1 | exact Hloop]; [lia | congruence].
Qed.

Section ClassifiedArrays.
Context `{Collaborators}.

(** In a function the classifier accepted, the parameter that holds the
    length of an array parameter is no callback. *)
Lemma init_arrays_ok function0 info0 function :
  init_cached_function_data function0 info0 = InitOk function ->
  info function = Some info0 /\ arrays_ok function info0.
Proof.
  unfold init_cached_function_data.
  destruct (g_function_info_prep_invoker info0) as [inv|]; [|done].
  match goal with
  | |- match classify_loop _ _ _ _ ?f with _ => _ end = _ -> _ =>
      set (start := f)
  end.
  destruct (classify_loop _ _ _ _ start) as [f1|] eqn:Hloop; [|done].
  intros [= <-]. split; [done|].
  pose proof (wrap8_range (g_callable_info_get_n_args info0)) as Hrange.
  fold (init_n_args info0) in Hrange.
  assert (length (param_types start) = Z.to_nat (init_n_args info0) /\
          array_lengths_skipped info0 start) as [Hlen Hinv].
  { subst start. destruct (_ && _); simpl.
    - split; [by rewrite length_insert, length_replicate|].
      intros k arg_info _ Hk. unfold param_type_at in Hk. simpl in Hk.
      apply insert_not_array in Hk; [|done].
      destruct (replicate _ _ !! _) as [pt|] eqn:Hpt; [|done].
      apply lookup_replicate in Hpt as [-> _]. done.
    - split; [by rewrite length_replicate|].
      intros k arg_info _ Hk. unfold param_type_at in Hk. simpl in Hk.
      destruct (replicate _ _ !! _) as [pt|] eqn:Hpt; [|done].
      apply lookup_replicate in Hpt as [-> _]. done. }
  apply classify_loop_arrays in Hloop as [Hlen1 Hinv1]; [|lia|done|done].
  intros k arg_info Harg Hk Hbad. simpl in Hk, Hbad.
  unfold slot_load in Hk, Hbad.
  destruct (k <? 0) eqn:Hk0; [done|].
  destruct (type_info_array_length (arg_info_type arg_info) <? 0) eqn:Hl0;
    [done|].
  assert (param_type_at f1 k = PARAM_ARRAY) as Harray.
  { unfold param_type_at. by rewrite Hk. }
  assert (type_info_array_length (arg_info_type arg_info) < 256) as Hsmall.
  { apply lookup_lt_Some in Hbad. lia. }
  destruct (Hinv1 k arg_info Harg Harray) as [Hs | He];
    rewrite wrap8_small in * by lia.
  - unfold param_type_at in Hs. by rewrite Hbad in Hs.
  - rewrite He in Hbad. congruence.
Qed.
End ClassifiedArrays.

(** ** The life of a trampoline after the call that made it *)

Lemma unref_all_gone l :
  forall w w' t,
  unref_all l w = Some w' ->
  trampolines w !! t = None ->
  (t ∉ l) /\ trampolines w' !! t = None.
Proof.
  induction l as [|a l IH]; intros w w' t; simpl.
  - intros [= <-] Hgone. split; [apply not_elem_of_nil | done].
  - destruct (gjs_callback_trampoline_unref a w) as [w1|] eqn:Hu; simpl;
      [|done].
    intros Hl Hgone.
    apply gjs_callback_trampoline_unref_effect in Hu
      as (tr & Htr & Hheap & _).
    assert (a <> t) as Hne by congruence.
    destruct (IH w1 w' t Hl) as [Hnotin Hafter].
    { rewrite Hheap. destruct (ref_count tr =? 1).
      - by rewrite lookup_delete_ne.
      - by rewrite lookup_insert_ne. }
    split; [|done]. intros Hin. apply elem_of_cons in Hin as [-> | Hin]; done.
Qed.

(** Draining a list frees a trampoline with one reference when the list
    names it, and leaves it as it is otherwise. *)
Lemma unref_all_last_reference l :
  forall w w' t tr,
  unref_all l w = Some w' ->
  trampolines w !! t = Some tr ->
  ref_count tr = 1 ->
  trampolines w' !! t = if bool_decide (t ∈ l) then None else Some tr.
Proof.
  induction l as [|a l IH]; intros w w' t tr Hl Htr Hone; simpl in Hl.
  - injection Hl as <-. rewrite bool_decide_eq_false_2; [done|].
    apply not_elem_of_nil.
  - destruct (gjs_callback_trampoline_unref a w) as [w1|] eqn:Hu;
      simpl in Hl; [|done].
    apply gjs_callback_trampoline_unref_effect in Hu
      as (tr0 & Htr0 & Hheap & _).
    destruct (decide (a = t)) as [-> | Hne].
    + assert (tr0 = tr) as -> by congruence.
      replace (ref_count tr =? 1) with true in Hheap by (symmetry; lia).
      rewrite bool_decide_eq_true_2 by (apply elem_of_cons; by left).
      eapply unref_all_gone; [exact Hl|].
      by rewrite Hheap, lookup_delete_eq.
    + rewrite (IH w1 w' t tr Hl); [|
        rewrite Hheap; destruct (ref_count tr0 =? 1);
          [by rewrite lookup_delete_ne | by rewrite lookup_insert_ne]
        | done].
      apply (f_equal (fun b : bool => if b then None else Some tr)).
      apply bool_decide_ext. split.
      * intros Hin. apply elem_of_cons. by right.
      * intros [Heq | Hin]%elem_of_cons; [congruence | done].
Qed.

Lemma free_completed_trampolines_last_reference w w' t tr :
  free_completed_trampolines w = Some w' ->
  trampolines w !! t = Some tr ->
  ref_count tr = 1 ->
  trampolines w' !! t =
    if bool_decide (t ∈ completed_trampolines w) then None else Some tr.
Proof.
  unfold free_completed_trampolines.
  destruct (unref_all _ w) as [w1|] eqn:Hu; simpl; [|done].
  intros [= <-] Htr Hone. simpl. by eapply unref_all_last_reference.
Qed.




(** ** The native error channel *)




(** ** The length of an inout array that is passed null *)

Lemma frame_same_refl f p : frame_same f f p.
Proof. by repeat split. Qed.

Lemma frame_same_trans f1 f2 f3 p :
  frame_same f1 f2 p -> frame_same f2 f3 p -> frame_same f1 f3 p.
Proof. intros (? & ? & ?) (? & ? & ?). repeat split; congruence. Qed.

Lemma frame_same_null f f' p :
  frame_same f f' p -> slots_null f p -> slots_null f' p.
Proof. intros (? & ? & ?) (? & ? & ?). repeat split; congruence. Qed.

Lemma store_in_same f i v f' p :
  store_in f i v = Some f' -> p <> i -> frame_same f f' p.
Proof.
  unfold store_in. intros Hs Hne. simplify_option_eq.
  repeat split; simpl; try done. by eapply slot_store_load.
Qed.

Lemma store_out_same f i v f' p :
  store_out f i v = Some f' -> p <> i -> frame_same f f' p.
Proof.
  unfold store_out. intros Hs Hne. simplify_option_eq.
  repeat split; simpl; try done. by eapply slot_store_load.
Qed.

Lemma store_inout_original_same f i v f' p :
  store_inout_original f i v = Some f' -> p <> i -> frame_same f f' p.
Proof.
  unfold store_inout_original. intros Hs Hne. simplify_option_eq.
  repeat split; simpl; try done. by eapply slot_store_load.
Qed.

Lemma store_ffi_pointer_same f i f' p :
  store_ffi_pointer f i = Some f' -> frame_same f f' p.
Proof.
  unfold store_ffi_pointer. intros Hs. simplify_option_eq. by repeat split.
Qed.

Lemma redirect_inout_same f i f' p :
  redirect_inout f i = Some f' -> p <> i -> frame_same f f' p.
Proof.
  unfold redirect_inout. intros Hr Hne.
  destruct (slot_load (in_arg_cvalues f) i) as [v|]; simpl in Hr; [|done].
  destruct (store_inout_original f i v) as [f1|] eqn:H1; simpl in Hr; [|done].
  destruct (store_out f1 i v) as [f2|] eqn:H2; simpl in Hr; [|done].
  eapply frame_same_trans; [by eapply store_inout_original_same|].
  eapply frame_same_trans; [by eapply store_out_same|].
  by eapply store_in_same.
Qed.

Section MarshalIndex.
Context `{Collaborators}.

Lemma marshal_callback_slots_js_arg_pos function is_method arg_info c_arg_pos
    trampoline w m m' :
  marshal_callback_slots function is_method arg_info c_arg_pos trampoline w m
    = Some m' ->
  m_js_arg_pos m' = m_js_arg_pos m /\ m_failed m' = m_failed m.
Proof.
  unfold marshal_callback_slots. intros Hm.
  repeat match type of Hm with
    | (?c ≫= _) = _ => destruct c; simpl in Hm; [|done]
    end.
  by injection Hm as <-.
Qed.

Lemma marshal_callback_js_arg_pos function is_method js_argv arg_info
    c_arg_pos m m' :
  marshal_callback function is_method js_argv arg_info c_arg_pos m
    = Some m' ->
  m_js_arg_pos m' = m_js_arg_pos m /\
  (m_failed m' = false -> m_failed m = false).
Proof.
  unfold marshal_callback. intros Hm.
  destruct (slot_load js_argv _) as [value|]; simpl in Hm; [|done].
  destruct (_ && _).
  { apply marshal_callback_slots_js_arg_pos in Hm as [? ?].
    split; [done | congruence]. }
  destruct (negb _); [by injection Hm as <-|].
  destruct (gjs_callback_trampoline_new _ _ _ _) as [[[t|] w1]|];
    simpl in Hm; try done.
  apply marshal_callback_slots_js_arg_pos in Hm as [? ?].
  split; [done | congruence].
Qed.

Lemma marshal_array_js_arg_pos info is_method js_argv arg_info c_arg_pos
    m m' :
  marshal_array info is_method js_argv arg_info c_arg_pos m = Some m' ->
  m_js_arg_pos m' = m_js_arg_pos m /\
  (m_failed m' = false -> m_failed m = false).
Proof.
  unfold marshal_array. intros Hm.
  destruct (slot_load js_argv (m_js_arg_pos m)) as [value|]; simpl in Hm;
    [|done].
  destruct (gjs_value_to_explicit_array value arg_info) as [[array length]|];
    [|by injection Hm as <-].
  destruct (store_in (m_frame m) c_arg_pos array) as [f1|];
    simpl in Hm; [|done].
  destruct (g_callable_info_load_arg info _) as [array_length_arg|];
    simpl in Hm; [|done].
  destruct (gjs_value_to_arg _ _) as [length_value|];
    [|by injection Hm as <-].
  repeat match type of Hm with
    | (?c ≫= _) = _ => destruct c; simpl in Hm; [|done]
    end.
  by injection Hm as <-.
Qed.

Lemma marshal_normal_js_arg_pos js_argv arg_info c_arg_pos m m' :
  marshal_normal js_argv arg_info c_arg_pos m = Some m' ->
  m_js_arg_pos m' = m_js_arg_pos m /\
  (m_failed m' = false -> m_failed m = false).
Proof.
  unfold marshal_normal. intros Hm. assert_ok Hm.
  destruct (slot_load js_argv _) as [value|]; simpl in Hm; [|done].
  destruct (gjs_value_to_arg _ _); [|by injection Hm as <-].
  destruct (store_in _ _ _) as [f1|]; simpl in Hm; [|done].
  by injection Hm as <-.
Qed.

Lemma marshal_arg_js_arg_pos function info is_method c_argc js_argv
    gi_arg_pos c_arg_pos m m' :
  marshal_arg function info is_method c_argc js_argv gi_arg_pos c_arg_pos m
    = Some m' ->
  m_failed m' = false ->
  m_js_arg_pos m' =
    m_js_arg_pos m
    + (if consumes_argument function info gi_arg_pos then 1 else 0).
Proof.
  unfold marshal_arg, consumes_argument. intros Hm Hok.
  destruct (g_callable_info_load_arg info gi_arg_pos) as [arg_info|];
    simpl in Hm; [|done].
  assert_ok Hm.
  destruct (store_ffi_pointer _ _) as [f|]; simpl in Hm; [|done].
  destruct (is_in_or_inout (arg_info_direction arg_info)) eqn:Hdir.
  2:{ destruct (arg_info_direction arg_info); try done.
      apply marshal_out_js_arg_pos in Hm. simpl in Hm.
      destruct (slot_load _ _); simpl; lia. }
  assert (marshal_in function info is_method js_argv arg_info gi_arg_pos
            c_arg_pos (marshal_with m f (m_world m)) = Some m') as Hin.
  { by destruct (arg_info_direction arg_info). }
  clear Hm. unfold marshal_in in Hin.
  destruct (slot_load (param_types function) gi_arg_pos) as [pt|];
    simpl in Hin; [|done].
  match type of Hin with
  | (?step ≫= _) = _ =>
      destruct step as [[removed m1]|] eqn:Hstep; simpl in Hin; [|done]
  end.
  assert (m_js_arg_pos m1 = m_js_arg_pos m /\
          removed = ParamType_eqb pt PARAM_SKIPPED) as [Hpos Hremoved].
  { destruct pt; simpl in Hstep.
    - destruct (marshal_normal _ _ _ _) as [m0|] eqn:Hn; simpl in Hstep;
        [|done].
      injection Hstep as <- <-.
      by apply marshal_normal_js_arg_pos in Hn as [? _].
    - by injection Hstep as <- <-.
    - destruct (marshal_array _ _ _ _ _ _) as [m0|] eqn:Ha; simpl in Hstep;
        [|done].
      injection Hstep as <- <-.
      by apply marshal_array_js_arg_pos in Ha as [? _].
    - destruct (marshal_callback _ _ _ _ _ _) as [m0|] eqn:Hc;
        simpl in Hstep; [|done].
      injection Hstep as <- <-.
      by apply marshal_callback_js_arg_pos in Hc as [? _]. }
  match type of Hin with
  | (?step ≫= _) = _ =>
      destruct step as [m2|] eqn:Hredirect; simpl in Hin; [|done]
  end.
  assert (m_js_arg_pos m2 = m_js_arg_pos m1 /\ m_failed m2 = m_failed m1)
    as [Hpos2 Hfailed2].
  { destruct (arg_info_direction arg_info);
      try by injection Hredirect as <-.
    destruct (_ && _); [|by injection Hredirect as <-].
    destruct (redirect_inout _ _); simpl in Hredirect; [|done].
    by injection Hredirect as <-. }
  destruct (m_failed m2) eqn:Hf2; simpl in Hin.
  { injection Hin as <-. congruence. }
  rewrite <- Hremoved.
  destruct removed; injection Hin as <-; simpl; lia.
Qed.

End MarshalIndex.

Section LaterTurns.
Context `{Collaborators}.

Lemma marshal_out_same arg_info c_arg_pos m m' p :
  marshal_out arg_info c_arg_pos m = Some m' -> p <> c_arg_pos ->
  frame_same (m_frame m) (m_frame m') p.
Proof.
  unfold marshal_out. intros Hm Hne.
  destruct (arg_info_caller_allocates arg_info).
  - destruct (caller_allocates_size _) as [size|].
    + destruct (g_slice_alloc0 size (m_world m)) as [a w1].
      destruct (store_in _ _ _) as [f1|] eqn:H1; simpl in Hm; [|done].
      destruct (store_out _ _ _) as [f2|] eqn:H2; simpl in Hm; [|done].
      injection Hm as <-. simpl.
      eapply frame_same_trans; [by eapply store_in_same|].
      by eapply store_out_same.
    + injection Hm as <-. apply frame_same_refl.
  - destruct (store_out _ _ _) as [f1|] eqn:H1; simpl in Hm; [|done].
    destruct (store_in _ _ _) as [f2|] eqn:H2; simpl in Hm; [|done].
    injection Hm as <-. simpl.
    eapply frame_same_trans; [by eapply store_out_same|].
    by eapply store_in_same.
Qed.

Lemma store_companion_same function is_method pos v f f' p :
  store_companion function is_method pos v f = Some f' ->
  p <> pos + (if is_method then 1 else 0) ->
  frame_same f f' p.
Proof.
  unfold store_companion. intros Hs Hp.
  destruct (0 <=? pos); [|injection Hs as <-; apply frame_same_refl].
  destruct (slot_load (param_types function) pos) as [t|];
    simpl in Hs; [|done].
  destruct (g_assert _); simpl in Hs; [|done].
  eapply store_in_same; [exact Hs|].
  by destruct is_method; [|rewrite Z.add_0_r in Hp].
Qed.

Lemma marshal_callback_slots_same function is_method arg_info c_arg_pos
    trampoline w m m' p :
  marshal_callback_slots function is_method arg_info c_arg_pos trampoline w m
    = Some m' ->
  p <> c_arg_pos ->
  p <> arg_info_destroy arg_info + (if is_method then 1 else 0) ->
  p <> arg_info_closure arg_info + (if is_method then 1 else 0) ->
  frame_same (m_frame m) (m_frame m') p.
Proof.
  unfold marshal_callback_slots. intros Hm Hne Hd Hc.
  destruct (store_companion _ _ _ _ _) as [f1|] eqn:H1; simpl in Hm; [|done].
  destruct (store_companion function is_method (arg_info_closure arg_info) _ f1)
    as [f2|] eqn:H2; simpl in Hm; [|done].
  match type of Hm with
  | (?c ≫= _) = _ => destruct c as [w1|]; simpl in Hm; [|done]
  end.
  destruct (store_in f2 _ _) as [f3|] eqn:H3; simpl in Hm; [|done].
  injection Hm as <-. simpl.
  eapply frame_same_trans; [by eapply store_companion_same|].
  eapply frame_same_trans; [by eapply store_companion_same|].
  by eapply store_in_same.
Qed.

Lemma marshal_callback_same function is_method js_argv arg_info c_arg_pos
    m m' p :
  marshal_callback function is_method js_argv arg_info c_arg_pos m = Some m' ->
  p <> c_arg_pos ->
  p <> arg_info_destroy arg_info + (if is_method then 1 else 0) ->
  p <> arg_info_closure arg_info + (if is_method then 1 else 0) ->
  frame_same (m_frame m) (m_frame m') p.
Proof.
  unfold marshal_callback. intros Hm Hne Hd Hc.
  destruct (slot_load js_argv (m_js_arg_pos m)) as [value|]; simpl in Hm;
    [|done].
  destruct (_ && _).
  - by eapply marshal_callback_slots_same.
  - destruct (negb (is_JSTYPE_FUNCTION value)).
    + injection Hm as <-. apply frame_same_refl.
    + destruct (gjs_callback_trampoline_new _ _ _ _) as [[t w1]|];
        simpl in Hm; [|done].
      destruct t as [t|]; simpl in Hm; [|done].
      by eapply marshal_callback_slots_same.
Qed.

Lemma marshal_array_same info is_method js_argv arg_info c_arg_pos m m' p :
  marshal_array info is_method js_argv arg_info c_arg_pos m = Some m' ->
  p <> c_arg_pos ->
  p <> type_info_array_length (arg_info_type arg_info)
       + (if is_method then 1 else 0) ->
  frame_same (m_frame m) (m_frame m') p.
Proof.
  unfold marshal_array. intros Hm Hne Hlen.
  destruct (slot_load js_argv (m_js_arg_pos m)) as [value|]; simpl in Hm;
    [|done].
  destruct (gjs_value_to_explicit_array value arg_info) as [[array length]|];
    [|injection Hm as <-; apply frame_same_refl].
  destruct (store_in (m_frame m) c_arg_pos array) as [f1|] eqn:H1;
    simpl in Hm; [|done].
  pose proof (store_in_same _ _ _ _ p H1 Hne) as Ha1.
  destruct (g_callable_info_load_arg info _) as [array_length_arg|];
    simpl in Hm; [|done].
  destruct (gjs_value_to_arg _ _) as [length_value|];
    [|injection Hm as <-; done].
  destruct (store_in f1 _ length_value) as [f2|] eqn:H2; simpl in Hm; [|done].
  pose proof (store_in_same _ _ _ _ p H2 Hlen) as Ha2.
  match type of Hm with
  | (?c ≫= _) = _ => destruct c as [f3|] eqn:H3; simpl in Hm; [|done]
  end.
  injection Hm as <-. simpl.
  eapply frame_same_trans; [exact Ha1|].
  eapply frame_same_trans; [exact Ha2|].
  destruct (arg_info_direction arg_info);
    try (injection H3 as <-; apply frame_same_refl).
  destruct (slot_load (in_arg_cvalues f2) c_arg_pos) as [in_value|];
    simpl in H3; [|done].
  destruct (GArgument_is_null in_value).
  - destruct (store_in f2 _ v_null) as [f4|] eqn:H4; simpl in H3; [|done].
    destruct (store_out f4 _ v_null) as [f5|] eqn:H5; simpl in H3; [|done].
    eapply frame_same_trans; [by eapply store_in_same|].
    eapply frame_same_trans; [by eapply store_out_same|].
    by eapply store_inout_original_same.
  - by eapply redirect_inout_same.
Qed.

Lemma marshal_normal_same js_argv arg_info c_arg_pos m m' p :
  marshal_normal js_argv arg_info c_arg_pos m = Some m' ->
  p <> c_arg_pos ->
  frame_same (m_frame m) (m_frame m') p.
Proof.
  unfold marshal_normal. intros Hm Hne.
  destruct (g_assert _); simpl in Hm; [|done].
  destruct (slot_load js_argv (m_js_arg_pos m)) as [value|]; simpl in Hm;
    [|done].
  destruct (gjs_value_to_arg value arg_info) as [v|];
    [|injection Hm as <-; apply frame_same_refl].
  destruct (store_in _ _ _) as [f1|] eqn:H1; simpl in Hm; [|done].
  injection Hm as <-. by eapply store_in_same.
Qed.

(** A turn at a parameter that is not out writes the slot of the parameter
    unless it is Skipped, the slot of the length of an array, and the
    slots of the companions of a callback. *)
Lemma marshal_in_same function info is_method js_argv arg_info gi_arg_pos
    c_arg_pos m m' p :
  marshal_in function info is_method js_argv arg_info gi_arg_pos c_arg_pos m
    = Some m' ->
  (slot_load (param_types function) gi_arg_pos <> Some PARAM_SKIPPED ->
   p <> c_arg_pos) ->
  (slot_load (param_types function) gi_arg_pos = Some PARAM_ARRAY ->
   p <> type_info_array_length (arg_info_type arg_info)
        + (if is_method then 1 else 0)) ->
  (slot_load (param_types function) gi_arg_pos = Some PARAM_CALLBACK ->
   p <> arg_info_destroy arg_info + (if is_method then 1 else 0) /\
   p <> arg_info_closure arg_info + (if is_method then 1 else 0)) ->
  frame_same (m_frame m) (m_frame m') p.
Proof.
  unfold marshal_in. intros Hm Hown Harray Hcallback.
  destruct (slot_load (param_types function) gi_arg_pos) as [pt|];
    simpl in Hm; [|done].
  match type of Hm with
  | (?step ≫= _) = _ =>
      destruct step as [[removed m1]|] eqn:Hstep; simpl in Hm; [|done]
  end.
  assert (frame_same (m_frame m) (m_frame m1) p /\
          (removed = true <-> pt = PARAM_SKIPPED)) as [H1 Hremoved].
  { destruct pt; simplify_option_eq; (split; [|done]);
      match goal with
      | Hn : marshal_normal _ _ _ _ = Some _ |- _ =>
          eapply marshal_normal_same; [exact Hn|]; by apply Hown
      | Ha : marshal_array _ _ _ _ _ _ = Some _ |- _ =>
          eapply marshal_array_same; [exact Ha| |]; auto; by apply Hown
      | Hc : marshal_callback _ _ _ _ _ _ = Some _ |- _ =>
          destruct Hcallback as [? ?]; [done|];
          eapply marshal_callback_same; [exact Hc| | |]; auto; by apply Hown
      | _ => apply frame_same_refl
      end. }
  match type of Hm with
  | (?step ≫= _) = _ =>
      destruct step as [m2|] eqn:Hredirect; simpl in Hm; [|done]
  end.
  assert (frame_same (m_frame m1) (m_frame m2) p) as H2.
  { destruct (arg_info_direction arg_info);
      try (injection Hredirect as <-; apply frame_same_refl).
    destruct (_ && _) eqn:Hgo; [|injection Hredirect as <-; apply frame_same_refl].
    destruct (redirect_inout _ _) as [f|] eqn:Hr; simpl in Hredirect; [|done].
    injection Hredirect as <-. simpl. eapply redirect_inout_same; [done|].
    apply Hown. intros [= ->]. destruct removed; [done|].
    by pose proof (proj2 Hremoved eq_refl). }
  assert (m_frame m' = m_frame m2) as ->.
  { match type of Hm with
    | (if ?c then _ else _) = _ => destruct c
    end; by injection Hm as <-. }
  by eapply frame_same_trans.
Qed.

Lemma marshal_arg_same function info is_method c_argc js_argv gi_arg_pos
    c_arg_pos m m' p :
  marshal_arg function info is_method c_argc js_argv gi_arg_pos c_arg_pos m
    = Some m' ->
  (forall arg_info,
      g_callable_info_load_arg info gi_arg_pos = Some arg_info ->
      (arg_info_direction arg_info = GI_DIRECTION_OUT \/
       slot_load (param_types function) gi_arg_pos <> Some PARAM_SKIPPED ->
       p <> c_arg_pos) /\
      (arg_info_direction arg_info <> GI_DIRECTION_OUT ->
       (slot_load (param_types function) gi_arg_pos = Some PARAM_ARRAY ->
        p <> type_info_array_length (arg_info_type arg_info)
             + (if is_method then 1 else 0)) /\
       (slot_load (param_types function) gi_arg_pos = Some PARAM_CALLBACK ->
        p <> arg_info_destroy arg_info + (if is_method then 1 else 0) /\
        p <> arg_info_closure arg_info + (if is_method then 1 else 0)))) ->
  frame_same (m_frame m) (m_frame m') p.
Proof.
  unfold marshal_arg. intros Hm Hwrites.
  destruct (g_callable_info_load_arg info gi_arg_pos) as [arg_info|];
    simpl in Hm; [|done].
  destruct (Hwrites arg_info eq_refl) as [Hown Hrest].
  destruct (g_assert _); simpl in Hm; [|done].
  destruct (store_ffi_pointer _ _) as [f1|] eqn:Hffi; simpl in Hm; [|done].
  eapply frame_same_trans; [by eapply store_ffi_pointer_same|].
  destruct (arg_info_direction arg_info) eqn:Hdir.
  - destruct Hrest as [? ?]; [done|]. eapply marshal_in_same in Hm; eauto.
  - eapply marshal_out_same in Hm; eauto.
  - destruct Hrest as [? ?]; [done|]. eapply marshal_in_same in Hm; eauto.
Qed.
End LaterTurns.

Lemma store_out_load f i v f' :
  store_out f i v = Some f' -> slot_load (out_arg_cvalues f') i = Some v.
Proof.
  unfold store_out. intros Hs.
  destruct (slot_store (out_arg_cvalues f) i v) as [l|] eqn:Hl; simpl in Hs;
    [|done].
  injection Hs as <-. simpl. by eapply slot_store_load_eq.
Qed.

Lemma store_inout_original_load f i v f' :
  store_inout_original f i v = Some f' ->
  slot_load (inout_original_arg_cvalues f') i = Some v.
Proof.
  unfold store_inout_original. intros Hs.
  destruct (slot_store (inout_original_arg_cvalues f) i v) as [l|] eqn:Hl;
    simpl in Hs; [|done].
  injection Hs as <-. simpl. by eapply slot_store_load_eq.
Qed.

Lemma store_out_in f i v f' :
  store_out f i v = Some f' -> in_arg_cvalues f' = in_arg_cvalues f.
Proof. unfold store_out. intros Hs. by simplify_option_eq. Qed.

Lemma store_inout_original_in_out f i v f' :
  store_inout_original f i v = Some f' ->
  in_arg_cvalues f' = in_arg_cvalues f /\
  out_arg_cvalues f' = out_arg_cvalues f.
Proof. unfold store_inout_original. intros Hs. by simplify_option_eq. Qed.

Section NullLength.
Context `{Collaborators}.
Variable function : Function.
Variable info : GIFunctionInfo.
Variable is_method : bool.
Variable js_argv : list jsval.
Variable k : Z.
Variable arg_info : GIArgInfo.
Variable length : Z.

Let shift : Z := if is_method then 1 else 0.
Let length_pos : Z := type_info_array_length (arg_info_type arg_info).

Hypothesis Harg : g_callable_info_load_arg info k = Some arg_info.
Hypothesis Hinout : arg_info_direction arg_info = GI_DIRECTION_INOUT.
Hypothesis Harray : slot_load (param_types function) k = Some PARAM_ARRAY.
Hypothesis Hnull :
  gjs_value_to_explicit_array JSVAL_NULL arg_info = Some (v_null, length).
Hypothesis Hother : length_pos <> k.

(** The turn of the array: it leaves [NULL] in the three slots of the
    length. *)
Lemma marshal_arg_null_length c_argc m m' :
  marshal_arg function info is_method c_argc js_argv k (k + shift) m
    = Some m' ->
  m_failed m' = false ->
  slot_load js_argv (m_js_arg_pos m) = Some JSVAL_NULL ->
  slots_null (m_frame m') (length_pos + shift).
Proof.
  unfold marshal_arg. rewrite Harg. simpl. intros Hm Hok Hvalue.
  destruct (g_assert _); simpl in Hm; [|done].
  destruct (store_ffi_pointer _ _) as [f0|]; simpl in Hm; [|done].
  rewrite Hinout in Hm. unfold marshal_in in Hm. rewrite Harray in Hm.
  simpl in Hm. unfold marshal_array in Hm. simpl in Hm.
  rewrite Hvalue in Hm. simpl in Hm. rewrite Hnull in Hm.
  destruct (store_in f0 (k + shift) v_null) as [f1|] eqn:H1; simpl in Hm;
    [|done].
  fold length_pos shift in Hm.
  destruct (g_callable_info_load_arg info length_pos) as [array_length_arg|];
    simpl in Hm; [|done].
  destruct (gjs_value_to_arg _ _) as [length_value|]; simpl in Hm.
  2:{ rewrite Hinout in Hm. simpl in Hm. injection Hm as <-. done. }
  destruct (store_in f1 (length_pos + shift) length_value) as [f2|] eqn:H2;
    simpl in Hm; [|done].
  rewrite Hinout in Hm.
  assert (slot_load (in_arg_cvalues f2) (k + shift) = Some v_null) as Hin.
  { destruct (store_in_same _ _ _ _ (k + shift) H2) as [-> _]; [lia|].
    by eapply store_in_load. }
  rewrite Hin in Hm. simpl in Hm.
  destruct (store_in f2 (length_pos + shift) v_null) as [f3|] eqn:H3;
    simpl in Hm; [|done].
  destruct (store_out f3 (length_pos + shift) v_null) as [f4|] eqn:H4;
    simpl in Hm; [|done].
  destruct (store_inout_original f4 (length_pos + shift) v_null) as [f5|]
    eqn:H5; simpl in Hm; [|done].
  assert (slots_null f5 (length_pos + shift)) as Hf5.
  { destruct (store_inout_original_in_out _ _ _ _ H5) as [Hi5 Ho5].
    split; [|split].
    - rewrite Hi5, (store_out_in _ _ _ _ H4). by eapply store_in_load.
    - rewrite Ho5. by eapply store_out_load.
    - by eapply store_inout_original_load. }
  destruct (m_failed m) eqn:Hfailed; simpl in Hm.
  { rewrite Hfailed in Hm. simpl in Hm. injection Hm as <-. simpl in Hok.
    congruence. }
  destruct (redirect_inout f5 (k + shift)) as [f6|] eqn:H6; simpl in Hm;
    [|done].
  rewrite Hfailed in Hm. simpl in Hm. injection Hm as <-. simpl.
  eapply frame_same_null; [|exact Hf5].
  eapply redirect_inout_same; [exact H6|]. lia.
Qed.

Hypothesis Hskipped :
  slot_load (param_types function) length_pos = Some PARAM_SKIPPED.
Hypothesis Hlength_in :
  forall length_arg,
    g_callable_info_load_arg info length_pos = Some length_arg ->
    k < length_pos ->
    arg_info_direction length_arg <> GI_DIRECTION_OUT.
Hypothesis Hlater :
  forall j arg_j,
    k < j ->
    g_callable_info_load_arg info j = Some arg_j ->
    arg_info_direction arg_j <> GI_DIRECTION_OUT ->
    (slot_load (param_types function) j = Some PARAM_ARRAY ->
     type_info_array_length (arg_info_type arg_j) <> length_pos) /\
    (slot_load (param_types function) j = Some PARAM_CALLBACK ->
     arg_info_destroy arg_j <> length_pos /\
     arg_info_closure arg_j <> length_pos).

(** The turns after the array leave the slots of its length alone. *)
Lemma marshal_loop_keeps_length c_argc todo :
  forall n m m' c' p',
  marshal_loop function info is_method c_argc js_argv todo n (n + shift)
    (n + shift) m = Some (m', c', p') ->
  k < n ->
  frame_same (m_frame m) (m_frame m') (length_pos + shift).
Proof.
  induction todo as [|todo IH]; intros n m m' c' p' Hloop Hn;
    simpl in Hloop.
  - injection Hloop as <- <- <-. apply frame_same_refl.
  - destruct (marshal_arg _ _ _ _ _ _ _ _) as [m1|] eqn:Hturn;
      simpl in Hloop; [|done].
    assert (frame_same (m_frame m) (m_frame m1) (length_pos + shift))
      as Hsame.
    { eapply marshal_arg_same; [exact Hturn|].
      intros arg_j Hj. split.
      - intros Hwrites Heq. assert (n = length_pos) as -> by lia.
        destruct Hwrites as [Hout | Hpt]; [|done].
        by apply (Hlength_in arg_j Hj Hn).
      - intros Hdir. destruct (Hlater n arg_j Hn Hj Hdir) as [Ha Hc].
        split.
        + intros Hpt. specialize (Ha Hpt). fold shift. lia.
        + intros Hpt. destruct (Hc Hpt). fold shift. lia. }
    destruct (m_failed m1).
    + by injection Hloop as <- <- <-.
    + replace (n + shift + 1) with (n + 1 + shift) in Hloop by lia.
      eapply frame_same_trans; [exact Hsame|].
      eapply IH; [exact Hloop | lia].
Qed.

(** The loop, when it goes through: the three slots of the length hold
    [NULL] at its end. *)
Lemma marshal_loop_null_length c_argc todo :
  forall n m m' c' p',
  marshal_loop function info is_method c_argc js_argv todo n (n + shift)
    (n + shift) m = Some (m', c', p') ->
  m_failed m' = false ->
  n <= k < n + Z.of_nat todo ->
  slot_load js_argv
    (m_js_arg_pos m + consumed_arguments function info (Z.to_nat (k - n)) n)
    = Some JSVAL_NULL ->
  slots_null (m_frame m') (length_pos + shift).
Proof.
  induction todo as [|todo IH]; intros n m m' c' p' Hloop Hok Hk Hvalue;
    simpl in Hloop; [lia|].
  destruct (marshal_arg _ _ _ _ _ _ _ _) as [m1|] eqn:Hturn;
    simpl in Hloop; [|done].
  destruct (m_failed m1) eqn:Hfailed.
  { injection Hloop as <- <- <-. congruence. }
  replace (n + shift + 1) with (n + 1 + shift) in Hloop by lia.
  destruct (decide (n = k)) as [-> | Hne].
  - replace (k - k) with 0 in Hvalue by lia. simpl in Hvalue.
    rewrite Z.add_0_r in Hvalue.
    eapply frame_same_null.
    + eapply marshal_loop_keeps_length; [exact Hloop | lia].
    + by eapply marshal_arg_null_length.
  - eapply IH; [exact Hloop | done | lia |].
    rewrite (marshal_arg_js_arg_pos _ _ _ _ _ _ _ _ _ Hturn Hfailed).
    replace (Z.to_nat (k - n)) with (S (Z.to_nat (k - (n + 1)))) in Hvalue
      by lia.
    simpl in Hvalue. by rewrite Z.add_assoc in Hvalue.
Qed.
End NullLength.

Section NullLengthCall.
Context `{Collaborators}.

(** What the callee receives: the in slots as marshaling left them, but
    for the slot of [GError **]. *)
Lemma invoke_call_receives function info is_method c_arg_pos processed f w
    result rv w' :
  invoke_call function info is_method c_arg_pos processed f w
    = Some (result, rv, w') ->
  exists args err post,
    trace w' =
      post ++ EvFfiCall (native_address (invoker function)) args err
        :: trace w /\
    Forall no_call post /\
    (result = JS_TRUE -> err = None) /\
    forall p, p <> c_arg_pos ->
      slot_load args p = slot_load (in_arg_cvalues f) p.
Proof.
  unfold invoke_call. intros Hc.
  match type of Hc with
  | (?c ≫= _) = _ => destruct c as [[f1 c1]|] eqn:Herror; [|done]
  end.
  simpl in Hc.
  assert (forall p, p <> c_arg_pos ->
            slot_load (in_arg_cvalues f1) p = slot_load (in_arg_cvalues f) p)
    as Hslots.
  { intros p Hp. destruct (function_info_throws info).
    - assert_ok Herror.
      destruct (store_in f c_arg_pos v_error_slot) as [fa|] eqn:Ha;
        simpl in Herror; [|done].
      destruct (store_ffi_pointer fa c_arg_pos) as [fb|] eqn:Hb;
        simpl in Herror; [|done].
      injection Herror as <- <-.
      destruct (store_ffi_pointer_same _ _ _ p Hb) as [-> _].
      by destruct (store_in_same _ _ _ _ p Ha Hp) as [-> _].
    - by injection Herror as <- <-. }
  assert_ok Hc.
  destruct (ffi_call _ _ _ _) as [[[[rv0 err] f2] w2]|] eqn:Hffi;
    simpl in Hc; [|done].
  pose proof (ffi_call_effect no_call _ _ _ _ _ _ _ _
                ltac:(by intros []) Hffi)
    as ((new & Hnew & Hnative) & _).
  match type of Hc with
  | (?c ≫= _) = _ =>
      destruct c as [[failed r]|] eqn:Hconv; simpl in Hc; [|done]
  end.
  assert (only_logs no_call w2 (r_world r)) as Hret.
  { destruct (_ && _).
    - eapply convert_return_value_logs; [|exact Hconv]. by intros [].
    - simplify_eq. apply only_logs_refl. }
  pose proof (invoke_release_logs no_call _ _ _ _ _ _ _ _ _ _ _
                ltac:(by intros []) ltac:(by intros []) ltac:(by intros [])
                Hc) as Hrel.
  pose proof (only_logs_trans _ _ _ _ Hret Hrel) as [_ (post & Hpost & Hposts)].
  exists (in_arg_cvalues f1), err, (post ++ new).
  split; [by rewrite Hpost, Hnew, app_assoc|].
  split; [by apply Forall_app|]. split; [|done].
  intros ->. destruct err as [message|]; [|done].
  apply (invoke_release_after_failure no_call) in Hc as [Hfalse _];
    [done | by intros [] | by intros [] | done].
Qed.

(** C8, as amended.  An inout array parameter that is passed JavaScript
    [null], which [gjs_value_to_explicit_array] turns into the C [NULL],
    and whose length is another parameter, which the classifier has
    skipped.  Provided no later turn of the marshaling loop writes the
    slot of the length again (the length parameter, when it comes after
    the array, is not out; no later array has the same length parameter;
    no later callback has it as its user data or destroy notifier): when
    the loop goes through, the three slots of the length
    ([in_arg_cvalues], [out_arg_cvalues] and [inout_original_arg_cvalues])
    hold [NULL]; and what the callee receives in the slot of the length is
    [NULL], not the address of an out slot that holds the converted
    length.  A call that returns [JS_TRUE] has called the callee. *)
Theorem inout_array_null_gives_null_length (function : Function)
    (info0 : GIFunctionInfo) (js_argv : list jsval) (k : Z)
    (arg_info : GIArgInfo) (length : Z) :
  let is_method := function_info_is_method info0 in
  let shift := if is_method then 1 else 0 in
  let gi_argc := wrap8 (g_callable_info_get_n_args info0) in
  let length_pos := type_info_array_length (arg_info_type arg_info) in
  info function = Some info0 ->
  0 <= k < gi_argc ->
  g_callable_info_load_arg info0 k = Some arg_info ->
  arg_info_direction arg_info = GI_DIRECTION_INOUT ->
  slot_load (param_types function) k = Some PARAM_ARRAY ->
  slot_load js_argv (consumed_arguments function info0 (Z.to_nat k) 0)
    = Some JSVAL_NULL ->
  gjs_value_to_explicit_array JSVAL_NULL arg_info = Some (v_null, length) ->
  length_pos <> k ->
  length_pos < gi_argc ->
  slot_load (param_types function) length_pos = Some PARAM_SKIPPED ->
  (forall length_arg,
      g_callable_info_load_arg info0 length_pos = Some length_arg ->
      k < length_pos ->
      arg_info_direction length_arg <> GI_DIRECTION_OUT) ->
  (forall j arg_j,
      k < j ->
      g_callable_info_load_arg info0 j = Some arg_j ->
      arg_info_direction arg_j <> GI_DIRECTION_OUT ->
      (slot_load (param_types function) j = Some PARAM_ARRAY ->
       type_info_array_length (arg_info_type arg_j) <> length_pos) /\
      (slot_load (param_types function) j = Some PARAM_CALLBACK ->
       arg_info_destroy arg_j <> length_pos /\
       arg_info_closure arg_j <> length_pos)) ->
  (forall c_argc m m' c' p',
      m_js_arg_pos m = 0 ->
      marshal_loop function info0 is_method c_argc js_argv (Z.to_nat gi_argc)
        0 shift shift m = Some (m', c', p') ->
      m_failed m' = false ->
      slots_null (m_frame m') (length_pos + shift)) /\
  (forall obj w result rv w',
      gjs_invoke_c_function function obj js_argv w
        = Some (result, rv, w') ->
      exists new,
        trace w' = new ++ trace w /\
        (forall address args err,
            In (EvFfiCall address args err) new ->
            slot_load args (length_pos + shift) = Some v_null) /\
        (result = JS_TRUE ->
         exists args,
           In (EvFfiCall (native_address (invoker function)) args None)
             new)).
Proof.
  intros is_method shift gi_argc length_pos Hinfo Hk Harg Hinout Harray
    Hvalue Hnull Hother Hbound Hskipped Hlength_in Hlater.
  assert (forall c_argc m m' c' p',
            m_js_arg_pos m = 0 ->
            marshal_loop function info0 is_method c_argc js_argv
              (Z.to_nat gi_argc) 0 shift shift m = Some (m', c', p') ->
            m_failed m' = false ->
            slots_null (m_frame m') (length_pos + shift)) as Hloop.
  { intros c_argc m m' c' p' Hstart Hloop Hok.
    eapply (marshal_loop_null_length function info0 is_method js_argv k
              arg_info length Harg Hinout Harray Hnull Hother Hskipped
              Hlength_in Hlater c_argc (Z.to_nat gi_argc) 0 m m' c' p');
      [exact Hloop | exact Hok | lia |].
    rewrite Hstart, Z.sub_0_r. exact Hvalue. }
  split; [exact Hloop|].
  intros obj w result rv w' Hcall.
  unfold gjs_invoke_c_function in Hcall.
  destruct (free_completed_trampolines w) as [w0|] eqn:Hdrain;
    simpl in Hcall; [|done].
  destruct (free_completed_trampolines_effect no_call _ _
              ltac:(done) Hdrain) as (_ & drained & Hdrained & Hquiet0).
  rewrite Hinfo in Hcall. simpl in Hcall.
  (* the paths that do not reach the call *)
  assert (forall quiet,
            Forall no_call quiet -> trace w' = quiet ++ trace w ->
            result = JS_FALSE ->
            exists new,
              trace w' = new ++ trace w /\
              (forall address args err,
                  In (EvFfiCall address args err) new ->
                  slot_load args (length_pos + shift) = Some v_null) /\
              (result = JS_TRUE ->
               exists args,
                 In (EvFfiCall (native_address (invoker function)) args None)
                   new)) as Hnocall.
  { intros quiet Hquiet Htrace ->. exists quiet. split; [done|].
    split; [|done]. intros address args err Hin.
    rewrite Forall_forall in Hquiet.
    by apply list_elem_of_In, Hquiet in Hin. }
  destruct (_ <? expected_js_argc function).
  { injection Hcall as <- <- <-.
    apply (Hnocall
             (EvThrow (ERR_TOO_FEW_ARGUMENTS (expected_js_argc function)
                         (Z.of_nat (List.length js_argv))) :: drained));
      [constructor; [exact I | exact Hquiet0]
      | simpl; by rewrite Hdrained | done]. }
  match type of Hcall with
  | (?c ≫= _) = _ =>
      destruct c as [[[f failed] w1]|] eqn:Hreceiver; simpl in Hcall; [|done]
  end.
  assert (only_logs no_call w0 w1) as Hlog1.
  { destruct (function_info_is_method info0).
    - eapply marshal_receiver_logs; [|exact Hreceiver]. by intros [].
    - simplify_eq. apply only_logs_refl. }
  destruct failed.
  { apply (invoke_release_after_failure no_call) in Hcall
      as (-> & _ & Hlog2 & _);
      [|by intros [] | by intros [] | reflexivity].
    destruct (only_logs_trans _ _ _ _ Hlog1 Hlog2) as [_ (new & Hnew & Hquiet)].
    apply (Hnocall (new ++ drained));
      [by apply Forall_app | by rewrite Hnew, Hdrained, app_assoc | done]. }
  destruct (marshal_loop _ _ _ _ _ _ _ _ _ _) as [[[m c1] p1]|] eqn:Hmarshal;
    simpl in Hcall; [|done].
  pose proof (marshal_loop_logs no_call _ _ _ _ _ _ _ _ _ _ _ _ _
                ltac:(by intros []) Hmarshal) as Hlog2.
  simpl in Hlog2.
  pose proof (only_logs_trans _ _ _ _ Hlog1 Hlog2) as Hmarshalled.
  destruct (m_failed m) eqn:Hfailed.
  { apply (invoke_release_after_failure no_call) in Hcall
      as (-> & _ & Hlog3 & _);
      [|by intros [] | by intros [] | reflexivity].
    destruct (only_logs_trans _ _ _ _ Hmarshalled Hlog3)
      as [_ (new & Hnew & Hquiet)].
    apply (Hnocall (new ++ drained));
      [by apply Forall_app | by rewrite Hnew, Hdrained, app_assoc | done]. }
  clear Hnocall.
  assert (slots_null (m_frame m) (length_pos + shift)) as (Hin & _ & _)
    by (eapply Hloop; [|exact Hmarshal|exact Hfailed]; reflexivity).
  apply marshal_loop_complete in Hmarshal as [-> ->]; [|done].
  apply invoke_call_receives in Hcall
    as (args & err & post & Htrace & Hpost & Htrue & Hslots).
  destruct Hmarshalled as [_ (pre & Hpre & Hquiet)].
  exists (post ++ EvFfiCall (native_address (invoker function)) args err
            :: pre ++ drained).
  split.
  { rewrite Htrace, Hpre, Hdrained.
    by rewrite <- !app_assoc, <- app_comm_cons, <- !app_assoc. }
  split.
  - intros address args' err' Hcalled.
    rewrite Forall_forall in Hpost, Hquiet, Hquiet0.
    apply in_app_iff in Hcalled as [Hbad | [Heq | Hbad]].
    + by apply list_elem_of_In, Hpost in Hbad.
    + injection Heq as _ <- _. rewrite Hslots; [exact Hin|].
      fold is_method shift gi_argc. rewrite Z2Nat.id by lia. lia.
    + apply in_app_iff in Hbad as [Hbad | Hbad].
      * by apply list_elem_of_In, Hquiet in Hbad.
      * by apply list_elem_of_In, Hquiet0 in Hbad.
  - intros Hresult. rewrite (Htrue Hresult). exists args.
    apply in_app_iff. right. by left.
Qed.
End NullLengthCall.

(** The witness of [inout_array_null_gives_null_length]: [resize (null)],
    whose callee gets [NULL] as its second argument. *)
Lemma inout_array_null_gives_null_length_witness :
  exists w',
    gjs_invoke_c_function
      (H := Fixtures.collaborators (fun _ _ _ => Fixtures.quiet) true)
      (Fixtures.classified (fun _ _ _ => Fixtures.quiet) Fixtures.resize_info)
      0 [JSVAL_NULL] World_empty = Some (JS_TRUE, Some (JSVAL_ARRAY []), w') /\
    trace w' =
      [EvReleaseOut 0; EvConvertOut 0; EvReleaseIn 0 true;
       EvFfiCall 6 [v_out_slot 0; v_null] None] /\
    exists new,
      trace w' = new ++ [] /\
      (forall address args err,
          In (EvFfiCall address args err) new ->
          slot_load args (1 + 0) = Some v_null) /\
      (JS_TRUE = JS_TRUE ->
       exists args, In (EvFfiCall 6 args None) new).
Proof.
  eexists. split; [vm_compute; reflexivity|]. split; [reflexivity|].
  refine (proj2 (inout_array_null_gives_null_length
           (H := Fixtures.collaborators (fun _ _ _ => Fixtures.quiet) true)
           (Fixtures.classified (fun _ _ _ => Fixtures.quiet)
              Fixtures.resize_info)
           Fixtures.resize_info [JSVAL_NULL] 0
           (Fixtures.arg "xs" GI_DIRECTION_INOUT (Fixtures.array_type 1)) 0
           ltac:(reflexivity)
           ltac:(vm_compute; split; [discriminate | reflexivity])
           ltac:(reflexivity) ltac:(reflexivity) ltac:(reflexivity)
           ltac:(reflexivity) ltac:(reflexivity) ltac:(simpl; lia)
           ltac:(vm_compute; reflexivity) ltac:(reflexivity)
           ltac:(intros length_arg [= <-] _; discriminate)
           ltac:(intros j arg_j Hj Harg _;
                 destruct (decide (j = 1)) as [-> | Hne];
                 [split; discriminate|];
                 exfalso;
                 unfold g_callable_info_load_arg, slot_load in Harg;
                 replace (j <? 0) with false in Harg by lia;
                 replace (Z.to_nat j) with (S (S (Z.to_nat (j - 2)))) in Harg
                   by lia;
                 discriminate))
           0%nat World_empty JS_TRUE (Some (JSVAL_ARRAY [])) _ _).
  vm_compute. reflexivity.
Defined.

(** C8, the claim as stated fails.  In [merge (null, [1, 2, 3])] the two
    inout arrays have the same length parameter: the turn of [xs] leaves
    [NULL] in the slots of [n], the turn of [ys] then stores the length 3
    there, and the callee receives in the slot of [n] the address of an
    out slot, not [NULL], although [xs] was passed [null]. *)
Lemma null_length_overwritten_by_a_later_array :
  exists w',
    gjs_invoke_c_function
      (H := Fixtures.collaborators (fun _ _ _ => Fixtures.quiet) true)
      (Fixtures.classified (fun _ _ _ => Fixtures.quiet) Fixtures.merge_info)
      0 [JSVAL_NULL; JSVAL_ARRAY [JSVAL_INT 1; JSVAL_INT 2; JSVAL_INT 3]]
      World_empty
      = Some (JS_TRUE, Some (JSVAL_ARRAY [JSVAL_ARRAY []; JSVAL_ARRAY []]),
              w') /\
    init_cached_function_data
      (H := Fixtures.collaborators (fun _ _ _ => Fixtures.quiet) true)
      Function_zero Fixtures.merge_info
      = InitOk (Fixtures.classified (fun _ _ _ => Fixtures.quiet)
                  Fixtures.merge_info) /\
    In (EvFfiCall 17 [v_out_slot 0; v_out_slot 1; v_out_slot 2] None)
       (trace w') /\
    forall address args err,
      In (EvFfiCall address args err) (trace w') ->
      slot_load args 2 = Some (v_out_slot 2) /\
      slot_load args 2 <> Some v_null.
Proof.
  eexists. split; [vm_compute; reflexivity|].
  split; [vm_compute; reflexivity|]. split; [simpl; tauto|].
  intros address args err Hin. simpl in Hin.
  repeat (destruct Hin as [Hin | Hin]; [try discriminate|]); [|done].
  injection Hin as _ <- _. by split.
Qed.

(** * Further properties of the code *)

(** ** [get_length_from_arg] *)

Section LengthFromArg.
Context `{Collaborators}.

(** X1.  [get_length_from_arg] reads a signed member of the union and
    returns it as [unsigned long]: a negative length of a signed type comes
    back as that length plus [2 ^ 64]. *)
Theorem get_length_from_arg_negative (tag : GITypeTag) (bits z : Z) :
  signed_width tag = Some bits ->
  - 2 ^ (bits - 1) <= z < 0 ->
  get_length_from_arg (v_int z) tag = Some (2 ^ 64 + z).
Proof.
  intros Htag Hz. unfold get_length_from_arg, sign_extend.
  destruct tag; simpl in Htag; try done; injection Htag as <-;
    change (2 ^ (8 - 1)) with 128 in *; change (2 ^ (16 - 1)) with 32768 in *;
    change (2 ^ (32 - 1)) with 2147483648 in *;
    change (2 ^ (64 - 1)) with 9223372036854775808 in *;
    change (2 ^ 8) with 256; change (2 ^ 16) with 65536;
    change (2 ^ 32) with 4294967296;
    change (2 ^ 64) with 18446744073709551616;
    f_equal.
  all: match goal with
       | |- ((?x + ?h) mod ?m - ?h) mod ?M = _ =>
           rewrite (Z.mod_small (x + h) m) by lia;
           replace (x + h - h) with (M + x + (-1) * M) by lia;
           rewrite Z.mod_add by lia; apply Z.mod_small; lia
       end.
Qed.

(** X2.  [get_length_from_arg] answers for the eight integer tags only (for
    any other tag it stops on [g_assert_not_reached]), and what it answers
    is an [unsigned long]; for an unsigned tag it is below two to the width
    of the tag. *)
Theorem get_length_from_arg_range (arg : GArgument) (tag : GITypeTag) :
  (is_Some (get_length_from_arg arg tag) <-> is_length_tag tag = true) /\
  forall n,
    get_length_from_arg arg tag = Some n ->
    0 <= n < 2 ^ 64 /\
    (tag = GI_TYPE_TAG_UINT8 -> n < 2 ^ 8) /\
    (tag = GI_TYPE_TAG_UINT16 -> n < 2 ^ 16) /\
    (tag = GI_TYPE_TAG_UINT32 -> n < 2 ^ 32).
Proof.
  split.
  - destruct tag; simpl; split; intros Hs; try done;
      try (by eexists); by destruct Hs.
  - intros n. unfold get_length_from_arg.
    destruct tag; try done; intros [= <-];
      (split; [|repeat split; intros; try done]);
      try (apply Z.mod_pos_bound; lia).
    all: match goal with
         | |- _ <= ?a mod ?m < _ =>
             pose proof (Z.mod_pos_bound a m ltac:(lia)); lia
         end.
Qed.
End LengthFromArg.

(** The witness of [get_length_from_arg_negative]: the length [-1] of type
    gint32. *)
Lemma get_length_from_arg_negative_witness :
  get_length_from_arg
    (H := Fixtures.collaborators (fun _ _ _ => Fixtures.quiet) true)
    (v_int (-1)) GI_TYPE_TAG_INT32 = Some 18446744073709551615.
Proof.
  apply (get_length_from_arg_negative
           (H := Fixtures.collaborators (fun _ _ _ => Fixtures.quiet) true)
           GI_TYPE_TAG_INT32 32 (-1)).
  - reflexivity.
  - simpl. lia.
Defined.

(** ** Reference counting of trampolines *)

Lemma set_ref_count_same tr : set_ref_count tr (ref_count tr) = tr.
Proof. by destruct tr. Qed.

Lemma set_trampolines_same w : set_trampolines w (trampolines w) = w.
Proof. by destruct w. Qed.

(** X3.  Taking a reference on a live trampoline and dropping it again
    leaves the state as it was, unless the count was zero; so does dropping
    a reference and taking it again, unless the reference dropped was the
    last one. *)
Theorem trampoline_ref_unref_round_trip (t : nat) (w : World)
    (tr : GjsCallbackTrampoline) :
  trampolines w !! t = Some tr ->
  (ref_count tr <> 0 ->
   gjs_callback_trampoline_ref t w ≫= gjs_callback_trampoline_unref t
     = Some w) /\
  (ref_count tr <> 1 ->
   gjs_callback_trampoline_unref t w ≫= gjs_callback_trampoline_ref t
     = Some w).
Proof.
  intros Htr. split; intros Hcount.
  - unfold gjs_callback_trampoline_ref. rewrite Htr. simpl.
    unfold gjs_callback_trampoline_unref. simpl.
    rewrite lookup_insert_eq. simpl.
    replace (ref_count tr + 1 - 1 =? 0) with false by (symmetry; lia).
    f_equal. unfold set_trampolines. simpl.
    rewrite insert_insert_eq.
    replace (set_ref_count _ _) with tr.
    + rewrite insert_id by done. by destruct w.
    + unfold set_ref_count. simpl. destruct tr. simpl. f_equal. lia.
  - unfold gjs_callback_trampoline_unref. rewrite Htr. simpl.
    replace (ref_count tr - 1 =? 0) with false by (symmetry; lia).
    simpl. unfold gjs_callback_trampoline_ref. simpl.
    rewrite lookup_insert_eq. simpl.
    f_equal. unfold set_trampolines. simpl.
    rewrite insert_insert_eq.
    replace (set_ref_count _ _) with tr.
    + rewrite insert_id by done. by destruct w.
    + unfold set_ref_count. simpl. destruct tr. simpl. f_equal. lia.
Qed.

(** The witness of [trampoline_ref_unref_round_trip]: the trampoline of the
    test world, which has one reference. *)
Lemma trampoline_ref_unref_round_trip_witness :
  gjs_callback_trampoline_ref 1 Fixtures.throwing_world
    ≫= gjs_callback_trampoline_unref 1 = Some Fixtures.throwing_world.
Proof.
  refine (proj1 (trampoline_ref_unref_round_trip 1 Fixtures.throwing_world
                   (Fixtures.trampoline_of (JSVAL_FUNCTION 0)
                      GI_SCOPE_TYPE_CALL 1) _) _).
  - reflexivity.
  - simpl. lia.
Defined.

(** ** [gjs_callback_closure] *)

(** X4.  Native code calling the closure of a live trampoline with as many
    arguments as the callback type has, where the JavaScript function calls
    no exposed function, always gets a result.  The call takes and drops no
    reference and frees nothing; it puts the trampoline on the list of
    completed trampolines, once, exactly when its scope is Async, and that
    whether the JavaScript function succeeded or threw. *)
Theorem callback_closure_effect (c : Collaborators)
    (code : jsval -> list jsval -> Script) (depth : nat) (data : nat)
    (args : list GArgument) (w : World) (tr : GjsCallbackTrampoline) :
  trampolines w !! data = Some tr ->
  (length (callable_info_args (trampoline_info tr)) <= length args)%nat ->
  (forall jsargs, exists rval, code (js_function tr) jsargs = JsReturn rval) ->
  exists result w',
    gjs_callback_closure (H := reentrant c code (S depth)) data args w
      = Some (result, w') /\
    trampolines w' = trampolines w /\
    slices w' = slices w /\
    completed_trampolines w' =
      (if GIScopeType_is_async (scope tr)
       then data :: completed_trampolines w
       else completed_trampolines w).
Proof.
  intros Htr Hargs Hquiet.
  destruct (closure_args_loop_total (H := reentrant c code (S depth))
              (callable_info_args (trampoline_info tr)) 0 args [])
    as [converted Hconverted]; [lia|].
  unfold gjs_callback_closure. rewrite Htr. cbn [mbind option_bind].
  rewrite Hconverted. cbn [mbind option_bind].
  destruct converted as [jsargs|].
  - destruct (Hquiet jsargs) as [rval Hcode].
    unfold call_js_function. cbn [JS_CallFunctionValue reentrant with_javascript].
    rewrite Hcode. simpl. rewrite Htr. simpl.
    destruct (rval ≫= _); destruct (GIScopeType_is_async (scope tr));
      by eexists _, _.
  - simpl. rewrite Htr. simpl.
    destruct (GIScopeType_is_async (scope tr)); by eexists _, _.
Qed.

(** The witness of [callback_closure_effect]: the closure of an Async
    trampoline, whose callback takes no argument. *)
Lemma callback_closure_effect_witness :
  exists result w',
    gjs_callback_closure
      (H := Fixtures.engine (fun _ _ _ => Fixtures.quiet))
      1 [] Fixtures.waiting_world = Some (result, w') /\
    trampolines w' = trampolines Fixtures.waiting_world /\
    slices w' = slices Fixtures.waiting_world /\
    completed_trampolines w' = [1%nat].
Proof.
  apply (callback_closure_effect
           (Fixtures.collaborators (fun _ _ _ => Fixtures.quiet) true)
           Fixtures.scripts 1 1 [] Fixtures.waiting_world
           (Fixtures.trampoline_of (JSVAL_FUNCTION 1) GI_SCOPE_TYPE_ASYNC 1)).
  - reflexivity.
  - simpl. lia.
  - intros jsargs. by eexists.
Defined.

(** ** Arguments past the expected ones *)

Lemma slot_load_app {A} (l extra : list A) i v :
  slot_load l i = Some v -> slot_load (l ++ extra) i = Some v.
Proof.
  unfold slot_load. destruct (i <? 0); [done|].
  intros Hl. by apply lookup_app_l_Some.
Qed.

Section SurplusArguments.
Context `{Collaborators}.
Variable extra : list jsval.

Lemma marshal_callback_surplus function is_method js_argv arg_info c_arg_pos
    m m' :
  marshal_callback function is_method js_argv arg_info c_arg_pos m
    = Some m' ->
  marshal_callback function is_method (js_argv ++ extra) arg_info c_arg_pos m
    = Some m'.
Proof.
  unfold marshal_callback.
  destruct (slot_load js_argv (m_js_arg_pos m)) as [value|] eqn:Hv; [|done].
  by rewrite (slot_load_app _ extra _ _ Hv).
Qed.

Lemma marshal_array_surplus info is_method js_argv arg_info c_arg_pos m m' :
  marshal_array info is_method js_argv arg_info c_arg_pos m = Some m' ->
  marshal_array info is_method (js_argv ++ extra) arg_info c_arg_pos m
    = Some m'.
Proof.
  unfold marshal_array.
  destruct (slot_load js_argv (m_js_arg_pos m)) as [value|] eqn:Hv; [|done].
  by rewrite (slot_load_app _ extra _ _ Hv).
Qed.

Lemma marshal_normal_surplus js_argv arg_info c_arg_pos m m' :
  marshal_normal js_argv arg_info c_arg_pos m = Some m' ->
  marshal_normal (js_argv ++ extra) arg_info c_arg_pos m = Some m'.
Proof.
  unfold marshal_normal. intros Hm.
  destruct (m_js_arg_pos m <? Z.of_nat (length js_argv)) eqn:Hlt;
    [|done].
  apply Z.ltb_lt in Hlt.
  replace (m_js_arg_pos m <? Z.of_nat (length (js_argv ++ extra)))
    with true
    by (symmetry; apply Z.ltb_lt; rewrite length_app, Nat2Z.inj_add; lia).
  simpl in *.
  destruct (slot_load js_argv (m_js_arg_pos m)) as [value|] eqn:Hv; [|done].
  by rewrite (slot_load_app _ extra _ _ Hv).
Qed.

Lemma marshal_in_surplus function info is_method js_argv arg_info
    gi_arg_pos c_arg_pos m m' :
  marshal_in function info is_method js_argv arg_info gi_arg_pos c_arg_pos m
    = Some m' ->
  marshal_in function info is_method (js_argv ++ extra) arg_info gi_arg_pos
    c_arg_pos m = Some m'.
Proof.
  unfold marshal_in.
  destruct (slot_load (param_types function) gi_arg_pos) as [[]|];
    simpl; [| | | |done].
  - destruct (marshal_normal js_argv _ _ _) as [m1|] eqn:Hm; [|done].
    by rewrite (marshal_normal_surplus _ _ _ _ _ Hm).
  - done.
  - destruct (marshal_array _ _ js_argv _ _ _) as [m1|] eqn:Hm; [|done].
    by rewrite (marshal_array_surplus _ _ _ _ _ _ _ Hm).
  - destruct (marshal_callback _ _ js_argv _ _ _) as [m1|] eqn:Hm; [|done].
    by rewrite (marshal_callback_surplus _ _ _ _ _ _ _ Hm).
Qed.

Lemma marshal_arg_surplus function info is_method c_argc js_argv gi_arg_pos
    c_arg_pos m m' :
  marshal_arg function info is_method c_argc js_argv gi_arg_pos c_arg_pos m
    = Some m' ->
  marshal_arg function info is_method c_argc (js_argv ++ extra) gi_arg_pos
    c_arg_pos m = Some m'.
Proof.
  unfold marshal_arg.
  destruct (g_callable_info_load_arg info gi_arg_pos) as [arg_info|];
    simpl; [|done].
  destruct (g_assert _); simpl; [|done].
  destruct (store_ffi_pointer _ _) as [f|]; simpl; [|done].
  destruct (arg_info_direction arg_info); try done;
    apply marshal_in_surplus.
Qed.

Lemma marshal_loop_surplus function info is_method c_argc js_argv todo :
  forall gi_arg_pos c_arg_pos processed m r,
  marshal_loop function info is_method c_argc js_argv todo gi_arg_pos
    c_arg_pos processed m = Some r ->
  marshal_loop function info is_method c_argc (js_argv ++ extra) todo
    gi_arg_pos c_arg_pos processed m = Some r.
Proof.
  induction todo as [|todo IH]; intros gi_arg_pos c_arg_pos processed m r;
    simpl; [done|].
  destruct (marshal_arg _ _ _ _ js_argv _ _ _) as [m1|] eqn:Hm; [|done].
  rewrite (marshal_arg_surplus _ _ _ _ _ _ _ _ _ Hm). simpl.
  destruct (m_failed m1); [done|]. apply IH.
Qed.

(** X5.  Arguments past the ones the function expects are ignored: a call
    that is not short of arguments has the same outcome, and leaves the same
    state, when more arguments follow. *)
Theorem surplus_arguments_are_ignored (function : Function) (obj : nat)
    (js_argv : list jsval) (w : World) (r : JSBool * option jsval * World) :
  expected_js_argc function <= Z.of_nat (length js_argv) ->
  gjs_invoke_c_function function obj js_argv w = Some r ->
  gjs_invoke_c_function function obj (js_argv ++ extra) w = Some r.
Proof.
  intros Henough. unfold gjs_invoke_c_function.
  destruct (free_completed_trampolines w) as [w0|]; simpl; [|done].
  destruct (info function) as [info0|]; simpl; [|done].
  replace (Z.of_nat (length js_argv) <? expected_js_argc function)
    with false by (symmetry; lia).
  replace (Z.of_nat (length (js_argv ++ extra)) <? expected_js_argc function)
    with false
    by (symmetry; apply Z.ltb_ge; rewrite length_app, Nat2Z.inj_add; lia).
  match goal with
  | |- (?c ≫= _) = _ -> _ => destruct c as [[[f failed] w1]|]; simpl; [|done]
  end.
  destruct failed; [done|].
  destruct (marshal_loop _ _ _ _ js_argv _ _ _ _ _) as [[[m c1] p1]|] eqn:Hm;
    [|done].
  by rewrite (marshal_loop_surplus _ _ _ _ _ _ _ _ _ _ _ Hm).
Qed.
End SurplusArguments.

(** The witness of [surplus_arguments_are_ignored]: [sum (n, xs)] called
    with an array and a second argument. *)
Lemma surplus_arguments_are_ignored_witness :
  exists r,
    gjs_invoke_c_function
      (H := Fixtures.collaborators (fun _ _ _ => Fixtures.quiet) true)
      (Fixtures.classified (fun _ _ _ => Fixtures.quiet) Fixtures.sum_info)
      0 [JSVAL_ARRAY [JSVAL_INT 1]] World_empty = Some r /\
    gjs_invoke_c_function
      (H := Fixtures.collaborators (fun _ _ _ => Fixtures.quiet) true)
      (Fixtures.classified (fun _ _ _ => Fixtures.quiet) Fixtures.sum_info)
      0 ([JSVAL_ARRAY [JSVAL_INT 1]] ++ [JSVAL_STRING "more"]) World_empty
      = Some r.
Proof.
  eexists. split; [vm_compute; reflexivity|].
  apply (surplus_arguments_are_ignored
           (H := Fixtures.collaborators (fun _ _ _ => Fixtures.quiet) true)
           [JSVAL_STRING "more"]
           (Fixtures.classified (fun _ _ _ => Fixtures.quiet)
              Fixtures.sum_info)
           0 [JSVAL_ARRAY [JSVAL_INT 1]] World_empty).
  - vm_compute. discriminate.
  - vm_compute. reflexivity.
Defined.

(** ** A receiver of the wrong type *)

Section Receiver.
Context `{Collaborators}.

(** X6.  A method of a type that is no struct, boxed or union, called on an
    object that is no instance of that type: the receiver check throws, sets [failed] and jumps to the
    release pass with [processed_c_args] still 0; the release pass starts
    [c_arg_pos] at 1 for a method, so the call stops on
    [g_assert_cmpuint (c_arg_pos, ==, processed_c_args)] instead of
    returning false. *)
Theorem invalid_receiver_stops_on_assertion (function : Function)
    (info0 : GIFunctionInfo) (obj : nat) (js_argv : list jsval)
    (w w1 : World) :
  info function = Some info0 ->
  function_info_is_method info0 = true ->
  base_info_type (function_info_container info0) <> GI_INFO_TYPE_STRUCT ->
  base_info_type (function_info_container info0) <> GI_INFO_TYPE_BOXED ->
  base_info_type (function_info_container info0) <> GI_INFO_TYPE_UNION ->
  g_type_is_a_instance (gjs_g_object_from_object obj)
    (function_info_container info0) = false ->
  free_completed_trampolines w = Some w1 ->
  expected_js_argc function <= Z.of_nat (length js_argv) ->
  0 < wrap8 (cif_nargs (invoker function)) ->
  let c_argc := wrap8 (cif_nargs (invoker function)) in
  (exists f,
      marshal_receiver info0 c_argc obj (Frame_new c_argc) w1
        = Some (f, true, gjs_throw ERR_EXPECTED_TYPE w1) /\
      invoke_release function info0 true true None 0 None
        (Release_start f (gjs_throw ERR_EXPECTED_TYPE w1) 0 []) = None) /\
  gjs_invoke_c_function function obj js_argv w = None.
Proof.
  intros Hinfo Hmethod Hstruct Hboxed Hunion Hcheck Hdrain Henough Hargc
    c_argc.
  assert (exists f,
            store_in (Frame_new c_argc) 0 (gjs_g_object_from_object obj)
              = Some f) as [f Hf].
  { unfold store_in, slot_store.
    replace ((0 <=? 0) && (0 <? Z.of_nat (length (in_arg_cvalues
                                                    (Frame_new c_argc)))))
      with true; [by eexists|].
    symmetry. apply andb_true_intro. split; [done|]. apply Z.ltb_lt.
    unfold Frame_new. simpl. rewrite length_replicate, Z2Nat.id; lia. }
  assert (marshal_receiver info0 c_argc obj (Frame_new c_argc) w1
          = Some (f, true, gjs_throw ERR_EXPECTED_TYPE w1)) as Hreceiver.
  { unfold marshal_receiver.
    replace (0 <? c_argc) with true by (symmetry; by apply Z.ltb_lt).
    simpl.
    destruct (base_info_type (function_info_container info0)); try done;
      rewrite Hf; simpl; by rewrite Hcheck. }
  assert (invoke_release function info0 true true None 0 None
            (Release_start f (gjs_throw ERR_EXPECTED_TYPE w1) 0 []) = None)
    as Hrelease.
  { unfold invoke_release.
    assert (forall todo r,
              release_loop function info0 true false true 0 todo 0 1 r
              = Some (r, 1)) as Hloop by (by intros []).
    simpl. by rewrite Hloop. }
  split; [by exists f|].
  unfold gjs_invoke_c_function. rewrite Hdrain. simpl. rewrite Hinfo. simpl.
  replace (Z.of_nat (length js_argv) <? expected_js_argc function)
    with false by (symmetry; lia).
  rewrite Hmethod. fold c_argc. rewrite Hreceiver. simpl. exact Hrelease.
Qed.
End Receiver.

(** The witness of [invalid_receiver_stops_on_assertion]: [Widget.show] with
    a receiver check that fails. *)
Lemma invalid_receiver_stops_on_assertion_witness :
  gjs_invoke_c_function
    (H := Fixtures.with_receiver_check
            (Fixtures.collaborators (fun _ _ _ => Fixtures.quiet) true) false)
    (Fixtures.classified (fun _ _ _ => Fixtures.quiet) Fixtures.show_info)
    7 [] World_empty = None.
Proof.
  refine (proj2 (invalid_receiver_stops_on_assertion
            (H := Fixtures.with_receiver_check
                    (Fixtures.collaborators (fun _ _ _ => Fixtures.quiet) true)
                    false)
            (Fixtures.classified (fun _ _ _ => Fixtures.quiet)
               Fixtures.show_info)
            Fixtures.show_info 7 [] World_empty World_empty
            _ _ _ _ _ _ _ _ _));
    first [reflexivity | vm_compute; reflexivity | vm_compute; discriminate
          | discriminate].
Defined.

(** ** How often the native function is called *)

Lemma ffi_calls_app l1 l2 : ffi_calls (l1 ++ l2) = ffi_calls l1 ++ ffi_calls l2.
Proof. apply List.filter_app. Qed.

Lemma ffi_calls_quiet l : Forall no_call l -> ffi_calls l = [].
Proof.
  induction 1 as [|e l He _ IH]; [done|].
  unfold ffi_calls in *. simpl. rewrite IH. by destruct e.
Qed.

Section CallCount.
Context `{Collaborators}.

Lemma invoke_release_rval function info is_method failed local_error
    processed js_rval r result rv w' :
  invoke_release function info is_method failed local_error processed
    js_rval r = Some (result, rv, w') ->
  is_Some js_rval -> is_Some rv.
Proof.
  unfold invoke_release. intros Hrel Hsome.
  destruct (release_loop _ _ _ _ _ _ _ _ _ _) as [[r2 c2]|];
    simpl in Hrel; [|done].
  assert_ok Hrel.
  match type of Hrel with
  | (?c ≫= _) = _ =>
      destruct c as [[failed' rv']|] eqn:Hrv; simpl in Hrel; [|done]
  end.
  assert (is_Some rv') as Hrv'.
  { destruct (_ && _); [|by injection Hrv as <- <-].
    destruct (_ =? 1).
    - destruct (slot_load _ _); simpl in Hrv; [|done].
      by injection Hrv as <- <-.
    - destruct (JS_NewArrayObject _); by injection Hrv as <- <-. }
  destruct local_error; [destruct (negb failed')|destruct failed'];
    by injection Hrel as <- <- <-.
Qed.

Lemma invoke_call_rval function info is_method c_arg_pos processed f w
    result rv w' :
  invoke_call function info is_method c_arg_pos processed f w
    = Some (result, rv, w') ->
  is_Some rv.
Proof.
  unfold invoke_call. intros Hcall.
  match type of Hcall with
  | (?c ≫= _) = _ => destruct c as [[f1 c1]|]; simpl in Hcall; [|done]
  end.
  assert_ok Hcall.
  destruct (ffi_call _ _ _ _) as [[[[return_value local_error] f2] w2]|];
    simpl in Hcall; [|done].
  match type of Hcall with
  | (?c ≫= _) = _ => destruct c as [[failed r]|]; simpl in Hcall; [|done]
  end.
  eapply invoke_release_rval; [exact Hcall | by eexists].
Qed.

(** X7.  An invocation calls the native function at most once.  It returns
    true only if it called it and the callee reported no error, and then the
    return value is set; if it did not call it, it returns false and leaves
    the return value unset. *)
Theorem native_function_called_at_most_once (function : Function) (obj : nat)
    (js_argv : list jsval) (w : World) (result : JSBool)
    (rv : option jsval) (w' : World) :
  gjs_invoke_c_function function obj js_argv w = Some (result, rv, w') ->
  exists new,
    trace w' = new ++ trace w /\
    (length (ffi_calls new) <= 1)%nat /\
    (result = JS_TRUE ->
     is_Some rv /\
     exists args,
       ffi_calls new =
         [EvFfiCall (native_address (invoker function)) args None]) /\
    (ffi_calls new = [] -> result = JS_FALSE /\ rv = None).
Proof.
  unfold gjs_invoke_c_function. intros Hcall.
  destruct (free_completed_trampolines w) as [w0|] eqn:Hdrain;
    simpl in Hcall; [|done].
  destruct (free_completed_trampolines_effect no_call _ _
              ltac:(done) Hdrain) as (_ & drained & Hdrained & Hquiet0).
  destruct (info function) as [info0|]; simpl in Hcall; [|done].
  (* the paths that do not reach the call *)
  assert (forall quiet,
            Forall no_call quiet -> trace w' = quiet ++ trace w ->
            result = JS_FALSE -> rv = None ->
            exists new,
              trace w' = new ++ trace w /\
              (length (ffi_calls new) <= 1)%nat /\
              (result = JS_TRUE ->
               is_Some rv /\
               exists args,
                 ffi_calls new =
                   [EvFfiCall (native_address (invoker function)) args None])
              /\ (ffi_calls new = [] -> result = JS_FALSE /\ rv = None))
    as Hnocall.
  { intros quiet Hquiet Htrace -> ->. exists quiet. split; [done|].
    rewrite (ffi_calls_quiet _ Hquiet). simpl. split; [lia|]. done. }
  destruct (_ <? expected_js_argc function).
  { injection Hcall as <- <- <-.
    apply (Hnocall
             (EvThrow (ERR_TOO_FEW_ARGUMENTS (expected_js_argc function)
                         (Z.of_nat (length js_argv))) :: drained));
      [constructor; [exact I | exact Hquiet0]
      | simpl; by rewrite Hdrained | done | done]. }
  match type of Hcall with
  | (?c ≫= _) = _ =>
      destruct c as [[[f failed] w1]|] eqn:Hreceiver; simpl in Hcall; [|done]
  end.
  assert (only_logs no_call w0 w1) as Hlog1.
  { destruct (function_info_is_method info0).
    - eapply marshal_receiver_logs; [|exact Hreceiver]. by intros [].
    - simplify_eq. apply only_logs_refl. }
  destruct failed.
  { apply (invoke_release_after_failure no_call) in Hcall
      as (-> & -> & Hlog2 & _);
      [|by intros [] | by intros [] | reflexivity].
    destruct (only_logs_trans _ _ _ _ Hlog1 Hlog2) as [_ (new & Hnew & Hquiet)].
    apply (Hnocall (new ++ drained));
      [by apply Forall_app | by rewrite Hnew, Hdrained, app_assoc
      | done | done]. }
  destruct (marshal_loop _ _ _ _ _ _ _ _ _ _) as [[[m c1] p1]|] eqn:Hloop;
    simpl in Hcall; [|done].
  pose proof (marshal_loop_logs no_call _ _ _ _ _ _ _ _ _ _ _ _ _
                ltac:(by intros []) Hloop) as Hlog2.
  simpl in Hlog2.
  pose proof (only_logs_trans _ _ _ _ Hlog1 Hlog2) as Hmarshalled.
  destruct (m_failed m) eqn:Hfailed.
  { apply (invoke_release_after_failure no_call) in Hcall
      as (-> & -> & Hlog3 & _);
      [|by intros [] | by intros [] | reflexivity].
    destruct (only_logs_trans _ _ _ _ Hmarshalled Hlog3)
      as [_ (new & Hnew & Hquiet)].
    apply (Hnocall (new ++ drained));
      [by apply Forall_app | by rewrite Hnew, Hdrained, app_assoc
      | done | done]. }
  clear Hnocall.
  pose proof (invoke_call_rval _ _ _ _ _ _ _ _ _ _ Hcall) as Hrv.
  apply invoke_call_anatomy in Hcall
    as (args & err & post & Htrace & Hpost & Herr).
  destruct Hmarshalled as [_ (pre & Hpre & Hquiet)].
  exists (post ++ EvFfiCall (native_address (invoker function)) args err
            :: pre ++ drained).
  split.
  { rewrite Htrace, Hpre, Hdrained.
    by rewrite <- !app_assoc, <- app_comm_cons, <- !app_assoc. }
  assert (ffi_calls (post ++ EvFfiCall (native_address (invoker function))
                       args err :: pre ++ drained)
          = [EvFfiCall (native_address (invoker function)) args err])
    as Hcalls.
  { rewrite ffi_calls_app, (ffi_calls_quiet post) by done.
    unfold ffi_calls at 1. simpl. fold (ffi_calls (pre ++ drained)).
    rewrite (ffi_calls_quiet (pre ++ drained)); [done|].
    by apply Forall_app. }
  rewrite Hcalls. split; [simpl; lia|]. split; [|done].
  intros ->. split; [done|]. exists args.
  destruct err as [message|]; [|done].
  by destruct (Herr message eq_refl) as [? _].
Qed.
End CallCount.

(** The witness of [native_function_called_at_most_once]: [sum (n, xs)]
    called with an array. *)
Lemma native_function_called_at_most_once_witness :
  exists w',
    gjs_invoke_c_function
      (H := Fixtures.collaborators (fun _ _ _ => Fixtures.quiet) true)
      (Fixtures.classified (fun _ _ _ => Fixtures.quiet) Fixtures.sum_info)
      0 [JSVAL_ARRAY [JSVAL_INT 1]] World_empty
      = Some (JS_TRUE, Some JSVAL_VOID, w') /\
    exists new,
      trace w' = new ++ [] /\ (length (ffi_calls new) <= 1)%nat.
Proof.
  eexists. split; [vm_compute; reflexivity|].
  destruct (native_function_called_at_most_once
              (H := Fixtures.collaborators (fun _ _ _ => Fixtures.quiet) true)
              (Fixtures.classified (fun _ _ _ => Fixtures.quiet)
                 Fixtures.sum_info)
              0 [JSVAL_ARRAY [JSVAL_INT 1]] World_empty JS_TRUE
              (Some JSVAL_VOID) _ ltac:(vm_compute; reflexivity))
    as (new & Htrace & Hcount & _).
  by exists new.
Defined.

(** ** The return values of a call *)

Section ResultShape.
Context `{Collaborators}.

Lemma convert_return_value_length function info is_method return_value f w
    failed r :
  convert_return_value function info is_method return_value f w
    = Some (failed, r) ->
  length (r_return_values r) = Z.to_nat (js_out_argc function).
Proof.
  unfold convert_return_value. intros Hc.
  destruct (GITypeTag_is_void _).
  { injection Hc as <- <-. simpl. apply length_replicate. }
  match type of Hc with
  | (?c ≫= _) = _ => destruct c as [[converted released]|]; [|done]
  end.
  simpl in Hc. destruct converted as [v|].
  - destruct (slot_store _ _ _) as [l|] eqn:Hs; simpl in Hc; [|done].
    injection Hc as <- <-. simpl.
    unfold slot_store in Hs. destruct (_ && _); [|done].
    injection Hs as <-. by rewrite length_insert, length_replicate.
  - injection Hc as <- <-. simpl. apply length_replicate.
Qed.

Lemma release_in_return_values info is_method arg_info param_type c_arg_pos
    r r' :
  release_in info is_method arg_info param_type c_arg_pos r = Some r' ->
  r_return_values r' = r_return_values r.
Proof.
  unfold release_in. intros Hr.
  match type of Hr with
  | (?c ≫= _) = _ => destruct c as [[arg transfer]|]; simpl in Hr; [|done]
  end.
  destruct param_type.
  - by injection Hr as <-.
  - by injection Hr as <-.
  - assert_ok Hr.
    repeat match type of Hr with
      | (?c ≫= _) = _ => destruct c; simpl in Hr; [|done]
      end.
    by injection Hr as <-.
  - destruct arg; try done; [by injection Hr as <-|].
    repeat match type of Hr with
      | (?c ≫= _) = _ => destruct c; simpl in Hr; [|done]
      end.
    by injection Hr as <-.
Qed.

Lemma release_out_return_values function info is_method arg_info c_arg_pos
    r r' :
  release_out function info is_method arg_info c_arg_pos r = Some r' ->
  length (r_return_values r') = length (r_return_values r).
Proof.
  unfold release_out. intros Hr.
  destruct (g_assert _); [|done]. simpl in Hr.
  destruct (slot_load (out_arg_cvalues (r_frame r)) c_arg_pos) as [arg|];
    [|done].
  simpl in Hr.
  match type of Hr with
  | (?c ≫= _) = _ => destruct c as [converted|]; [|done]
  end.
  simpl in Hr.
  match type of Hr with
  | (?c ≫= _) = _ => destruct c as [return_values|] eqn:Hstore; [|done]
  end.
  simpl in Hr.
  match type of Hr with
  | (?c ≫= _) = _ => destruct c as [w1|]; [|done]
  end.
  simpl in Hr. injection Hr as <-. simpl.
  destruct converted as [v|]; [|by injection Hstore as <-].
  unfold slot_store in Hstore. destruct (_ && _); [|done].
  injection Hstore as <-. apply length_insert.
Qed.

Lemma release_loop_return_values function info is_method did_throw failed
    processed todo :
  forall gi_arg_pos c_arg_pos r r' c',
  release_loop function info is_method did_throw failed processed todo
    gi_arg_pos c_arg_pos r = Some (r', c') ->
  length (r_return_values r') = length (r_return_values r).
Proof.
  induction todo as [|todo IH]; intros gi_arg_pos c_arg_pos r r' c' Hloop;
    simpl in Hloop.
  - by injection Hloop as <- <-.
  - destruct (_ <? processed); [|by injection Hloop as <- <-].
    destruct (release_arg _ _ _ _ _ _ _ _) as [r1|] eqn:Hturn;
      simpl in Hloop; [|done].
    apply IH in Hloop. rewrite Hloop. clear Hloop IH.
    unfold release_arg in Hturn.
    destruct (g_callable_info_load_arg info gi_arg_pos) as [arg_info|];
      simpl in Hturn; [|done].
    destruct (slot_load (param_types function) gi_arg_pos) as [pt|];
      simpl in Hturn; [|done].
    match type of Hturn with
    | (?c ≫= _) = _ => destruct c as [r0|] eqn:Hin; simpl in Hturn; [|done]
    end.
    assert (r_return_values r0 = r_return_values r) as <-.
    { destruct (is_in_or_inout _); [|by injection Hin as <-].
      by eapply release_in_return_values. }
    destruct (did_throw || failed); [by injection Hturn as <-|].
    destruct (_ && _); [|by injection Hturn as <-].
    by eapply release_out_return_values.
Qed.

Lemma invoke_release_result_shape function info is_method failed local_error
    processed js_rval r rv w' :
  invoke_release function info is_method failed local_error processed
    js_rval r = Some (JS_TRUE, rv, w') ->
  local_error = None /\ failed = false /\
  if 0 <? js_out_argc function
  then exists values,
         length values = length (r_return_values r) /\
         rv = if js_out_argc function =? 1 then slot_load values 0
              else JS_NewArrayObject values
  else rv = js_rval.
Proof.
  unfold invoke_release. intros Hrel.
  destruct (release_loop _ _ _ _ _ _ _ _ _ _) as [[r2 c2]|] eqn:Hloop;
    simpl in Hrel; [|done].
  apply release_loop_return_values in Hloop.
  assert_ok Hrel.
  match type of Hrel with
  | (?c ≫= _) = _ =>
      destruct c as [[failed' rv']|] eqn:Hrv; simpl in Hrel; [|done]
  end.
  destruct local_error as [message|].
  { destruct (negb failed'); done. }
  destruct failed' eqn:Hfailed'; [done|].
  injection Hrel as <- <-. split; [done|].
  simpl in Hrv.
  destruct failed.
  { simpl in Hrv. rewrite andb_false_r in Hrv. simpl in Hrv. done. }
  split; [done|]. simpl in Hrv.
  destruct (0 <? js_out_argc function); simpl in Hrv.
  2:{ by injection Hrv as _ <-. }
  destruct (r_postinvoke_release_failed r2); simpl in Hrv; [done|].
  exists (r_return_values r2). split; [done|].
  destruct (js_out_argc function =? 1).
  - destruct (slot_load _ _); simpl in Hrv; [|done].
    by injection Hrv as <-.
  - destruct (JS_NewArrayObject _); [|done]. by injection Hrv as <-.
Qed.

(** X8.  A successful call of a function that has no return value and no
    out argument ([js_out_argc] is 0) returns undefined: [*js_rval] is the
    [JSVAL_VOID] of line 661. *)
Theorem result_without_outputs_is_undefined (function : Function)
    (obj : nat) (js_argv : list jsval) (w : World) (rv : option jsval)
    (w' : World) :
  gjs_invoke_c_function function obj js_argv w = Some (JS_TRUE, rv, w') ->
  (0 <? js_out_argc function) = false ->
  rv = Some JSVAL_VOID.
Proof.
  unfold gjs_invoke_c_function. intros Hcall Hout.
  destruct (free_completed_trampolines w) as [w0|]; simpl in Hcall; [|done].
  destruct (info function) as [info0|]; simpl in Hcall; [|done].
  destruct (_ <? expected_js_argc function); [done|].
  match type of Hcall with
  | (?c ≫= _) = _ =>
      destruct c as [[[f failed] w1]|]; simpl in Hcall; [|done]
  end.
  destruct failed.
  { by apply invoke_release_result_shape in Hcall as (_ & ? & _). }
  destruct (marshal_loop _ _ _ _ _ _ _ _ _ _) as [[[m c1] p1]|];
    simpl in Hcall; [|done].
  destruct (m_failed m).
  { by apply invoke_release_result_shape in Hcall as (_ & ? & _). }
  unfold invoke_call in Hcall.
  match type of Hcall with
  | (?c ≫= _) = _ => destruct c as [[f1 c2]|]; simpl in Hcall; [|done]
  end.
  assert_ok Hcall.
  destruct (ffi_call _ _ _ _) as [[[[return_value local_error] f2] w2]|];
    simpl in Hcall; [|done].
  match type of Hcall with
  | (?c ≫= _) = _ =>
      destruct c as [[failed r]|] eqn:Hconv; simpl in Hcall; [|done]
  end.
  apply invoke_release_result_shape in Hcall as (_ & _ & Hshape).
  by rewrite Hout in Hshape.
Qed.
End ResultShape.

(** The witness of [result_without_outputs_is_undefined]: [load (3)] with a
    callee that reports no error. *)
Lemma result_without_outputs_is_undefined_witness :
  exists w',
    gjs_invoke_c_function
      (H := Fixtures.collaborators (fun _ _ _ => Fixtures.quiet) true)
      (Fixtures.classified (fun _ _ _ => Fixtures.quiet) Fixtures.load_info)
      0 [JSVAL_INT 3] World_empty = Some (JS_TRUE, Some JSVAL_VOID, w').
Proof.
  assert (exists rv w',
            gjs_invoke_c_function
              (H := Fixtures.collaborators (fun _ _ _ => Fixtures.quiet) true)
              (Fixtures.classified (fun _ _ _ => Fixtures.quiet)
                 Fixtures.load_info)
              0 [JSVAL_INT 3] World_empty = Some (JS_TRUE, rv, w'))
    as (rv & w' & Hcall) by (eexists _, _; vm_compute; reflexivity).
  exists w'. rewrite Hcall. do 2 f_equal.
  apply (f_equal (fun rv => (JS_TRUE, rv))).
  exact (result_without_outputs_is_undefined
           (H := Fixtures.collaborators (fun _ _ _ => Fixtures.quiet) true)
           _ _ _ _ _ _ Hcall eq_refl).
Defined.

(** ** The call hook *)

Section CallHook.
Context `{Collaborators}.

Lemma gjs_invoke_c_function_rval_set function obj js_argv w rv w' :
  gjs_invoke_c_function function obj js_argv w = Some (JS_TRUE, rv, w') ->
  is_Some rv.
Proof.
  unfold gjs_invoke_c_function. intros Hcall.
  destruct (free_completed_trampolines w) as [w0|]; simpl in Hcall; [|done].
  destruct (info function) as [info0|]; simpl in Hcall; [|done].
  destruct (_ <? expected_js_argc function); [done|].
  match type of Hcall with
  | (?c ≫= _) = _ =>
      destruct c as [[[f failed] w1]|]; simpl in Hcall; [|done]
  end.
  destruct failed.
  { by apply invoke_release_result_shape in Hcall as (_ & ? & _). }
  destruct (marshal_loop _ _ _ _ _ _ _ _ _ _) as [[[m c1] p1]|];
    simpl in Hcall; [|done].
  destruct (m_failed m).
  { by apply invoke_release_result_shape in Hcall as (_ & ? & _). }
  by eapply invoke_call_rval.
Qed.

(** X9.  [function_call], the call hook of the class: called on an exposed
    function it returns what [gjs_invoke_c_function] returns, and writes the
    return slot of the JavaScript frame exactly when that is true, with the
    value the invocation produced; after a failure the slot holds what it
    held before.  Called on the prototype it does nothing and returns
    true. *)
Theorem function_call_return_slot (function : Function) (object : nat)
    (js_argv : list jsval) (vp : jsval) (w : World) (result : JSBool)
    (rv : option jsval) (w' : World) :
  gjs_invoke_c_function function object js_argv w = Some (result, rv, w') ->
  (exists v,
      function_call (Some function) object js_argv vp w
        = Some (result, v, w') /\
      match result with
      | JS_TRUE => rv = Some v
      | JS_FALSE => v = vp
      end) /\
  function_call None object js_argv vp w = Some (JS_TRUE, vp, w).
Proof.
  intros Hcall. split; [|done].
  unfold function_call. rewrite Hcall. simpl.
  destruct result.
  - destruct (gjs_invoke_c_function_rval_set _ _ _ _ _ _ Hcall) as [v ->].
    by exists v.
  - by exists vp.
Qed.
End CallHook.

(** The witness of [function_call_return_slot]: [count (flags, &total)]
    called through the hook. *)
Lemma function_call_return_slot_witness :
  exists w',
    gjs_invoke_c_function
      (H := Fixtures.collaborators (fun _ _ _ => Fixtures.quiet) true)
      (Fixtures.classified (fun _ _ _ => Fixtures.quiet) Fixtures.count_info)
      0 [JSVAL_INT 3] World_empty
      = Some (JS_TRUE, Some (JSVAL_ARRAY [JSVAL_INT 0; JSVAL_NULL]), w') /\
    exists v,
      function_call
        (H := Fixtures.collaborators (fun _ _ _ => Fixtures.quiet) true)
        (Some (Fixtures.classified (fun _ _ _ => Fixtures.quiet)
                 Fixtures.count_info))
        0 [JSVAL_INT 3] JSVAL_NULL World_empty = Some (JS_TRUE, v, w') /\
      Some (JSVAL_ARRAY [JSVAL_INT 0; JSVAL_NULL]) = Some v.
Proof.
  eexists. split; [vm_compute; reflexivity|].
  eapply (proj1 (function_call_return_slot
            (H := Fixtures.collaborators (fun _ _ _ => Fixtures.quiet) true)
            (Fixtures.classified (fun _ _ _ => Fixtures.quiet)
               Fixtures.count_info)
            0 [JSVAL_INT 3] JSVAL_NULL World_empty JS_TRUE
            (Some (JSVAL_ARRAY [JSVAL_INT 0; JSVAL_NULL])) _ _)).
  Unshelve. vm_compute. reflexivity.
Defined.

(** ** In arguments after the call *)

Section AlwaysReleased.
Context `{Collaborators}.

Lemma invoke_call_releases function info is_method c_arg_pos processed f w
    result rv w' :
  invoke_call function info is_method c_arg_pos processed f w
    = Some (result, rv, w') ->
  exists args err post,
    trace w' =
      post ++ EvFfiCall (native_address (invoker function)) args err
        :: trace w /\
    forall k arg_info pt,
      0 <= k < wrap8 (g_callable_info_get_n_args info) ->
      (if is_method then 1 else 0) + k < processed ->
      g_callable_info_load_arg info k = Some arg_info ->
      is_in_or_inout (arg_info_direction arg_info) = true ->
      slot_load (param_types function) k = Some pt ->
      pt = PARAM_NORMAL \/ pt = PARAM_ARRAY ->
      exists ok, In (EvReleaseIn ((if is_method then 1 else 0) + k) ok) post.
Proof.
  unfold invoke_call. intros Hc.
  match type of Hc with
  | (?c ≫= _) = _ => destruct c as [[f1 c1]|]; [|done]
  end.
  simpl in Hc. assert_ok Hc.
  destruct (ffi_call _ _ _ _) as [[[[rv0 err] f2] w2]|] eqn:Hffi;
    simpl in Hc; [|done].
  pose proof (ffi_call_effect (fun _ => True) _ _ _ _ _ _ _ _
                ltac:(done) Hffi)
    as ((new & Hnew & _) & _).
  match type of Hc with
  | (?c ≫= _) = _ =>
      destruct c as [[failed r]|] eqn:Hconv; simpl in Hc; [|done]
  end.
  assert (exists conv, trace (r_world r) = conv ++ trace w2)
    as [conv Hconvtrace].
  { destruct (_ && _).
    - apply (convert_return_value_logs (fun _ => True)) in Hconv
        as [_ (conv & Hc' & _)]; [|done]. by exists conv.
    - injection Hconv as <- <-. by exists []. }
  pose proof (invoke_release_logs (fun _ => True) _ _ _ _ _ _ _ _ _ _ _
                ltac:(done) ltac:(done) ltac:(done) Hc)
    as [_ (post & Hpost & _)].
  exists (in_arg_cvalues f1), err, (post ++ conv ++ new).
  split; [by rewrite Hpost, Hconvtrace, Hnew, <- !app_assoc|].
  intros k arg_info pt Hk Hp Harg Hdir Hpt Hkind.
  destruct (invoke_release_releases _ _ _ _ _ _ _ _ _ _ _ k arg_info pt Hc)
    as (before & after & ok & Htrace); try done.
  assert (post = after ++ EvReleaseIn
                    ((if is_method then 1 else 0) + k) ok :: before) as ->.
  { eapply app_inv_tail. rewrite <- Hpost, Htrace.
    by rewrite <- app_assoc. }
  exists ok. apply in_app_iff. left. apply in_app_iff. right. simpl. auto.
Qed.

(** X10.  In arguments are released always: once the native function has
    been called, whatever it returned and whether or not the conversion of
    its results succeeds, the release of every in or inout argument of role
    Normal or Array is run after the call ([ok] is what the release
    answered). *)
Theorem in_arguments_released_after_the_call (function : Function)
    (info0 : GIFunctionInfo) (obj : nat) (js_argv : list jsval) (w : World)
    (result : JSBool) (rv : option jsval) (w' : World) (new : list Event) :
  info function = Some info0 ->
  gjs_invoke_c_function function obj js_argv w = Some (result, rv, w') ->
  trace w' = new ++ trace w ->
  ffi_calls new <> [] ->
  forall k arg_info pt,
    0 <= k < wrap8 (g_callable_info_get_n_args info0) ->
    g_callable_info_load_arg info0 k = Some arg_info ->
    is_in_or_inout (arg_info_direction arg_info) = true ->
    slot_load (param_types function) k = Some pt ->
    pt = PARAM_NORMAL \/ pt = PARAM_ARRAY ->
    exists pre call post ok,
      new = post ++ call :: pre /\
      is_ffi_call call = true /\
      In (EvReleaseIn ((if function_info_is_method info0 then 1 else 0) + k)
            ok) post.
Proof.
  intros Hinfo Hcall Hnew Hcalled k arg_info pt Hk Harg Hdir Hpt Hkind.
  unfold gjs_invoke_c_function in Hcall.
  destruct (free_completed_trampolines w) as [w0|] eqn:Hdrain;
    simpl in Hcall; [|done].
  destruct (free_completed_trampolines_effect no_call _ _
              ltac:(done) Hdrain) as (_ & drained & Hdrained & Hquiet0).
  rewrite Hinfo in Hcall. simpl in Hcall.
  (* a path that does not reach the call *)
  assert (forall quiet,
            Forall no_call quiet -> trace w' = quiet ++ trace w -> False)
    as Hnocall.
  { intros quiet Hquiet Htrace. apply Hcalled.
    assert (new = quiet) as ->.
    { apply (app_inv_tail (trace w)). by rewrite <- Hnew, <- Htrace. }
    by apply ffi_calls_quiet. }
  destruct (_ <? expected_js_argc function).
  { injection Hcall as <- <- <-. exfalso.
    apply (Hnocall
             (EvThrow (ERR_TOO_FEW_ARGUMENTS (expected_js_argc function)
                         (Z.of_nat (length js_argv))) :: drained));
      [constructor; [exact I | exact Hquiet0] | simpl; by rewrite Hdrained]. }
  match type of Hcall with
  | (?c ≫= _) = _ =>
      destruct c as [[[f failed] w1]|] eqn:Hreceiver; simpl in Hcall; [|done]
  end.
  assert (only_logs no_call w0 w1) as Hlog1.
  { destruct (function_info_is_method info0).
    - eapply marshal_receiver_logs; [|exact Hreceiver]. by intros [].
    - simplify_eq. apply only_logs_refl. }
  destruct failed.
  { apply (invoke_release_after_failure no_call) in Hcall
      as (_ & _ & Hlog2 & _);
      [|by intros [] | by intros [] | reflexivity].
    destruct (only_logs_trans _ _ _ _ Hlog1 Hlog2)
      as [_ (quiet & Hq & Hquiet)].
    exfalso. apply (Hnocall (quiet ++ drained));
      [by apply Forall_app | by rewrite Hq, Hdrained, app_assoc]. }
  destruct (marshal_loop _ _ _ _ _ _ _ _ _ _) as [[[m c1] p1]|] eqn:Hloop;
    simpl in Hcall; [|done].
  pose proof (marshal_loop_logs no_call _ _ _ _ _ _ _ _ _ _ _ _ _
                ltac:(by intros []) Hloop) as Hlog2.
  simpl in Hlog2.
  pose proof (only_logs_trans _ _ _ _ Hlog1 Hlog2) as Hmarshalled.
  destruct (m_failed m) eqn:Hfailed.
  { apply (invoke_release_after_failure no_call) in Hcall
      as (_ & _ & Hlog3 & _);
      [|by intros [] | by intros [] | reflexivity].
    destruct (only_logs_trans _ _ _ _ Hmarshalled Hlog3)
      as [_ (quiet & Hq & Hquiet)].
    exfalso. apply (Hnocall (quiet ++ drained));
      [by apply Forall_app | by rewrite Hq, Hdrained, app_assoc]. }
  apply marshal_loop_complete in Hloop as [-> ->]; [|done].
  rewrite Z2Nat.id in Hcall by apply (proj1 (wrap8_range _)).
  apply invoke_call_releases in Hcall
    as (args & err & post & Htrace & Hreleased).
  destruct Hmarshalled as [_ (pre & Hpre & _)].
  destruct (Hreleased k arg_info pt) as [ok Hok]; try done; [lia|].
  exists (pre ++ drained),
    (EvFfiCall (native_address (invoker function)) args err), post, ok.
  split.
  { apply (app_inv_tail (trace w)).
    rewrite <- Hnew, Htrace, Hpre, Hdrained.
    by rewrite <- !app_assoc, <- app_comm_cons, <- !app_assoc. }
  done.
Qed.
End AlwaysReleased.

(** The witness of [in_arguments_released_after_the_call]: [load (flags,
    &error)] with a callee that reports an error. *)
Lemma in_arguments_released_after_the_call_witness :
  exists w' pre call post ok,
    gjs_invoke_c_function
      (H := Fixtures.collaborators (fun _ _ _ => Fixtures.failing) true)
      (Fixtures.classified (fun _ _ _ => Fixtures.failing) Fixtures.load_info)
      0 [JSVAL_INT 3] World_empty = Some (JS_FALSE, Some JSVAL_VOID, w') /\
    [EvErrorFree; EvThrow (ERR_INVOKING "no such file"); EvReleaseIn 0 true;
     EvFfiCall 8 [v_int 3; v_error_slot] (Some "no such file")]
      = post ++ call :: pre /\
    is_ffi_call call = true /\
    In (EvReleaseIn 0 ok) post.
Proof.
  eexists.
  destruct (in_arguments_released_after_the_call
              (H := Fixtures.collaborators (fun _ _ _ => Fixtures.failing)
                      true)
              (Fixtures.classified (fun _ _ _ => Fixtures.failing)
                 Fixtures.load_info)
              Fixtures.load_info 0 [JSVAL_INT 3] World_empty JS_FALSE
              (Some JSVAL_VOID) _
              [EvErrorFree; EvThrow (ERR_INVOKING "no such file");
               EvReleaseIn 0 true;
               EvFfiCall 8 [v_int 3; v_error_slot] (Some "no such file")]
              ltac:(reflexivity) ltac:(vm_compute; reflexivity)
              ltac:(vm_compute; reflexivity) ltac:(vm_compute; discriminate)
              0 (Fixtures.arg "flags" GI_DIRECTION_IN Fixtures.int32_type)
              PARAM_NORMAL ltac:(vm_compute; split; [discriminate | reflexivity])
              ltac:(reflexivity) ltac:(reflexivity) ltac:(reflexivity)
              ltac:(by left))
    as (pre & call & post & ok & Hnew & Hcall & Hin).
  exists pre, call, post, ok. split; [vm_compute; reflexivity|].
  split; [exact Hnew|]. split; [exact Hcall | exact Hin].
Defined.

(** ** A trampoline completed twice *)

Lemma unref_all_app l1 l2 w :
  unref_all (l1 ++ l2) w = unref_all l1 w ≫= unref_all l2.
Proof.
  revert w. induction l1 as [|a l1 IH]; intros w; simpl; [done|].
  destruct (gjs_callback_trampoline_unref a w) as [w1|]; simpl; [|done].
  apply IH.
Qed.

Section CompletedTwice.
Context `{Collaborators}.

(** X11.  Nothing keeps a trampoline from being put on the list of
    completed trampolines twice.  When that happens to a trampoline that has
    one reference left, the drain at the start of the next invocation frees
    it at its first entry and uses it after the free at its second: the
    behaviour of every later invocation is undefined. *)
Theorem trampoline_completed_twice_is_used_after_free (w : World) (t : nat)
    (tr : GjsCallbackTrampoline) (l1 l2 l3 : list nat) :
  trampolines w !! t = Some tr ->
  ref_count tr = 1 ->
  completed_trampolines w = l1 ++ t :: l2 ++ t :: l3 ->
  free_completed_trampolines w = None /\
  forall function obj js_argv,
    gjs_invoke_c_function function obj js_argv w = None.
Proof.
  intros Htr Hone Hlist.
  assert (free_completed_trampolines w = None) as Hdrain.
  { unfold free_completed_trampolines. rewrite Hlist.
    destruct (unref_all _ w) as [w'|] eqn:Hall; [|done]. exfalso.
    rewrite unref_all_app in Hall.
    destruct (unref_all l1 w) as [w1|] eqn:H1; simpl in Hall; [|done].
    pose proof (unref_all_last_reference _ _ _ _ _ H1 Htr Hone) as Hafter.
    assert (exists w2, unref_all (l2 ++ t :: l3) w2 = Some w' /\
                       trampolines w2 !! t = None) as (w2 & H2 & Hgone).
    { case_bool_decide.
      - unfold gjs_callback_trampoline_unref in Hall.
        by rewrite Hafter in Hall.
      - destruct (gjs_callback_trampoline_unref t w1) as [w2|] eqn:Hu;
          simpl in Hall; [|done].
        exists w2. split; [done|].
        apply gjs_callback_trampoline_unref_effect in Hu
          as (tr' & Htr' & Hheap & _).
        assert (tr' = tr) as -> by congruence.
        replace (ref_count tr =? 1) with true in Hheap by (symmetry; lia).
        by rewrite Hheap, lookup_delete_eq. }
    destruct (unref_all_gone _ _ _ _ H2 Hgone) as [Hnotin _].
    apply Hnotin, elem_of_app. right. apply elem_of_cons. by left. }
  split; [done|].
  intros function obj js_argv. unfold gjs_invoke_c_function.
  by rewrite Hdrain.
Qed.
End CompletedTwice.

(** The witness of [trampoline_completed_twice_is_used_after_free]: the
    trampoline of the test world, listed twice. *)
Lemma trampoline_completed_twice_is_used_after_free_witness :
  free_completed_trampolines
    (set_completed_trampolines Fixtures.throwing_world [1; 1]%nat) = None.
Proof.
  refine (proj1 (trampoline_completed_twice_is_used_after_free
            (H := Fixtures.collaborators (fun _ _ _ => Fixtures.quiet) true)
            (set_completed_trampolines Fixtures.throwing_world [1; 1]%nat)
            1%nat
            (Fixtures.trampoline_of (JSVAL_FUNCTION 0) GI_SCOPE_TYPE_CALL 1)
            [] [] [] _ _ _)); reflexivity.
Defined.

(** ** Why the classifier fails *)

Lemma classify_param_info info0 n_args i function :
  info (init_result_function (classify_param info0 n_args i function))
  = info function.
Proof.
  unfold classify_param.
  destruct (param_type_at function i); try done;
    (destruct (g_callable_info_load_arg info0 i) as [arg_info|]; [|done]);
    match goal with
    | |- context [match ?m with InitOk _ => _ | InitFail _ _ => _ end] =>
        assert (info (init_result_function m) = info function) as Hm;
          [|destruct m; simpl in *; try done;
            unfold count_param; repeat case_match; done]
    end;
    unfold classify_callback, classify_array;
    repeat case_match; done.
Qed.

Lemma classify_loop_info info0 n_args todo :
  forall i function,
  info (init_result_function (classify_loop info0 n_args todo i function))
  = info function.
Proof.
  induction todo as [|todo IH]; intros i function; simpl; [done|].
  pose proof (classify_param_info info0 n_args i function) as Hp.
  destruct (classify_param info0 n_args i function) as [f1|e f1]; simpl in *.
  - by rewrite IH.
  - done.
Qed.

Section InitFailure.
Context `{Collaborators}.

(** X12.  The classifier fails for two reasons only: the invoker cannot be
    prepared, and then the descriptor is left untouched; or an array
    parameter and the parameter that holds its length have different
    directions.  In both cases [function->info] is not set. *)
Theorem init_failure_reasons (function0 : Function) (info0 : GIFunctionInfo)
    (e : GjsError) (function : Function) :
  init_cached_function_data function0 info0 = InitFail e function ->
  info function = info function0 /\
  ((e = ERR_PREP_INVOKER /\
    g_function_info_prep_invoker info0 = None /\ function = function0) \/
   (e = ERR_ARRAY_LENGTH_DIRECTION /\
    is_Some (g_function_info_prep_invoker info0))).
Proof.
  unfold init_cached_function_data.
  destruct (g_function_info_prep_invoker info0) as [inv|].
  2:{ intros [= <- <-]. split; [done|]. left. done. }
  match goal with
  | |- match classify_loop ?i ?n ?t ?k ?f with _ => _ end = _ -> _ =>
      pose proof (classify_loop_info i n t k f) as Hinfo;
      destruct (classify_loop i n t k f) as [f1|e1 f1] eqn:Hloop; [done|]
  end.
  intros [= <- <-]. simpl in Hinfo. split.
  - rewrite Hinfo. by repeat case_match.
  - right. split; [|by eexists]. by eapply classify_loop_failure.
Qed.
End InitFailure.

(** The witness of [init_failure_reasons]: [fill (&n, xs)], an in array
    with an out length. *)
Lemma init_failure_reasons_witness :
  exists function,
    init_cached_function_data
      (H := Fixtures.collaborators (fun _ _ _ => Fixtures.quiet) true)
      Function_zero Fixtures.fill_info
      = InitFail ERR_ARRAY_LENGTH_DIRECTION function /\
    info function = None.
Proof.
  eexists. split; [vm_compute; reflexivity|].
  refine (proj1 (init_failure_reasons
            (H := Fixtures.collaborators (fun _ _ _ => Fixtures.quiet) true)
            Function_zero Fixtures.fill_info ERR_ARRAY_LENGTH_DIRECTION _ _)).
  vm_compute. reflexivity.
Defined.

(** ** The length of an array parameter *)

Section ArrayLength.
Context `{Collaborators}.

Lemma init_array_lengths_skipped function0 info0 function :
  init_cached_function_data function0 info0 = InitOk function ->
  array_lengths_skipped info0 function.
Proof.
  unfold init_cached_function_data.
  destruct (g_function_info_prep_invoker info0) as [inv|]; [|done].
  match goal with
  | |- match classify_loop _ _ _ _ ?f with _ => _ end = _ -> _ =>
      set (start := f)
  end.
  destruct (classify_loop _ _ _ _ start) as [f1|] eqn:Hloop; [|done].
  intros [= <-].
  pose proof (wrap8_range (g_callable_info_get_n_args info0)) as Hrange.
  fold (init_n_args info0) in Hrange.
  assert (length (param_types start) = Z.to_nat (init_n_args info0) /\
          array_lengths_skipped info0 start) as [Hlen Hinv].
  { subst start. destruct (_ && _); simpl.
    - split; [by rewrite length_insert, length_replicate|].
      intros k arg_info _ Hk. unfold param_type_at in Hk. simpl in Hk.
      apply insert_not_array in Hk; [|done].
      destruct (replicate _ _ !! _) as [pt|] eqn:Hpt; [|done].
      apply lookup_replicate in Hpt as [-> _]. done.
    - split; [by rewrite length_replicate|].
      intros k arg_info _ Hk. unfold param_type_at in Hk. simpl in Hk.
      destruct (replicate _ _ !! _) as [pt|] eqn:Hpt; [|done].
      apply lookup_replicate in Hpt as [-> _]. done. }
  apply classify_loop_arrays in Hloop as [_ Hinv1]; [|lia|done|done].
  intros k arg_info Harg Hk. by apply Hinv1.
Qed.

(** X13.  In a descriptor the classifier built, the parameter that holds
    the length of an Array parameter is Skipped (no JavaScript argument is
    taken for it), unless the metadata names the array itself as its
    length. *)
Theorem array_length_parameter_is_skipped (function0 : Function)
    (info0 : GIFunctionInfo) (function : Function) (k : Z)
    (arg_info : GIArgInfo) :
  init_cached_function_data function0 info0 = InitOk function ->
  g_callable_info_load_arg info0 k = Some arg_info ->
  param_type_at function k = PARAM_ARRAY ->
  param_type_at function
    (wrap8 (type_info_array_length (arg_info_type arg_info)))
    = PARAM_SKIPPED \/
  wrap8 (type_info_array_length (arg_info_type arg_info)) = k.
Proof.
  intros Hinit Harg Hk.
  by apply (init_array_lengths_skipped _ _ _ Hinit k arg_info).
Qed.
End ArrayLength.

(** The witness of [array_length_parameter_is_skipped]: [sum (n, xs)]. *)
Lemma array_length_parameter_is_skipped_witness :
  param_type_at
    (Fixtures.classified (fun _ _ _ => Fixtures.quiet) Fixtures.sum_info)
    (wrap8 (type_info_array_length (Fixtures.array_type 0)))
    = PARAM_SKIPPED \/
  wrap8 (type_info_array_length (Fixtures.array_type 0)) = 1.
Proof.
  apply (array_length_parameter_is_skipped
           (H := Fixtures.collaborators (fun _ _ _ => Fixtures.quiet) true)
           Function_zero Fixtures.sum_info
           (Fixtures.classified (fun _ _ _ => Fixtures.quiet)
              Fixtures.sum_info)
           1 (Fixtures.arg "xs" GI_DIRECTION_IN (Fixtures.array_type 0)));
    reflexivity.
Defined.

(** ** The counts of a function without callbacks and array lengths *)

Lemma wrap8_add_l a b : wrap8 (wrap8 a + b) = wrap8 (a + b).
Proof. unfold wrap8. apply Zplus_mod_idemp_l. Qed.

Lemma count_directions_nonneg p args : 0 <= count_directions p args.
Proof.
  induction args as [|a args IH]; simpl; [lia|]. destruct (p _); lia.
Qed.

Lemma classify_param_plain info0 n_args i a function :
  g_callable_info_load_arg info0 i = Some a ->
  plain_parameter n_args a = true ->
  param_type_at function i = PARAM_NORMAL ->
  classify_param info0 n_args i function =
    InitOk (count_param i (arg_info_direction a) function).
Proof.
  intros Harg Hplain Hnormal. unfold classify_param.
  rewrite Hnormal, Harg.
  unfold plain_parameter, callback_parameter, array_with_length,
    length_in_range in Hplain.
  unfold classify_array.
  destruct (type_info_tag (arg_info_type a)); try done.
  - destruct (type_info_array_type (arg_info_type a)); try done.
    simpl in Hplain. apply negb_true_iff in Hplain. by rewrite Hplain.
  - by destruct (base_info_type (type_info_interface (arg_info_type a))).
Qed.

Lemma classify_loop_plain info0 n_args rest :
  forall pre function,
  function_info_args info0 = pre ++ rest ->
  Forall (fun a => plain_parameter n_args a = true) rest ->
  (forall k, param_type_at function k = PARAM_NORMAL) ->
  0 <= expected_js_argc function < 256 ->
  0 <= js_out_argc function < 256 ->
  exists function',
    classify_loop info0 n_args (length rest) (Z.of_nat (length pre)) function
      = InitOk function' /\
    info function' = info function /\
    param_types function' = param_types function /\
    invoker function' = invoker function /\
    expected_js_argc function' =
      wrap8 (expected_js_argc function
             + count_directions is_in_or_inout rest) /\
    js_out_argc function' =
      wrap8 (js_out_argc function + count_directions is_out_or_inout rest).
Proof.
  induction rest as [|a rest IH];
    intros pre function Hargs Hplain Hnormal Hexpected Hout.
  - exists function. simpl. rewrite !Z.add_0_r, !wrap8_small by done. done.
  - apply Forall_cons in Hplain as [Ha Hrest]. simpl.
    rewrite (classify_param_plain info0 n_args _ a); [|  |done|done].
    2:{ unfold g_callable_info_load_arg.
        replace (Z.of_nat (length pre) <? 0) with false
          by (symmetry; apply Z.ltb_ge; lia).
        rewrite Nat2Z.id, Hargs. by rewrite list_lookup_middle. }
    set (function1 :=
           count_param (Z.of_nat (length pre)) (arg_info_direction a)
             function).
    assert (info function1 = info function /\
            param_types function1 = param_types function /\
            invoker function1 = invoker function /\
            expected_js_argc function1 =
              wrap8 (expected_js_argc function
                     + if is_in_or_inout (arg_info_direction a)
                       then 1 else 0) /\
            js_out_argc function1 =
              wrap8 (js_out_argc function
                     + if is_out_or_inout (arg_info_direction a)
                       then 1 else 0)) as (Hi & Hp & Hv & He & Ho).
    { subst function1. unfold count_param. rewrite Hnormal.
      destruct (is_in_or_inout _), (is_out_or_inout _); simpl;
        rewrite ?Z.add_0_r; repeat split; try done;
        symmetry; by apply wrap8_small. }
    destruct (IH (pre ++ [a]) function1) as (function' & Hloop & H1 & H2
                                             & H3 & H4 & H5).
    + by rewrite <- app_assoc.
    + done.
    + intros k. unfold param_type_at. rewrite Hp. apply Hnormal.
    + rewrite He. apply wrap8_range.
    + rewrite Ho. apply wrap8_range.
    + exists function'. split.
      { rewrite length_app in Hloop. simpl in Hloop.
        by replace (Z.of_nat (length pre) + 1)
          with (Z.of_nat (length pre + 1)) by lia. }
      rewrite H1, H2, H3, H4, H5, Hi, Hp, Hv, He, Ho.
      repeat (split; [done|]).
      rewrite !wrap8_add_l. split; f_equal; lia.
Qed.

Section PlainCounts.
Context `{Collaborators}.

Lemma init_plain_descriptor (info0 : GIFunctionInfo)
    (inv : GIFunctionInvoker) :
  g_function_info_prep_invoker info0 = Some inv ->
  g_callable_info_get_n_args info0 < 256 ->
  length_in_range (g_callable_info_get_n_args info0)
    (function_info_return_type info0) = false ->
  Forall (fun a => plain_parameter (g_callable_info_get_n_args info0) a
                   = true)
    (function_info_args info0) ->
  init_cached_function_data Function_zero info0 =
    InitOk
      {| info := Some info0;
         param_types :=
           replicate (length (function_info_args info0)) PARAM_NORMAL;
         expected_js_argc :=
           wrap8 (count_directions is_in_or_inout (function_info_args info0));
         js_out_argc :=
           wrap8 ((if GITypeTag_is_void
                         (type_info_tag (function_info_return_type info0))
                   then 0 else 1)
                  + count_directions is_out_or_inout
                      (function_info_args info0));
         invoker := inv |}.
Proof.
  intros Hprep Hsmall Hreturn Hplain.
  unfold init_cached_function_data. rewrite Hprep.
  unfold init_n_args.
  assert (wrap8 (g_callable_info_get_n_args info0)
          = g_callable_info_get_n_args info0) as Hn.
  { apply wrap8_small. unfold g_callable_info_get_n_args in *. lia. }
  rewrite Hn. unfold length_in_range in Hreturn. rewrite Hreturn.
  assert (Z.to_nat (g_callable_info_get_n_args info0)
          = length (function_info_args info0)) as Hlen
    by apply Nat2Z.id.
  rewrite Hlen.
  match goal with
  | |- match classify_loop _ _ _ _ ?f with _ => _ end = _ => set (start := f)
  end.
  destruct (classify_loop_plain info0 (g_callable_info_get_n_args info0)
              (function_info_args info0) [] start)
    as (function' & Hloop & Hi & Hp & Hv & He & Ho).
  - done.
  - done.
  - intros k. subst start. unfold param_type_at. simpl.
    destruct (replicate _ _ !! _) as [pt|] eqn:Hpt; [|done].
    by apply lookup_replicate in Hpt as [-> _].
  - subst start. by destruct (negb _).
  - subst start. destruct (negb _); simpl; [|done].
    change (wrap8 (0 + 1)) with 1. lia.
  - change (Z.of_nat (length (@nil GIArgInfo))) with 0 in Hloop.
    rewrite Hloop. f_equal.
    destruct function' as [i' p' e' o' v']. simpl in *. subst.
    unfold set_info. simpl. subst start.
    destruct (GITypeTag_is_void _); simpl; f_equal.
Qed.

(** X14.  For a function with fewer than 256 parameters, none of them a
    callback or an array with a length parameter, and no length parameter
    for the return value, the classifier succeeds: every parameter is
    Normal, [expected_js_argc] is the number of in and inout parameters, and
    [js_out_argc] the number of out and inout parameters plus one for a
    return value that is not void, both modulo 256. *)
Theorem init_counts_plain_parameters (info0 : GIFunctionInfo)
    (inv : GIFunctionInvoker) :
  g_function_info_prep_invoker info0 = Some inv ->
  g_callable_info_get_n_args info0 < 256 ->
  length_in_range (g_callable_info_get_n_args info0)
    (function_info_return_type info0) = false ->
  Forall (fun a => plain_parameter (g_callable_info_get_n_args info0) a
                   = true)
    (function_info_args info0) ->
  init_cached_function_data Function_zero info0 =
    InitOk
      {| info := Some info0;
         param_types :=
           replicate (length (function_info_args info0)) PARAM_NORMAL;
         expected_js_argc :=
           wrap8 (count_directions is_in_or_inout (function_info_args info0));
         js_out_argc :=
           wrap8 ((if GITypeTag_is_void
                         (type_info_tag (function_info_return_type info0))
                   then 0 else 1)
                  + count_directions is_out_or_inout
                      (function_info_args info0));
         invoker := inv |}.
Proof. apply init_plain_descriptor. Qed.
End PlainCounts.

(** The witness of [init_counts_plain_parameters]:
    [gint count (gint flags, gint *total, GError **error)]. *)
Lemma init_counts_plain_parameters_witness :
  init_cached_function_data
    (H := Fixtures.collaborators (fun _ _ _ => Fixtures.quiet) true)
    Function_zero Fixtures.count_info =
    InitOk
      {| info := Some Fixtures.count_info;
         param_types := [PARAM_NORMAL; PARAM_NORMAL];
         expected_js_argc := 1; js_out_argc := 2;
         invoker := {| cif_nargs := 3; native_address := 9 |} |}.
Proof.
  apply (init_counts_plain_parameters
           (H := Fixtures.collaborators (fun _ _ _ => Fixtures.quiet) true)
           Fixtures.count_info {| cif_nargs := 3; native_address := 9 |}).
  - reflexivity.
  - reflexivity.
  - reflexivity.
  - repeat constructor.
Defined.

(** ** The arguments a callback is called with *)

Section ClosureArguments.
Context `{Collaborators}.

Lemma non_void_parameters_cons a arg_infos :
  non_void_parameters (a :: arg_infos) =
  if GITypeTag_is_void (type_info_tag (arg_info_type a))
  then non_void_parameters arg_infos
  else a :: non_void_parameters arg_infos.
Proof.
  unfold non_void_parameters. simpl. by destruct (GITypeTag_is_void _).
Qed.

Lemma closure_args_loop_length arg_infos :
  forall k args acc jsargs,
  closure_args_loop arg_infos k args acc = Some (Some jsargs) ->
  length jsargs = (length acc + length (non_void_parameters arg_infos))%nat.
Proof.
  induction arg_infos as [|a arg_infos IH]; intros k args acc jsargs Hloop.
  - injection Hloop as <-. simpl. lia.
  - rewrite non_void_parameters_cons. simpl in Hloop.
    destruct (GITypeTag_is_void _); [by eapply IH|].
    destruct (args !! k) as [arg|]; simpl in Hloop; [|done].
    destruct (gjs_value_from_g_argument _ arg) as [v|]; [|done].
    apply IH in Hloop. rewrite length_app in Hloop. simpl in *. lia.
Qed.

(** X15.  The loop of [gjs_callback_closure] over the parameters of the
    callback skips the [void *] ones: when it goes through, the JavaScript
    function gets one argument for each parameter that is not [void *], and
    none for the others. *)
Theorem callback_skips_void_parameters (arg_infos : list GIArgInfo)
    (args : list GArgument) (jsargs : list jsval) :
  closure_args_loop arg_infos 0 args [] = Some (Some jsargs) ->
  length jsargs = length (non_void_parameters arg_infos).
Proof.
  intros Hloop. by apply closure_args_loop_length in Hloop.
Qed.
End ClosureArguments.

(** The witness of [callback_skips_void_parameters]: a callback
    [(gint value, gpointer user_data)]. *)
Lemma callback_skips_void_parameters_witness :
  closure_args_loop
    (H := Fixtures.collaborators (fun _ _ _ => Fixtures.quiet) true)
    [ Fixtures.arg "value" GI_DIRECTION_IN Fixtures.int32_type;
      Fixtures.arg "user_data" GI_DIRECTION_IN Fixtures.void_type ]
    0 [v_int 5; v_trampoline 1] [] = Some (Some [JSVAL_INT 5]) /\
  length [JSVAL_INT 5] = 1%nat.
Proof.
  split; [reflexivity|].
  apply (callback_skips_void_parameters
           (H := Fixtures.collaborators (fun _ _ _ => Fixtures.quiet) true)
           [ Fixtures.arg "value" GI_DIRECTION_IN Fixtures.int32_type;
             Fixtures.arg "user_data" GI_DIRECTION_IN Fixtures.void_type ]
           [v_int 5; v_trampoline 1] [JSVAL_INT 5]).
  reflexivity.
Defined.

(** ** The companions of a callback parameter *)

Lemma insert_other_role (l : list ParamType) n m t r :
  t <> r ->
  default PARAM_NORMAL (<[n := t]> l !! m) = r ->
  default PARAM_NORMAL (l !! m) = r.
Proof.
  intros Ht. destruct (decide (n = m)) as [-> | Hne].
  - destruct (decide (m < length l)%nat) as [Hlt | Hge].
    + rewrite list_lookup_insert_eq by done. simpl. congruence.
    + by rewrite list_insert_ge by lia.
  - by rewrite list_lookup_insert_ne.
Qed.

Lemma classify_callback_companions n_args i arg_info interface_info function
    function' k :
  0 <= i -> 0 <= k ->
  length (param_types function) = Z.to_nat n_args ->
  classify_callback n_args i arg_info interface_info function
    = InitOk function' ->
  param_type_at function' k = PARAM_CALLBACK ->
  param_type_at function k = PARAM_CALLBACK \/
  (k = i /\
   (0 <= wrap8 (arg_info_destroy arg_info) < n_args ->
    param_type_at function' (wrap8 (arg_info_destroy arg_info))
      = PARAM_SKIPPED) /\
   (0 <= wrap8 (arg_info_closure arg_info) < n_args ->
    param_type_at function' (wrap8 (arg_info_closure arg_info))
      = PARAM_SKIPPED)).
Proof.
  intros Hi Hk Hlen. unfold classify_callback.
  destruct (_ && _).
  { intros [= <-] Hrole. left. unfold param_type_at, mark_param in *.
    simpl in Hrole. by apply insert_other_role in Hrole. }
  set (d := wrap8 (arg_info_destroy arg_info)).
  set (c := wrap8 (arg_info_closure arg_info)).
  set (f1 := set_expected_js_argc (mark_param function i PARAM_CALLBACK) _).
  assert (length (param_types f1) = Z.to_nat n_args) as Hlen1.
  { subst f1. simpl. by rewrite length_insert. }
  set (f2 := if (0 <=? d) && (d <? n_args)
             then mark_param f1 d PARAM_SKIPPED else f1).
  assert (length (param_types f2) = Z.to_nat n_args) as Hlen2.
  { subst f2. destruct ((0 <=? d) && (d <? n_args)); [|done].
    by rewrite length_mark_param. }
  set (f3 := if (0 <=? c) && (c <? n_args)
             then mark_param f2 c PARAM_SKIPPED else f2).
  destruct ((0 <=? d) && (c <? 0)); [done|].
  intros [= <-] Hrole.
  destruct (decide (k = i)) as [-> | Hne].
  - right. split; [done|]. split.
    + intros Hd. subst f3.
      assert (param_type_at f2 d = PARAM_SKIPPED) as H2.
      { subst f2.
        replace ((0 <=? d) && (d <? n_args)) with true by (symmetry; lia).
        apply param_type_at_mark_eq. lia. }
      destruct ((0 <=? c) && (c <? n_args)); [|done].
      apply mark_skipped_keeps; [|lia|done].
      pose proof (wrap8_range (arg_info_closure arg_info)). lia.
    + intros Hc. subst f3.
      replace ((0 <=? c) && (c <? n_args)) with true by (symmetry; lia).
      apply param_type_at_mark_eq. lia.
  - left.
    assert (param_type_at f2 k = PARAM_CALLBACK) as H2.
    { subst f3. destruct ((0 <=? c) && (c <? n_args)); [|done].
      unfold param_type_at, mark_param in *. simpl in Hrole.
      by apply insert_other_role in Hrole. }
    assert (param_type_at f1 k = PARAM_CALLBACK) as H1.
    { subst f2. destruct ((0 <=? d) && (d <? n_args)); [|done].
      unfold param_type_at, mark_param in *. simpl in H2.
      by apply insert_other_role in H2. }
    subst f1. unfold param_type_at, mark_param in *. simpl in H1.
    rewrite list_lookup_insert_ne in H1 by lia. done.
Qed.

Lemma classify_array_callbacks info n_args i d type_info function function'
    k :
  classify_array info n_args i d type_info function = InitOk function' ->
  param_type_at function' k = PARAM_CALLBACK ->
  param_type_at function k = PARAM_CALLBACK.
Proof.
  unfold classify_array, param_type_at, mark_param. intros Hc Hk.
  repeat case_match; simplify_eq; simpl in *;
    repeat (apply insert_other_role in Hk; [|done]); done.
Qed.

Lemma classify_param_companions info n_args i function function' :
  0 <= i ->
  length (param_types function) = Z.to_nat n_args ->
  companions_skipped info n_args function ->
  classify_param info n_args i function = InitOk function' ->
  companions_skipped info n_args function'.
Proof.
  intros Hi Hlen Hinv Hp k arg_info Harg Hk.
  assert (0 <= k) as Hk0.
  { unfold g_callable_info_load_arg in Harg.
    destruct (k <? 0) eqn:Hneg; [done | lia]. }
  pose proof (wrap8_range (arg_info_destroy arg_info)) as Hd.
  pose proof (wrap8_range (arg_info_closure arg_info)) as Hc.
  pose proof (classify_param_roles _ _ _ _ _ Hi Hp) as [_ Hskipped].
  assert (param_type_at function k = PARAM_CALLBACK ->
          (0 <= wrap8 (arg_info_destroy arg_info) < n_args ->
           param_type_at function' (wrap8 (arg_info_destroy arg_info))
             = PARAM_SKIPPED) /\
          (0 <= wrap8 (arg_info_closure arg_info) < n_args ->
           param_type_at function' (wrap8 (arg_info_closure arg_info))
             = PARAM_SKIPPED)) as Hold.
  { intros Hbefore. destruct (Hinv k arg_info Harg Hbefore) as [H1 H2].
    split; intros Hrange; apply Hskipped; auto; lia. }
  unfold classify_param in Hp.
  destruct (param_type_at function i) eqn:Hpi;
    try (injection Hp as <-; by apply Hold);
    (destruct (g_callable_info_load_arg info i) as [arg_i|] eqn:Hargi;
       [|injection Hp as <-; by apply Hold]);
    match type of Hp with
    | match ?m with _ => _ end = _ => destruct m as [f1|] eqn:Hm
    end; try done; injection Hp as <-;
    (assert (forall q,
               param_type_at
                 (count_param i (arg_info_direction arg_i) f1) q =
               param_type_at f1 q) as Hcount
       by (intros q; unfold param_type_at; by rewrite count_param_types));
    rewrite !Hcount in Hold |- *; rewrite Hcount in Hk;
    (destruct (type_info_tag (arg_info_type arg_i));
       try (injection Hm as <-; by apply Hold));
    try (apply Hold; by eapply classify_array_callbacks);
    (destruct (base_info_type _);
       try (injection Hm as <-; by apply Hold));
    (destruct (classify_callback_companions _ _ _ _ _ _ k Hi Hk0 Hlen Hm Hk)
       as [Hbefore | [-> Hnew]];
       [by apply Hold|];
       assert (arg_i = arg_info) as -> by congruence; exact Hnew).
Qed.

Lemma classify_loop_companions info n_args todo :
  forall i function function',
  0 <= i ->
  length (param_types function) = Z.to_nat n_args ->
  companions_skipped info n_args function ->
  classify_loop info n_args todo i function = InitOk function' ->
  companions_skipped info n_args function'.
Proof.
  induction todo as [|todo IH]; intros i function function' Hi Hlen Hinv;
    simpl.
  - by intros [= <-].
  - destruct (classify_param info n_args i function) as [f1|] eqn:Hp; [|done].
    intros Hloop.
    pose proof (classify_param_roles _ _ _ _ _ Hi Hp) as [Hlen1 _].
    pose proof (classify_param_companions _ _ _ _ _ Hi Hlen Hinv Hp) as Hinv1.
    eapply IH; [| | exact Hinv1 | exact Hloop]; [lia | congruence].
Qed.

Section Companions.
Context `{Collaborators}.

(** X16.  In a descriptor the classifier built, the destroy notifier and
    the user data of every Callback parameter are Skipped, wherever the
    metadata names them among the first [n_args] parameters: no JavaScript
    argument is taken for them, and the assertions the marshaler makes on
    them before it fills them in hold. *)
Theorem callback_companions_are_skipped (function0 : Function)
    (info0 : GIFunctionInfo) (function : Function) (k : Z)
    (arg_info : GIArgInfo) :
  init_cached_function_data function0 info0 = InitOk function ->
  g_callable_info_load_arg info0 k = Some arg_info ->
  param_type_at function k = PARAM_CALLBACK ->
  (0 <= wrap8 (arg_info_destroy arg_info) < init_n_args info0 ->
   param_type_at function (wrap8 (arg_info_destroy arg_info))
     = PARAM_SKIPPED) /\
  (0 <= wrap8 (arg_info_closure arg_info) < init_n_args info0 ->
   param_type_at function (wrap8 (arg_info_closure arg_info))
     = PARAM_SKIPPED).
Proof.
  unfold init_cached_function_data.
  destruct (g_function_info_prep_invoker info0) as [inv|]; [|done].
  match goal with
  | |- match classify_loop _ _ _ _ ?f with _ => _ end = _ -> _ =>
      set (start := f)
  end.
  destruct (classify_loop _ _ _ _ start) as [f1|] eqn:Hloop; [|done].
  intros [= <-] Harg Hk.
  pose proof (wrap8_range (g_callable_info_get_n_args info0)) as Hrange.
  fold (init_n_args info0) in Hrange.
  assert (length (param_types start) = Z.to_nat (init_n_args info0) /\
          companions_skipped info0 (init_n_args info0) start)
    as [Hlen Hinv].
  { subst start. destruct (_ && _); simpl.
    - split; [by rewrite length_insert, length_replicate|].
      intros q a _ Hq. unfold param_type_at in Hq. simpl in Hq.
      apply insert_other_role in Hq; [|done].
      destruct (replicate _ _ !! _) as [pt|] eqn:Hpt; [|done].
      apply lookup_replicate in Hpt as [-> _]. done.
    - split; [by rewrite length_replicate|].
      intros q a _ Hq. unfold param_type_at in Hq. simpl in Hq.
      destruct (replicate _ _ !! _) as [pt|] eqn:Hpt; [|done].
      apply lookup_replicate in Hpt as [-> _]. done. }
  apply classify_loop_companions in Hloop; [|lia|done|done].
  by apply (Hloop k arg_info).
Qed.
End Companions.

(** The witness of [callback_companions_are_skipped]:
    [subscribe (done, user_data, destroy)]. *)
Lemma callback_companions_are_skipped_witness :
  param_type_at
    (Fixtures.classified (fun _ _ _ => Fixtures.quiet)
       Fixtures.subscribe_info) 2 = PARAM_SKIPPED /\
  param_type_at
    (Fixtures.classified (fun _ _ _ => Fixtures.quiet)
       Fixtures.subscribe_info) 1 = PARAM_SKIPPED.
Proof.
  destruct (callback_companions_are_skipped
              (H := Fixtures.collaborators (fun _ _ _ => Fixtures.quiet) true)
              Function_zero Fixtures.subscribe_info
              (Fixtures.classified (fun _ _ _ => Fixtures.quiet)
                 Fixtures.subscribe_info)
              0 (Fixtures.callback_arg "done" GI_SCOPE_TYPE_ASYNC 1 2)
              ltac:(reflexivity) ltac:(reflexivity) ltac:(reflexivity))
    as [Hdestroy Hclosure].
  split.
  - apply Hdestroy. vm_compute. split; discriminate || reflexivity.
  - apply Hclosure. vm_compute. split; discriminate || reflexivity.
Defined.

(** ** The pointers handed to libffi *)

Lemma store_in_ffi f i v f' :
  store_in f i v = Some f' -> ffi_arg_pointers f' = ffi_arg_pointers f.
Proof. unfold store_in. intros Hs. by simplify_option_eq. Qed.

Lemma store_out_ffi f i v f' :
  store_out f i v = Some f' -> ffi_arg_pointers f' = ffi_arg_pointers f.
Proof. unfold store_out. intros Hs. by simplify_option_eq. Qed.

Lemma store_inout_original_ffi f i v f' :
  store_inout_original f i v = Some f' ->
  ffi_arg_pointers f' = ffi_arg_pointers f.
Proof. unfold store_inout_original. intros Hs. by simplify_option_eq. Qed.

Lemma redirect_inout_ffi f i f' :
  redirect_inout f i = Some f' -> ffi_arg_pointers f' = ffi_arg_pointers f.
Proof.
  unfold redirect_inout. intros Hr.
  destruct (slot_load (in_arg_cvalues f) i) as [v|]; simpl in Hr; [|done].
  destruct (store_inout_original f i v) as [f1|] eqn:H1; simpl in Hr; [|done].
  destruct (store_out f1 i v) as [f2|] eqn:H2; simpl in Hr; [|done].
  apply store_in_ffi in Hr. apply store_out_ffi in H2.
  apply store_inout_original_ffi in H1. congruence.
Qed.

Lemma store_companion_ffi function is_method pos v f f' :
  store_companion function is_method pos v f = Some f' ->
  ffi_arg_pointers f' = ffi_arg_pointers f.
Proof.
  unfold store_companion. intros Hs.
  destruct (0 <=? pos); [|by injection Hs as <-].
  destruct (slot_load _ _); simpl in Hs; [|done].
  destruct (g_assert _); simpl in Hs; [|done].
  by eapply store_in_ffi.
Qed.

Ltac ffi_same :=
  repeat match goal with
    | H : store_in _ _ _ = Some _ |- _ => apply store_in_ffi in H
    | H : store_out _ _ _ = Some _ |- _ => apply store_out_ffi in H
    | H : store_inout_original _ _ _ = Some _ |- _ =>
        apply store_inout_original_ffi in H
    | H : redirect_inout _ _ = Some _ |- _ => apply redirect_inout_ffi in H
    | H : store_companion _ _ _ _ _ = Some _ |- _ =>
        apply store_companion_ffi in H
    end;
  simpl in *; congruence.

Section FfiPointers.
Context `{Collaborators}.

Lemma marshal_out_ffi arg_info c_arg_pos m m' :
  marshal_out arg_info c_arg_pos m = Some m' ->
  ffi_arg_pointers (m_frame m') = ffi_arg_pointers (m_frame m).
Proof.
  unfold marshal_out. intros Hm.
  destruct (arg_info_caller_allocates arg_info).
  - destruct (caller_allocates_size _) as [size|].
    + destruct (g_slice_alloc0 size (m_world m)) as [a w1].
      destruct (store_in _ _ _) as [f1|] eqn:H1; simpl in Hm; [|done].
      destruct (store_out _ _ _) as [f2|] eqn:H2; simpl in Hm; [|done].
      injection Hm as <-. ffi_same.
    + by injection Hm as <-.
  - destruct (store_out _ _ _) as [f1|] eqn:H1; simpl in Hm; [|done].
    destruct (store_in _ _ _) as [f2|] eqn:H2; simpl in Hm; [|done].
    injection Hm as <-. ffi_same.
Qed.

Lemma marshal_callback_slots_ffi function is_method arg_info c_arg_pos
    trampoline w m m' :
  marshal_callback_slots function is_method arg_info c_arg_pos trampoline w m
    = Some m' ->
  ffi_arg_pointers (m_frame m') = ffi_arg_pointers (m_frame m).
Proof.
  unfold marshal_callback_slots. intros Hm.
  destruct (store_companion _ _ _ _ _) as [f1|] eqn:H1; simpl in Hm; [|done].
  destruct (store_companion function is_method (arg_info_closure arg_info) _ f1)
    as [f2|] eqn:H2; simpl in Hm; [|done].
  match type of Hm with
  | (?c ≫= _) = _ => destruct c as [w1|]; simpl in Hm; [|done]
  end.
  destruct (store_in f2 _ _) as [f3|] eqn:H3; simpl in Hm; [|done].
  injection Hm as <-. ffi_same.
Qed.

Lemma marshal_callback_ffi function is_method js_argv arg_info c_arg_pos
    m m' :
  marshal_callback function is_method js_argv arg_info c_arg_pos m
    = Some m' ->
  ffi_arg_pointers (m_frame m') = ffi_arg_pointers (m_frame m).
Proof.
  unfold marshal_callback. intros Hm.
  destruct (slot_load js_argv _) as [value|]; simpl in Hm; [|done].
  destruct (_ && _); [by eapply marshal_callback_slots_ffi|].
  destruct (negb _); [by injection Hm as <-|].
  destruct (gjs_callback_trampoline_new _ _ _ _) as [[[t|] w1]|];
    simpl in Hm; try done.
  by eapply marshal_callback_slots_ffi.
Qed.

Lemma marshal_array_ffi info is_method js_argv arg_info c_arg_pos m m' :
  marshal_array info is_method js_argv arg_info c_arg_pos m = Some m' ->
  ffi_arg_pointers (m_frame m') = ffi_arg_pointers (m_frame m).
Proof.
  unfold marshal_array. intros Hm.
  destruct (slot_load js_argv (m_js_arg_pos m)) as [value|]; simpl in Hm;
    [|done].
  destruct (gjs_value_to_explicit_array value arg_info) as [[array length]|];
    [|by injection Hm as <-].
  destruct (store_in (m_frame m) c_arg_pos array) as [f1|] eqn:H1;
    simpl in Hm; [|done].
  destruct (g_callable_info_load_arg info _) as [array_length_arg|];
    simpl in Hm; [|done].
  destruct (gjs_value_to_arg _ _) as [length_value|];
    [|injection Hm as <-; ffi_same].
  destruct (store_in f1 _ length_value) as [f2|] eqn:H2; simpl in Hm; [|done].
  match type of Hm with
  | (?c ≫= _) = _ => destruct c as [f3|] eqn:H3; simpl in Hm; [|done]
  end.
  injection Hm as <-. simpl.
  assert (ffi_arg_pointers f3 = ffi_arg_pointers f2) as ->; [|ffi_same].
  destruct (arg_info_direction arg_info); try by injection H3 as <-.
  destruct (slot_load (in_arg_cvalues f2) c_arg_pos) as [in_value|];
    simpl in H3; [|done].
  destruct (GArgument_is_null in_value); [|by eapply redirect_inout_ffi].
  destruct (store_in f2 _ v_null) as [f4|] eqn:H4; simpl in H3; [|done].
  destruct (store_out f4 _ v_null) as [f5|] eqn:H5; simpl in H3; [|done].
  ffi_same.
Qed.

Lemma marshal_normal_ffi js_argv arg_info c_arg_pos m m' :
  marshal_normal js_argv arg_info c_arg_pos m = Some m' ->
  ffi_arg_pointers (m_frame m') = ffi_arg_pointers (m_frame m).
Proof.
  unfold marshal_normal. intros Hm. assert_ok Hm.
  destruct (slot_load js_argv _) as [value|]; simpl in Hm; [|done].
  destruct (gjs_value_to_arg _ _); [|by injection Hm as <-].
  destruct (store_in _ _ _) as [f1|] eqn:H1; simpl in Hm; [|done].
  injection Hm as <-. ffi_same.
Qed.

Lemma marshal_in_ffi function info is_method js_argv arg_info gi_arg_pos
    c_arg_pos m m' :
  marshal_in function info is_method js_argv arg_info gi_arg_pos c_arg_pos m
    = Some m' ->
  ffi_arg_pointers (m_frame m') = ffi_arg_pointers (m_frame m).
Proof.
  unfold marshal_in. intros Hm.
  destruct (slot_load (param_types function) gi_arg_pos) as [pt|];
    simpl in Hm; [|done].
  match type of Hm with
  | (?step ≫= _) = _ =>
      destruct step as [[removed m1]|] eqn:Hstep; simpl in Hm; [|done]
  end.
  assert (ffi_arg_pointers (m_frame m1) = ffi_arg_pointers (m_frame m))
    as H1.
  { destruct pt; simplify_option_eq.
    - by eapply marshal_normal_ffi.
    - done.
    - by eapply marshal_array_ffi.
    - by eapply marshal_callback_ffi. }
  match type of Hm with
  | (?step ≫= _) = _ =>
      destruct step as [m2|] eqn:Hredirect; simpl in Hm; [|done]
  end.
  assert (ffi_arg_pointers (m_frame m2) = ffi_arg_pointers (m_frame m1))
    as H2.
  { destruct (arg_info_direction arg_info);
      try by injection Hredirect as <-.
    destruct (_ && _); [|by injection Hredirect as <-].
    destruct (redirect_inout _ _) as [f|] eqn:Hr; simpl in Hredirect; [|done].
    injection Hredirect as <-. simpl. by eapply redirect_inout_ffi. }
  assert (m_frame m' = m_frame m2) as ->.
  { match type of Hm with
    | (if ?c then _ else _) = _ => destruct c
    end; by injection Hm as <-. }
  congruence.
Qed.

Lemma marshal_arg_ffi function info is_method c_argc js_argv gi_arg_pos
    c_arg_pos m m' :
  marshal_arg function info is_method c_argc js_argv gi_arg_pos c_arg_pos m
    = Some m' ->
  0 <= c_arg_pos < Z.of_nat (length (ffi_arg_pointers (m_frame m))) /\
  ffi_arg_pointers (m_frame m') =
    <[Z.to_nat c_arg_pos := Some c_arg_pos]> (ffi_arg_pointers (m_frame m)).
Proof.
  unfold marshal_arg. intros Hm.
  destruct (g_callable_info_load_arg info gi_arg_pos) as [arg_info|];
    simpl in Hm; [|done].
  assert_ok Hm.
  destruct (store_ffi_pointer _ _) as [f|] eqn:Hf; simpl in Hm; [|done].
  unfold store_ffi_pointer, slot_store in Hf.
  destruct (_ && _) eqn:Hrange; simpl in Hf; [|done].
  injection Hf as <-. split; [lia|].
  destruct (arg_info_direction arg_info).
  - by apply marshal_in_ffi in Hm.
  - by apply marshal_out_ffi in Hm.
  - by apply marshal_in_ffi in Hm.
Qed.

Lemma marshal_loop_ffi function info0 is_method c_argc js_argv todo :
  forall gi_arg_pos c_arg_pos processed m m' c' p',
  marshal_loop function info0 is_method c_argc js_argv todo gi_arg_pos
    c_arg_pos processed m = Some (m', c', p') ->
  c_arg_pos <= c' /\
  (forall k, k < c_arg_pos ->
     slot_load (ffi_arg_pointers (m_frame m')) k =
     slot_load (ffi_arg_pointers (m_frame m)) k) /\
  (forall k, c_arg_pos <= k < c' ->
     slot_load (ffi_arg_pointers (m_frame m')) k = Some (Some k)).
Proof.
  induction todo as [|todo IH];
    intros gi_arg_pos c_arg_pos processed m m' c' p' Hloop; simpl in Hloop.
  - injection Hloop as <- <- <-. split; [lia|]. split; [done|].
    intros k Hk. lia.
  - destruct (marshal_arg _ _ _ _ _ _ _ _) as [m1|] eqn:Hturn;
      simpl in Hloop; [|done].
    apply marshal_arg_ffi in Hturn as [Hrange Hset].
    assert (forall k, k <> c_arg_pos ->
              slot_load (ffi_arg_pointers (m_frame m1)) k =
              slot_load (ffi_arg_pointers (m_frame m)) k) as Hother.
    { intros k Hne. rewrite Hset. unfold slot_load.
      destruct (k <? 0) eqn:Hk; [done|].
      apply list_lookup_insert_ne. lia. }
    assert (slot_load (ffi_arg_pointers (m_frame m1)) c_arg_pos
            = Some (Some c_arg_pos)) as Hown.
    { rewrite Hset. unfold slot_load.
      replace (c_arg_pos <? 0) with false by (symmetry; lia).
      apply list_lookup_insert_eq. lia. }
    destruct (m_failed m1).
    + injection Hloop as <- <- <-. split; [lia|]. split.
      * intros k Hk. apply Hother. lia.
      * intros k Hk. lia.
    + apply IH in Hloop as (Hle & Hkept & Hnew). split; [lia|]. split.
      * intros k Hk. rewrite Hkept by lia. apply Hother. lia.
      * intros k Hk. destruct (decide (k = c_arg_pos)) as [-> | Hne].
        -- rewrite Hkept by lia. done.
        -- apply Hnew. lia.
Qed.

(** X17.  Every turn of the marshaling loop points the libffi argument of
    its position at the in slot of that position, and no later turn changes
    it: when the loop is left, every position it went through has its
    pointer set. *)
Theorem marshaling_sets_ffi_pointers (function : Function)
    (info0 : GIFunctionInfo) (is_method : bool) (c_argc : Z)
    (js_argv : list jsval) (todo : nat) (gi_arg_pos c_arg_pos processed : Z)
    (m m' : Marshal) (c' p' : Z) :
  marshal_loop function info0 is_method c_argc js_argv todo gi_arg_pos
    c_arg_pos processed m = Some (m', c', p') ->
  (m_failed m' = false -> c' = c_arg_pos + Z.of_nat todo) /\
  forall k, c_arg_pos <= k < c' ->
    slot_load (ffi_arg_pointers (m_frame m')) k = Some (Some k).
Proof.
  intros Hloop. split.
  - intros Hok. by apply marshal_loop_complete in Hloop as [-> _].
  - by apply marshal_loop_ffi in Hloop as (_ & _ & Hnew).
Qed.
End FfiPointers.

(** The witness of [marshaling_sets_ffi_pointers]: the arguments of
    [sum (n, xs)]. *)
Lemma marshaling_sets_ffi_pointers_witness :
  exists m',
    marshal_loop
      (H := Fixtures.collaborators (fun _ _ _ => Fixtures.quiet) true)
      (Fixtures.classified (fun _ _ _ => Fixtures.quiet) Fixtures.sum_info)
      Fixtures.sum_info false 2 [JSVAL_ARRAY [JSVAL_INT 1]] 2 0 0 0
      (Fixtures.Marshal_start 2) = Some (m', 2, 2) /\
    forall k, 0 <= k < 2 ->
      slot_load (ffi_arg_pointers (m_frame m')) k = Some (Some k).
Proof.
  eexists. split; [vm_compute; reflexivity|].
  eapply (proj2 (marshaling_sets_ffi_pointers
            (H := Fixtures.collaborators (fun _ _ _ => Fixtures.quiet) true)
            (Fixtures.classified (fun _ _ _ => Fixtures.quiet)
               Fixtures.sum_info)
            Fixtures.sum_info false 2 [JSVAL_ARRAY [JSVAL_INT 1]] 2 0 0 0
            (Fixtures.Marshal_start 2) _ 2 2 _)).
  Unshelve. vm_compute. reflexivity.
Defined.

(** ** Too few arguments *)

Section TooFew.
Context `{Collaborators}.

(** X18.  A call with fewer arguments than [expected_js_argc] is refused
    after the drain of the completed trampolines and before anything else:
    it throws "Too few arguments" with the two counts, returns false, leaves
    the return value unset, and the state is the state after the drain but
    for the exception: nothing is converted or allocated, no trampoline is
    made, and the native function is not called. *)
Theorem too_few_arguments_are_refused (function : Function)
    (info0 : GIFunctionInfo) (obj : nat) (js_argv : list jsval)
    (w w1 : World) :
  free_completed_trampolines w = Some w1 ->
  info function = Some info0 ->
  Z.of_nat (length js_argv) < expected_js_argc function ->
  gjs_invoke_c_function function obj js_argv w =
    Some (JS_FALSE, None,
          {| trampolines := trampolines w1;
             completed_trampolines := [];
             slices := slices w1;
             next_address := next_address w1;
             trace :=
               EvThrow (ERR_TOO_FEW_ARGUMENTS (expected_js_argc function)
                          (Z.of_nat (length js_argv))) :: trace w1 |}).
Proof.
  intros Hdrain Hinfo Hfew.
  rewrite (too_few_arguments _ _ _ _ _ _ Hdrain Hinfo Hfew).
  unfold gjs_throw, log. do 3 f_equal.
  unfold free_completed_trampolines in Hdrain.
  destruct (unref_all _ w); simpl in Hdrain; [|done].
  by injection Hdrain as <-.
Qed.
End TooFew.

(** The witness of [too_few_arguments_are_refused]: [sum (n, xs)] called
    with no argument. *)
Lemma too_few_arguments_are_refused_witness :
  gjs_invoke_c_function
    (H := Fixtures.collaborators (fun _ _ _ => Fixtures.quiet) true)
    (Fixtures.classified (fun _ _ _ => Fixtures.quiet) Fixtures.sum_info)
    0 [] World_empty =
    Some (JS_FALSE, None,
          {| trampolines := trampolines World_empty;
             completed_trampolines := [];
             slices := slices World_empty;
             next_address := next_address World_empty;
             trace := [EvThrow (ERR_TOO_FEW_ARGUMENTS 1 0)] |}).
Proof.
  apply (too_few_arguments_are_refused
           (H := Fixtures.collaborators (fun _ _ _ => Fixtures.quiet) true)
           (Fixtures.classified (fun _ _ _ => Fixtures.quiet)
              Fixtures.sum_info)
           Fixtures.sum_info 0 [] World_empty World_empty);
    reflexivity.
Defined.

(** ** The completed trampolines after a call *)

Lemma async_calls_quiet l :
  Forall no_closure_call l -> no_reentry l -> async_calls l = [].
Proof.
  induction 1 as [|e l He _ IH]; [done|]. intros Hquiet.
  change (async_calls (e :: l)) with (async_calls_of e ++ async_calls l).
  rewrite IH.
  - destruct e; try done.
    rewrite (Hquiet nested) by (by left). done.
  - intros nested Hin. apply Hquiet. by right.
Qed.

Lemma completes_refl w : completes w w.
Proof. by exists []. Qed.

Lemma completes_trans w1 w2 w3 :
  completes w1 w2 -> completes w2 w3 -> completes w1 w3.
Proof.
  intros (n1 & Ht1 & Hc1) (n2 & Ht2 & Hc2). exists (n2 ++ n1).
  split; [by rewrite Ht2, Ht1, app_assoc|].
  intros [Hq2 Hq1]%no_reentry_app.
  by rewrite Hc2, Hc1, async_calls_app, app_assoc.
Qed.

Lemma only_logs_completes w w' :
  only_logs no_closure_call w w' -> completes w w'.
Proof.
  intros [[Hc _] (new & Ht & Hquiet)]. exists new. split; [done|].
  intros Hq. by rewrite (async_calls_quiet _ Hquiet Hq), Hc.
Qed.

Section CompletedAfterCall.
Context `{Collaborators}.
Hypothesis Hjs : javascript_contract.

Lemma run_native_action_completes a w w' :
  run_native_action a w = Some w' -> completes w w'.
Proof.
  destruct a as [closure args | data]; simpl.
  - destruct (gjs_callback_closure closure args w) as [[r w1]|] eqn:Hc;
      [|done].
    simpl. intros [= <-].
    pose proof (gjs_callback_closure_quiet Hjs _ _ _ _ _ Hc)
      as (tr & ev & Htr & Ht & _ & _ & Hquiet).
    exists ev. split; [done|]. intros Hq.
    destruct (Hquiet Hq) as (_ & _ & _ & ->).
    apply gjs_callback_closure_inv in Hc
      as (tr0 & _ & w2 & Htr0 & Hran & _ & _ & _ & _ & Htrace & _).
    assert (exists ran,
              ev = ran ++ [EvClosureCall closure (scope tr0)] /\
              Forall no_closure_call ran) as (ran & -> & Hran').
    { assert (exists ran,
                trace w2 = (ran ++ [EvClosureCall closure (scope tr0)])
                           ++ trace w /\
                Forall no_closure_call ran) as (ran & Hw2 & Hall).
      { destruct Hran as [-> | (jsargs & rval & w_js & _ & ->)].
        - by exists [].
        - eexists [_]. split; [done|]. by repeat constructor. }
      destruct Htrace as [Ht' | Ht'].
      - exists ran. split; [|done].
        apply (app_inv_tail (trace w)). by rewrite <- Ht, Ht', Hw2.
      - exists (EvLogException :: ran). split; [|by constructor].
        apply (app_inv_tail (trace w)). by rewrite <- Ht, Ht', Hw2. }
    apply no_reentry_app in Hq as [Hq _].
    rewrite async_calls_app, (async_calls_quiet _ Hran' Hq).
    assert (tr0 = tr) as -> by congruence.
    simpl. by destruct (scope tr).
  - intros Hd. apply only_logs_completes.
    unfold gjs_destroy_notify_callback in Hd.
    eapply only_logs_trans;
      [apply (only_logs_log no_closure_call (EvDestroyNotify data)); exact I|].
    eapply unref_only_logs; [|exact Hd]. done.
Qed.

Lemma run_native_actions_completes l :
  forall w w', run_native_actions l w = Some w' -> completes w w'.
Proof.
  induction l as [|a l IH]; intros w w'; simpl.
  - intros [= <-]. apply completes_refl.
  - destruct (run_native_action a w) as [w1|] eqn:Ha; simpl; [|done].
    intros Hl. eapply completes_trans; [by eapply run_native_action_completes|].
    by apply IH.
Qed.

Lemma invoke_call_completes function info is_method c_arg_pos processed f w
    result rv w' :
  invoke_call function info is_method c_arg_pos processed f w
    = Some (result, rv, w') ->
  completes w w'.
Proof.
  unfold invoke_call. intros Hc.
  match type of Hc with
  | (?c ≫= _) = _ => destruct c as [[f1 c1]|]; [|done]
  end.
  simpl in Hc. assert_ok Hc.
  destruct (ffi_call _ _ _ _) as [[[[rv0 err] f2] w2]|] eqn:Hffi;
    simpl in Hc; [|done].
  assert (completes w w2) as Hcall.
  { unfold ffi_call in Hffi.
    destruct (run_native_actions _ _) as [w3|] eqn:Hrun; simpl in Hffi;
      [|done].
    injection Hffi as _ _ _ <-.
    eapply completes_trans; [|by eapply run_native_actions_completes].
    apply only_logs_completes. by apply only_logs_log. }
  match type of Hc with
  | (?c ≫= _) = _ =>
      destruct c as [[failed r]|] eqn:Hconv; simpl in Hc; [|done]
  end.
  assert (completes w2 (r_world r)) as Hret.
  { apply only_logs_completes. destruct (_ && _).
    - eapply convert_return_value_logs; [|exact Hconv]. by intros [].
    - simplify_eq. apply only_logs_refl. }
  eapply completes_trans; [exact Hcall|].
  eapply completes_trans; [exact Hret|].
  apply only_logs_completes.
  eapply invoke_release_logs; [| | |exact Hc]; by intros [].
Qed.

(** After the drain, what an invocation does to the list. *)
Lemma gjs_invoke_c_function_completes function obj js_argv w result rv w' :
  gjs_invoke_c_function function obj js_argv w = Some (result, rv, w') ->
  exists w0,
    free_completed_trampolines w = Some w0 /\
    completed_trampolines w0 = [] /\
    completes w0 w' /\ progresses w0 w' /\ evolves w w0.
Proof.
  unfold gjs_invoke_c_function at 1. intros Hcall.
  destruct (free_completed_trampolines w) as [w0|] eqn:Hdrain;
    simpl in Hcall; [|done].
  destruct (free_completed_trampolines_effect no_closure_call _ _
              ltac:(done) Hdrain) as (Hempty & _).
  exists w0. split; [done|]. split; [done|].
  split; [|split].
  3:{ by apply free_completed_trampolines_progresses in Hdrain as [? _]. }
  2:{ apply (gjs_invoke_c_function_progresses Hjs function obj js_argv w0
               result rv w').
      unfold gjs_invoke_c_function.
      unfold free_completed_trampolines at 1. rewrite Hempty. simpl.
      by rewrite set_completed_trampolines_id. }
  destruct (info function) as [info0|]; simpl in Hcall; [|done].
  destruct (_ <? expected_js_argc function).
  { injection Hcall as <- <- <-. apply only_logs_completes.
    by apply only_logs_throw. }
  match type of Hcall with
  | (?c ≫= _) = _ =>
      destruct c as [[[f failed] w1]|] eqn:Hreceiver; simpl in Hcall; [|done]
  end.
  assert (completes w0 w1) as Hlog1.
  { apply only_logs_completes. destruct (function_info_is_method info0).
    - eapply marshal_receiver_logs; [|exact Hreceiver]. by intros [].
    - simplify_eq. apply only_logs_refl. }
  eapply completes_trans; [exact Hlog1|].
  destruct failed.
  { apply only_logs_completes.
    exact (invoke_release_logs no_closure_call _ _ _ _ _ _ _ _ _ _ _
             ltac:(by intros []) ltac:(by intros []) ltac:(by intros [])
             Hcall). }
  destruct (marshal_loop _ _ _ _ _ _ _ _ _ _) as [[[m c1] p1]|] eqn:Hloop;
    simpl in Hcall; [|done].
  pose proof (marshal_loop_logs no_closure_call _ _ _ _ _ _ _ _ _ _ _ _ _
                ltac:(by intros []) Hloop) as Hlog2.
  simpl in Hlog2.
  eapply completes_trans; [by apply only_logs_completes|].
  destruct (m_failed m).
  { apply only_logs_completes.
    exact (invoke_release_logs no_closure_call _ _ _ _ _ _ _ _ _ _ _
             ltac:(by intros []) ltac:(by intros []) ltac:(by intros [])
             Hcall). }
  by eapply invoke_call_completes.
Qed.
End CompletedAfterCall.

(** X19.  An invocation first drains the list of completed trampolines:
    what was on it is unreferenced, by [free_completed_trampolines].  When
    the invocation returns, the list holds Async trampolines that were
    entered during the invocation only, each at most as often as it was
    entered (in a state whose trampolines are all at addresses handed
    out); and when no callback called an exposed function, it holds
    exactly the Async trampolines native code entered during the
    invocation, the latest first, as often as they were entered. *)
Theorem completed_after_invocation (c : Collaborators)
    (code : jsval -> list jsval -> Script) (depth : nat)
    (function : Function) (obj : nat)
    (js_argv : list jsval) (w : World) (result : JSBool)
    (rv : option jsval) (w' : World) :
  gjs_invoke_c_function (H := reentrant c code depth) function obj js_argv w
    = Some (result, rv, w') ->
  exists w0 new,
    free_completed_trampolines w = Some w0 /\
    completed_trampolines w0 = [] /\
    trace w' = new ++ trace w0 /\
    (World_ok w -> completed_trampolines w' ⊆+ async_calls new) /\
    (no_reentry new -> completed_trampolines w' = async_calls new).
Proof.
  intros Hcall.
  apply (gjs_invoke_c_function_completes (reentrant_contract c code depth))
    in Hcall
    as (w0 & Hdrain & Hempty & (new & Htrace & Hexact) & [_ Hstep] & Hev).
  exists w0, new. repeat (split; [done|]). split.
  - intros Hok. destruct (Hstep (evolves_ok _ _ Hev Hok))
      as (new' & Htrace' & Hsub).
    assert (new' = new) as ->.
    { apply (app_inv_tail (trace w0)). by rewrite <- Htrace, <- Htrace'. }
    by rewrite Hempty, app_nil_r in Hsub.
  - intros Hq. by rewrite (Hexact Hq), Hempty, app_nil_r.
Qed.

(** The witness of [completed_after_invocation]: [watch (f)] with a callee
    that calls [f] before it returns. *)
Lemma completed_after_invocation_witness :
  exists w',
    gjs_invoke_c_function (H := Fixtures.engine Fixtures.calling_back)
      (Fixtures.classified Fixtures.calling_back Fixtures.watch_info)
      0 [JSVAL_FUNCTION 1] World_empty
      = Some (JS_TRUE, Some JSVAL_VOID, w') /\
    completed_trampolines w' = [1%nat] /\
    exists w0 new,
      free_completed_trampolines World_empty = Some w0 /\
      completed_trampolines w0 = [] /\
      trace w' = new ++ trace w0 /\
      (World_ok World_empty -> completed_trampolines w' ⊆+ async_calls new) /\
      (no_reentry new -> completed_trampolines w' = async_calls new).
Proof.
  eexists. split; [vm_compute; reflexivity|]. split; [reflexivity|].
  eapply (completed_after_invocation
            (Fixtures.collaborators Fixtures.calling_back true)
            Fixtures.scripts 2
            (Fixtures.classified Fixtures.calling_back Fixtures.watch_info)
            0 [JSVAL_FUNCTION 1] World_empty JS_TRUE (Some JSVAL_VOID)).
  vm_compute. reflexivity.
Defined.

(** ** The JavaScript arguments marshaling takes *)

Section ConsumedArguments.
Context `{Collaborators}.

(** X20.  Marshaling takes the JavaScript arguments in order, one for each
    parameter that is not out and not Skipped, and none for the others: when
    the loop goes through, [js_arg_pos] has advanced by the number of such
    parameters. *)
Theorem marshaling_consumes_arguments (function : Function)
    (info0 : GIFunctionInfo) (is_method : bool) (c_argc : Z)
    (js_argv : list jsval) (todo : nat) :
  forall gi_arg_pos c_arg_pos processed m m' c' p',
  marshal_loop function info0 is_method c_argc js_argv todo gi_arg_pos
    c_arg_pos processed m = Some (m', c', p') ->
  m_failed m' = false ->
  m_js_arg_pos m' =
    m_js_arg_pos m + consumed_arguments function info0 todo gi_arg_pos.
Proof.
  induction todo as [|todo IH];
    intros gi_arg_pos c_arg_pos processed m m' c' p' Hloop Hok;
    simpl in Hloop.
  - injection Hloop as <- <- <-. simpl. lia.
  - destruct (marshal_arg _ _ _ _ _ _ _ _) as [m1|] eqn:Hturn;
      simpl in Hloop; [|done].
    destruct (m_failed m1) eqn:Hfailed.
    { injection Hloop as <- <- <-. congruence. }
    apply marshal_arg_js_arg_pos in Hturn; [|done].
    apply IH in Hloop; [|done]. rewrite Hloop, Hturn. simpl. lia.
Qed.
End ConsumedArguments.

(** The witness of [marshaling_consumes_arguments]: [sum (n, xs)] takes one
    argument for its two parameters. *)
Lemma marshaling_consumes_arguments_witness :
  exists m',
    marshal_loop
      (H := Fixtures.collaborators (fun _ _ _ => Fixtures.quiet) true)
      (Fixtures.classified (fun _ _ _ => Fixtures.quiet) Fixtures.sum_info)
      Fixtures.sum_info false 2 [JSVAL_ARRAY [JSVAL_INT 1]] 2 0 0 0
      (Fixtures.Marshal_start 2) = Some (m', 2, 2) /\
    m_js_arg_pos m' = 1.
Proof.
  eexists. split; [vm_compute; reflexivity|].
  eapply (marshaling_consumes_arguments
            (H := Fixtures.collaborators (fun _ _ _ => Fixtures.quiet) true)
            (Fixtures.classified (fun _ _ _ => Fixtures.quiet)
               Fixtures.sum_info)
            Fixtures.sum_info false 2 [JSVAL_ARRAY [JSVAL_INT 1]] 2 0 0 0
            (Fixtures.Marshal_start 2) _ 2 2).
  - vm_compute. reflexivity.
  - reflexivity.
Defined.

Section PlainArity.
Variable info0 : GIFunctionInfo.
Variable function : Function.
Hypothesis Hparams :
  param_types function
  = replicate (length (function_info_args info0)) PARAM_NORMAL.

Lemma consumed_arguments_plain (rest pre : list GIArgInfo) :
  function_info_args info0 = pre ++ rest ->
  consumed_arguments function info0 (length rest) (Z.of_nat (length pre))
  = count_directions is_in_or_inout rest.
Proof.
  revert pre. induction rest as [|a rest IH]; intros pre Hargs; [done|].
  cbn [length consumed_arguments count_directions].
  replace (Z.of_nat (length pre) + 1)
    with (Z.of_nat (length (pre ++ [a])))
    by (rewrite length_app; simpl; lia).
  rewrite (IH (pre ++ [a])); [|by rewrite <- app_assoc].
  f_equal. unfold consumes_argument, g_callable_info_load_arg, slot_load.
  assert ((Z.of_nat (length pre) <? 0) = false) as ->
    by (apply Z.ltb_ge; lia).
  rewrite Nat2Z.id, Hargs, list_lookup_middle by done.
  rewrite Hparams, Hargs, lookup_replicate_2.
  - simpl. by rewrite andb_true_r.
  - rewrite length_app. simpl. lia.
Qed.

Lemma count_directions_le p (args : list GIArgInfo) :
  count_directions p args <= Z.of_nat (length args).
Proof.
  induction args as [|a args IH]; [done|].
  cbn [count_directions length]. destruct (p _); lia.
Qed.
End PlainArity.

Section PlainArityCheck.
Context `{Collaborators}.

(** X21.  For a function with fewer than 256 parameters, none of them a
    callback or an array with a length parameter, and no length parameter
    for the return value, the number of arguments the arity check asks for
    is the number marshaling takes: [expected_js_argc] of the classified
    function is the count of the parameters that consume a JavaScript
    argument. *)
Theorem plain_arity_is_what_marshaling_takes (info0 : GIFunctionInfo)
    (inv : GIFunctionInvoker) :
  g_function_info_prep_invoker info0 = Some inv ->
  g_callable_info_get_n_args info0 < 256 ->
  length_in_range (g_callable_info_get_n_args info0)
    (function_info_return_type info0) = false ->
  Forall (fun a => plain_parameter (g_callable_info_get_n_args info0) a
                   = true)
    (function_info_args info0) ->
  exists function,
    init_cached_function_data Function_zero info0 = InitOk function /\
    expected_js_argc function
    = consumed_arguments function info0
        (Z.to_nat (g_callable_info_get_n_args info0)) 0.
Proof.
  intros Hprep Hsmall Hreturn Hplain.
  eexists. split; [by apply init_plain_descriptor|].
  cbn [expected_js_argc].
  unfold g_callable_info_get_n_args in *. rewrite Nat2Z.id.
  match goal with
  | |- _ = consumed_arguments ?f _ _ _ =>
      pose proof (consumed_arguments_plain info0 f eq_refl
                    (function_info_args info0) (@nil GIArgInfo) eq_refl)
        as Hcount
  end.
  change (Z.of_nat (length (@nil GIArgInfo))) with 0 in Hcount.
  rewrite Hcount.
  apply wrap8_small. split; [apply count_directions_nonneg|].
  pose proof (count_directions_le is_in_or_inout (function_info_args info0)).
  lia.
Qed.
End PlainArityCheck.

(** The witness of [plain_arity_is_what_marshaling_takes]: [count_info], one
    in and one out parameter. *)
Lemma plain_arity_is_what_marshaling_takes_witness :
  exists function,
    init_cached_function_data
      (H := Fixtures.collaborators (fun _ _ _ => Fixtures.quiet) true)
      Function_zero Fixtures.count_info = InitOk function /\
    expected_js_argc function
    = consumed_arguments function Fixtures.count_info
        (Z.to_nat (g_callable_info_get_n_args Fixtures.count_info)) 0.
Proof.
  apply (plain_arity_is_what_marshaling_takes
           (H := Fixtures.collaborators (fun _ _ _ => Fixtures.quiet) true)
           Fixtures.count_info {| cif_nargs := 3; native_address := 9 |}).
  - reflexivity.
  - reflexivity.
  - reflexivity.
  - repeat constructor.
Defined.
